(** * le_path: a shallow embedding of the vector-path engine

    The embedding follows [le_path.cpp]: the command model and the path
    builder, the tracer (fixed-resolution tessellation), the resampler
    (arc-length resampling with a carried [sum_distance]) and the scanner
    for simplified SVG path data.

    The program computes on C++ [float] and [double].  The embedding is
    parametric in the arithmetic ([Arith]) and is instantiated twice:
    - [IEEE]: binary32 / binary64 with round-to-nearest-even, built on the
      standard library's executable [SpecFloat]; this is the arithmetic the
      program runs on, and every concrete run below is evaluated in it;
    - [Exact]: the real numbers, the arithmetic in which statements about
      distances, [floor] and "modulo" are meant.
    Faults are explicit: a failed [assert] and undefined behaviour (such as
    [back()] of an empty vector) are results of their own. *)

From Stdlib Require Import String Ascii ZArith List Bool Lia.
From Stdlib Require Import Floats.SpecFloat.
From Stdlib Require Import Reals Lra.
From Stdlib Require Import Sorting.Sorted.
Import ListNotations.

Set Implicit Arguments.

(** ** Faults and the two monads *)

Inductive Fault : Type :=
| AssertionFailed      (* an [assert] of the source does not hold *)
| UndefinedBehaviour.  (* the source has no defined behaviour here *)

Inductive Result (A : Type) : Type :=
| Ok  (a : A)
| Err (f : Fault).

Arguments Ok {A} a.
Arguments Err {A} f.

Definition bind {A B : Type} (m : Result A) (k : A -> Result B) : Result B :=
  match m with
  | Ok a => k a
  | Err f => Err f
  end.

Declare Scope result_scope.
Delimit Scope result_scope with result.
Notation "x <- m ;; k" := (bind m (fun x => k))
  (at level 61, m at next level, right associativity) : result_scope.
Notation "' pat <- m ;; k" := (bind m (fun x => match x with pat => k end))
  (at level 61, pat pattern, m at next level, right associativity) : result_scope.
Local Open Scope result_scope.

(** [assert( cond )] *)
Definition assert (cond : bool) : Result unit :=
  if cond then Ok tt else Err AssertionFailed.

(** Monadic left fold: a [for] loop whose body can fault. *)
Fixpoint foldM {A S : Type} (body : S -> A -> Result S) (l : list A) (s : S)
  : Result S :=
  match l with
  | [] => Ok s
  | a :: l' => s' <- body s a ;; foldM body l' s'
  end.

(** Monadic map: one result per element, the first fault wins. *)
Fixpoint mapM {A B : Type} (f : A -> Result B) (l : list A) : Result (list B) :=
  match l with
  | [] => Ok []
  | a :: l' => b <- f a ;; bs <- mapM f l' ;; Ok (b :: bs)
  end.

(** The standard error stream: the lines written to it, oldest first. *)
Definition Stderr : Type := list string.

(** Code that may also write diagnostics. *)
Definition IO (A : Type) : Type := Stderr -> Result (A * Stderr).

Definition io_ret {A : Type} (a : A) : IO A := fun err => Ok (a, err).

Definition io_bind {A B : Type} (m : IO A) (k : A -> IO B) : IO B :=
  fun err =>
    match m err with
    | Ok (a, err') => k a err'
    | Err f => Err f
    end.

Definition io_lift {A : Type} (m : Result A) : IO A :=
  fun err =>
    match m with
    | Ok a => Ok (a, err)
    | Err f => Err f
    end.

(** [fprintf( stderr, ... )] *)
Definition fprintf_stderr (line : string) : IO unit :=
  fun err => Ok (tt, err ++ [line]).

(** ** std::vector access *)

Section Vector.
Context {A : Type}.

(** [v.back()]: [None] on an empty vector, where C++ leaves it undefined. *)
Fixpoint back (v : list A) : option A :=
  match v with
  | [] => None
  | [a] => Some a
  | _ :: v' => back v'
  end.

(** [v.front()] *)
Definition front (v : list A) : option A := hd_error v.

(** [v.empty()] *)
Definition empty (v : list A) : bool :=
  match v with [] => true | _ => false end.

(** [v.emplace_back( a )] / [v.push_back( a )] *)
Definition emplace_back (v : list A) (a : A) : list A := v ++ [a].
End Vector.

(** ** The arithmetic the program computes with *)

Class Arith (F D : Type) : Type := {
  float_of_Z : Z -> F;                (* integer to [float], also literals *)
  fadd : F -> F -> F;
  fsub : F -> F -> F;
  fmul : F -> F -> F;
  fdiv : F -> F -> F;
  fsqrt : F -> F;                     (* [std::sqrt] *)
  ffloor : F -> F;                    (* [std::floor] *)
  ftrunc : F -> option Z;             (* the integer a cast truncates to;
                                         [None] for NaN and infinities *)
  double_of_Z : Z -> D;
  dadd : D -> D -> D;
  double_of_float : F -> D;           (* promotion in [double += float] *)
  float_of_double : D -> F            (* [vector<float>::emplace_back( double )] *)
}.

Declare Scope float_scope.
Delimit Scope float_scope with float.
Infix "+" := fadd : float_scope.
Infix "-" := fsub : float_scope.
Infix "*" := fmul : float_scope.
Infix "/" := fdiv : float_scope.

Definition INT_MIN : Z := - 2 ^ 31.
Definition INT_MAX : Z := 2 ^ 31 - 1.
Definition SIZE_MAX : Z := 2 ^ 64 - 1.

Section Casts.
Context {F D : Type} {A : Arith F D}.

(** [int( f )]: undefined unless the truncated value fits an [int]. *)
Definition to_int (f : F) : Result Z :=
  match ftrunc f with
  | Some z => if ((INT_MIN <=? z) && (z <=? INT_MAX))%Z then Ok z
              else Err UndefinedBehaviour
  | None => Err UndefinedBehaviour
  end.

(** [size_t( f )]: undefined unless the truncated value fits a [size_t]. *)
Definition to_size_t (f : F) : Result Z :=
  match ftrunc f with
  | Some z => if ((0 <=? z) && (z <=? SIZE_MAX))%Z then Ok z
              else Err UndefinedBehaviour
  | None => Err UndefinedBehaviour
  end.

(** [float( n )] for a [size_t] *)
Definition float_of_nat (n : nat) : F := float_of_Z (Z.of_nat n).
End Casts.

(** ** Data model *)

(** [PathCommand::Type]; [eCurveTo] is another name of [eQuadBezierTo]. *)
Inductive PathCommandType : Type :=
| eUnknown
| eMoveTo
| eLineTo
| eQuadBezierTo
| eCubicBezierTo
| eClosePath.

Definition eCurveTo : PathCommandType := eQuadBezierTo.

(** The structs, over the types [F] and [D] that stand for [float] and
    [double]. *)
Section Structs.
Variables F D : Type.

(** [using Vertex = glm::vec2] *)
Record Vertex : Type := { x : F; y : F }.

Record PathCommand : Type := {
  type : PathCommandType;
  p  : Vertex;   (* end point *)
  c1 : Vertex;   (* control point 1 *)
  c2 : Vertex    (* control point 2 *)
}.

Record SubPath : Type := {
  commands : list PathCommand
}.

Record Polyline : Type := {
  vertices : list Vertex;
  distances : list F;
  total_distance : D
}.

Record le_path_o : Type := {
  subpaths : list SubPath;
  polylines : list Polyline;
  sample_interval : F
}.
End Structs.

Arguments x {F} _.
Arguments y {F} _.
Arguments type {F} _.
Arguments p {F} _.
Arguments c1 {F} _.
Arguments c2 {F} _.
Arguments commands {F} _.
Arguments vertices {F D} _.
Arguments distances {F D} _.
Arguments total_distance {F D} _.
Arguments subpaths {F D} _.
Arguments polylines {F D} _.
Arguments sample_interval {F D} _.

Section Model.
Context {F D : Type} {A : Arith F D}.

(** [Vertex v = {}] *)
Definition vzero : Vertex F := {| x := float_of_Z 0; y := float_of_Z 0 |}.

(** glm's componentwise operators on [vec2]. *)
Definition vadd (a b : Vertex F) : Vertex F :=
  {| x := (x a + x b)%float; y := (y a + y b)%float |}.
Definition vsub (a b : Vertex F) : Vertex F :=
  {| x := (x a - x b)%float; y := (y a - y b)%float |}.
(** [scalar * v] *)
Definition smul (s : F) (v : Vertex F) : Vertex F :=
  {| x := (s * x v)%float; y := (s * y v)%float |}.
(** [v * scalar] *)
Definition vmuls (v : Vertex F) (s : F) : Vertex F :=
  {| x := (x v * s)%float; y := (y v * s)%float |}.
(** [v / scalar] *)
Definition vdivs (v : Vertex F) (s : F) : Vertex F :=
  {| x := (x v / s)%float; y := (y v / s)%float |}.

(** [glm::dot], [glm::length] and [glm::distance] on [vec2]:
    [distance( p0, p1 ) = length( p1 - p0 )] and
    [length( v ) = sqrt( dot( v, v ) )]. *)
Definition dot (a b : Vertex F) : F := (x a * x b + y a * y b)%float.
Definition length_ (v : Vertex F) : F := fsqrt (dot v v).
Definition distance (p0 p1 : Vertex F) : F := length_ (vsub p1 p0).

(** [Polyline polyline;] *)
Definition Polyline_new : Polyline F D :=
  {| vertices := []; distances := []; total_distance := double_of_Z 0 |}.

(** [le_path_create] *)
Definition le_path_create : le_path_o F D :=
  {| subpaths := []; polylines := []; sample_interval := float_of_Z 0 |}.

(** [le_path_clear] *)
Definition le_path_clear (self : le_path_o F D) : le_path_o F D :=
  {| subpaths := []; polylines := []; sample_interval := sample_interval self |}.
End Model.

(** ** Tracer *)

Section Tracer.
Context {F D : Type} {A : Arith F D}.

(** [trace_move_to] *)
Definition trace_move_to (polyline : Polyline F D) (p : Vertex F) : Polyline F D :=
  {| distances := emplace_back (distances polyline) (float_of_Z 0);
     vertices := emplace_back (vertices polyline) p;
     total_distance := total_distance polyline |}.

(** [trace_line_to]; [vertices.back()] of an empty polyline is undefined. *)
Definition trace_line_to (polyline : Polyline F D) (p : Vertex F)
  : Result (Polyline F D) :=
  match back (vertices polyline) with
  | None => Err UndefinedBehaviour
  | Some last =>
      let total := dadd (total_distance polyline)
                        (double_of_float (distance p last)) in
      Ok {| distances := emplace_back (distances polyline) (float_of_double total);
            vertices := emplace_back (vertices polyline) p;
            total_distance := total |}
  end.

(** [trace_close_path]: a line to the very first vertex. *)
Definition trace_close_path (polyline : Polyline F D) : Result (Polyline F D) :=
  match front (vertices polyline) with
  | None => Err UndefinedBehaviour
  | Some first => trace_line_to polyline first
  end.

(** The point [b] of a quadratic curve, as the loop bodies compute it from
    [i] and [delta_t]. *)
Definition quad_bezier_point (p0 c1 p1 : Vertex F) (delta_t : F) (i : nat)
  : Vertex F :=
  let t := (float_of_nat i * delta_t)%float in
  let t_sq := (t * t)%float in
  let one_minus_t := (float_of_Z 1 - t)%float in
  let one_minus_t_sq := (one_minus_t * one_minus_t)%float in
  vadd (vadd (smul one_minus_t_sq p0)
             (smul (float_of_Z 2 * one_minus_t * t)%float c1))
       (smul t_sq p1).

(** The point [b] of a cubic curve. *)
Definition cubic_bezier_point (p0 c1 c2 p1 : Vertex F) (delta_t : F) (i : nat)
  : Vertex F :=
  let t := (float_of_nat i * delta_t)%float in
  let t_sq := (t * t)%float in
  let t_cub := (t_sq * t)%float in
  let one_minus_t := (float_of_Z 1 - t)%float in
  let one_minus_t_sq := (one_minus_t * one_minus_t)%float in
  let one_minus_t_cub := (one_minus_t_sq * one_minus_t)%float in
  vadd (vadd (vadd (smul one_minus_t_cub p0)
                   (smul (float_of_Z 3 * one_minus_t_sq * t)%float c1))
             (smul (float_of_Z 3 * one_minus_t * t_sq)%float c2))
       (smul t_cub p1).

(** One turn of the tracer's curve loops: the state is the polyline and
    [p_prev]; [b] is the point evaluated for this [i]. *)
Definition trace_curve_step (point : nat -> Vertex F)
           (st : Polyline F D * Vertex F) (i : nat) : Polyline F D * Vertex F :=
  let '(polyline, p_prev) := st in
  let b := point i in
  let total := dadd (total_distance polyline)
                    (double_of_float (distance b p_prev)) in
  ({| distances := emplace_back (distances polyline) (float_of_double total);
      vertices := emplace_back (vertices polyline) b;
      total_distance := total |}, b).

(** [trace_quad_bezier_to] *)
Definition trace_quad_bezier_to (polyline : Polyline F D) (p1 c1 : Vertex F)
           (resolution : nat) : Result (Polyline F D) :=
  match resolution with
  | 0%nat => Ok polyline
  | 1%nat => trace_line_to polyline p1
  | _ =>
      match back (vertices polyline) with
      | None => Err AssertionFailed
      | Some p0 =>
          let delta_t := (float_of_Z 1 / float_of_nat resolution)%float in
          Ok (fst (fold_left (trace_curve_step (quad_bezier_point p0 c1 p1 delta_t))
                             (seq 1 resolution) (polyline, p0)))
      end
  end.

(** [trace_cubic_bezier_to]; with [resolution == 1] the end point is added
    without a distance. *)
Definition trace_cubic_bezier_to (polyline : Polyline F D) (p1 c1 c2 : Vertex F)
           (resolution : nat) : Result (Polyline F D) :=
  match resolution with
  | 0%nat => Ok polyline
  | 1%nat =>
      Ok {| vertices := emplace_back (vertices polyline) p1;
            distances := distances polyline;
            total_distance := total_distance polyline |}
  | _ =>
      match back (vertices polyline) with
      | None => Err AssertionFailed
      | Some p0 =>
          let delta_t := (float_of_Z 1 / float_of_nat resolution)%float in
          Ok (fst (fold_left (trace_curve_step (cubic_bezier_point p0 c1 c2 p1 delta_t))
                             (seq 1 resolution) (polyline, p0)))
      end
  end.

(** The [switch] of [le_path_trace_path]. *)
Definition trace_command (resolution : nat) (polyline : Polyline F D)
           (command : PathCommand F) : Result (Polyline F D) :=
  match type command with
  | eMoveTo => Ok (trace_move_to polyline (p command))
  | eLineTo => trace_line_to polyline (p command)
  | eQuadBezierTo =>
      trace_quad_bezier_to polyline (p command) (c1 command) resolution
  | eCubicBezierTo =>
      trace_cubic_bezier_to polyline (p command) (c1 command) (c2 command) resolution
  | eClosePath => trace_close_path polyline
  | eUnknown => Err AssertionFailed
  end.

(** The body of the loop over sub-paths: the commands are replayed on a
    fresh polyline, then
    [assert( polyline.vertices.size() == polyline.distances.size() )]. *)
Definition trace_subpath (resolution : nat) (s : SubPath F)
  : Result (Polyline F D) :=
  polyline <- foldM (trace_command resolution) (commands s) Polyline_new ;;
  _ <- assert (Nat.eqb (length (vertices polyline)) (length (distances polyline))) ;;
  Ok polyline.

(** [constexpr size_t resolution = 12;] *)
Definition trace_resolution : nat := 12.

(** [le_path_trace_path] *)
Definition le_path_trace_path (self : le_path_o F D) : Result (le_path_o F D) :=
  polylines' <- mapM (trace_subpath trace_resolution) (subpaths self) ;;
  Ok {| subpaths := subpaths self;
        polylines := polylines';
        sample_interval := sample_interval self |}.
End Tracer.

(** ** Path builder *)

Section Builder.
Context {F D : Type} {A : Arith F D}.

(** [{PathCommand::eMoveTo, p}] and the like: the members left out are
    value-initialised. *)
Definition command1 (t : PathCommandType) (p : Vertex F) : PathCommand F :=
  {| type := t; p := p; c1 := vzero; c2 := vzero |}.

(** [subpaths.back().commands.push_back( command )]; [None] when there
    is no sub-path. *)
Fixpoint push_command (subpaths : list (SubPath F)) (command : PathCommand F)
  : option (list (SubPath F)) :=
  match subpaths with
  | [] => None
  | [s] => Some [ {| commands := emplace_back (commands s) command |} ]
  | s :: rest =>
      match push_command rest command with
      | Some rest' => Some (s :: rest')
      | None => None
      end
  end.

Definition with_subpaths (self : le_path_o F D) (subpaths' : list (SubPath F))
  : le_path_o F D :=
  {| subpaths := subpaths';
     polylines := polylines self;
     sample_interval := sample_interval self |}.

(** [le_path_move_to]: a new sub-path holding the one command. *)
Definition le_path_move_to (self : le_path_o F D) (p : Vertex F) : le_path_o F D :=
  with_subpaths self
    (emplace_back (subpaths self) {| commands := [command1 eMoveTo p] |}).

(** An append guarded by [assert( !self->subpaths.empty() )]. *)
Definition append_checked (self : le_path_o F D) (command : PathCommand F)
  : Result (le_path_o F D) :=
  _ <- assert (negb (empty (subpaths self))) ;;
  match push_command (subpaths self) command with
  | Some subpaths' => Ok (with_subpaths self subpaths')
  | None => Err UndefinedBehaviour
  end.

(** [le_path_line_to] *)
Definition le_path_line_to (self : le_path_o F D) (p : Vertex F)
  : Result (le_path_o F D) :=
  append_checked self (command1 eLineTo p).

(** [le_path_quad_bezier_to] *)
Definition le_path_quad_bezier_to (self : le_path_o F D) (p c1 : Vertex F)
  : Result (le_path_o F D) :=
  append_checked self {| type := eQuadBezierTo; p := p; c1 := c1; c2 := vzero |}.

(** [le_path_cubic_bezier_to] *)
Definition le_path_cubic_bezier_to (self : le_path_o F D) (p c1 c2 : Vertex F)
  : Result (le_path_o F D) :=
  append_checked self {| type := eCubicBezierTo; p := p; c1 := c1; c2 := c2 |}.

(** [le_path_close_path]: no [assert]; [subpaths.back()] of a path
    without sub-paths is undefined. *)
Definition le_path_close_path (self : le_path_o F D) : Result (le_path_o F D) :=
  match push_command (subpaths self) (command1 eClosePath vzero) with
  | Some subpaths' => Ok (with_subpaths self subpaths')
  | None => Err UndefinedBehaviour
  end.

Definition warning_relative : string :=
  "Warning: Relative path instruction requires absolute position to be known.".

(** The two [assert]s that open [le_path_get_previous_p],
    [le_path_line_horiz_to] and [le_path_line_vert_to]; the last command
    is returned. *)
Definition last_command (self : le_path_o F D) : Result (PathCommand F) :=
  _ <- assert (negb (empty (subpaths self))) ;;
  match back (subpaths self) with
  | None => Err UndefinedBehaviour
  | Some s =>
      _ <- assert (negb (empty (commands s))) ;;
      match back (commands s) with
      | None => Err UndefinedBehaviour
      | Some c => Ok c
      end
  end.

(** [le_path_get_previous_p]: the end point of the last command, or a
    null pointer and a warning. *)
Definition le_path_get_previous_p (self : le_path_o F D)
  : IO (option (Vertex F)) :=
  io_bind (io_lift (last_command self)) (fun c =>
  match type c with
  | eMoveTo | eLineTo | eQuadBezierTo | eCubicBezierTo => io_ret (Some (p c))
  | _ => io_bind (fprintf_stderr warning_relative) (fun _ => io_ret None)
  end).

(** [le_path_line_horiz_to] *)
Definition le_path_line_horiz_to (self : le_path_o F D) (px : F)
  : IO (le_path_o F D) :=
  io_bind (io_lift (last_command self)) (fun _ =>
  io_bind (le_path_get_previous_p self) (fun prev =>
  match prev with
  | Some q => io_lift (le_path_line_to self {| x := px; y := y q |})
  | None => io_ret self
  end)).

(** [le_path_line_vert_to] *)
Definition le_path_line_vert_to (self : le_path_o F D) (py : F)
  : IO (le_path_o F D) :=
  io_bind (io_lift (last_command self)) (fun _ =>
  io_bind (le_path_get_previous_p self) (fun prev =>
  match prev with
  | Some q => io_lift (le_path_line_to self {| x := x q; y := py |})
  | None => io_ret self
  end)).

(** [le_path_get_num_polylines] *)
Definition le_path_get_num_polylines (self : le_path_o F D) : nat :=
  length (polylines self).

(** [le_path_get_vertices_for_polyline] *)
Definition le_path_get_vertices_for_polyline (self : le_path_o F D)
           (polyline_index : nat) : Result (list (Vertex F) * nat) :=
  _ <- assert (Nat.ltb polyline_index (length (polylines self))) ;;
  match nth_error (polylines self) polyline_index with
  | Some polyline => Ok (vertices polyline, length (vertices polyline))
  | None => Err UndefinedBehaviour
  end.
End Builder.

(** ** Resampler *)

Section Resampler.
Context {F D : Type} {A : Arith F D}.

Definition with_vertices (polyline : Polyline F D) (vertices' : list (Vertex F))
  : Polyline F D :=
  {| vertices := vertices';
     distances := distances polyline;
     total_distance := total_distance polyline |}.

(** The values [lo, lo+1, ..., hi] of an [int] loop variable. *)
Definition int_range (lo hi : Z) : list Z :=
  map (fun k => (lo + Z.of_nat k)%Z) (seq 0 (Z.to_nat (hi - lo + 1))).

(** [resample_move_to]; [interval] and [sum_distance] are unused. *)
Definition resample_move_to (polyline : Polyline F D) (p : Vertex F)
           (interval sum_distance : F) : Polyline F D * F :=
  (with_vertices polyline (emplace_back (vertices polyline) p), sum_distance).

(** How far the resampler is into the next interval:
    [sum_distance - floor( sum_distance / interval ) * interval]. *)
Definition start_distance_of (interval sum_distance : F) : F :=
  (sum_distance - ffloor (sum_distance / interval) * interval)%float.

(** The vertex the line loop adds for [i]:
    [start_point + direction * ( i * interval + start_distance )]. *)
Definition line_point (start_point direction : Vertex F)
           (interval start_distance : F) (i : Z) : Vertex F :=
  vadd start_point
       (vmuls direction (float_of_Z i * interval + start_distance)%float).

(** The counter of [for ( int i = 1; i <= n_intervals; ++i )]: when
    [n_intervals] is [INT_MAX] the test never fails and the last [++i]
    overflows the [int], which is undefined. *)
Definition line_loop_counter (n_intervals : Z) : Result unit :=
  if (n_intervals =? INT_MAX)%Z then Err UndefinedBehaviour else Ok tt.

(** [resample_line_to] *)
Definition resample_line_to (polyline : Polyline F D) (p : Vertex F)
           (interval sum_distance : F) : Result (Polyline F D * F) :=
  match back (vertices polyline) with
  | None => Err AssertionFailed
  | Some start_point =>
      let distance := distance p start_point in
      let direction := vdivs (vsub p start_point) distance in
      let start_distance := start_distance_of interval sum_distance in
      n_intervals <- to_int (ffloor ((distance - start_distance) / interval)%float) ;;
      _ <- line_loop_counter n_intervals ;;
      Ok (with_vertices polyline
            (vertices polyline ++
             map (line_point start_point direction interval start_distance)
                 (int_range 1 n_intervals)),
          (sum_distance + (start_distance + float_of_Z n_intervals * interval))%float)
  end.

(** The state of the resampler's curve loops. *)
Record CurveState : Type := {
  cs_polyline : Polyline F D;
  cs_sum_distance : F;
  cs_num_intervals : Z;
  cs_last_vertex_distance : F;
  cs_previous_vertex : Vertex F
}.

(** One turn of the resampler's curve loops. *)
Definition resample_curve_step (point : nat -> Vertex F) (interval : F)
           (st : CurveState) (i : nat) : Result CurveState :=
  let b := point i in
  let distance := distance (cs_previous_vertex st) b in
  let last_vertex_distance := (cs_last_vertex_distance st + distance)%float in
  current_interval <- to_size_t (ffloor (last_vertex_distance / interval)%float) ;;
  if (cs_num_intervals st <? current_interval)%Z then
    Ok {| cs_polyline := with_vertices (cs_polyline st)
                           (emplace_back (vertices (cs_polyline st)) b);
          cs_sum_distance := last_vertex_distance;
          cs_num_intervals := current_interval;
          cs_last_vertex_distance := last_vertex_distance;
          cs_previous_vertex := b |}
  else
    Ok {| cs_polyline := cs_polyline st;
          cs_sum_distance := cs_sum_distance st;
          cs_num_intervals := cs_num_intervals st;
          cs_last_vertex_distance := last_vertex_distance;
          cs_previous_vertex := b |}.

(** What the two curve resamplers share once [resolution > 1]. *)
Definition resample_curve (point : Vertex F -> F -> nat -> Vertex F)
           (polyline : Polyline F D) (resolution : nat)
           (interval sum_distance : F) : Result (Polyline F D * F) :=
  match back (vertices polyline) with
  | None => Err AssertionFailed
  | Some p0 =>
      let delta_t := (float_of_Z 1 / float_of_nat resolution)%float in
      num_intervals <- to_size_t (ffloor (sum_distance / interval)%float) ;;
      st <- foldM (resample_curve_step (point p0 delta_t) interval)
                  (seq 1 resolution)
                  {| cs_polyline := polyline;
                     cs_sum_distance := sum_distance;
                     cs_num_intervals := num_intervals;
                     cs_last_vertex_distance := sum_distance;
                     cs_previous_vertex := p0 |} ;;
      Ok (cs_polyline st, cs_sum_distance st)
  end.

(** [resample_quad_bezier_to] *)
Definition resample_quad_bezier_to (polyline : Polyline F D) (p1 c1 : Vertex F)
           (resolution : nat) (interval sum_distance : F)
  : Result (Polyline F D * F) :=
  match resolution with
  | 0%nat => Ok (polyline, sum_distance)
  | 1%nat => resample_line_to polyline p1 interval sum_distance
  | _ => resample_curve (fun p0 => quad_bezier_point p0 c1 p1)
                        polyline resolution interval sum_distance
  end.

(** [resample_cubic_bezier_to] *)
Definition resample_cubic_bezier_to (polyline : Polyline F D) (p1 c1 c2 : Vertex F)
           (resolution : nat) (interval sum_distance : F)
  : Result (Polyline F D * F) :=
  match resolution with
  | 0%nat => Ok (polyline, sum_distance)
  | 1%nat => resample_line_to polyline p1 interval sum_distance
  | _ => resample_curve (fun p0 => cubic_bezier_point p0 c1 c2 p1)
                        polyline resolution interval sum_distance
  end.

(** [resample_close_path]; [vertices.front()] of an empty polyline is
    undefined. *)
Definition resample_close_path (polyline : Polyline F D)
           (interval sum_distance : F) : Result (Polyline F D * F) :=
  match front (vertices polyline) with
  | None => Err UndefinedBehaviour
  | Some first =>
      '(polyline', sum') <- resample_line_to polyline first interval sum_distance ;;
      match back (vertices polyline') with
      | None => Err UndefinedBehaviour
      | Some last =>
          Ok (with_vertices polyline' (emplace_back (vertices polyline') first),
              (sum' + distance first last)%float)
      end
  end.

(** The [switch] of [le_path_resample]. *)
Definition resample_command (resolution : nat) (interval : F)
           (st : Polyline F D * F) (command : PathCommand F)
  : Result (Polyline F D * F) :=
  let '(polyline, sum_distance) := st in
  match type command with
  | eMoveTo => Ok (resample_move_to polyline (p command) interval sum_distance)
  | eLineTo => resample_line_to polyline (p command) interval sum_distance
  | eQuadBezierTo =>
      resample_quad_bezier_to polyline (p command) (c1 command)
                              resolution interval sum_distance
  | eCubicBezierTo =>
      resample_cubic_bezier_to polyline (p command) (c1 command) (c2 command)
                               resolution interval sum_distance
  | eClosePath => resample_close_path polyline interval sum_distance
  | eUnknown => Err AssertionFailed
  end.

(** The loop over the commands of one sub-path, from a fresh polyline and
    [sum_distance = 0]; the final [sum_distance] is returned as well. *)
Definition resample_commands (resolution : nat) (interval : F)
           (cmds : list (PathCommand F)) : Result (Polyline F D * F) :=
  foldM (resample_command resolution interval) cmds (Polyline_new, float_of_Z 0).

Definition resample_subpath (resolution : nat) (interval : F) (s : SubPath F)
  : Result (Polyline F D) :=
  '(polyline, _) <- resample_commands resolution interval (commands s) ;;
  Ok polyline.

(** [constexpr size_t resolution = 100;] *)
Definition resample_resolution : nat := 100.

(** [le_path_resample] *)
Definition le_path_resample (self : le_path_o F D) (interval : F)
  : Result (le_path_o F D) :=
  polylines' <- mapM (resample_subpath resample_resolution interval) (subpaths self) ;;
  Ok {| subpaths := subpaths self;
        polylines := polylines';
        sample_interval := interval |}.
End Resampler.

(** ** Scanner for simplified SVG path data *)

Section Parser.
Context {F D : Type} {A : Arith F D}.

(** [strtof] of the C library: the value and the count of characters it
    converted (leading white space included), [0] when it converted
    nothing. *)
Variable strtof : string -> F * nat.

(** [*c == 0]: the end of a C string. *)
Definition at_end (c : string) : bool :=
  match c with
  | EmptyString => true
  | String a _ => Ascii.eqb a zero
  end.

(** [c + n] *)
Fixpoint advance (n : nat) (c : string) : string :=
  match n, c with
  | S n', String _ c' => advance n' c'
  | _, _ => c
  end.

(** [add_offsets] adds [*offset_local] to [*offset_total]; always [true]. *)
Definition add_offsets (offset_local offset_total : nat) : bool * nat :=
  (true, (offset_total + offset_local)%nat).

(** [is_float_number]; [*f] is written whenever [c] is not at its end. *)
Definition is_float_number (c : string) (offset : nat) (f : F)
  : bool * nat * F :=
  if at_end c then (false, offset, f)
  else
    let '(value, num) := strtof c in
    (negb (Nat.eqb num 0), (offset + num)%nat, value).

(** [is_character_match] *)
Definition is_character_match (needle : ascii) (c : string) (offset : nat)
  : bool * nat :=
  match c with
  | EmptyString => (false, offset)
  | String a _ =>
      if Ascii.eqb a zero then (false, offset)
      else if Ascii.eqb a needle then (true, S offset)
      else (false, offset)
  end.

Definition whitespace_char (a : ascii) : bool :=
  let n := nat_of_ascii a in
  Nat.eqb n 32 || Nat.eqb n 9 || Nat.eqb n 13 || Nat.eqb n 10.

(** The [while] loop of [is_whitespace]: the count of leading blanks. *)
Fixpoint count_whitespace (c : string) : nat :=
  match c with
  | String a c' => if whitespace_char a then S (count_whitespace c') else 0
  | EmptyString => 0
  end.

(** [is_whitespace] *)
Definition is_whitespace (c : string) (offset : nat) : bool * nat :=
  if at_end c then (false, offset)
  else
    let n := count_whitespace c in
    (negb (Nat.eqb n 0), (offset + n)%nat).

(** [is_coordinate_pair]: number, comma, number.  The members of [*v] are
    written as soon as their number is scanned, also when the pair fails
    later on. *)
Definition is_coordinate_pair (c : string) (offset : nat) (v : Vertex F)
  : bool * nat * Vertex F :=
  if at_end c then (false, offset, v)
  else
    let '(ok, local_offset, vx) := is_float_number c 0 (x v) in
    let v := {| x := vx; y := y v |} in
    if negb ok then (false, offset, v)
    else
      let '(ok, local_offset) :=
        is_character_match "," (advance local_offset c) local_offset in
      if negb ok then (false, offset, v)
      else
        let '(ok, local_offset, vy) :=
          is_float_number (advance local_offset c) local_offset (y v) in
        let v := {| x := x v; y := vy |} in
        if negb ok then (false, offset, v)
        else
          let '(ok, offset) := add_offsets local_offset offset in
          (ok, offset, v).

(** The instructions with one point: letter, white space, pair. *)
Definition is_point_instruction (letter : ascii) (c : string) (offset : nat)
           (p0 : Vertex F) : bool * nat * Vertex F :=
  if at_end c then (false, offset, p0)
  else
    let '(ok, local_offset) := is_character_match letter c 0 in
    if negb ok then (false, offset, p0)
    else
      let '(ok, local_offset) :=
        is_whitespace (advance local_offset c) local_offset in
      if negb ok then (false, offset, p0)
      else
        let '(ok, local_offset, p0) :=
          is_coordinate_pair (advance local_offset c) local_offset p0 in
        if negb ok then (false, offset, p0)
        else
          let '(ok, offset) := add_offsets local_offset offset in
          (ok, offset, p0).

(** [is_m_instruction] and [is_l_instruction] *)
Definition is_m_instruction := is_point_instruction "M".
Definition is_l_instruction := is_point_instruction "L".

(** The instructions with one number: letter, white space, number. *)
Definition is_scalar_instruction (letter : ascii) (c : string) (offset : nat)
           (f : F) : bool * nat * F :=
  if at_end c then (false, offset, f)
  else
    let '(ok, local_offset) := is_character_match letter c 0 in
    if negb ok then (false, offset, f)
    else
      let '(ok, local_offset) :=
        is_whitespace (advance local_offset c) local_offset in
      if negb ok then (false, offset, f)
      else
        let '(ok, local_offset, f) :=
          is_float_number (advance local_offset c) local_offset f in
        if negb ok then (false, offset, f)
        else
          let '(ok, offset) := add_offsets local_offset offset in
          (ok, offset, f).

(** [is_h_instruction] and [is_v_instruction] *)
Definition is_h_instruction := is_scalar_instruction "H".
Definition is_v_instruction := is_scalar_instruction "V".

(** [is_c_instruction]: letter, then three times white space and a pair. *)
Definition is_c_instruction (c : string) (offset : nat) (p0 p1 p2 : Vertex F)
  : bool * nat * (Vertex F * Vertex F * Vertex F) :=
  if at_end c then (false, offset, (p0, p1, p2))
  else
    let '(ok, local_offset) := is_character_match "C" c 0 in
    if negb ok then (false, offset, (p0, p1, p2))
    else
      let '(ok, local_offset) :=
        is_whitespace (advance local_offset c) local_offset in
      if negb ok then (false, offset, (p0, p1, p2))
      else
        let '(ok, local_offset, p0) :=
          is_coordinate_pair (advance local_offset c) local_offset p0 in
        if negb ok then (false, offset, (p0, p1, p2))
        else
          let '(ok, local_offset) :=
            is_whitespace (advance local_offset c) local_offset in
          if negb ok then (false, offset, (p0, p1, p2))
          else
            let '(ok, local_offset, p1) :=
              is_coordinate_pair (advance local_offset c) local_offset p1 in
            if negb ok then (false, offset, (p0, p1, p2))
            else
              let '(ok, local_offset) :=
                is_whitespace (advance local_offset c) local_offset in
              if negb ok then (false, offset, (p0, p1, p2))
              else
                let '(ok, local_offset, p2) :=
                  is_coordinate_pair (advance local_offset c) local_offset p2 in
                if negb ok then (false, offset, (p0, p1, p2))
                else
                  let '(ok, offset) := add_offsets local_offset offset in
                  (ok, offset, (p0, p1, p2)).

(** [is_q_instruction]: letter, then twice white space and a pair. *)
Definition is_q_instruction (c : string) (offset : nat) (p0 p1 : Vertex F)
  : bool * nat * (Vertex F * Vertex F) :=
  if at_end c then (false, offset, (p0, p1))
  else
    let '(ok, local_offset) := is_character_match "Q" c 0 in
    if negb ok then (false, offset, (p0, p1))
    else
      let '(ok, local_offset) :=
        is_whitespace (advance local_offset c) local_offset in
      if negb ok then (false, offset, (p0, p1))
      else
        let '(ok, local_offset, p0) :=
          is_coordinate_pair (advance local_offset c) local_offset p0 in
        if negb ok then (false, offset, (p0, p1))
        else
          let '(ok, local_offset) :=
            is_whitespace (advance local_offset c) local_offset in
          if negb ok then (false, offset, (p0, p1))
          else
            let '(ok, local_offset, p1) :=
              is_coordinate_pair (advance local_offset c) local_offset p1 in
            if negb ok then (false, offset, (p0, p1))
            else
              let '(ok, offset) := add_offsets local_offset offset in
              (ok, offset, (p0, p1)).

(** The [for] loop of [le_path_add_from_simplified_svg]; every turn moves
    [c] forward, so [fuel] above the length of [c] is never used up. *)
Fixpoint svg_loop (fuel : nat) (self : le_path_o F D) (c : string)
         (p0 p1 p2 : Vertex F) : IO (le_path_o F D) :=
  match fuel with
  | O => io_ret self
  | S fuel' =>
      if at_end c then io_ret self
      else
        let '(ok, offset, p0) := is_m_instruction c 0 p0 in
        if ok then
          svg_loop fuel' (le_path_move_to self p0) (advance offset c) p0 p1 p2
        else
        let '(ok, offset, p0) := is_l_instruction c 0 p0 in
        if ok then
          io_bind (io_lift (le_path_line_to self p0)) (fun self' =>
          svg_loop fuel' self' (advance offset c) p0 p1 p2)
        else
        let '(ok, offset, p0x) := is_h_instruction c 0 (x p0) in
        let p0 := {| x := p0x; y := y p0 |} in
        if ok then
          io_bind (le_path_line_horiz_to self (x p0)) (fun self' =>
          svg_loop fuel' self' (advance offset c) p0 p1 p2)
        else
        let '(ok, offset, p0y) := is_v_instruction c 0 (y p0) in
        let p0 := {| x := x p0; y := p0y |} in
        if ok then
          io_bind (le_path_line_vert_to self (y p0)) (fun self' =>
          svg_loop fuel' self' (advance offset c) p0 p1 p2)
        else
        let '(ok, offset, (p0, p1, p2)) := is_c_instruction c 0 p0 p1 p2 in
        if ok then
          io_bind (io_lift (le_path_cubic_bezier_to self p2 p0 p1)) (fun self' =>
          svg_loop fuel' self' (advance offset c) p0 p1 p2)
        else
        let '(ok, offset, (p0, p1)) := is_q_instruction c 0 p0 p1 in
        if ok then
          io_bind (io_lift (le_path_quad_bezier_to self p1 p0)) (fun self' =>
          svg_loop fuel' self' (advance offset c) p0 p1 p2)
        else
        let '(ok, offset) := is_character_match "Z" c 0 in
        if ok then
          io_bind (io_lift (le_path_close_path self)) (fun self' =>
          svg_loop fuel' self' (advance offset c) p0 p1 p2)
        else
          svg_loop fuel' self (advance 1 c) p0 p1 p2
  end.

(** [le_path_add_from_simplified_svg] *)
Definition le_path_add_from_simplified_svg (self : le_path_o F D) (svg : string)
  : IO (le_path_o F D) :=
  svg_loop (S (String.length svg)) self svg vzero vzero vzero.
End Parser.

(** ** IEEE arithmetic: binary32 and binary64, round to nearest even *)

Module IEEE.

Definition prec32 : Z := 24.
Definition emax32 : Z := 128.
Definition prec64 : Z := 53.
Definition emax64 : Z := 1024.

(** An integer, rounded to binary32. *)
Definition of_Z (z : Z) : spec_float := binary_normalize prec32 emax32 z 0 false.

(** [std::floor] on binary32: the result is always representable. *)
Definition floor (f : spec_float) : spec_float :=
  match f with
  | S754_finite s m e =>
      if (0 <=? e)%Z then f
      else
        let q := Z.shiftr (Zpos m) (- e) in
        let exact := (Z.shiftl q (- e) =? Zpos m)%Z in
        let z := if s then (if exact then - q else - (q + 1))%Z else q in
        binary_normalize prec32 emax32 z 0 s
  | _ => f
  end.

(** The integer a finite value truncates to (toward zero). *)
Definition trunc (f : spec_float) : option Z :=
  match f with
  | S754_zero _ => Some 0%Z
  | S754_finite s m e =>
      Some (cond_Zopp s (if (0 <=? e)%Z then Z.shiftl (Zpos m) e
                         else Z.shiftr (Zpos m) (- e)))
  | _ => None
  end.

(** Conversion between the formats: exact from binary32 to binary64,
    rounded the other way. *)
Definition convert (prec emax : Z) (f : spec_float) : spec_float :=
  match f with
  | S754_finite s m e => binary_normalize prec emax (cond_Zopp s (Zpos m)) e s
  | _ => f
  end.

#[global] Instance arith : Arith spec_float spec_float := {|
  float_of_Z := of_Z;
  fadd := SFadd prec32 emax32;
  fsub := SFsub prec32 emax32;
  fmul := SFmul prec32 emax32;
  fdiv := SFdiv prec32 emax32;
  fsqrt := SFsqrt prec32 emax32;
  ffloor := floor;
  ftrunc := trunc;
  double_of_Z := fun z => binary_normalize prec64 emax64 z 0 false;
  dadd := SFadd prec64 emax64;
  double_of_float := convert prec64 emax64;
  float_of_double := convert prec32 emax32
|}.

(** Comparisons of binary32 values, as [<] and [<=] of C++ decide them. *)
Definition ltb (a b : spec_float) : bool := SFltb a b.
Definition leb (a b : spec_float) : bool := SFleb a b.
Definition eqb (a b : spec_float) : bool := SFeqb a b.

(** A vertex with integer coordinates. *)
Definition vertex (a b : Z) : Vertex spec_float := {| x := of_Z a; y := of_Z b |}.

(** The binary32 values: zeros, infinities, NaN and the finite values with
    a canonical mantissa and exponent. *)
Definition valid (f : spec_float) : bool := valid_binary prec32 emax32 f.

(** Zeros and finite values. *)
Definition finite (f : spec_float) : bool :=
  match f with
  | S754_zero _ => true
  | S754_finite _ m e => SpecFloat.bounded prec32 emax32 m e
  | _ => false
  end.

Definition is_nan (f : spec_float) : bool :=
  match f with S754_nan => true | _ => false end.

(** [1.f] *)
Definition one : spec_float := S754_finite false 8388608 (-23).

(** [l[i] <= l[i+1]] for all [i]. *)
Fixpoint nondecreasingb (l : list spec_float) : bool :=
  match l with
  | a :: (b :: _) as l' => leb a b && nondecreasingb l'
  | _ => true
  end.

(** [t] in the last turn of a curve loop: [resolution * delta_t]. *)
Definition last_parameter (resolution : nat) : spec_float :=
  SFmul prec32 emax32 (of_Z (Z.of_nat resolution))
        (SFdiv prec32 emax32 (of_Z 1) (of_Z (Z.of_nat resolution))).

(** A value that is not NaN. *)
Definition number (f : spec_float) : bool := valid f && negb (is_nan f).

Definition finite_vertex (v : Vertex spec_float) : bool := finite (x v) && finite (y v).
Definition number_vertex (v : Vertex spec_float) : bool := number (x v) && number (y v).

(** [a == b] on both coordinates. *)
Definition veqb (a b : Vertex spec_float) : bool := eqb (x a) (x b) && eqb (y a) (y b).

(** *** [strtof] on decimal literals

    The C library's [strtof] in the "C" locale, for the decimal form
    (white space, sign, digits with an optional point, optional
    exponent); hexadecimal literals, [inf] and [nan] are not modelled.
    The value is the literal rounded once to binary32. *)

Definition isspace (a : ascii) : bool :=
  let n := nat_of_ascii a in
  Nat.eqb n 32 || (Nat.leb 9 n && Nat.leb n 13).

Fixpoint count_space (c : string) : nat :=
  match c with
  | String a c' => if isspace a then S (count_space c') else 0
  | EmptyString => 0
  end.

Definition digit_of (a : ascii) : option Z :=
  let n := nat_of_ascii a in
  if Nat.leb 48 n && Nat.leb n 57 then Some (Z.of_nat (n - 48)) else None.

(** The digits at the start of [c], accumulated on [acc]: the value, the
    count of digits and the rest of the string. *)
Fixpoint scan_digits (c : string) (acc : Z) (n : nat) : Z * nat * string :=
  match c with
  | String a c' =>
      match digit_of a with
      | Some d => scan_digits c' (10 * acc + d)%Z (S n)
      | None => (acc, n, c)
      end
  | EmptyString => (acc, n, c)
  end.

Definition scan_sign (c : string) : bool * nat * string :=
  match c with
  | String "-" c' => (true, 1%nat, c')
  | String "+" c' => (false, 1%nat, c')
  | _ => (false, 0%nat, c)
  end.

(** [m * 10 ^ e10], correctly rounded. *)
Definition of_decimal (neg : bool) (m e10 : Z) : spec_float :=
  if (m =? 0)%Z then S754_zero neg
  else if (0 <=? e10)%Z then
    binary_normalize prec32 emax32 (cond_Zopp neg (m * 10 ^ e10)) 0 neg
  else
    let '(q, e, l) := SFdiv_core_binary prec32 emax32 m 0 (10 ^ (- e10)) 0 in
    binary_round_aux prec32 emax32 neg q e l.

Definition strtof (c : string) : spec_float * nat :=
  let ws := count_space c in
  let '(neg, nsign, c) := scan_sign (advance ws c) in
  let '(m, nint, c) := scan_digits c 0 0 in
  let '(m, nfrac, ndot, c) :=
    match c with
    | String "." c' =>
        let '(m', nfrac, c'') := scan_digits c' m 0 in (m', nfrac, 1%nat, c'')
    | _ => (m, 0%nat, 0%nat, c)
    end in
  if Nat.eqb (nint + nfrac) 0 then (S754_zero false, 0%nat)
  else
    let '(e, nexp) :=
      match c with
      | String a c' =>
          if Ascii.eqb a "e" || Ascii.eqb a "E" then
            let '(eneg, nesign, c'') := scan_sign c' in
            let '(ev, ndigits, _) := scan_digits c'' 0 0 in
            if Nat.eqb ndigits 0 then (0%Z, 0%nat)
            else (cond_Zopp eneg ev, (1 + nesign + ndigits)%nat)
          else (0%Z, 0%nat)
      | EmptyString => (0%Z, 0%nat)
      end in
    (of_decimal neg m (e - Z.of_nat nfrac),
     (ws + nsign + nint + ndot + nfrac + nexp)%nat).

End IEEE.

(** ** Exact arithmetic: the real numbers *)

Module Exact.

(** [std::floor] *)
Definition floor (r : R) : R := IZR (Int_part r).

(** Truncation toward zero. *)
Definition trunc (r : R) : option Z :=
  Some (if Rle_dec 0 r then Int_part r else (- Int_part (- r))%Z).

#[global] Instance arith : Arith R R := {|
  float_of_Z := IZR;
  fadd := Rplus;
  fsub := Rminus;
  fmul := Rmult;
  fdiv := Rdiv;
  fsqrt := sqrt;
  ffloor := floor;
  ftrunc := trunc;
  double_of_Z := IZR;
  dadd := Rplus;
  double_of_float := fun r => r;
  float_of_double := fun r => r
|}.

Definition vertex (a b : R) : Vertex R := {| x := a; y := b |}.

(** The sum of a list of lengths. *)
Definition sum (ls : list R) : R := fold_right Rplus 0%R ls.

(** The quadratic and the cubic curve in Bernstein form, at parameter [t]. *)
Definition quad_bernstein (p0 c1 p1 : Vertex R) (t : R) : Vertex R :=
  {| x := (1 - t) ^ 2 * x p0 + 2 * (1 - t) * t * x c1 + t ^ 2 * x p1;
     y := (1 - t) ^ 2 * y p0 + 2 * (1 - t) * t * y c1 + t ^ 2 * y p1 |}%R.

Definition cubic_bernstein (p0 c1 c2 p1 : Vertex R) (t : R) : Vertex R :=
  {| x := (1 - t) ^ 3 * x p0 + 3 * (1 - t) ^ 2 * t * x c1
          + 3 * (1 - t) * t ^ 2 * x c2 + t ^ 3 * x p1;
     y := (1 - t) ^ 3 * y p0 + 3 * (1 - t) ^ 2 * t * y c1
          + 3 * (1 - t) * t ^ 2 * y c2 + t ^ 3 * y p1 |}%R.

End Exact.

(** ** What rounding computes

    [binary_round] of the Standard Library shifts the mantissa bit by bit.
    Here the same result is given by integer arithmetic: the exponent the
    format gives the value, the mantissa as a rounded quotient, and a
    mantissa that reached [2 ^ prec] halved. *)

Module Rounding.
Local Open Scope Z_scope.

(** [X / 2 ^ K], rounded to the nearest integer, ties to even. *)
Definition rne (X K : Z) : Z :=
  let q := X / 2 ^ K in
  let r := X mod 2 ^ K in
  match 2 * r ?= 2 ^ K with
  | Lt => q
  | Eq => if Z.even q then q else q + 1
  | Gt => q + 1
  end.

Section Format.
Variables prec emax : Z.

(** The exponent and the mantissa of the rounded value, before the
    mantissa is brought back below [2 ^ prec]. *)
Definition round_exponent (m : positive) (e : Z) : Z :=
  fexp prec emax (Zpos (digits2_pos m) + e).

Definition round_mantissa (m : positive) (e : Z) : Z :=
  let E := round_exponent m e in
  let c := Z.min e E in
  rne (Zpos m * 2 ^ (e - c)) (E - c).

Definition normalized (M E : Z) : spec_float :=
  if M =? 0 then S754_zero false
  else
    let '(M', E') := if M =? 2 ^ prec then (2 ^ (prec - 1), E + 1) else (M, E) in
    if E' <=? emax - prec then S754_finite false (Z.to_pos M') E'
    else S754_infinity false.

Definition rounded (m : positive) (e : Z) : spec_float :=
  normalized (round_mantissa m e) (round_exponent m e).

(** Canonical pairs: the exponent is the one the format gives the value. *)
Definition canonical (M E : Z) : Prop :=
  0 < M /\ fexp prec emax (Zdigits2 M + E) = E.

Definition normal_form (M E : Z) : Z * Z :=
  if M =? 2 ^ prec then (2 ^ (prec - 1), E + 1) else (M, E).

(** An integer, rounded to the format. *)
Definition integer (z : Z) : spec_float := binary_normalize prec emax z 0 false.
End Format.

(** The order of the values of two floating-point numbers that are not
    negative. *)
Definition value_le (a b : spec_float) : Prop :=
  match a, b with
  | S754_zero _, S754_zero _ => True
  | S754_zero _, S754_finite s _ _ => s = false
  | S754_zero _, S754_infinity s => s = false
  | S754_finite s1 m1 e1, S754_finite s2 m2 e2 =>
      s1 = false /\ s2 = false
      /\ Zpos m1 * 2 ^ (e1 - Z.min e1 e2) <= Zpos m2 * 2 ^ (e2 - Z.min e1 e2)
  | S754_finite s1 _ _, S754_infinity s2 => s1 = false /\ s2 = false
  | S754_infinity s1, S754_infinity s2 => s1 = false /\ s2 = false
  | _, _ => False
  end.

(** Not negative, and in the format when finite. *)
Definition nonneg_valid (prec emax : Z) (f : spec_float) : Prop :=
  match f with
  | S754_zero _ | S754_nan => True
  | S754_infinity s => s = false
  | S754_finite s m e => s = false /\ SpecFloat.bounded prec emax m e = true
  end.

Inductive rounded_view (prec emax : Z) (m : positive) (e : Z) : spec_float -> Prop :=
| view_zero :
    round_mantissa prec emax m e = 0 ->
    rounded_view prec emax m e (S754_zero false)
| view_finite (m' : positive) (E' : Z) :
    0 < round_mantissa prec emax m e ->
    normal_form prec (round_mantissa prec emax m e) (round_exponent prec emax m e)
    = (Zpos m', E') ->
    E' <= emax - prec ->
    rounded_view prec emax m e (S754_finite false m' E')
| view_infinity (m' : positive) (E' : Z) :
    0 < round_mantissa prec emax m e ->
    normal_form prec (round_mantissa prec emax m e) (round_exponent prec emax m e)
    = (Zpos m', E') ->
    emax - prec < E' ->
    rounded_view prec emax m e (S754_infinity false).

(** Not negative. *)
Definition nonneg (f : spec_float) : Prop :=
  match f with
  | S754_finite s _ _ | S754_infinity s => s = false
  | _ => True
  end.

(** The value with the sign bit [s]. *)
Definition set_sign (s : bool) (f : spec_float) : spec_float :=
  match f with
  | S754_zero _ => S754_zero s
  | S754_infinity _ => S754_infinity s
  | S754_finite _ m e => S754_finite s m e
  | S754_nan => S754_nan
  end.

(** Not positive, and not NaN. *)
Definition nonpos (f : spec_float) : Prop :=
  match f with
  | S754_zero _ => True
  | S754_finite s _ _ | S754_infinity s => s = true
  | S754_nan => False
  end.
End Rounding.

(** ** Well-formed paths

    A sub-path is opened by [le_path_move_to] and by nothing else, so the
    sub-paths the builder makes hold one [eMoveTo], in front, and drawing
    commands after it. *)

Section WellFormed.
Context {F D : Type} {A : Arith F D}.

Definition is_move (c : PathCommand F) : bool :=
  match type c with eMoveTo => true | _ => false end.

Definition is_drawing (c : PathCommand F) : bool :=
  match type c with
  | eLineTo | eQuadBezierTo | eCubicBezierTo | eClosePath => true
  | _ => false
  end.

Definition wf_subpath (s : SubPath F) : bool :=
  match commands s with
  | [] => false
  | m :: rest => is_move m && forallb is_drawing rest
  end.

Definition wf_path (self : le_path_o F D) : bool := forallb wf_subpath (subpaths self).
End WellFormed.

(** ** Paths made through the interface

    The handle [le_path_o] is opaque to callers: a path is what the
    functions registered in [register_le_path_api] make of the path of
    [le_path_create]. *)

Section Built.
Context {F D : Type} {A : Arith F D}.
Variable strtof : string -> F * nat.

Inductive built : le_path_o F D -> Prop :=
| built_create : built le_path_create
| built_clear self : built self -> built (le_path_clear self)
| built_move_to self q : built self -> built (le_path_move_to self q)
| built_line_to self q self' :
    built self -> le_path_line_to self q = Ok self' -> built self'
| built_quad_bezier_to self q c self' :
    built self -> le_path_quad_bezier_to self q c = Ok self' -> built self'
| built_cubic_bezier_to self q c c' self' :
    built self -> le_path_cubic_bezier_to self q c c' = Ok self' -> built self'
| built_close self self' :
    built self -> le_path_close_path self = Ok self' -> built self'
| built_add_from_simplified_svg self svg err self' err' :
    built self ->
    le_path_add_from_simplified_svg strtof self svg err = Ok (self', err') ->
    built self'
| built_trace self self' :
    built self -> le_path_trace_path self = Ok self' -> built self'
| built_resample self interval self' :
    built self -> le_path_resample self interval = Ok self' -> built self'.
End Built.

(** ** Measures used in the statements *)

Section Measures.
Context {F D : Type} {A : Arith F D}.

(** The lengths of the segments between consecutive vertices, each
    measured as the tracer measures it: from the new vertex back to the
    one before. *)
Definition segment_lengths (vs : list (Vertex F)) : list F :=
  map (fun ab => distance (snd ab) (fst ab)) (combine vs (tl vs)).

(** The sum of lengths, accumulated in [double] from [total] on. *)
Definition add_lengths (total : D) (ls : list F) : D :=
  fold_left (fun acc l => dadd acc (double_of_float l)) ls total.

Definition sum_lengths (ls : list F) : D :=
  add_lengths (double_of_Z 0) ls.

(** The cumulative distances a curve loop stores for the points [point i],
    from the running total and the previous point on. *)
Fixpoint curve_distances (point : nat -> Vertex F) (total : D) (prev : Vertex F)
         (steps : list nat) : list F * D :=
  match steps with
  | [] => ([], total)
  | i :: steps' =>
      let total' := dadd total (double_of_float (distance (point i) prev)) in
      let '(ds, final) := curve_distances point total' (point i) steps' in
      (float_of_double total' :: ds, final)
  end.
End Measures.

(** ** Invariants of traced polylines *)

Section TraceInvariants.
Context {F D : Type} {A : Arith F D}.

(** What every traced polyline satisfies: it has a vertex, one distance per
    vertex, and the first distance is 0. *)
Definition traced_ok (polyline : Polyline F D) : Prop :=
  vertices polyline <> []
  /\ length (vertices polyline) = length (distances polyline)
  /\ hd_error (distances polyline) = Some (float_of_Z 0).
End TraceInvariants.

(** Cumulative distances that never decrease and stay below the running
    total, in exact arithmetic. *)
Definition nondecreasing (polyline : (Polyline R R)) : Prop :=
  Sorted Rle (distances polyline)
  /\ Forall (fun d => (d <= total_distance polyline)%R) (distances polyline).

(** What the tracer keeps true in binary32 and binary64: the total is not
    negative and is a binary64 value, the last distance is the total
    rounded to binary32, and the distances never decrease unless the
    total is NaN. *)
Definition nondecreasing32 (polyline : Polyline spec_float spec_float) : Prop :=
  Rounding.nonneg_valid IEEE.prec64 IEEE.emax64 (total_distance polyline)
  /\ back (distances polyline)
     = Some (IEEE.convert IEEE.prec32 IEEE.emax32 (total_distance polyline))
  /\ (IEEE.is_nan (total_distance polyline) = false ->
      IEEE.nondecreasingb (distances polyline) = true).

(** ** Binary32 values used in the statements *)

Module Values.

(** A decimal literal as binary32. *)
Definition lit (s : string) : spec_float := fst (IEEE.strtof s).

(** [20 + sqrt( 200 )] as the tracer computes it: the square root in
    [float], the sum in [double], the stored distance in [float]. *)
Definition twenty_plus_sqrt_200 : spec_float :=
  float_of_double (dadd (double_of_Z 20) (double_of_float (fsqrt (IEEE.of_Z 200)))).

(** The path of "M 0,0 L 10,0 L 10,10 Z", made with the builder. *)
Definition triangle : Result (le_path_o spec_float spec_float) :=
  (self <- le_path_line_to (le_path_move_to le_path_create (IEEE.vertex 0 0))
                           (IEEE.vertex 10 0) ;;
   self <- le_path_line_to self (IEEE.vertex 10 10) ;;
   le_path_close_path self)%result.

(** The distances of all polylines of a traced path; none on a fault. *)
Definition traced_distances (r : Result (le_path_o spec_float spec_float))
  : list (list spec_float) :=
  match (self <- r ;; le_path_trace_path self)%result with
  | Ok self' => map distances (polylines self')
  | Err _ => []
  end.

End Values.

(** ** Paths used in the statements *)

Module Paths.

Definition MoveTo (a b : Z) : PathCommand spec_float :=
  command1 eMoveTo (IEEE.vertex a b).
Definition LineTo (a b : Z) : PathCommand spec_float :=
  command1 eLineTo (IEEE.vertex a b).
Definition ClosePath : PathCommand spec_float := command1 eClosePath vzero.
(** End point first, as in [le_path_quad_bezier_to]. *)
Definition QuadBezierTo (a b ca cb : Z) : PathCommand spec_float :=
  {| type := eQuadBezierTo; p := IEEE.vertex a b; c1 := IEEE.vertex ca cb; c2 := vzero |}.

(** A path with the one sub-path [cmds], not yet traced or resampled. *)
Definition path_of (cmds : list (PathCommand spec_float))
  : le_path_o spec_float spec_float :=
  {| subpaths := [ {| commands := cmds |} ];
     polylines := [];
     sample_interval := IEEE.of_Z 0 |}.

(** A straight segment of 100 units. *)
Definition segment_100 : list (PathCommand spec_float) :=
  [MoveTo 0 0; LineTo 100 0].

(** A closed triangle with sides 5, 5 and 8. *)
Definition closed_triangle : list (PathCommand spec_float) :=
  [MoveTo 0 0; LineTo 3 4; LineTo 0 8; ClosePath].

(** A flat quadratic curve of length 1000. *)
Definition long_curve : list (PathCommand spec_float) :=
  [MoveTo 0 0; QuadBezierTo 1000 0 500 0].

(** A closed shape with a curve, and an open cubic curve. *)
Definition two_subpaths : le_path_o spec_float spec_float :=
  {| subpaths :=
       [ {| commands := [MoveTo 0 0; QuadBezierTo 10 0 5 10; LineTo 3 (-4); ClosePath] |};
         {| commands := [MoveTo 1 1;
                         {| type := eCubicBezierTo; p := IEEE.vertex 4 1;
                            c1 := IEEE.vertex 2 3; c2 := IEEE.vertex 3 3 |}] |} ];
     polylines := [];
     sample_interval := IEEE.of_Z 0 |}.

End Paths.

(** ** Measures used in the further properties *)

Section Counts.
Context {F D : Type} {A : Arith F D}.

(** The number of vertices the tracer adds for one command. *)
Definition trace_weight (resolution : nat) (c : PathCommand F) : nat :=
  match type c with
  | eMoveTo | eLineTo | eClosePath => 1
  | eQuadBezierTo | eCubicBezierTo => resolution
  | eUnknown => 0
  end.

Definition is_cubic (c : PathCommand F) : bool :=
  match type c with eCubicBezierTo => true | _ => false end.
End Counts.

Section Measured.
Context {F D : Type} {A : Arith F D}.

(** The distances of a polyline are those of its own vertices: the total
    is the sum of the lengths of the segments between consecutive vertices,
    accumulated in [double] in their order, and the distance stored with
    the vertex at place [k] is the sum up to that vertex, as a [float]. *)
Definition measured (polyline : Polyline F D) : Prop :=
  vertices polyline <> []
  /\ length (distances polyline) = length (vertices polyline)
  /\ total_distance polyline = sum_lengths (segment_lengths (vertices polyline))
  /\ forall k : nat,
       (0 < k < length (vertices polyline))%nat ->
       nth_error (distances polyline) k
       = Some (float_of_double
                 (sum_lengths (segment_lengths (firstn (S k) (vertices polyline))))).
End Measured.

(** [l] is [l'] with some elements left out. *)
Inductive subsequence {B : Type} : list B -> list B -> Prop :=
| subsequence_nil : subsequence [] []
| subsequence_skip (b : B) (l l' : list B) :
    subsequence l l' -> subsequence l (b :: l')
| subsequence_keep (b : B) (l l' : list B) :
    subsequence l l' -> subsequence (b :: l) (b :: l').

(** ** What a path keeps while it is built *)

Section Keeps.
Context {F D : Type}.

(** The command at place [j] of the sub-path at place [i]. *)
Definition command_at (subpaths : list (SubPath F)) (i j : nat)
  : option (PathCommand F) :=
  match nth_error subpaths i with
  | Some s => nth_error (commands s) j
  | None => None
  end.

(** [self'] has all that [self] had: the same polylines, the same sample
    interval, every command at its place, and no fewer sub-paths. *)
Definition keeps (self self' : le_path_o F D) : Prop :=
  polylines self' = polylines self
  /\ sample_interval self' = sample_interval self
  /\ (length (subpaths self) <= length (subpaths self'))%nat
  /\ forall (i j : nat) (c : PathCommand F),
       command_at (subpaths self) i j = Some c ->
       command_at (subpaths self') i j = Some c.
End Keeps.

(** Whether one of [letters] occurs in [c]. *)
Fixpoint mentions (letters : list ascii) (c : string) : bool :=
  match c with
  | EmptyString => false
  | String a c' => existsb (Ascii.eqb a) letters || mentions letters c'
  end.

(** The letters of the instructions of simplified SVG. *)
Definition instruction_letters : list ascii :=
  ["M"; "L"; "H"; "V"; "C"; "Q"; "Z"]%char.

Section Starts.
Context {F D : Type}.

(** Every polyline starts at the point of the first command of the
    sub-path at its place. *)
Definition starts_at_moves (self : le_path_o F D) : Prop :=
  forall (i : nat) (polyline : Polyline F D),
    nth_error (polylines self) i = Some polyline ->
    exists m vs,
      command_at (subpaths self) i 0 = Some m /\ vertices polyline = p m :: vs.
End Starts.

(** ** Binary32 values at the edges *)

(** A zero of either sign, or NaN. *)
Definition zero_or_nan (f : spec_float) : bool :=
  match f with
  | S754_zero _ | S754_nan => true
  | _ => false
  end.

(** The sign bit is clear; NaN has no sign here. *)
Definition sign_clear (f : spec_float) : bool :=
  match f with
  | S754_zero s | S754_infinity s | S754_finite s _ _ => negb s
  | S754_nan => true
  end.

(** What the tracer keeps true of the signs in binary32: the total and
    every stored distance are values of their formats with a clear sign
    bit. *)
Definition unsigned32 (polyline : Polyline spec_float spec_float) : Prop :=
  sign_clear (total_distance polyline) = true
  /\ Rounding.nonneg_valid IEEE.prec64 IEEE.emax64 (total_distance polyline)
  /\ Forall (fun d => IEEE.valid d = true /\ sign_clear d = true)
            (distances polyline).

(** A command of a polygon: a move or a line to a point with finite
    coordinates, or a closure. *)
Definition polygon_command (c : PathCommand spec_float) : bool :=
  match type c with
  | eMoveTo | eLineTo => IEEE.finite_vertex (p c)
  | eClosePath => true
  | _ => false
  end.

(** What the tracer keeps true along a polygon in binary32: the vertices
    are finite, and neither the total nor a stored distance is NaN. *)
Definition numbers32 (polyline : Polyline spec_float spec_float) : Prop :=
  Forall (fun v => IEEE.finite_vertex v = true) (vertices polyline)
  /\ IEEE.is_nan (total_distance polyline) = false
  /\ Rounding.nonneg_valid IEEE.prec64 IEEE.emax64 (total_distance polyline)
  /\ Forall (fun d => IEEE.is_nan d = false) (distances polyline).

(** ** Polylines through points with integer coordinates *)

(** A point with integer coordinates. *)
Definition grid_point (ab : Z * Z) : Vertex spec_float :=
  IEEE.vertex (fst ab) (snd ab).

(** The coordinates are below [2 ^ 24] in absolute value: they are values
    of binary32. *)
Definition in_grid (ab : Z * Z) : Prop :=
  (Z.abs (fst ab) < 2 ^ 24)%Z /\ (Z.abs (snd ab) < 2 ^ 24)%Z.

(** [hs] holds the lengths of the segments between the consecutive points
    of [pts], and all of them are integers whose square is below
    [2 ^ 24]. *)
Fixpoint integer_lengths (pts : list (Z * Z)) (hs : list Z) {struct pts} : Prop :=
  match pts with
  | [] => False
  | a :: pts' =>
      match pts', hs with
      | [], [] => True
      | b :: _, h :: hs' =>
          (0 <= h)%Z
          /\ (h * h = (fst b - fst a) * (fst b - fst a)
                      + (snd b - snd a) * (snd b - snd a))%Z
          /\ (h * h < 2 ^ 24)%Z
          /\ integer_lengths pts' hs'
      | _, _ => False
      end
  end.

(** The path of straight lines through the points. *)
Definition lines_through (a : Z * Z) (rest : list (Z * Z))
  : list (PathCommand spec_float) :=
  command1 eMoveTo (grid_point a)
  :: map (fun q => command1 eLineTo (grid_point q)) rest.

(** * Properties *)

Unset Implicit Arguments.

Lemma Ok_inj (B : Type) (a b : B) : Ok a = Ok b -> a = b.
Proof. intros [= H]. exact H. Qed.

(** ** Facts on vectors *)

Section VectorFacts.
Context {A : Type}.

Lemma back_emplace_back (v : list A) (a : A) : back (emplace_back v a) = Some a.
Proof.
  unfold emplace_back. induction v as [|b v IH]; [reflexivity|].
  simpl. destruct (v ++ [a]) eqn:E.
  - destruct v; discriminate.
  - exact IH.
Qed.

Lemma back_None (v : list A) : back v = None -> v = [].
Proof.
  induction v as [|a v IH]; [reflexivity|].
  destruct v as [|b v]; [discriminate|].
  intros Hb. specialize (IH Hb). discriminate.
Qed.

Lemma back_Some_split (v : list A) (a : A) :
  back v = Some a -> exists l, v = l ++ [a].
Proof.
  induction v as [|b v IH]; [discriminate|].
  destruct v as [|b' v].
  - simpl. intros [= ->]. exists []. reflexivity.
  - intros Hb. destruct (IH Hb) as [l Hl]. exists (b :: l).
    rewrite Hl. reflexivity.
Qed.

Lemma back_cons_cons (a b : A) (v : list A) : back (a :: b :: v) = back (b :: v).
Proof. reflexivity. Qed.
End VectorFacts.

(** ** Facts on the builder *)

Section BuilderFacts.
Context {F D : Type} {A : Arith F D}.

Lemma push_command_snoc (l : list (SubPath F)) (s : SubPath F) (c : PathCommand F) :
  push_command (l ++ [s]) c
  = Some (l ++ [ {| commands := emplace_back (commands s) c |} ]).
Proof.
  induction l as [|s0 l IH]; [reflexivity|].
  simpl app. change (push_command (s0 :: l ++ [s]) c) with
    (match l ++ [s] with
     | [] => Some [ {| commands := emplace_back (commands s0) c |} ]
     | _ => match push_command (l ++ [s]) c with
            | Some rest' => Some (s0 :: rest')
            | None => None
            end
     end).
  destruct (l ++ [s]) eqn:E; [destruct l; discriminate|].
  rewrite IH. reflexivity.
Qed.

Lemma empty_snoc (B : Type) (l : list B) (b : B) : empty (l ++ [b]) = false.
Proof. destruct l; reflexivity. Qed.

Lemma last_command_spec (self : le_path_o F D) (s : SubPath F) (c : PathCommand F) :
  back (subpaths self) = Some s -> back (commands s) = Some c ->
  last_command self = Ok c.
Proof.
  intros Hs Hc. unfold last_command.
  destruct (back_Some_split _ _ Hs) as [l Hl].
  destruct (back_Some_split _ _ Hc) as [k Hk].
  rewrite Hl, empty_snoc. simpl. rewrite <- Hl, Hs.
  rewrite Hk, empty_snoc. simpl. rewrite <- Hk, Hc. reflexivity.
Qed.

Lemma append_checked_snoc (self : le_path_o F D) (l : list (SubPath F)) (s : SubPath F)
      (c : PathCommand F) :
  subpaths self = l ++ [s] ->
  append_checked self c
  = Ok (with_subpaths self (l ++ [ {| commands := emplace_back (commands s) c |} ])).
Proof.
  intros Hl. unfold append_checked.
  rewrite Hl, empty_snoc, push_command_snoc. reflexivity.
Qed.
End BuilderFacts.

(** ** C9: clear *)

(** C9.  For every path state, [le_path_clear] leaves the list of sub-paths
    and the list of polylines empty, so that [le_path_get_num_polylines]
    returns 0 afterwards, and it leaves [sample_interval] as it was. *)
Theorem C9_clear_keeps_sample_interval :
  forall (F D : Type) (A : Arith F D) (self : le_path_o F D),
    subpaths (le_path_clear self) = []
    /\ polylines (le_path_clear self) = []
    /\ le_path_get_num_polylines (le_path_clear self) = 0%nat
    /\ sample_interval (le_path_clear self) = sample_interval self.
Proof.
  intros F D A self. unfold le_path_clear, le_path_get_num_polylines. simpl.
  repeat split.
Qed.

(** ** C7 and C8: horizontal and vertical lines without a pen position *)

(** C7.  When the last sub-path is not empty and its last command is
    [eClosePath], [le_path_line_horiz_to] and [le_path_line_vert_to] return
    the path as it was and write one warning to the error stream; the
    builder goes on as before: a following [le_path_line_to] appends its
    command to that same sub-path. *)
Theorem C7_no_endpoint_is_noop :
  forall (F D : Type) (A : Arith F D) (self : le_path_o F D) (s : SubPath F)
         (c : PathCommand F)
         (px py : F) (err : Stderr),
    back (subpaths self) = Some s ->
    back (commands s) = Some c ->
    type c = eClosePath ->
    le_path_line_horiz_to self px err = Ok (self, err ++ [warning_relative])
    /\ le_path_line_vert_to self py err = Ok (self, err ++ [warning_relative])
    /\ forall q : Vertex F,
        exists l,
          subpaths self = l ++ [s]
          /\ le_path_line_to self q
             = Ok (with_subpaths self
                     (l ++ [ {| commands := commands s ++ [command1 eLineTo q] |} ])).
Proof.
  intros F D A self s c px py err Hs Hc Ht.
  pose proof (last_command_spec self s c Hs Hc) as Hlast.
  unfold le_path_line_horiz_to, le_path_line_vert_to, le_path_get_previous_p,
    io_bind, io_lift, io_ret, fprintf_stderr.
  rewrite Hlast, Ht. repeat split.
  intros q. destruct (back_Some_split _ _ Hs) as [l Hl]. exists l. split; [exact Hl|].
  unfold le_path_line_to. rewrite (append_checked_snoc self l s _ Hl). reflexivity.
Qed.

(** A closed triangle, then a horizontal line: nothing is appended. *)
Lemma C7_witness :
  let self : (le_path_o spec_float spec_float) :=
    {| subpaths := [ {| commands := [ command1 eMoveTo (IEEE.vertex 0 0);
                                     command1 eLineTo (IEEE.vertex 10 0);
                                     command1 eClosePath vzero ] |} ];
       polylines := [];
       sample_interval := IEEE.of_Z 0 |} in
  le_path_line_horiz_to self (IEEE.of_Z 5) [] = Ok (self, [warning_relative]).
Proof.
  intros self.
  exact (proj1 (C7_no_endpoint_is_noop _ _ IEEE.arith self
                  {| commands := [ command1 eMoveTo (IEEE.vertex 0 0);
                                   command1 eLineTo (IEEE.vertex 10 0);
                                   command1 eClosePath vzero ] |}
                  (command1 eClosePath vzero)
                  (IEEE.of_Z 5) (IEEE.of_Z 5) []
                  eq_refl eq_refl eq_refl)).
Defined.

(** The claim of C8 fails on the fresh path: the call does not return. *)
Lemma C8_counterexample :
  le_path_line_horiz_to (A := IEEE.arith) le_path_create (IEEE.of_Z 5) []
  = Err AssertionFailed
  /\ ~ exists (self' : le_path_o spec_float spec_float) (err' : Stderr),
         le_path_line_horiz_to (A := IEEE.arith) le_path_create (IEEE.of_Z 5) []
         = Ok (self', err').
Proof.
  split; [reflexivity|].
  intros (self' & err' & H). discriminate H.
Qed.

(** C8, amended.  On a path without sub-paths [le_path_line_horiz_to] (and
    [le_path_line_vert_to]) stops at its first [assert], "Subpath must
    exist": the call is a fault, whatever the coordinate and the state of
    the error stream; no command is appended and no warning is written. *)
Theorem C8_first_call_asserts :
  forall (F D : Type) (A : Arith F D) (self : le_path_o F D) (px : F) (err : Stderr),
    subpaths self = [] ->
    le_path_line_horiz_to self px err = Err AssertionFailed
    /\ le_path_line_vert_to self px err = Err AssertionFailed.
Proof.
  intros F D A self px err H.
  unfold le_path_line_horiz_to, le_path_line_vert_to, io_bind, io_lift, last_command.
  rewrite H. split; reflexivity.
Qed.

Lemma C8_witness :
  le_path_line_horiz_to (A := IEEE.arith) le_path_create (IEEE.of_Z 5) []
  = Err AssertionFailed.
Proof.
  exact (proj1 (C8_first_call_asserts _ _ IEEE.arith le_path_create
                  (IEEE.of_Z 5) [] eq_refl)).
Defined.

(** ** Facts on the tracer *)

Section TracerFacts.
Context {F D : Type} {A : Arith F D}.

Lemma trace_line_to_spec (polyline : Polyline F D) (q last : Vertex F) :
  back (vertices polyline) = Some last ->
  trace_line_to polyline q
  = Ok {| distances :=
            distances polyline ++
            [float_of_double (dadd (total_distance polyline)
                                   (double_of_float (distance q last)))];
          vertices := vertices polyline ++ [q];
          total_distance := dadd (total_distance polyline)
                                 (double_of_float (distance q last)) |}.
Proof. intros H. unfold trace_line_to. rewrite H. reflexivity. Qed.

(** Replaying line commands on a polyline that has a last vertex. *)
Lemma trace_lines_spec (resolution : nat) (ls : list (PathCommand F)) :
  Forall (fun c => type c = eLineTo) ls ->
  forall (polyline : Polyline F D) (last : Vertex F),
    back (vertices polyline) = Some last ->
    exists polyline',
      foldM (trace_command resolution) ls polyline = Ok polyline'
      /\ vertices polyline' = vertices polyline ++ map p ls
      /\ length (distances polyline') = (length (distances polyline) + length ls)%nat
      /\ (forall d0, hd_error (distances polyline) = Some d0 ->
                     hd_error (distances polyline') = Some d0)
      /\ total_distance polyline'
         = add_lengths (total_distance polyline)
                       (segment_lengths (last :: map p ls))
      /\ back (distances polyline')
         = match ls with
           | [] => back (distances polyline)
           | _ => Some (float_of_double (total_distance polyline'))
           end.
Proof.
  induction 1 as [|c ls Hc Hls IH]; intros polyline last Hlast.
  - exists polyline. simpl. rewrite !app_nil_r. repeat split; auto.
  - simpl foldM. unfold trace_command at 1. rewrite Hc.
    rewrite (trace_line_to_spec polyline (p c) last Hlast). simpl bind.
    set (polyline1 := {| distances := _; vertices := _; total_distance := _ |}).
    assert (H1 : back (vertices polyline1) = Some (p c)).
    { apply (back_emplace_back (vertices polyline) (p c)). }
    destruct (IH polyline1 (p c) H1) as (polyline' & Hrun & Hv & Hn & Hhd & Ht & Hb).
    exists polyline'. split; [exact Hrun|].
    split; [rewrite Hv; simpl; rewrite <- app_assoc; reflexivity|].
    split; [rewrite Hn; simpl; rewrite length_app; simpl; lia|].
    split.
    { intros d0 Hd0. apply Hhd. simpl distances.
      destruct (distances polyline); [discriminate|exact Hd0]. }
    split; [rewrite Ht; reflexivity|].
    rewrite Hb. destruct ls as [|c' ls']; [|reflexivity].
    simpl in Hrun. injection Hrun as <-.
    apply (back_emplace_back (distances polyline)).
Qed.
End TracerFacts.

(** ** Facts on traced lines *)

Lemma add_lengths_sum (total : R) (ls : list R) :
  add_lengths total ls = (total + Exact.sum ls)%R.
Proof.
  unfold add_lengths. revert total. induction ls as [|l ls IH]; intros total.
  - cbn. ring.
  - cbn [fold_left Exact.sum fold_right]. rewrite IH.
    change (dadd total (double_of_float l)) with (total + l)%R.
    unfold Exact.sum. ring.
Qed.

Lemma trace_lines_subpath (F D : Type) (A : Arith F D) (resolution : nat)
      (m : PathCommand F) (ls : list (PathCommand F)) :
  type m = eMoveTo ->
  Forall (fun c => type c = eLineTo) ls ->
  exists polyline,
    trace_subpath resolution {| commands := m :: ls |} = Ok polyline
    /\ vertices polyline = map p (m :: ls)
    /\ length (vertices polyline) = length (m :: ls)
    /\ length (distances polyline) = length (m :: ls)
    /\ hd_error (distances polyline) = Some (float_of_Z 0)
    /\ total_distance polyline = sum_lengths (segment_lengths (map p (m :: ls)))
    /\ back (distances polyline)
       = Some match ls with
              | [] => float_of_Z 0
              | _ => float_of_double
                       (sum_lengths (segment_lengths (map p (m :: ls))))
              end.
Proof.
  intros Hm Hls.
  unfold trace_subpath. simpl commands. simpl foldM.
  unfold trace_command at 1. rewrite Hm. simpl bind.
  assert (H0 : back (vertices (trace_move_to Polyline_new (p m))) = Some (p m))
    by reflexivity.
  destruct (trace_lines_spec resolution ls Hls _ _ H0)
    as (polyline & Hrun & Hv & Hn & Hhd & Ht & Hb).
  exists polyline. rewrite Hrun. simpl bind.
  assert (Hlen : length (vertices polyline) = length (distances polyline)).
  { rewrite Hv, Hn. simpl. rewrite length_map. reflexivity. }
  replace (length (vertices polyline) =? length (distances polyline))%nat
    with true by (symmetry; apply Nat.eqb_eq; exact Hlen).
  simpl bind.
  split; [reflexivity|].
  split; [rewrite Hv; reflexivity|].
  split; [rewrite Hlen, Hn; reflexivity|].
  split; [rewrite Hn; reflexivity|].
  split; [apply Hhd; reflexivity|].
  split; [rewrite Ht; reflexivity|].
  rewrite Hb. destruct ls; [reflexivity|]. rewrite Ht. reflexivity.
Qed.

(** ** Facts on the tracer's curve loops *)

Section TraceCurveFacts.
Context {F D : Type} {A : Arith F D}.

Lemma trace_curve_fold (point : nat -> Vertex F) (steps : list nat) :
  forall (polyline : Polyline F D) (prev : Vertex F),
    fst (fold_left (trace_curve_step point) steps (polyline, prev))
    = {| vertices := vertices polyline ++ map point steps;
         distances := distances polyline
                      ++ fst (curve_distances point (total_distance polyline) prev steps);
         total_distance :=
           snd (curve_distances point (total_distance polyline) prev steps) |}.
Proof.
  induction steps as [|i steps IH]; intros polyline prev.
  - simpl. rewrite !app_nil_r. destruct polyline; reflexivity.
  - simpl fold_left. rewrite IH. simpl.
    destruct (curve_distances point _ (point i) steps) as [ds final] eqn:E.
    simpl. unfold emplace_back. rewrite <- !app_assoc. reflexivity.
Qed.

Lemma curve_distances_length (point : nat -> Vertex F) (steps : list nat) :
  forall (total : D) (prev : Vertex F),
    length (fst (curve_distances point total prev steps)) = length steps.
Proof.
  induction steps as [|i steps IH]; intros total prev; [reflexivity|].
  simpl. specialize (IH (dadd total (double_of_float (distance (point i) prev))) (point i)).
  destruct (curve_distances point _ (point i) steps). simpl in *. lia.
Qed.

Lemma trace_quad_bezier_to_spec (polyline : Polyline F D) (p0 p1 c1 : Vertex F)
      (resolution : nat) :
  back (vertices polyline) = Some p0 -> (1 < resolution)%nat ->
  let point := quad_bezier_point p0 c1 p1 (float_of_Z 1 / float_of_nat resolution)%float in
  trace_quad_bezier_to polyline p1 c1 resolution
  = Ok {| vertices := vertices polyline ++ map point (seq 1 resolution);
          distances := distances polyline
                       ++ fst (curve_distances point (total_distance polyline) p0
                                               (seq 1 resolution));
          total_distance :=
            snd (curve_distances point (total_distance polyline) p0 (seq 1 resolution)) |}.
Proof.
  intros Hb Hres point. unfold trace_quad_bezier_to.
  destruct resolution as [|[|n]]; [lia|lia|].
  rewrite Hb. rewrite trace_curve_fold. reflexivity.
Qed.

Lemma trace_cubic_bezier_to_spec (polyline : Polyline F D) (p0 p1 c1 c2 : Vertex F)
      (resolution : nat) :
  back (vertices polyline) = Some p0 -> (1 < resolution)%nat ->
  let point := cubic_bezier_point p0 c1 c2 p1 (float_of_Z 1 / float_of_nat resolution)%float in
  trace_cubic_bezier_to polyline p1 c1 c2 resolution
  = Ok {| vertices := vertices polyline ++ map point (seq 1 resolution);
          distances := distances polyline
                       ++ fst (curve_distances point (total_distance polyline) p0
                                               (seq 1 resolution));
          total_distance :=
            snd (curve_distances point (total_distance polyline) p0 (seq 1 resolution)) |}.
Proof.
  intros Hb Hres point. unfold trace_cubic_bezier_to.
  destruct resolution as [|[|n]]; [lia|lia|].
  rewrite Hb. rewrite trace_curve_fold. reflexivity.
Qed.

End TraceCurveFacts.

(** ** Facts on binary32 *)

Module IEEEFacts.
Import IEEE.

(** Multiplying by [1.f] changes no binary32 value. *)
Lemma SFmul_one_l (f : spec_float) :
  valid f = true -> SFmul prec32 emax32 one f = f.
Proof.
  destruct f as [s|s| |s m e]; try reflexivity.
  unfold valid, valid_binary, SpecFloat.bounded, canonical_mantissa. intros Hb.
  apply andb_prop in Hb. destruct Hb as [Hc He].
  apply Z.eqb_eq in Hc. apply Z.leb_le in He.
  unfold one, SFmul. cbn [xorb Pos.mul].
  match goal with |- binary_round_aux _ _ _ (Z.pos ?q) _ _ = _ => set (m23 := q) end.
  assert (Hd : Zdigits2 (Z.pos m23) = (Z.pos (digits2_pos m) + 23)%Z).
  { unfold m23. cbn [Zdigits2 digits2_pos]. rewrite !Pos2Z.inj_succ. lia. }
  unfold binary_round_aux, shr_fexp. rewrite Hd.
  replace (Z.pos (digits2_pos m) + 23 + (-23 + e))%Z
    with (Z.pos (digits2_pos m) + e)%Z by lia.
  rewrite Hc. replace (e - (-23 + e))%Z with 23%Z by lia.
  unfold shr at 1. unfold m23.
  cbn [SpecFloat.iter_pos shr_1 shr_record_of_loc orb].
  cbn [shr_m loc_of_shr_record round_nearest_even Zdigits2].
  replace (-23 + e + 23)%Z with e by lia.
  rewrite Hc, Z.sub_diag. cbn [shr shr_m shr_record_of_loc].
  apply Z.leb_le in He. rewrite He. reflexivity.
Qed.

Lemma SFeqb_refl (f : spec_float) : is_nan f = false -> eqb f f = true.
Proof.
  destruct f as [s|s| |s m e]; intros H; try discriminate H.
  - reflexivity.
  - destruct s; reflexivity.
  - unfold eqb, SFeqb, SFcompare.
    rewrite Z.compare_refl, Pos.compare_cont_refl. destruct s; reflexivity.
Qed.

(** Where a curve is evaluated at [t = 1]: the weights of the other
    points are zeros, the weight of the end point is [1.f]. *)
Lemma curve_end_coord (s1 s2 : bool) (u v w : spec_float) :
  finite u = true -> finite v = true -> number w = true ->
  eqb (SFadd prec32 emax32
         (SFadd prec32 emax32 (SFmul prec32 emax32 (S754_zero s1) u)
                              (SFmul prec32 emax32 (S754_zero s2) v))
         (SFmul prec32 emax32 one w)) w = true.
Proof.
  unfold number. intros Hu Hv Hw. apply andb_prop in Hw. destruct Hw as [Hw Hn].
  apply negb_true_iff in Hn.
  rewrite (SFmul_one_l w Hw).
  assert (Hz : exists s, SFadd prec32 emax32 (SFmul prec32 emax32 (S754_zero s1) u)
                           (SFmul prec32 emax32 (S754_zero s2) v) = S754_zero s).
  { destruct u as [su|su| |su mu eu]; try discriminate Hu;
      destruct v as [sv|sv| |sv mv ev]; try discriminate Hv;
      cbn [SFmul]; unfold SFadd;
      destruct (xorb s1 su), (xorb s2 sv); eexists; reflexivity. }
  destruct Hz as [s ->].
  destruct w as [sw|sw| |sw mw ew]; try discriminate Hn.
  - destruct s, sw; reflexivity.
  - destruct sw; reflexivity.
  - cbn [SFadd]. apply SFeqb_refl. reflexivity.
Qed.

Lemma curve_end_coord3 (s1 s2 s3 : bool) (u v v' w : spec_float) :
  finite u = true -> finite v = true -> finite v' = true -> number w = true ->
  eqb (SFadd prec32 emax32
         (SFadd prec32 emax32
            (SFadd prec32 emax32 (SFmul prec32 emax32 (S754_zero s1) u)
                                 (SFmul prec32 emax32 (S754_zero s2) v))
            (SFmul prec32 emax32 (S754_zero s3) v'))
         (SFmul prec32 emax32 one w)) w = true.
Proof.
  unfold number. intros Hu Hv Hv' Hw. apply andb_prop in Hw. destruct Hw as [Hw Hn].
  apply negb_true_iff in Hn.
  rewrite (SFmul_one_l w Hw).
  assert (Hz : exists s,
             SFadd prec32 emax32
               (SFadd prec32 emax32 (SFmul prec32 emax32 (S754_zero s1) u)
                                    (SFmul prec32 emax32 (S754_zero s2) v))
               (SFmul prec32 emax32 (S754_zero s3) v') = S754_zero s).
  { destruct u as [su|su| |su mu eu]; try discriminate Hu;
      destruct v as [sv|sv| |sv mv ev]; try discriminate Hv;
      destruct v' as [sv'|sv'| |sv' mv' ev']; try discriminate Hv';
      cbn [SFmul]; unfold SFadd;
      destruct (xorb s1 su), (xorb s2 sv), (xorb s3 sv'); eexists; reflexivity. }
  destruct Hz as [s ->].
  destruct w as [sw|sw| |sw mw ew]; try discriminate Hn.
  - destruct s, sw; reflexivity.
  - destruct sw; reflexivity.
  - cbn [SFadd]. apply SFeqb_refl. reflexivity.
Qed.

(** The last point of a traced curve, when [resolution * delta_t] is
    [1.f]: it compares equal to the end point. *)
Lemma curve_end (p0 c1 c2 p1 : Vertex spec_float) (resolution : nat) :
  (float_of_nat resolution * (float_of_Z 1 / float_of_nat resolution))%float = one ->
  finite_vertex p0 = true -> finite_vertex c1 = true -> finite_vertex c2 = true ->
  number_vertex p1 = true ->
  let delta_t := (float_of_Z 1 / float_of_nat resolution)%float in
  veqb (quad_bezier_point p0 c1 p1 delta_t resolution) p1 = true
  /\ veqb (cubic_bezier_point p0 c1 c2 p1 delta_t resolution) p1 = true.
Proof.
  intros Ht H0 H1 H2 Hp delta_t.
  unfold finite_vertex, number_vertex in *.
  apply andb_prop in H0, H1, H2, Hp.
  destruct H0 as [H0x H0y], H1 as [H1x H1y], H2 as [H2x H2y], Hp as [Hpx Hpy].
  unfold quad_bezier_point, cubic_bezier_point, delta_t. rewrite Ht.
  unfold veqb, vadd, smul. cbn [x y].
  split; apply andb_true_intro; split.
  - apply (curve_end_coord false false); assumption.
  - apply (curve_end_coord false false); assumption.
  - apply (curve_end_coord3 false false false); assumption.
  - apply (curve_end_coord3 false false false); assumption.
Qed.
End IEEEFacts.

(** ** Facts on curves in exact arithmetic *)

Module ExactFacts.
Import Exact.
Local Open Scope R_scope.

Lemma IZR_of_nat_pos (n : nat) : (0 < n)%nat -> 0 < IZR (Z.of_nat n).
Proof. intros H. apply IZR_lt. lia. Qed.

(** The loops evaluate the Bernstein form at [t = i / resolution]. *)
Lemma quad_bezier_point_bernstein (p0 c1 p1 : Vertex R) (resolution i : nat) :
  (0 < resolution)%nat ->
  quad_bezier_point p0 c1 p1 (float_of_Z 1 / float_of_nat resolution)%float i
  = quad_bernstein p0 c1 p1 (IZR (Z.of_nat i) / IZR (Z.of_nat resolution)).
Proof.
  intros H. apply IZR_of_nat_pos in H.
  unfold quad_bezier_point, quad_bernstein, vadd, smul, float_of_nat. cbn.
  f_equal; field; lra.
Qed.

Lemma cubic_bezier_point_bernstein (p0 c1 c2 p1 : Vertex R) (resolution i : nat) :
  (0 < resolution)%nat ->
  cubic_bezier_point p0 c1 c2 p1 (float_of_Z 1 / float_of_nat resolution)%float i
  = cubic_bernstein p0 c1 c2 p1 (IZR (Z.of_nat i) / IZR (Z.of_nat resolution)).
Proof.
  intros H. apply IZR_of_nat_pos in H.
  unfold cubic_bezier_point, cubic_bernstein, vadd, smul, float_of_nat. cbn.
  f_equal; field; lra.
Qed.

Lemma quad_bernstein_1 (p0 c1 p1 : Vertex R) : quad_bernstein p0 c1 p1 1 = p1.
Proof. unfold quad_bernstein. destruct p1 as [a b]. cbn. f_equal; ring. Qed.

Lemma cubic_bernstein_1 (p0 c1 c2 p1 : Vertex R) : cubic_bernstein p0 c1 c2 p1 1 = p1.
Proof. unfold cubic_bernstein. destruct p1 as [a b]. cbn. f_equal; ring. Qed.
End ExactFacts.

(** ** C4: tracing curves *)

(** The claim of C4 fails in binary32, in its last part.  With a control
    point that is not finite the last vertex is not near the end point:
    "M 0,0 Q 1e39,0 10,0" reads the control point (+inf, 0), and the curve
    traced with the tracer's resolution 12 ends at (NaN, 0), not at
    (10, 0).  With finite points and a resolution for which
    [resolution * (1 / resolution)] does not round to 1, the last vertex is
    off by a multiple of the control point: for resolution 41 the last
    parameter is [1 - 2 ^ -24], and the curve from (0,0) to (3,1) with the
    control point (1000000000, 1000000000) ends beyond (100, 100). *)
Lemma C4_counterexample :
  (exists (self self' : le_path_o spec_float spec_float)
          (polyline : Polyline spec_float spec_float) (last : Vertex spec_float),
      le_path_add_from_simplified_svg IEEE.strtof le_path_create
                                      "M 0,0 Q 1e39,0 10,0" []
      = Ok (self, [])
      /\ le_path_trace_path self = Ok self'
      /\ polylines self' = [polyline]
      /\ length (vertices polyline) = 13%nat
      /\ back (vertices polyline) = Some last
      /\ IEEE.is_nan (x last) = true
      /\ IEEE.veqb last (IEEE.vertex 10 0) = false)
  /\ IEEE.last_parameter 41 = S754_finite false 16777215 (-24)
  /\ IEEE.eqb (IEEE.last_parameter 41) IEEE.one = false
  /\ (exists (quad : Polyline spec_float spec_float) (last : Vertex spec_float),
         trace_quad_bezier_to (trace_move_to Polyline_new (IEEE.vertex 0 0))
                              (IEEE.vertex 3 1) (IEEE.vertex 1000000000 1000000000) 41
         = Ok quad
         /\ back (vertices quad) = Some last
         /\ IEEE.ltb (IEEE.of_Z 100) (x last) = true
         /\ IEEE.ltb (IEEE.of_Z 100) (y last) = true).
Proof.
  split; [|split; [|split]].
  - set (r := match le_path_add_from_simplified_svg IEEE.strtof
                      (le_path_create : le_path_o spec_float spec_float)
                      "M 0,0 Q 1e39,0 10,0" [] with
              | Ok st => fst st
              | Err _ => le_path_create
              end).
    set (r' := match le_path_trace_path r with
               | Ok self' => self'
               | Err _ => le_path_create
               end).
    exists r, r', (hd Polyline_new (polylines r')),
           (match back (vertices (hd Polyline_new (polylines r'))) with
            | Some v => v
            | None => vzero
            end).
    repeat (split; [vm_compute; reflexivity|]).
    vm_compute. reflexivity.
  - vm_compute. reflexivity.
  - vm_compute. reflexivity.
  - set (q := match trace_quad_bezier_to
                      (trace_move_to (Polyline_new : Polyline spec_float spec_float)
                                     (IEEE.vertex 0 0))
                      (IEEE.vertex 3 1) (IEEE.vertex 1000000000 1000000000) 41 with
              | Ok quad => quad
              | Err _ => Polyline_new
              end).
    exists q, (match back (vertices q) with Some v => v | None => vzero end).
    repeat (split; [vm_compute; reflexivity|]).
    vm_compute. reflexivity.
Qed.

(** C4, amended.  A quadratic or cubic curve traced with [resolution > 1]
    onto a polyline whose last vertex is [p0] adds exactly [resolution]
    vertices and as many distances: the points the loop evaluates for
    [i = 1 .. resolution], the start point not among them; this holds for
    every arithmetic, binary32 included.  In exact arithmetic point [i] is
    the Bernstein form at [t = i / resolution] and the last one is the end
    point of the command.  In binary32 the last point compares equal to
    the end point when [resolution * (1 / resolution)] rounds to 1 (as it
    does for the tracer's 12), the start point and the control points are
    finite and the end point is not NaN. *)
Theorem C4_trace_curve_vertices :
  (forall (F D : Type) (A : Arith F D) (polyline : Polyline F D)
          (p0 p1 c1 c2 : Vertex F) (resolution : nat),
      back (vertices polyline) = Some p0 ->
      (1 < resolution)%nat ->
      let delta_t := (float_of_Z 1 / float_of_nat resolution)%float in
      exists quad cubic : Polyline F D,
        trace_quad_bezier_to polyline p1 c1 resolution = Ok quad
        /\ trace_cubic_bezier_to polyline p1 c1 c2 resolution = Ok cubic
        /\ vertices quad
           = vertices polyline
             ++ map (quad_bezier_point p0 c1 p1 delta_t) (seq 1 resolution)
        /\ vertices cubic
           = vertices polyline
             ++ map (cubic_bezier_point p0 c1 c2 p1 delta_t) (seq 1 resolution)
        /\ length (vertices quad) = (length (vertices polyline) + resolution)%nat
        /\ length (vertices cubic) = (length (vertices polyline) + resolution)%nat
        /\ length (distances quad) = (length (distances polyline) + resolution)%nat
        /\ length (distances cubic) = (length (distances polyline) + resolution)%nat
        /\ back (vertices quad) = Some (quad_bezier_point p0 c1 p1 delta_t resolution)
        /\ back (vertices cubic)
           = Some (cubic_bezier_point p0 c1 c2 p1 delta_t resolution))
  /\ (forall (p0 p1 c1 c2 : (Vertex R)) (resolution i : nat),
         (1 < resolution)%nat ->
         let delta_t := (float_of_Z 1 / float_of_nat resolution)%float in
         let t := (IZR (Z.of_nat i) / IZR (Z.of_nat resolution))%R in
         quad_bezier_point p0 c1 p1 delta_t i = Exact.quad_bernstein p0 c1 p1 t
         /\ cubic_bezier_point p0 c1 c2 p1 delta_t i = Exact.cubic_bernstein p0 c1 c2 p1 t
         /\ quad_bezier_point p0 c1 p1 delta_t resolution = p1
         /\ cubic_bezier_point p0 c1 c2 p1 delta_t resolution = p1)
  /\ (forall (p0 p1 c1 c2 : (Vertex spec_float)) (resolution : nat),
         IEEE.last_parameter resolution = IEEE.one ->
         IEEE.finite_vertex p0 = true ->
         IEEE.finite_vertex c1 = true ->
         IEEE.finite_vertex c2 = true ->
         IEEE.number_vertex p1 = true ->
         let delta_t := (float_of_Z 1 / float_of_nat resolution)%float in
         IEEE.veqb (quad_bezier_point p0 c1 p1 delta_t resolution) p1 = true
         /\ IEEE.veqb (cubic_bezier_point p0 c1 c2 p1 delta_t resolution) p1 = true).
Proof.
  split; [|split].
  - intros F D A polyline p0 p1 c1 c2 resolution Hb Hres delta_t.
    eexists. eexists.
    split; [apply (trace_quad_bezier_to_spec polyline p0 p1 c1 resolution Hb Hres)|].
    split; [apply (trace_cubic_bezier_to_spec polyline p0 p1 c1 c2 resolution Hb Hres)|].
    cbn [vertices distances].
    rewrite !length_app, !length_map, !curve_distances_length, !length_seq.
    repeat split.
    + destruct resolution as [|n]; [lia|].
      rewrite seq_S, map_app, app_assoc. apply (back_emplace_back _ _).
    + destruct resolution as [|n]; [lia|].
      rewrite seq_S, map_app, app_assoc. apply (back_emplace_back _ _).
  - intros p0 p1 c1 c2 resolution i Hres delta_t t.
    assert (Hpos : (0 < resolution)%nat) by lia.
    assert (Hone : (IZR (Z.of_nat resolution) / IZR (Z.of_nat resolution))%R = 1%R).
    { apply ExactFacts.IZR_of_nat_pos in Hpos. field. lra. }
    unfold delta_t, t.
    rewrite !ExactFacts.quad_bezier_point_bernstein, !ExactFacts.cubic_bezier_point_bernstein
      by exact Hpos.
    rewrite Hone, ExactFacts.quad_bernstein_1, ExactFacts.cubic_bernstein_1.
    repeat split.
  - intros p0 p1 c1 c2 resolution Ht H0 H1 H2 Hp.
    exact (IEEEFacts.curve_end p0 c1 c2 p1 resolution Ht H0 H1 H2 Hp).
Qed.

(** A quadratic curve from (0,0) over (5,10) to (10,0), traced in binary32
    with the tracer's resolution: twelve new vertices, the last one the end
    point; [12 * (1 / 12)] rounds to 1. *)
Lemma C4_witness :
  let polyline : Polyline spec_float spec_float :=
    trace_move_to Polyline_new (IEEE.vertex 0 0) in
  (exists quad : Polyline spec_float spec_float,
      trace_quad_bezier_to polyline (IEEE.vertex 10 0) (IEEE.vertex 5 10) trace_resolution
      = Ok quad
      /\ length (vertices quad) = 13%nat
      /\ back (vertices quad) = Some (IEEE.vertex 10 0))
  /\ IEEE.last_parameter trace_resolution = IEEE.one
  /\ IEEE.veqb (cubic_bezier_point (IEEE.vertex 0 0) (IEEE.vertex 5 10)
                                   (IEEE.vertex 7 (-10)) (IEEE.vertex 10 0)
                                   (float_of_Z 1 / float_of_nat trace_resolution)%float
                                   trace_resolution)
               (IEEE.vertex 10 0) = true.
Proof.
  intros polyline. split; [|split].
  - destruct (proj1 C4_trace_curve_vertices _ _ IEEE.arith polyline
                (IEEE.vertex 0 0) (IEEE.vertex 10 0) (IEEE.vertex 5 10) (IEEE.vertex 5 10)
                trace_resolution eq_refl ltac:(unfold trace_resolution; lia))
      as (quad & cubic & Hq & _ & _ & _ & Hn & _ & _ & _ & Hb & _).
    exists quad. split; [exact Hq|]. split; [exact Hn|].
    rewrite Hb. vm_compute. reflexivity.
  - reflexivity.
  - exact (proj2 (proj2 (proj2 C4_trace_curve_vertices) (IEEE.vertex 0 0)
                    (IEEE.vertex 10 0) (IEEE.vertex 5 10) (IEEE.vertex 7 (-10))
                    trace_resolution eq_refl eq_refl eq_refl eq_refl eq_refl)).
Defined.

(** ** Facts on well-formed paths *)

Section TraceWellFormed.
Context {F D : Type} {A : Arith F D}.

Lemma traced_ok_back (polyline : Polyline F D) :
  traced_ok polyline -> exists last, back (vertices polyline) = Some last.
Proof.
  intros (Hne & _ & _). destruct (back (vertices polyline)) eqn:E.
  - eexists; reflexivity.
  - apply back_None in E. contradiction.
Qed.

Lemma traced_ok_front (polyline : Polyline F D) :
  traced_ok polyline -> exists first, front (vertices polyline) = Some first.
Proof.
  intros (Hne & _ & _). destruct (vertices polyline); [contradiction|].
  eexists; reflexivity.
Qed.

(** Adding vertices and as many distances to a traced polyline. *)
Lemma traced_ok_extend (polyline : Polyline F D) (vs : list (Vertex F)) (ds : list F)
      (total : D) :
  traced_ok polyline -> length vs = length ds ->
  traced_ok {| vertices := vertices polyline ++ vs;
               distances := distances polyline ++ ds;
               total_distance := total |}.
Proof.
  intros (Hne & Hlen & Hhd) Hl. unfold traced_ok. cbn [vertices distances].
  split; [|split].
  - destruct (vertices polyline); [contradiction|discriminate].
  - rewrite !length_app. lia.
  - destruct (distances polyline); [discriminate|exact Hhd].
Qed.

Lemma trace_line_to_ok (polyline : Polyline F D) (q : Vertex F) :
  traced_ok polyline ->
  exists polyline', trace_line_to polyline q = Ok polyline' /\ traced_ok polyline'.
Proof.
  intros Hok. destruct (traced_ok_back polyline Hok) as [last Hlast].
  rewrite (trace_line_to_spec polyline q last Hlast). eexists. split; [reflexivity|].
  apply (traced_ok_extend polyline [q] [_] _ Hok). reflexivity.
Qed.

(** A drawing command on a traced polyline: no fault, and the invariant
    stays.  With [resolution = 1] the cubic branch adds a vertex without a
    distance, so that case is left out. *)
Lemma trace_command_ok (resolution : nat) (polyline : Polyline F D) (c : PathCommand F) :
  resolution <> 1%nat -> is_drawing c = true -> traced_ok polyline ->
  exists polyline',
    trace_command resolution polyline c = Ok polyline' /\ traced_ok polyline'.
Proof.
  intros Hres Hc Hok. unfold is_drawing in Hc. unfold trace_command.
  destruct (traced_ok_back polyline Hok) as [last Hlast].
  destruct (type c); try discriminate Hc.
  - apply trace_line_to_ok; exact Hok.
  - destruct resolution as [|[|n]]; [exists polyline; split; [reflexivity|exact Hok]|lia|].
    rewrite (trace_quad_bezier_to_spec polyline last (p c) (c1 c) (S (S n)) Hlast)
      by lia.
    eexists. split; [reflexivity|]. apply traced_ok_extend; [exact Hok|].
    rewrite length_map, curve_distances_length. reflexivity.
  - destruct resolution as [|[|n]]; [exists polyline; split; [reflexivity|exact Hok]|lia|].
    rewrite (trace_cubic_bezier_to_spec polyline last (p c) (c1 c) (c2 c) (S (S n)) Hlast)
      by lia.
    eexists. split; [reflexivity|]. apply traced_ok_extend; [exact Hok|].
    rewrite length_map, curve_distances_length. reflexivity.
  - unfold trace_close_path. destruct (traced_ok_front polyline Hok) as [first ->].
    apply trace_line_to_ok; exact Hok.
Qed.

Lemma trace_commands_ok (resolution : nat) (cs : list (PathCommand F)) :
  resolution <> 1%nat -> forallb is_drawing cs = true ->
  forall polyline, traced_ok polyline ->
  exists polyline',
    foldM (trace_command resolution) cs polyline = Ok polyline' /\ traced_ok polyline'.
Proof.
  intros Hres. induction cs as [|c cs IH]; intros Hcs polyline Hok.
  - exists polyline. split; [reflexivity|exact Hok].
  - simpl in Hcs. apply andb_prop in Hcs. destruct Hcs as [Hc Hcs].
    destruct (trace_command_ok resolution polyline c Hres Hc Hok) as (q & Hq & Hokq).
    simpl foldM. rewrite Hq. simpl bind. apply IH; assumption.
Qed.

Lemma trace_move_to_new_ok (q : Vertex F) : traced_ok (trace_move_to Polyline_new q).
Proof. unfold traced_ok. cbn. repeat split. discriminate. Qed.

Lemma wf_subpath_inv (s : SubPath F) :
  wf_subpath s = true ->
  exists m rest, commands s = m :: rest /\ type m = eMoveTo
                 /\ forallb is_drawing rest = true.
Proof.
  unfold wf_subpath. destruct (commands s) as [|m rest]; [discriminate|].
  intros H. apply andb_prop in H. destruct H as [Hm Hrest].
  exists m, rest. repeat split; [|exact Hrest].
  unfold is_move in Hm. destruct (type m); try discriminate Hm. reflexivity.
Qed.

Lemma trace_subpath_ok (resolution : nat) (s : SubPath F) :
  resolution <> 1%nat -> wf_subpath s = true ->
  exists polyline, trace_subpath resolution s = Ok polyline /\ traced_ok polyline.
Proof.
  intros Hres Hwf. destruct (wf_subpath_inv s Hwf) as (m & rest & Hs & Hm & Hrest).
  unfold trace_subpath. rewrite Hs. simpl foldM. unfold trace_command at 1.
  rewrite Hm. simpl bind.
  destruct (trace_commands_ok resolution rest Hres Hrest _ (trace_move_to_new_ok (p m)))
    as (polyline & Hrun & Hok).
  exists polyline. rewrite Hrun. simpl bind.
  destruct Hok as (Hne & Hlen & Hhd).
  replace (length (vertices polyline) =? length (distances polyline))%nat
    with true by (symmetry; apply Nat.eqb_eq; exact Hlen).
  split; [reflexivity|]. repeat split; assumption.
Qed.

Lemma mapM_Forall (B C : Type) (f : B -> Result C) (P : C -> Prop) (l : list B) :
  (forall b, In b l -> exists c, f b = Ok c /\ P c) ->
  exists cs, mapM f l = Ok cs /\ length cs = length l /\ Forall P cs.
Proof.
  induction l as [|b l IH]; intros H.
  - exists []. repeat split. constructor.
  - destruct (H b (or_introl eq_refl)) as (c & Hc & HP).
    destruct IH as (cs & Hcs & Hlen & HF); [intros b' Hb'; apply H; right; exact Hb'|].
    exists (c :: cs). simpl. rewrite Hc. simpl. rewrite Hcs. simpl.
    repeat split; [rewrite Hlen; reflexivity|constructor; assumption].
Qed.
End TraceWellFormed.

(** ** Rounding in binary32 and binary64 *)

Module RoundingFacts.
Import Rounding IEEE.
Local Open Scope Z_scope.


(** The number of binary digits. *)
Lemma digits2_pos_size (m : positive) : digits2_pos m = Pos.size m.
Proof. induction m; simpl; congruence. Qed.

Lemma digits2_lower (m : positive) : 2 ^ (Zpos (digits2_pos m) - 1) <= Zpos m.
Proof.
  rewrite digits2_pos_size.
  pose proof (Pos.size_le m) as H.
  assert (H' : (2 ^ Pos.size m <= m~0)%positive) by exact H.
  apply Pos2Z.pos_le_pos in H'. rewrite Pos2Z.inj_pow in H'.
  replace (Zpos (Pos.size m)) with (Zpos (Pos.size m) - 1 + 1) in H' by lia.
  rewrite Z.pow_add_r in H' by lia. change (2 ^ 1) with 2 in H'. lia.
Qed.

Lemma digits2_upper (m : positive) : Zpos m < 2 ^ Zpos (digits2_pos m).
Proof.
  rewrite digits2_pos_size.
  pose proof (Pos.size_gt m) as H.
  apply Pos2Z.pos_lt_pos in H. rewrite Pos2Z.inj_pow in H. exact H.
Qed.

(** digits are determined by the binade *)
Lemma digits2_unique (m : positive) (d : Z) :
  2 ^ (d - 1) <= Zpos m < 2 ^ d -> Zpos (digits2_pos m) = d.
Proof.
  intros [Hlo Hhi].
  pose proof (digits2_lower m) as H1. pose proof (digits2_upper m) as H2.
  set (d' := Zpos (digits2_pos m)) in *.
  assert (Hd' : 0 < d') by (unfold d'; lia).
  destruct (Z_lt_le_dec d d') as [Hlt|Hge].
  - assert (2 ^ d <= 2 ^ (d' - 1)).
    { destruct (Z_lt_le_dec d 0).
      - rewrite (Z.pow_neg_r 2 d) by lia. apply Z.pow_nonneg. lia.
      - apply Z.pow_le_mono_r; lia. }
    lia.
  - destruct (Z.eq_dec d d') as [|Hne]; [lia|].
    assert (2 ^ d' <= 2 ^ (d - 1)) by (apply Z.pow_le_mono_r; lia).
    lia.
Qed.

(** Shifting left. *)
Lemma iter_xO (d m : positive) : Zpos (Pos.iter xO m d) = Zpos m * 2 ^ Zpos d.
Proof.
  rewrite Pos2Nat.inj_iter. rewrite <- (positive_nat_Z d).
  induction (Pos.to_nat d) as [|n IH].
  - simpl. lia.
  - rewrite Nat2Z.inj_succ, Z.pow_succ_r by lia. simpl nat_rect.
    rewrite Pos2Z.inj_xO, IH. lia.
Qed.


Lemma pow2_pos (K : Z) : 0 <= K -> 0 < 2 ^ K.
Proof. intros H. apply Z.pow_pos_nonneg; lia. Qed.

Lemma rne_bounds (X K : Z) : 0 <= K -> X / 2 ^ K <= rne X K <= X / 2 ^ K + 1.
Proof.
  intros HK. unfold rne.
  destruct (2 * (X mod 2 ^ K) ?= 2 ^ K); try lia.
  destruct (Z.even _); lia.
Qed.

Lemma rne_exact (A K : Z) : 0 <= K -> rne (A * 2 ^ K) K = A.
Proof.
  intros HK. pose proof (pow2_pos K HK) as HP. unfold rne.
  rewrite Z.div_mul, Z.mod_mul by lia.
  assert (H : (2 * 0 ?= 2 ^ K) = Lt) by (apply Z.compare_lt_iff; lia).
  rewrite H. reflexivity.
Qed.

Lemma rne_0 (X : Z) : rne X 0 = X.
Proof.
  rewrite <- (Z.mul_1_r X) at 1. change 1 with (2 ^ 0) at 1.
  apply rne_exact. lia.
Qed.

Lemma rne_mono (X1 X2 K : Z) : 0 <= K -> X1 <= X2 -> rne X1 K <= rne X2 K.
Proof.
  intros HK HX. pose proof (pow2_pos K HK) as HP.
  assert (Hq : X1 / 2 ^ K <= X2 / 2 ^ K) by (apply Z.div_le_mono; lia).
  pose proof (Z.div_mod X1 (2 ^ K) ltac:(lia)) as E1.
  pose proof (Z.div_mod X2 (2 ^ K) ltac:(lia)) as E2.
  pose proof (Z.mod_pos_bound X1 (2 ^ K) HP) as B1.
  pose proof (Z.mod_pos_bound X2 (2 ^ K) HP) as B2.
  unfold rne.
  set (P := 2 ^ K) in *. set (q1 := X1 / P) in *. set (q2 := X2 / P) in *.
  set (r1 := X1 mod P) in *. set (r2 := X2 mod P) in *.
  destruct (Z.eq_dec q1 q2) as [Heq|Hne].
  - assert (Hr : r1 <= r2) by (rewrite Heq in E1; lia).
    destruct (Z.compare_spec (2 * r1) P) as [C1|C1|C1];
      destruct (Z.compare_spec (2 * r2) P) as [C2|C2|C2];
      rewrite ?Heq; destruct (Z.even q2); lia.
  - assert (q1 + 1 <= q2) by lia.
    destruct (2 * r1 ?= P); destruct (2 * r2 ?= P);
      destruct (Z.even q1); destruct (Z.even q2); lia.
Qed.

Lemma rne_scale (X K j : Z) : 0 <= K -> 0 <= j -> rne (X * 2 ^ j) (K + j) = rne X K.
Proof.
  intros HK Hj. pose proof (pow2_pos K HK) as HP. pose proof (pow2_pos j Hj) as HJ.
  unfold rne. rewrite Z.pow_add_r by lia.
  rewrite Z.div_mul_cancel_r by lia.
  rewrite Z.mul_mod_distr_r by lia.
  replace (2 * (X mod 2 ^ K * 2 ^ j)) with (2 * (X mod 2 ^ K) * 2 ^ j) by ring.
  rewrite <- (Zmult_compare_compat_r (2 * (X mod 2 ^ K)) (2 ^ K) (2 ^ j)) by lia.
  reflexivity.
Qed.

Lemma rne_nonneg (X K : Z) : 0 <= K -> 0 <= X -> 0 <= rne X K.
Proof.
  intros HK HX. pose proof (rne_bounds X K HK).
  assert (0 <= X / 2 ^ K) by (apply Z.div_pos; [lia|apply pow2_pos; lia]). lia.
Qed.

(** Shifting right, one bit at a time, with the round and sticky bits. *)
Lemma iter_pos_nat {A : Type} (f : A -> A) (p : positive) (x : A) :
  SpecFloat.iter_pos f p x = Nat.iter (Pos.to_nat p) f x.
Proof.
  revert x. induction p as [p IH|p IH|]; intros x; simpl SpecFloat.iter_pos.
  - rewrite !IH, Pos2Nat.inj_xI. rewrite <- Nat.iter_add, <- Nat.iter_succ_r.
    f_equal. lia.
  - rewrite !IH, Pos2Nat.inj_xO. rewrite <- Nat.iter_add. f_equal. lia.
  - reflexivity.
Qed.

Lemma shr_1_nonneg (m : Z) (r s : bool) :
  0 <= m ->
  shr_1 {| shr_m := m; shr_r := r; shr_s := s |}
  = {| shr_m := m / 2; shr_r := Z.odd m; shr_s := r || s |}.
Proof.
  intros Hm. rewrite <- Z.div2_div.
  destruct m as [|[p|p|]|p]; try reflexivity. lia.
Qed.

Lemma shr_iter (m : Z) (k : nat) :
  0 <= m ->
  Nat.iter (S k) shr_1 {| shr_m := m; shr_r := false; shr_s := false |}
  = {| shr_m := m / 2 ^ (Z.of_nat k + 1);
       shr_r := Z.odd (m / 2 ^ Z.of_nat k);
       shr_s := negb (m mod 2 ^ Z.of_nat k =? 0) |}.
Proof.
  intros Hm. induction k as [|k IH].
  - rewrite Nat.iter_succ. change (Nat.iter 0 shr_1 ?x) with x.
    rewrite shr_1_nonneg by exact Hm.
    change (2 ^ (Z.of_nat 0 + 1)) with 2. change (2 ^ Z.of_nat 0) with 1.
    rewrite Z.div_1_r, Z.mod_1_r. reflexivity.
  - rewrite Nat.iter_succ, IH.
    assert (HP : 0 < 2 ^ Z.of_nat k) by (apply pow2_pos; lia).
    rewrite shr_1_nonneg by (apply Z.div_pos; [lia|apply pow2_pos; lia]).
    rewrite Nat2Z.inj_succ.
    f_equal.
    + assert (0 < 2 ^ (Z.of_nat k + 1)) by (apply pow2_pos; lia).
      rewrite Z.div_div by lia. f_equal.
      replace (Z.succ (Z.of_nat k) + 1) with (Z.succ (Z.of_nat k + 1)) by lia.
      rewrite Z.pow_succ_r by lia. lia.
    + rewrite Z.pow_succ_r by lia.
      rewrite (Z.mul_comm 2), Z.rem_mul_r by lia.
      pose proof (Z.mod_pos_bound m (2 ^ Z.of_nat k) HP) as B.
      rewrite Zodd_mod.
      pose proof (Z.mod_pos_bound (m / 2 ^ Z.of_nat k) 2 ltac:(lia)) as B2.
      destruct (Z.eqb_spec ((m / 2 ^ Z.of_nat k) mod 2) 1) as [E1|E1];
        destruct (Z.eqb_spec (m mod 2 ^ Z.of_nat k) 0) as [E2|E2];
        simpl; symmetry.
      * apply negb_true_iff, Z.eqb_neq. rewrite E1, E2. lia.
      * apply negb_true_iff, Z.eqb_neq. rewrite E1. lia.
      * apply negb_false_iff, Z.eqb_eq.
        replace ((m / 2 ^ Z.of_nat k) mod 2) with 0 by lia. lia.
      * apply negb_true_iff, Z.eqb_neq.
        replace ((m / 2 ^ Z.of_nat k) mod 2) with 0 by lia. lia.
Qed.

Lemma shr_rne (m : Z) (p : positive) :
  0 <= m ->
  let mrs := SpecFloat.iter_pos shr_1 p {| shr_m := m; shr_r := false; shr_s := false |} in
  round_nearest_even (shr_m mrs) (loc_of_shr_record mrs) = rne m (Zpos p).
Proof.
  intros Hm mrs. unfold mrs. rewrite iter_pos_nat.
  destruct (Pos2Nat.is_succ p) as [k Hk]. rewrite Hk.
  rewrite shr_iter by exact Hm.
  assert (Hp : Zpos p = Z.of_nat k + 1) by lia.
  rewrite Hp. cbn [shr_m loc_of_shr_record].
  assert (HP : 0 < 2 ^ Z.of_nat k) by (apply pow2_pos; lia).
  unfold rne.
  replace (2 ^ (Z.of_nat k + 1)) with (2 ^ Z.of_nat k * 2)
    by (rewrite Z.pow_add_r by lia; reflexivity).
  rewrite (Z.rem_mul_r m (2 ^ Z.of_nat k) 2) by lia.
  pose proof (Z.mod_pos_bound m (2 ^ Z.of_nat k) HP) as B.
  pose proof (Z.mod_pos_bound (m / 2 ^ Z.of_nat k) 2 ltac:(lia)) as B2.
  rewrite Zodd_mod.
  set (P := 2 ^ Z.of_nat k) in *. set (lo := m mod P) in *.
  set (b := (m / P) mod 2) in *.
  destruct (Z.eqb_spec b 1) as [E1|E1];
    destruct (Z.eqb_spec lo 0) as [E2|E2]; cbn [negb round_nearest_even].
  - replace (2 * (lo + P * b) ?= P * 2) with Eq; [reflexivity|].
    symmetry. apply Z.compare_eq_iff. lia.
  - replace (2 * (lo + P * b) ?= P * 2) with Gt; [reflexivity|].
    symmetry. apply Z.compare_gt_iff. lia.
  - replace (2 * (lo + P * b) ?= P * 2) with Lt; [reflexivity|].
    symmetry. apply Z.compare_lt_iff. assert (b = 0) by lia. nia.
  - replace (2 * (lo + P * b) ?= P * 2) with Lt; [reflexivity|].
    symmetry. apply Z.compare_lt_iff. assert (b = 0) by lia. nia.
Qed.

Lemma Zdigits2_unique (M d : Z) :
  2 ^ (d - 1) <= M < 2 ^ d -> 0 < d -> Zdigits2 M = d.
Proof.
  intros HM Hd.
  assert (0 < 2 ^ (d - 1)) by (apply pow2_pos; lia).
  destruct M as [|p|p]; try lia.
  simpl. apply digits2_unique. exact HM.
Qed.

Lemma Zdigits2_le (M d : Z) : 0 < M -> M < 2 ^ d -> 0 <= d -> 0 < Zdigits2 M <= d.
Proof.
  intros HM Hlt Hd. destruct M as [|p|p]; try lia.
  simpl. pose proof (digits2_lower p) as Hlo. split; [lia|].
  assert (Hp : 2 ^ (Zpos (digits2_pos p) - 1) < 2 ^ d) by lia.
  apply Z.pow_lt_mono_r_iff in Hp; lia.
Qed.

Lemma Zdigits2_bounds (M : Z) :
  0 < M -> 2 ^ (Zdigits2 M - 1) <= M < 2 ^ Zdigits2 M.
Proof.
  intros HM. destruct M as [|p|p]; try lia. simpl.
  split; [apply digits2_lower|apply digits2_upper].
Qed.

(** Values [M * 2 ^ E], compared at a common scale [c]. *)
Lemma scaled_le_lower (M1 M2 E1 E2 c c0 : Z) :
  c <= c0 -> c0 <= E1 -> c0 <= E2 ->
  (M1 * 2 ^ (E1 - c0) <= M2 * 2 ^ (E2 - c0)
   <-> M1 * 2 ^ (E1 - c) <= M2 * 2 ^ (E2 - c)).
Proof.
  intros H0 H1 H2.
  assert (HP : 0 < 2 ^ (c0 - c)) by (apply pow2_pos; lia).
  replace (E1 - c) with (E1 - c0 + (c0 - c)) by lia.
  replace (E2 - c) with (E2 - c0 + (c0 - c)) by lia.
  rewrite !Z.pow_add_r by lia. rewrite !Z.mul_assoc.
  split; intros H.
  - apply Z.mul_le_mono_nonneg_r; lia.
  - apply Z.mul_le_mono_pos_r in H; lia.
Qed.

Lemma mag_le (M1 M2 E1 E2 c : Z) :
  0 < M1 -> 0 < M2 -> c <= E1 -> c <= E2 ->
  M1 * 2 ^ (E1 - c) <= M2 * 2 ^ (E2 - c) ->
  Zdigits2 M1 + E1 <= Zdigits2 M2 + E2.
Proof.
  intros H1 H2 Hc1 Hc2 Hle.
  pose proof (Zdigits2_bounds M1 H1) as [L1 U1].
  pose proof (Zdigits2_bounds M2 H2) as [L2 U2].
  assert (D1 : 0 < Zdigits2 M1) by (destruct M1; simpl; lia).
  assert (D2 : 0 < Zdigits2 M2) by (destruct M2; simpl; lia).
  destruct (Z_le_gt_dec (Zdigits2 M1 + E1) (Zdigits2 M2 + E2)) as [|Hgt]; [assumption|].
  exfalso.
  assert (P1 : 0 < 2 ^ (E1 - c)) by (apply pow2_pos; lia).
  assert (P2 : 0 < 2 ^ (E2 - c)) by (apply pow2_pos; lia).
  assert (A : 2 ^ (Zdigits2 M1 - 1) * 2 ^ (E1 - c) <= M1 * 2 ^ (E1 - c))
    by (apply Z.mul_le_mono_nonneg_r; lia).
  assert (B : M2 * 2 ^ (E2 - c) < 2 ^ Zdigits2 M2 * 2 ^ (E2 - c))
    by (apply Z.mul_lt_mono_pos_r; lia).
  rewrite <- Z.pow_add_r in A, B by lia.
  assert (C : 2 ^ (Zdigits2 M2 + (E2 - c)) <= 2 ^ (Zdigits2 M1 - 1 + (E1 - c)))
    by (apply Z.pow_le_mono_r; lia).
  lia.
Qed.

Section FormatFacts.
Variables prec emax : Z.
Hypothesis Hprec : 0 < prec.





Lemma round_exponent_emin (m : positive) (e : Z) :
  emin prec emax <= round_exponent prec emax m e.
Proof. unfold round_exponent, fexp. lia. Qed.

Lemma round_mantissa_scaled (m : positive) (e c : Z) :
  c <= e -> c <= emin prec emax ->
  round_mantissa prec emax m e = rne (Zpos m * 2 ^ (e - c)) (round_exponent prec emax m e - c).
Proof.
  intros Hce Hcm. pose proof (round_exponent_emin m e) as HE.
  unfold round_mantissa. set (E := round_exponent prec emax m e) in *.
  set (c0 := Z.min e E).
  rewrite <- (rne_scale (Zpos m * 2 ^ (e - c0)) (E - c0) (c0 - c)) by lia.
  f_equal; [|lia].
  rewrite <- Z.mul_assoc, <- Z.pow_add_r by lia. f_equal. f_equal. lia.
Qed.

Lemma round_mantissa_nonneg (m : positive) (e : Z) : 0 <= round_mantissa prec emax m e.
Proof.
  unfold round_mantissa. apply rne_nonneg; [lia|].
  apply Z.mul_nonneg_nonneg; [lia|]. apply Z.pow_nonneg. lia.
Qed.

Lemma round_mantissa_le (m : positive) (e : Z) : round_mantissa prec emax m e <= 2 ^ prec.
Proof.
  unfold round_mantissa. set (E := round_exponent prec emax m e). set (c := Z.min e E).
  assert (HE : Zpos (digits2_pos m) + e - prec <= E)
    by (unfold E, round_exponent, fexp; lia).
  rewrite <- (rne_exact (2 ^ prec) (E - c)) by lia.
  apply rne_mono; [lia|].
  pose proof (digits2_upper m) as Hm.
  assert (H2 : 0 < 2 ^ (e - c)) by (apply pow2_pos; lia).
  rewrite <- Z.pow_add_r by lia.
  apply Z.le_trans with (2 ^ Zpos (digits2_pos m) * 2 ^ (e - c)).
  - apply Z.mul_le_mono_nonneg_r; lia.
  - rewrite <- Z.pow_add_r by lia. apply Z.pow_le_mono_r; lia.
Qed.

Lemma round_mantissa_ge (m : positive) (e : Z) :
  emin prec emax < round_exponent prec emax m e -> 2 ^ (prec - 1) <= round_mantissa prec emax m e.
Proof.
  intros Hn. unfold round_mantissa.
  set (E := round_exponent prec emax m e) in *. set (c := Z.min e E).
  assert (HE : E = Zpos (digits2_pos m) + e - prec)
    by (unfold E, round_exponent, fexp in *; lia).
  rewrite <- (rne_exact (2 ^ (prec - 1)) (E - c)) at 1 by lia.
  apply rne_mono; [lia|].
  pose proof (digits2_lower m) as Hm.
  assert (H2 : 0 < 2 ^ (e - c)) by (apply pow2_pos; lia).
  rewrite <- Z.pow_add_r by lia.
  apply Z.le_trans with (2 ^ (Zpos (digits2_pos m) - 1) * 2 ^ (e - c)).
  - rewrite <- Z.pow_add_r by lia. apply Z.pow_le_mono_r; lia.
  - apply Z.mul_le_mono_nonneg_r; lia.
Qed.

(** The second pass of [binary_round_aux]: a mantissa that reached
    [2 ^ prec] is halved. *)
Lemma second_pass (M E : Z) :
  0 <= M <= 2 ^ prec -> emin prec emax <= E ->
  (let '(mrs, e) := shr_fexp prec emax M E loc_Exact in
   match shr_m mrs with
   | 0 => S754_zero false
   | Zpos m => if e <=? emax - prec then S754_finite false m e
               else S754_infinity false
   | Zneg _ => S754_nan
   end) = normalized prec emax M E.
Proof.
  intros HM HE. unfold normalized, shr_fexp.
  assert (HP : 0 < 2 ^ prec) by (apply pow2_pos; lia).
  destruct (Z.eqb_spec M 0) as [->|Hnz].
  - cbn [Zdigits2 shr_record_of_loc].
    destruct (fexp prec emax (0 + E) - E) as [| |] eqn:En.
    + reflexivity.
    + unfold fexp in En. lia.
    + reflexivity.
  - destruct (Z.eqb_spec M (2 ^ prec)) as [->|Hne].
    + rewrite (Zdigits2_unique (2 ^ prec) (prec + 1)); [| |lia].
      2:{ replace (prec + 1 - 1) with prec by lia. split; [lia|].
          apply Z.pow_lt_mono_r; lia. }
      replace (fexp prec emax (prec + 1 + E) - E) with 1 by (unfold fexp; lia).
      unfold shr, shr_record_of_loc. cbn [SpecFloat.iter_pos].
      rewrite shr_1_nonneg by lia. cbn [shr_m].
      replace (2 ^ prec / 2) with (2 ^ (prec - 1)).
      2:{ replace prec with (prec - 1 + 1) at 2 by lia.
          rewrite Z.pow_add_r by lia. change (2 ^ 1) with 2.
          rewrite Z.div_mul by lia. reflexivity. }
      assert (H1 : 0 < 2 ^ (prec - 1)) by (apply pow2_pos; lia).
      destruct (2 ^ (prec - 1)) as [|q|q]; try lia. reflexivity.
    + assert (Hd : 0 < Zdigits2 M <= prec) by (apply Zdigits2_le; lia).
      destruct (fexp prec emax (Zdigits2 M + E) - E) as [| |] eqn:En.
      * unfold shr, shr_record_of_loc. cbn [shr_m].
        destruct M as [|q|q]; try lia. reflexivity.
      * unfold fexp in En. lia.
      * unfold shr, shr_record_of_loc. cbn [shr_m].
        destruct M as [|q|q]; try lia. reflexivity.
Qed.

(** What [binary_round] computes for a positive value. *)
Lemma binary_round_rounded (m : positive) (e : Z) :
  binary_round prec emax false m e = rounded prec emax m e.
Proof.
  unfold binary_round, rounded.
  pose proof (round_mantissa_nonneg m e) as H0.
  pose proof (round_mantissa_le m e) as H1.
  pose proof (round_exponent_emin m e) as H2.
  rewrite <- (second_pass _ _ (conj H0 H1) H2).
  unfold round_mantissa. fold (round_exponent prec emax m e).
  set (E := round_exponent prec emax m e) in *.
  unfold shl_align.
  destruct (E - e) as [|p|d] eqn:Ed.
  - (* no shift *)
    replace (Z.min e E) with e by lia. rewrite Z.sub_diag.
    unfold binary_round_aux. unfold shr_fexp at 1.
    cbn [Zdigits2]. fold (round_exponent prec emax m e). fold E. rewrite Ed.
    unfold shr at 1. unfold shr_record_of_loc at 1.
    cbn [shr_m loc_of_shr_record round_nearest_even].
    rewrite Z.pow_0_r, Z.mul_1_r, rne_0.
    replace E with e by lia. reflexivity.
  - (* shift right *)
    replace (Z.min e E) with e by lia. rewrite Z.sub_diag.
    unfold binary_round_aux. unfold shr_fexp at 1.
    cbn [Zdigits2]. fold (round_exponent prec emax m e). fold E. rewrite Ed.
    unfold shr at 1. unfold shr_record_of_loc.
    rewrite (shr_rne (Zpos m) p) by lia.
    rewrite Z.pow_0_r, Z.mul_1_r.
    replace (e + Zpos p) with E by lia. reflexivity.
  - (* shift left *)
    replace (Z.min e E) with E by lia. rewrite Z.sub_diag.
    unfold binary_round_aux. unfold shr_fexp at 1.
    cbn [Zdigits2].
    assert (Hdig : Zpos (digits2_pos (Pos.iter xO m d))
                   = Zpos (digits2_pos m) + Zpos d).
    { apply digits2_unique. rewrite iter_xO.
      pose proof (digits2_lower m). pose proof (digits2_upper m).
      assert (0 < 2 ^ Zpos d) by (apply pow2_pos; lia).
      replace (Zpos (digits2_pos m) + Zpos d - 1)
        with (Zpos (digits2_pos m) - 1 + Zpos d) by lia.
      rewrite !Z.pow_add_r by lia. split; nia. }
    rewrite Hdig.
    replace (Zpos (digits2_pos m) + Zpos d + E)
      with (Zpos (digits2_pos m) + e) by lia.
    fold (round_exponent prec emax m e). fold E. rewrite Z.sub_diag.
    unfold shr at 1. unfold shr_record_of_loc.
    cbn [shr_m shr_r shr_s loc_of_shr_record round_nearest_even].
    rewrite iter_xO. replace (e - E) with (Zpos d) by lia.
    rewrite rne_0. reflexivity.
Qed.

(** Rounding never reverses the order of two positive values. *)
Lemma rounded_mono (m1 m2 : positive) (e1 e2 c : Z) :
  c <= e1 -> c <= e2 -> c <= emin prec emax ->
  Zpos m1 * 2 ^ (e1 - c) <= Zpos m2 * 2 ^ (e2 - c) ->
  round_mantissa prec emax m1 e1 * 2 ^ (round_exponent prec emax m1 e1 - c)
  <= round_mantissa prec emax m2 e2 * 2 ^ (round_exponent prec emax m2 e2 - c).
Proof.
  intros Hc1 Hc2 Hcm Hle.
  pose proof (mag_le (Zpos m1) (Zpos m2) e1 e2 c ltac:(lia) ltac:(lia) Hc1 Hc2 Hle)
    as Hmag.
  cbn [Zdigits2] in Hmag.
  pose proof (round_exponent_emin m1 e1) as G1.
  pose proof (round_exponent_emin m2 e2) as G2.
  assert (HE : round_exponent prec emax m1 e1 <= round_exponent prec emax m2 e2)
    by (unfold round_exponent, fexp; lia).
  destruct (Z.eq_dec (round_exponent prec emax m1 e1) (round_exponent prec emax m2 e2)) as [Heq|Hne].
  - rewrite (round_mantissa_scaled m1 e1 c Hc1 Hcm).
    rewrite (round_mantissa_scaled m2 e2 c Hc2 Hcm).
    rewrite Heq.
    apply Z.mul_le_mono_nonneg_r; [apply Z.pow_nonneg; lia|].
    apply rne_mono; [lia|exact Hle].
  - pose proof (round_mantissa_le m1 e1) as U1.
    pose proof (round_mantissa_ge m2 e2 ltac:(lia)) as L2.
    set (E1 := round_exponent prec emax m1 e1) in *. set (E2 := round_exponent prec emax m2 e2) in *.
    assert (P1 : 0 < 2 ^ (E1 - c)) by (apply pow2_pos; lia).
    assert (P2 : 0 < 2 ^ (E2 - c)) by (apply pow2_pos; lia).
    apply Z.le_trans with (2 ^ prec * 2 ^ (E1 - c)).
    { apply Z.mul_le_mono_nonneg_r; lia. }
    apply Z.le_trans with (2 ^ (prec - 1) * 2 ^ (E2 - c)).
    2:{ apply Z.mul_le_mono_nonneg_r; lia. }
    rewrite <- !Z.pow_add_r by lia. apply Z.pow_le_mono_r; lia.
Qed.



Lemma normal_form_spec (M E : Z) :
  0 < M <= 2 ^ prec -> emin prec emax <= E ->
  (emin prec emax < E -> 2 ^ (prec - 1) <= M) ->
  let '(M', E') := normal_form prec M E in
  canonical prec emax M' E' /\ E <= E'
  /\ forall c, c <= E -> M' * 2 ^ (E' - c) = M * 2 ^ (E - c).
Proof.
  intros HM HE Hn. unfold normal_form, canonical.
  assert (HP : 0 < 2 ^ (prec - 1)) by (apply pow2_pos; lia).
  destruct (Z.eqb_spec M (2 ^ prec)) as [->|Hne].
  - split; [split; [lia|]|split; [lia|]].
    + rewrite (Zdigits2_unique (2 ^ (prec - 1)) prec); [unfold fexp; lia| |lia].
      split; [lia|]. apply Z.pow_lt_mono_r; lia.
    + intros c Hc. rewrite <- !Z.pow_add_r by lia. f_equal. lia.
  - split; [split; [lia|]|split; [lia|reflexivity]].
    pose proof (Zdigits2_le M prec ltac:(lia) ltac:(lia) ltac:(lia)) as Hd.
    destruct (Z.eq_dec E (emin prec emax)) as [He|He].
    + unfold fexp. lia.
    + rewrite (Zdigits2_unique M prec); [unfold fexp; lia| |lia].
      split; [apply Hn|]; lia.
Qed.

(** On canonical pairs the order of the values is the lexicographic one. *)
Lemma canonical_order (M1 E1 M2 E2 c : Z) :
  canonical prec emax M1 E1 -> canonical prec emax M2 E2 -> c <= E1 -> c <= E2 ->
  M1 * 2 ^ (E1 - c) <= M2 * 2 ^ (E2 - c) ->
  E1 < E2 \/ (E1 = E2 /\ M1 <= M2).
Proof.
  intros [H1 C1] [H2 C2] Hc1 Hc2 Hle.
  pose proof (mag_le M1 M2 E1 E2 c H1 H2 Hc1 Hc2 Hle) as Hmag.
  assert (HE : E1 <= E2) by (unfold fexp in *; lia).
  destruct (Z.eq_dec E1 E2) as [->|Hne]; [right|left; lia].
  split; [reflexivity|].
  assert (P : 0 < 2 ^ (E2 - c)) by (apply pow2_pos; lia).
  apply Z.mul_le_mono_pos_r in Hle; lia.
Qed.
End FormatFacts.




Section FormatFloats.
Variables prec emax : Z.
Hypothesis Hprec : 0 < prec.

Lemma rounded_view_rounded (m : positive) (e : Z) :
  rounded_view prec emax m e (rounded prec emax m e).
Proof.
  unfold rounded, normalized.
  pose proof (round_mantissa_nonneg prec emax m e) as H0.
  pose proof (round_mantissa_le prec emax Hprec m e) as H1.
  pose proof (round_exponent_emin prec emax m e) as H2.
  pose proof (round_mantissa_ge prec emax Hprec m e) as H3.
  set (M := round_mantissa prec emax m e) in *.
  set (E := round_exponent prec emax m e) in *.
  destruct (Z.eqb_spec M 0) as [Hz|Hnz]; [apply view_zero; exact Hz|].
  pose proof (normal_form_spec prec emax Hprec M E ltac:(lia) H2 H3) as Hnf.
  fold (normal_form prec M E).
  destruct (normal_form prec M E) as [M' E'] eqn:Enf.
  destruct Hnf as ([Hpos _] & _ & _).
  destruct M' as [|m'|m']; try lia.
  destruct (Z.leb_spec E' (emax - prec)).
  - apply view_finite; [lia|exact Enf|assumption].
  - apply (@view_infinity prec emax m e m' E'); [lia|exact Enf|assumption].
Qed.

Lemma canonical_bounded (m : positive) (e : Z) :
  canonical prec emax (Zpos m) e -> e <= emax - prec -> SpecFloat.bounded prec emax m e = true.
Proof.
  intros [_ Hc] He. unfold SpecFloat.bounded, canonical_mantissa.
  cbn [Zdigits2] in Hc. rewrite Hc, Z.eqb_refl. apply Z.leb_le. exact He.
Qed.

Lemma bounded_canonical (m : positive) (e : Z) :
  SpecFloat.bounded prec emax m e = true -> canonical prec emax (Zpos m) e /\ e <= emax - prec.
Proof.
  unfold SpecFloat.bounded, canonical_mantissa, canonical. intros H.
  apply andb_prop in H. destruct H as [Hc He].
  apply Z.eqb_eq in Hc. apply Z.leb_le in He. cbn [Zdigits2].
  split; [split; [lia|exact Hc]|exact He].
Qed.

(** [binary_round] gives values of the format. *)
Lemma rounded_nonneg_valid (m : positive) (e : Z) :
  nonneg_valid prec emax (rounded prec emax m e).
Proof.
  destruct (rounded_view_rounded m e) as [Hz|m' E' Hpos Enf HE|m' E' Hpos Enf HE];
    cbn [nonneg_valid]; try easy.
  split; [reflexivity|].
  pose proof (normal_form_spec prec emax Hprec _ _
                (conj Hpos (round_mantissa_le prec emax Hprec m e))
                (round_exponent_emin prec emax m e)
                (round_mantissa_ge prec emax Hprec m e)) as Hnf.
  rewrite Enf in Hnf. destruct Hnf as (Hc & _ & _).
  apply canonical_bounded; assumption.
Qed.

(** A value of the format is not changed. *)
Lemma rounded_id (m : positive) (e : Z) :
  SpecFloat.bounded prec emax m e = true -> rounded prec emax m e = S754_finite false m e.
Proof.
  intros Hb. destruct (bounded_canonical m e Hb) as [[_ Hc] He].
  cbn [Zdigits2] in Hc.
  assert (HE : round_exponent prec emax m e = e) by exact Hc.
  assert (HM : round_mantissa prec emax m e = Zpos m).
  { unfold round_mantissa. rewrite HE, Z.min_id, Z.sub_diag.
    rewrite Z.pow_0_r, Z.mul_1_r. apply rne_0. }
  unfold rounded, normalized. rewrite HE, HM.
  assert (Hlt : Zpos m < 2 ^ prec).
  { pose proof (digits2_upper m) as Hu.
    assert (Zpos (digits2_pos m) <= prec) by (unfold fexp in Hc; lia).
    assert (2 ^ Zpos (digits2_pos m) <= 2 ^ prec) by (apply Z.pow_le_mono_r; lia).
    lia. }
  destruct (Z.eqb_spec (Zpos m) 0) as [|_]; [lia|].
  destruct (Z.eqb_spec (Zpos m) (2 ^ prec)) as [|_]; [lia|].
  apply Z.leb_le in He. rewrite He. reflexivity.
Qed.

(** Rounding keeps the order of the values. *)
Lemma rounded_value_le (m1 m2 : positive) (e1 e2 : Z) :
  value_le (S754_finite false m1 e1) (S754_finite false m2 e2) ->
  value_le (rounded prec emax m1 e1) (rounded prec emax m2 e2).
Proof.
  intros (_ & _ & Hle).
  set (c := Z.min (Z.min e1 e2) (emin prec emax)).
  apply (scaled_le_lower (Zpos m1) (Zpos m2) e1 e2 c (Z.min e1 e2)) in Hle;
    [|unfold c; lia|lia|lia].
  pose proof (rounded_mono prec emax Hprec m1 m2 e1 e2 c
                ltac:(unfold c; lia) ltac:(unfold c; lia) ltac:(unfold c; lia) Hle)
    as Hmono.
  pose proof (round_mantissa_nonneg prec emax m2 e2) as N2.
  pose proof (round_exponent_emin prec emax m1 e1) as G1.
  pose proof (round_exponent_emin prec emax m2 e2) as G2.
  assert (Hc : c <= emin prec emax) by (unfold c; lia).
  destruct (rounded_view_rounded m1 e1) as [Hz|m1' E1' Hpos1 Enf1 HE1|m1' E1' Hpos1 Enf1 HE1].
  - destruct (rounded_view_rounded m2 e2); cbn [value_le]; easy.
  - assert (Hpos2 : 0 < round_mantissa prec emax m2 e2).
    { assert (0 < 2 ^ (round_exponent prec emax m1 e1 - c)) by (apply pow2_pos; lia).
      assert (0 < 2 ^ (round_exponent prec emax m2 e2 - c)) by (apply pow2_pos; lia).
      nia. }
    pose proof (normal_form_spec prec emax Hprec _ _
                  (conj Hpos1 (round_mantissa_le prec emax Hprec m1 e1)) G1
                  (round_mantissa_ge prec emax Hprec m1 e1)) as Hnf1.
    pose proof (normal_form_spec prec emax Hprec _ _
                  (conj Hpos2 (round_mantissa_le prec emax Hprec m2 e2)) G2
                  (round_mantissa_ge prec emax Hprec m2 e2)) as Hnf2.
    rewrite Enf1 in Hnf1. destruct Hnf1 as (C1 & L1 & V1).
    destruct (rounded_view_rounded m2 e2) as [Hz|m2' E2' _ Enf2 HE2|m2' E2' _ Enf2 HE2];
      [lia| |cbn [value_le]; easy].
    rewrite Enf2 in Hnf2. destruct Hnf2 as (C2 & L2 & V2).
    cbn [value_le]. split; [reflexivity|]. split; [reflexivity|].
    apply (scaled_le_lower (Zpos m1') (Zpos m2') E1' E2' c (Z.min E1' E2'));
      [lia|lia|lia|].
    rewrite (V1 c), (V2 c) by lia. exact Hmono.
  - assert (Hpos2 : 0 < round_mantissa prec emax m2 e2).
    { assert (0 < 2 ^ (round_exponent prec emax m1 e1 - c)) by (apply pow2_pos; lia).
      assert (0 < 2 ^ (round_exponent prec emax m2 e2 - c)) by (apply pow2_pos; lia).
      nia. }
    pose proof (normal_form_spec prec emax Hprec _ _
                  (conj Hpos1 (round_mantissa_le prec emax Hprec m1 e1)) G1
                  (round_mantissa_ge prec emax Hprec m1 e1)) as Hnf1.
    pose proof (normal_form_spec prec emax Hprec _ _
                  (conj Hpos2 (round_mantissa_le prec emax Hprec m2 e2)) G2
                  (round_mantissa_ge prec emax Hprec m2 e2)) as Hnf2.
    rewrite Enf1 in Hnf1. destruct Hnf1 as (C1 & L1 & V1).
    destruct (rounded_view_rounded m2 e2) as [Hz|m2' E2' _ Enf2 HE2|m2' E2' _ Enf2 HE2];
      [lia| |cbn [value_le]; easy].
    rewrite Enf2 in Hnf2. destruct Hnf2 as (C2 & L2 & V2).
    exfalso.
    assert (Hv : Zpos m1' * 2 ^ (E1' - c) <= Zpos m2' * 2 ^ (E2' - c))
      by (rewrite (V1 c), (V2 c) by lia; exact Hmono).
    destruct (canonical_order prec emax (Zpos m1') E1' (Zpos m2') E2' c C1 C2
                ltac:(lia) ltac:(lia) Hv); lia.
Qed.

(** On values of the format, the comparison of the floats is the
    comparison of the values. *)
Lemma value_le_SFleb (a b : spec_float) :
  nonneg_valid prec emax a -> nonneg_valid prec emax b ->
  value_le a b -> SFleb a b = true.
Proof.
  destruct a as [sa|sa| |sa ma ea]; destruct b as [sb|sb| |sb mb eb];
    cbn [value_le nonneg_valid]; try easy.
  - intros _ _ ->. reflexivity.
  - intros _ _ ->. reflexivity.
  - intros _ _ [-> ->]. reflexivity.
  - intros _ _ [-> ->]. reflexivity.
  - intros [_ Ba] [_ Bb] (-> & -> & Hle).
    destruct (bounded_canonical ma ea Ba) as [Ca _].
    destruct (bounded_canonical mb eb Bb) as [Cb _].
    destruct (canonical_order prec emax (Zpos ma) ea (Zpos mb) eb (Z.min ea eb)
                Ca Cb ltac:(lia) ltac:(lia) Hle) as [Hlt|[-> Hm]];
      unfold SFleb, SFcompare.
    + apply Z.compare_lt_iff in Hlt. rewrite Hlt. reflexivity.
    + rewrite Z.compare_refl.
      change (Pos.compare_cont Eq ma mb) with (Pos.compare ma mb).
      destruct (Pos.compare_spec ma mb); try reflexivity. lia.
Qed.
End FormatFloats.

Section Operations.
Variables prec emax : Z.
Hypothesis Hprec : 0 < prec.

Lemma binary_round_aux_nonneg (m e : Z) (l : location) :
  nonneg (binary_round_aux prec emax false m e l).
Proof.
  unfold binary_round_aux.
  destruct (shr_fexp prec emax m e l) as [mrs' e'].
  destruct (shr_fexp prec emax _ e' loc_Exact) as [mrs'' e''].
  destruct (shr_m mrs'') as [|q|q]; cbn [nonneg]; try easy.
  destruct (e'' <=? emax - prec); reflexivity.
Qed.

(** A square root is never negative. *)
Lemma SFsqrt_nonneg (f : spec_float) : nonneg (SFsqrt prec emax f).
Proof.
  destruct f as [s|[|]| |[|] m e]; cbn [SFsqrt nonneg]; try easy.
  destruct (SFsqrt_core_binary prec emax (Zpos m) e) as [[mz ez] lz].
  apply binary_round_aux_nonneg.
Qed.

Lemma convert_nonneg_valid (f : spec_float) :
  nonneg f -> nonneg_valid prec emax (convert prec emax f).
Proof.
  destruct f as [s|s| |s m e]; cbn [nonneg convert nonneg_valid]; try easy.
  intros ->. cbn [cond_Zopp binary_normalize].
  rewrite (binary_round_rounded prec emax Hprec).
  apply (rounded_nonneg_valid prec emax Hprec).
Qed.

Lemma value_le_zero_rounded (s : bool) (m : positive) (e : Z) :
  value_le (S754_zero s) (rounded prec emax m e).
Proof. destruct (rounded_view_rounded prec emax Hprec m e); cbn [value_le]; easy. Qed.

Lemma value_le_rounded_infinity (m : positive) (e : Z) :
  value_le (rounded prec emax m e) (S754_infinity false).
Proof. destruct (rounded_view_rounded prec emax Hprec m e); cbn [value_le]; easy. Qed.

(** Converting to the format keeps the order. *)
Lemma convert_value_le (a b : spec_float) :
  value_le a b -> value_le (convert prec emax a) (convert prec emax b).
Proof.
  destruct a as [sa|sa| |sa ma ea]; destruct b as [sb|sb| |sb mb eb];
    cbn [convert]; intros H; try (cbn [value_le] in *; easy);
    cbn [value_le] in H.
  - subst sb. cbn [cond_Zopp binary_normalize].
    rewrite (binary_round_rounded prec emax Hprec). apply value_le_zero_rounded.
  - destruct H as [-> ->]. cbn [cond_Zopp binary_normalize].
    rewrite (binary_round_rounded prec emax Hprec). apply value_le_rounded_infinity.
  - destruct H as (-> & -> & H). cbn [cond_Zopp binary_normalize].
    rewrite !(binary_round_rounded prec emax Hprec).
    apply (rounded_value_le prec emax Hprec). cbn [value_le]. auto.
Qed.

Lemma value_le_nonneg (a b : spec_float) : value_le a b -> nonneg a /\ nonneg b.
Proof.
  destruct a as [sa|sa| |sa ma ea]; destruct b as [sb|sb| |sb mb eb];
    cbn [value_le nonneg]; try easy; tauto.
Qed.

Lemma convert_mono (a b : spec_float) :
  value_le a b -> SFleb (convert prec emax a) (convert prec emax b) = true.
Proof.
  intros H. destruct (value_le_nonneg a b H) as [Ha Hb].
  apply (value_le_SFleb prec emax).
  - apply convert_nonneg_valid. exact Ha.
  - apply convert_nonneg_valid. exact Hb.
  - apply convert_value_le. exact H.
Qed.

Lemma shl_align_fst (m : positive) (e ez : Z) :
  ez <= e -> Zpos (fst (shl_align m e ez)) = Zpos m * 2 ^ (e - ez).
Proof.
  intros H. unfold shl_align. destruct (ez - e) as [|p|d] eqn:E; cbn [fst].
  - replace (e - ez) with 0 by lia. lia.
  - lia.
  - rewrite iter_xO. f_equal. f_equal. lia.
Qed.

(** Adding a value that is not negative never decreases the sum. *)
Lemma SFadd_step (t d : spec_float) :
  nonneg_valid prec emax t -> nonneg_valid prec emax d ->
  nonneg_valid prec emax (SFadd prec emax t d)
  /\ (is_nan (SFadd prec emax t d) = false ->
      is_nan t = false /\ value_le t (SFadd prec emax t d)).
Proof.
  destruct t as [st|st| |st mt et]; destruct d as [sd|sd| |sd md ed];
    cbn [nonneg_valid]; try (intros; subst; cbn; easy).
  - destruct st, sd; cbn; easy.
  - intros [-> Ht] [-> Hd]. cbn [SFadd cond_Zopp].
    set (ez := Z.min et ed).
    set (m1 := fst (shl_align mt et ez)). set (m2 := fst (shl_align md ed ez)).
    change (Zpos m1 + Zpos m2) with (Zpos (m1 + m2)).
    cbn [binary_normalize]. rewrite (binary_round_rounded prec emax Hprec).
    split; [apply (rounded_nonneg_valid prec emax Hprec)|].
    intros _. split; [reflexivity|].
    rewrite <- (rounded_id prec emax Hprec mt et Ht).
    apply (rounded_value_le prec emax Hprec). cbn [value_le].
    split; [reflexivity|]. split; [reflexivity|].
    replace (Z.min et ez) with ez by (unfold ez; lia).
    rewrite Z.sub_diag, Z.pow_0_r, Z.mul_1_r, Pos2Z.inj_add.
    unfold m1. rewrite (shl_align_fst mt et ez) by (unfold ez; lia). lia.
Qed.
End Operations.
End RoundingFacts.

(** ** What the tracer keeps true of a polyline *)

Lemma mapM_In (B C : Type) (f : B -> Result C) (l : list B) (cs : list C) :
  mapM f l = Ok cs -> forall c, In c cs -> exists b, In b l /\ f b = Ok c.
Proof.
  revert cs. induction l as [|b l IH]; intros cs.
  - intros [= <-] c [].
  - simpl. destruct (f b) as [c0|] eqn:E; [|discriminate]. simpl.
    destruct (mapM f l) as [cs0|]; [|discriminate]. simpl. intros [= <-] c [<-|Hc].
    + exists b. split; [left; reflexivity|exact E].
    + destruct (IH cs0 eq_refl c Hc) as (b' & Hb' & Hf).
      exists b'. split; [right; exact Hb'|exact Hf].
Qed.

Section TraceInvariant.
Context {F D : Type} {A : Arith F D}.
Variable Inv : Polyline F D -> Prop.

(** The three ways the tracer changes a polyline: the first vertex, a
    vertex with the distance to it, a vertex alone. *)
Hypothesis Inv_move_to : forall q : Vertex F, Inv (trace_move_to Polyline_new q).
Hypothesis Inv_push :
  forall (polyline : Polyline F D) (vs : list (Vertex F)) (a b : Vertex F),
    Inv polyline ->
    Inv {| vertices := vs;
           distances :=
             distances polyline ++
             [float_of_double (dadd (total_distance polyline)
                                    (double_of_float (distance a b)))];
           total_distance := dadd (total_distance polyline)
                                  (double_of_float (distance a b)) |}.
Hypothesis Inv_vertices :
  forall (polyline : Polyline F D) (vs : list (Vertex F)),
    Inv polyline ->
    Inv {| vertices := vs;
           distances := distances polyline;
           total_distance := total_distance polyline |}.

Lemma trace_line_to_invariant (polyline polyline' : Polyline F D) (q : Vertex F) :
  Inv polyline -> trace_line_to polyline q = Ok polyline' -> Inv polyline'.
Proof.
  intros Hn. unfold trace_line_to. destruct (back (vertices polyline)); [|discriminate].
  intros H. apply Ok_inj in H. subst polyline'. apply Inv_push. exact Hn.
Qed.

Lemma trace_curve_invariant (point : nat -> Vertex F) (steps : list nat) :
  forall (st : Polyline F D * Vertex F),
    Inv (fst st) -> Inv (fst (fold_left (trace_curve_step point) steps st)).
Proof.
  induction steps as [|i steps IH]; intros [polyline prev] Hn; [exact Hn|].
  simpl fold_left. apply IH. cbn [fst trace_curve_step].
  apply Inv_push. exact Hn.
Qed.

Lemma trace_command_invariant (resolution : nat) (polyline polyline' : Polyline F D)
      (c : PathCommand F) :
  is_drawing c = true -> Inv polyline ->
  trace_command resolution polyline c = Ok polyline' -> Inv polyline'.
Proof.
  intros Hc Hn. unfold is_drawing in Hc. unfold trace_command.
  destruct (type c); try discriminate Hc.
  - apply trace_line_to_invariant; exact Hn.
  - unfold trace_quad_bezier_to. destruct resolution as [|[|n]].
    + intros H. apply Ok_inj in H. subst polyline'. exact Hn.
    + apply trace_line_to_invariant; exact Hn.
    + destruct (back (vertices polyline)); [|discriminate].
      intros H. apply Ok_inj in H. subst polyline'.
      apply trace_curve_invariant. exact Hn.
  - unfold trace_cubic_bezier_to. destruct resolution as [|[|n]].
    + intros H. apply Ok_inj in H. subst polyline'. exact Hn.
    + intros H. apply Ok_inj in H. subst polyline'. apply Inv_vertices. exact Hn.
    + destruct (back (vertices polyline)); [|discriminate].
      intros H. apply Ok_inj in H. subst polyline'.
      apply trace_curve_invariant. exact Hn.
  - unfold trace_close_path. destruct (front (vertices polyline)); [|discriminate].
    apply trace_line_to_invariant; exact Hn.
Qed.

Lemma trace_commands_invariant (resolution : nat) (cs : list (PathCommand F)) :
  forallb is_drawing cs = true ->
  forall polyline polyline' : Polyline F D,
    Inv polyline ->
    foldM (trace_command resolution) cs polyline = Ok polyline' ->
    Inv polyline'.
Proof.
  induction cs as [|c cs IH]; intros Hcs polyline polyline' Hn.
  - intros H. apply Ok_inj in H. subst polyline'. exact Hn.
  - simpl in Hcs. apply andb_prop in Hcs. destruct Hcs as [Hc Hcs].
    simpl foldM. destruct (trace_command resolution polyline c) as [q|] eqn:Eq;
      [|discriminate].
    simpl bind. apply (IH Hcs). eapply trace_command_invariant; eassumption.
Qed.

Lemma trace_subpath_invariant (resolution : nat) (s : SubPath F)
      (polyline : Polyline F D) :
  wf_subpath s = true -> trace_subpath resolution s = Ok polyline -> Inv polyline.
Proof.
  intros Hwf. destruct (wf_subpath_inv s Hwf) as (m & rest & Hs & Hm & Hrest).
  unfold trace_subpath. rewrite Hs. simpl foldM. unfold trace_command at 1.
  rewrite Hm. simpl bind.
  destruct (foldM (trace_command resolution) rest _) as [q|] eqn:Erun; [|discriminate].
  simpl bind. destruct (assert _); [|discriminate]. simpl bind.
  intros H. apply Ok_inj in H. subst polyline.
  apply (trace_commands_invariant resolution rest Hrest _ q) in Erun; [exact Erun|].
  apply Inv_move_to.
Qed.
End TraceInvariant.

(** ** Cumulative distances never decrease (exact arithmetic) *)

Module ExactTrace.
Import Exact.
Local Open Scope R_scope.

Lemma distance_nonneg (a b : (Vertex R)) : 0 <= distance a b.
Proof. unfold distance, length_. cbn. apply sqrt_pos. Qed.

Lemma Sorted_snoc (l : list R) (t : R) :
  Sorted Rle l -> Forall (fun d => d <= t) l -> Sorted Rle (l ++ [t]).
Proof.
  induction l as [|a l IH]; intros Hs Hf.
  - simpl. repeat constructor.
  - simpl. inversion Hs as [|? ? Hs' Hhd]; subst.
    inversion Hf as [|? ? Ha Hf']; subst.
    constructor; [apply IH; assumption|].
    destruct l as [|b l]; simpl.
    + constructor. exact Ha.
    + inversion Hhd; subst. constructor. assumption.
Qed.

(** Storing [total + d] with [0 <= d] keeps the distances sorted. *)
Lemma nondecreasing_push (polyline : Polyline R R) (vs : list (Vertex R)) (d : R) :
  nondecreasing polyline -> 0 <= d ->
  nondecreasing {| vertices := vs;
                   distances := distances polyline ++ [total_distance polyline + d];
                   total_distance := total_distance polyline + d |}.
Proof.
  intros (Hs & Hf) Hd. unfold nondecreasing. cbn [distances total_distance].
  assert (Hf' : Forall (fun d0 => d0 <= total_distance polyline + d) (distances polyline)).
  { eapply Forall_impl; [|exact Hf]. cbn. intros a Ha. lra. }
  split.
  - apply Sorted_snoc; assumption.
  - apply Forall_app. split; [exact Hf'|]. constructor; [lra|constructor].
Qed.

Lemma trace_subpath_nondecreasing (resolution : nat) (s : SubPath R) (polyline : Polyline R R) :
  wf_subpath s = true -> trace_subpath resolution s = Ok polyline ->
  Sorted Rle (distances polyline).
Proof.
  intros Hwf Hrun.
  apply (trace_subpath_invariant nondecreasing) with (resolution := resolution) (s := s);
    [| | |exact Hwf|exact Hrun].
  - intros q. unfold nondecreasing, trace_move_to, Polyline_new. cbn.
    split; [repeat constructor|constructor; [lra|constructor]].
  - intros pl vs a b Hn. apply (nondecreasing_push pl vs _ Hn). apply distance_nonneg.
  - intros pl vs Hn. exact Hn.
Qed.
End ExactTrace.

(** ** Traced distances in binary32 *)

Module IEEETrace.
Import IEEE.

Lemma nondecreasingb_snoc (l : list spec_float) (a b : spec_float) :
  nondecreasingb l = true -> back l = Some a -> leb a b = true ->
  nondecreasingb (l ++ [b]) = true.
Proof.
  induction l as [|u [|v l] IH]; intros Hs Hb Hab.
  - discriminate Hb.
  - injection Hb as ->. simpl. rewrite Hab. reflexivity.
  - cbn [nondecreasingb] in Hs. apply andb_prop in Hs. destruct Hs as [Huv Hs].
    change ((u :: v :: l) ++ [b]) with (u :: v :: (l ++ [b])).
    cbn [nondecreasingb]. rewrite Huv. cbn [andb].
    apply (IH Hs); [exact Hb|exact Hab].
Qed.

Lemma prec32_pos : (0 < prec32)%Z.
Proof. reflexivity. Qed.

Lemma prec64_pos : (0 < prec64)%Z.
Proof. reflexivity. Qed.

(** Adding the distance to a vertex keeps the distances sorted, whatever
    the two vertices are. *)
Lemma nondecreasing32_push (polyline : Polyline spec_float spec_float)
      (vs : list (Vertex spec_float)) (a b : Vertex spec_float) :
  nondecreasing32 polyline ->
  nondecreasing32
    {| vertices := vs;
       distances :=
         distances polyline ++
         [float_of_double (dadd (total_distance polyline)
                                (double_of_float (distance a b)))];
       total_distance := dadd (total_distance polyline)
                              (double_of_float (distance a b)) |}.
Proof.
  intros (Hv & Hb & Hs).
  assert (Hd : Rounding.nonneg (distance a b))
    by exact (RoundingFacts.SFsqrt_nonneg prec32 emax32 _).
  pose proof (RoundingFacts.convert_nonneg_valid prec64 emax64 prec64_pos _ Hd) as Hd64.
  destruct (RoundingFacts.SFadd_step prec64 emax64 prec64_pos _ _ Hv Hd64)
    as [Hv' Hstep].
  unfold nondecreasing32. cbn [distances total_distance].
  change (dadd (total_distance polyline) (double_of_float (distance a b)))
    with (SFadd prec64 emax64 (total_distance polyline)
                (convert prec64 emax64 (distance a b))).
  set (total := SFadd prec64 emax64 _ _) in *.
  change (float_of_double total) with (convert prec32 emax32 total).
  split; [exact Hv'|]. split; [apply (back_emplace_back (distances polyline))|].
  intros Hnan. destruct (Hstep Hnan) as [Hnan0 Hle].
  apply (nondecreasingb_snoc _ _ _ (Hs Hnan0) Hb).
  apply (RoundingFacts.convert_mono prec32 emax32 prec32_pos). exact Hle.
Qed.

Lemma back_In (B : Type) (l : list B) (a : B) : back l = Some a -> In a l.
Proof.
  induction l as [|u [|v l] IH]; intros H.
  - discriminate H.
  - injection H as ->. left. reflexivity.
  - right. apply IH. exact H.
Qed.

Lemma convert_is_nan (prec emax : Z) (f : spec_float) :
  is_nan (convert prec emax f) = false -> is_nan f = false.
Proof. destruct f; cbn; congruence. Qed.

(** The distances of a traced polyline never decrease, unless one of them
    is NaN. *)
Lemma trace_subpath_nondecreasing32 (resolution : nat) (s : SubPath spec_float)
      (polyline : Polyline spec_float spec_float) :
  wf_subpath s = true -> trace_subpath resolution s = Ok polyline ->
  forallb (fun d => negb (is_nan d)) (distances polyline) = true ->
  nondecreasingb (distances polyline) = true.
Proof.
  intros Hwf Hrun Hnan.
  assert (H : nondecreasing32 polyline).
  { apply (trace_subpath_invariant nondecreasing32) with (resolution := resolution) (s := s);
      [| | |exact Hwf|exact Hrun].
    - intros q. unfold nondecreasing32, trace_move_to, Polyline_new. cbn.
      split; [exact I|]. split; reflexivity.
    - apply nondecreasing32_push.
    - intros pl vs Hn. exact Hn. }
  destruct H as (_ & Hb & Hs). apply Hs.
  apply (convert_is_nan prec32 emax32).
  rewrite forallb_forall in Hnan. apply negb_true_iff. apply Hnan.
  apply back_In. exact Hb.
Qed.
End IEEETrace.

(** ** The builder keeps paths well-formed *)

Section BuilderWellFormed.
Context {F D : Type} {A : Arith F D}.

Lemma wf_create : wf_path le_path_create = true.
Proof. reflexivity. Qed.

Lemma wf_clear (self : le_path_o F D) : wf_path (le_path_clear self) = true.
Proof. reflexivity. Qed.

Lemma wf_move_to (self : le_path_o F D) (q : Vertex F) :
  wf_path self = true -> wf_path (le_path_move_to self q) = true.
Proof.
  unfold wf_path, le_path_move_to, with_subpaths, emplace_back. cbn [subpaths].
  intros H. rewrite forallb_app, H. reflexivity.
Qed.

Lemma wf_push_command (l l' : list (SubPath F)) (c : PathCommand F) :
  is_drawing c = true -> forallb wf_subpath l = true ->
  push_command l c = Some l' -> forallb wf_subpath l' = true.
Proof.
  intros Hc. revert l'. induction l as [|s l IH]; intros l' Hwf; [discriminate|].
  simpl in Hwf. apply andb_prop in Hwf. destruct Hwf as [Hs Hl].
  destruct l as [|s' l].
  - simpl. intros [= <-]. simpl. rewrite andb_true_r.
    unfold wf_subpath in *. cbn [commands]. unfold emplace_back.
    destruct (commands s) as [|m rest]; [discriminate|]. simpl.
    apply andb_prop in Hs. destruct Hs as [Hm Hrest].
    rewrite Hm, forallb_app, Hrest. simpl. rewrite Hc. reflexivity.
  - change (push_command (s :: s' :: l) c) with
      (match push_command (s' :: l) c with
       | Some rest' => Some (s :: rest')
       | None => None
       end).
    destruct (push_command (s' :: l) c) as [rest'|] eqn:E; [|discriminate].
    intros [= <-]. simpl. rewrite Hs. simpl. apply (IH rest' Hl eq_refl).
Qed.

Lemma wf_append_checked (self self' : le_path_o F D) (c : PathCommand F) :
  is_drawing c = true -> wf_path self = true ->
  append_checked self c = Ok self' -> wf_path self' = true.
Proof.
  intros Hc Hwf. unfold append_checked.
  destruct (assert _); [|discriminate]. simpl bind.
  destruct (push_command (subpaths self) c) as [l'|] eqn:E; [|discriminate].
  intros [= <-]. unfold wf_path, with_subpaths. cbn [subpaths].
  eapply wf_push_command; eassumption.
Qed.

Lemma wf_close_path (self self' : le_path_o F D) :
  wf_path self = true -> le_path_close_path self = Ok self' -> wf_path self' = true.
Proof.
  intros Hwf. unfold le_path_close_path.
  destruct (push_command (subpaths self) _) as [l'|] eqn:E; [|discriminate].
  intros [= <-]. unfold wf_path, with_subpaths. cbn [subpaths].
  eapply wf_push_command; [|exact Hwf|exact E]. reflexivity.
Qed.

Lemma wf_line_horiz_to (self self' : le_path_o F D) (px : F) (err err' : Stderr) :
  wf_path self = true -> le_path_line_horiz_to self px err = Ok (self', err') ->
  wf_path self' = true.
Proof.
  intros Hwf. unfold le_path_line_horiz_to, le_path_get_previous_p, io_bind, io_lift.
  destruct (last_command self) as [c|]; [|discriminate].
  destruct (type c); cbn; try (intros [= <- _]; exact Hwf);
    (destruct (le_path_line_to self _) as [q|] eqn:E; [|discriminate];
     intros [= <- _]; eapply wf_append_checked; [|exact Hwf|exact E]; reflexivity).
Qed.

Lemma wf_line_vert_to (self self' : le_path_o F D) (py : F) (err err' : Stderr) :
  wf_path self = true -> le_path_line_vert_to self py err = Ok (self', err') ->
  wf_path self' = true.
Proof.
  intros Hwf. unfold le_path_line_vert_to, le_path_get_previous_p, io_bind, io_lift.
  destruct (last_command self) as [c|]; [|discriminate].
  destruct (type c); cbn; try (intros [= <- _]; exact Hwf);
    (destruct (le_path_line_to self _) as [q|] eqn:E; [|discriminate];
     intros [= <- _]; eapply wf_append_checked; [|exact Hwf|exact E]; reflexivity).
Qed.

Lemma wf_trace_path (self self' : le_path_o F D) :
  wf_path self = true -> le_path_trace_path self = Ok self' -> wf_path self' = true.
Proof.
  intros Hwf. unfold le_path_trace_path.
  destruct (mapM _ _); [|discriminate]. simpl. intros [= <-]. exact Hwf.
Qed.

Lemma wf_resample (self self' : le_path_o F D) (interval : F) :
  wf_path self = true -> le_path_resample self interval = Ok self' ->
  wf_path self' = true.
Proof.
  intros Hwf. unfold le_path_resample.
  destruct (mapM _ _); [|discriminate]. simpl. intros [= <-]. exact Hwf.
Qed.
End BuilderWellFormed.

(** ** Every path made through the interface is well-formed *)

Section BuiltWellFormed.
Context {F D : Type} {A : Arith F D}.
Variable strtof : string -> F * nat.

Lemma wf_svg_loop (fuel : nat) :
  forall (self self' : le_path_o F D) (c : string) (p0 p1 p2 : Vertex F)
         (err err' : Stderr),
    wf_path self = true ->
    svg_loop strtof fuel self c p0 p1 p2 err = Ok (self', err') ->
    wf_path self' = true.
Proof.
  induction fuel as [|fuel IH]; intros self self' c p0 p1 p2 err err' Hwf.
  - intros [= <- _]. exact Hwf.
  - cbn [svg_loop]. destruct (at_end c); [intros [= <- _]; exact Hwf|].
    destruct (is_m_instruction strtof c 0 p0) as [[ok offset] q0].
    destruct ok; [apply IH; apply wf_move_to; exact Hwf|].
    destruct (is_l_instruction strtof c 0 q0) as [[ok1 offset1] q1].
    destruct ok1.
    { unfold io_bind, io_lift.
      destruct (le_path_line_to self q1) as [self1|] eqn:E; [|discriminate].
      apply IH. eapply wf_append_checked; [|exact Hwf|exact E]. reflexivity. }
    destruct (is_h_instruction strtof c 0 (x q1)) as [[ok2 offset2] fx].
    destruct ok2.
    { unfold io_bind.
      destruct (le_path_line_horiz_to self _ err) as [[self1 err1]|] eqn:E;
        [|discriminate].
      apply IH. eapply wf_line_horiz_to; [exact Hwf|exact E]. }
    destruct (is_v_instruction strtof c 0 _) as [[ok3 offset3] fy].
    destruct ok3.
    { unfold io_bind.
      destruct (le_path_line_vert_to self _ err) as [[self1 err1]|] eqn:E;
        [|discriminate].
      apply IH. eapply wf_line_vert_to; [exact Hwf|exact E]. }
    destruct (is_c_instruction strtof c 0 _ p1 p2) as [[ok4 offset4] [[r0 r1] r2]].
    destruct ok4.
    { unfold io_bind, io_lift.
      destruct (le_path_cubic_bezier_to self r2 r0 r1) as [self1|] eqn:E;
        [|discriminate].
      apply IH. eapply wf_append_checked; [|exact Hwf|exact E]. reflexivity. }
    destruct (is_q_instruction strtof c 0 r0 r1) as [[ok5 offset5] [s0 s1]].
    destruct ok5.
    { unfold io_bind, io_lift.
      destruct (le_path_quad_bezier_to self s1 s0) as [self1|] eqn:E;
        [|discriminate].
      apply IH. eapply wf_append_checked; [|exact Hwf|exact E]. reflexivity. }
    destruct (is_character_match "Z" c 0) as [ok6 offset6].
    destruct ok6.
    { unfold io_bind, io_lift.
      destruct (le_path_close_path self) as [self1|] eqn:E; [|discriminate].
      apply IH. eapply wf_close_path; [exact Hwf|exact E]. }
    apply IH. exact Hwf.
Qed.

Lemma built_wf (self : le_path_o F D) : built strtof self -> wf_path self = true.
Proof.
  induction 1 as [ | self _ _ | self q _ IH | self q self' _ IH E
                   | self q c self' _ IH E | self q c c' self' _ IH E
                   | self self' _ IH E | self svg err self' err' _ IH E
                   | self self' _ IH E | self interval self' _ IH E ].
  - apply wf_create.
  - apply wf_clear.
  - apply wf_move_to. exact IH.
  - eapply wf_append_checked; [|exact IH|exact E]. reflexivity.
  - eapply wf_append_checked; [|exact IH|exact E]. reflexivity.
  - eapply wf_append_checked; [|exact IH|exact E]. reflexivity.
  - eapply wf_close_path; [exact IH|exact E].
  - eapply wf_svg_loop; [exact IH|exact E].
  - eapply wf_trace_path; [exact IH|exact E].
  - eapply wf_resample; [exact IH|exact E].
Qed.
End BuiltWellFormed.

(** ** C5: invariants of traced polylines *)

(** The claim of C5 fails in binary32, in its second part.
    "M 1e39,0 L 1e39,0 L 1,0" is read as a sub-path that starts with its
    [eMoveTo]; the first two points are (+inf, 0), their difference is
    NaN, and the traced distances are 0, NaN, NaN: no order holds between
    them. *)
Lemma C5_counterexample :
  exists (self self' : le_path_o spec_float spec_float)
         (polyline : Polyline spec_float spec_float),
    le_path_add_from_simplified_svg IEEE.strtof le_path_create
                                    "M 1e39,0 L 1e39,0 L 1,0" []
    = Ok (self, [])
    /\ wf_path self = true
    /\ le_path_trace_path self = Ok self'
    /\ polylines self' = [polyline]
    /\ distances polyline = [IEEE.of_Z 0; S754_nan; S754_nan]
    /\ IEEE.leb (IEEE.of_Z 0) S754_nan = false
    /\ IEEE.leb S754_nan S754_nan = false
    /\ IEEE.nondecreasingb (distances polyline) = false.
Proof.
  set (r := match le_path_add_from_simplified_svg IEEE.strtof
                    (le_path_create : le_path_o spec_float spec_float)
                    "M 1e39,0 L 1e39,0 L 1,0" [] with
            | Ok st => fst st
            | Err _ => le_path_create
            end).
  set (r' := match le_path_trace_path r with
             | Ok self' => self'
             | Err _ => le_path_create
             end).
  exists r, r', (hd Polyline_new (polylines r')).
  repeat (split; [vm_compute; reflexivity|]).
  vm_compute. reflexivity.
Qed.

(** C5, amended.  Every path made through the interface is well-formed:
    each sub-path is an [eMoveTo] followed by drawing commands.  For a
    well-formed path [le_path_trace_path] returns without a fault, with one
    polyline per sub-path; every polyline has one distance per vertex and
    its first distance is 0; this holds for every arithmetic, binary32
    included.  In binary32, with the total kept in binary64 as the code
    does, the distances of a polyline never decrease, whatever the
    coordinates are, as long as none of them is NaN; a path of two
    sub-paths with a line, a closure and both kinds of curve is traced
    without NaN.  In exact arithmetic the distances never decrease. *)
Theorem C5_trace_polyline_invariants :
  (forall (F D : Type) (A : Arith F D) (strtof : string -> F * nat)
          (self : le_path_o F D),
      built strtof self -> wf_path self = true)
  /\ (forall (F D : Type) (A : Arith F D) (self : le_path_o F D),
      wf_path self = true ->
      exists self',
        le_path_trace_path self = Ok self'
        /\ length (polylines self') = length (subpaths self)
        /\ Forall (fun polyline =>
                     length (vertices polyline) = length (distances polyline)
                     /\ hd_error (distances polyline) = Some (float_of_Z 0))
                  (polylines self'))
  /\ (forall self self' : (le_path_o R R),
         wf_path self = true ->
         le_path_trace_path self = Ok self' ->
         Forall (fun polyline => Sorted Rle (distances polyline)) (polylines self'))
  /\ (forall self self' : le_path_o spec_float spec_float,
         wf_path self = true ->
         le_path_trace_path self = Ok self' ->
         Forall (fun polyline =>
                   forallb (fun d => negb (IEEE.is_nan d)) (distances polyline) = true ->
                   IEEE.nondecreasingb (distances polyline) = true)
                (polylines self'))
  /\ (exists self' : le_path_o spec_float spec_float,
         le_path_trace_path Paths.two_subpaths = Ok self'
         /\ map (fun polyline => length (distances polyline)) (polylines self')
            = [15%nat; 13%nat]
         /\ forallb (fun polyline =>
                       forallb (fun d => negb (IEEE.is_nan d)) (distances polyline))
                    (polylines self') = true
         /\ forallb (fun polyline => IEEE.nondecreasingb (distances polyline))
                    (polylines self') = true).
Proof.
  split; [|split; [|split; [|split]]]; cycle 4.
  { eexists. split; [vm_compute; reflexivity|].
    split; [vm_compute; reflexivity|]. split; vm_compute; reflexivity. }
  - intros F D A strtof self Hb. exact (built_wf strtof self Hb).
  - intros F D A self Hwf. unfold le_path_trace_path.
    destruct (mapM_Forall _ _ (trace_subpath trace_resolution) traced_ok (subpaths self))
      as (pls & Hrun & Hlen & Hall).
    { intros s Hs. apply trace_subpath_ok; [discriminate|].
      unfold wf_path in Hwf. rewrite forallb_forall in Hwf. apply Hwf. exact Hs. }
    rewrite Hrun. simpl bind. eexists. split; [reflexivity|]. cbn [polylines subpaths].
    split; [exact Hlen|].
    eapply Forall_impl; [|exact Hall]. intros pl (_ & H1 & H2). split; assumption.
  - intros self self' Hwf. unfold le_path_trace_path.
    destruct (mapM _ _) as [pls|] eqn:Erun; [|discriminate].
    simpl bind. intros [= <-]. cbn [polylines].
    apply Forall_forall. intros pl Hpl.
    destruct (mapM_In _ _ _ _ _ Erun pl Hpl) as (s & Hs & Hrun).
    apply (ExactTrace.trace_subpath_nondecreasing trace_resolution s pl); [|exact Hrun].
    unfold wf_path in Hwf. rewrite forallb_forall in Hwf. apply Hwf. exact Hs.
  - intros self self' Hwf. unfold le_path_trace_path.
    destruct (mapM _ _) as [pls|] eqn:Erun; [|discriminate].
    simpl bind. intros H. apply Ok_inj in H. subst self'. cbn [polylines].
    apply Forall_forall. intros pl Hpl.
    destruct (mapM_In _ _ _ _ _ Erun pl Hpl) as (s & Hs & Hrun).
    apply (IEEETrace.trace_subpath_nondecreasing32 trace_resolution s pl); [|exact Hrun].
    unfold wf_path in Hwf. rewrite forallb_forall in Hwf. apply Hwf. exact Hs.
Qed.

(** A closed triangle and an open curve, traced in exact arithmetic; the
    path of two sub-paths, traced in binary32. *)
Lemma C5_witness :
  (let self : (le_path_o R R) :=
     {| subpaths :=
          [ {| commands := [ command1 eMoveTo (Exact.vertex 0 0);
                             command1 eLineTo (Exact.vertex 3 4);
                             command1 eClosePath vzero ] |};
            {| commands := [ command1 eMoveTo (Exact.vertex 1 1);
                             {| type := eCubicBezierTo; p := Exact.vertex 4 1;
                                c1 := Exact.vertex 2 3; c2 := Exact.vertex 3 3 |} ] |} ];
        polylines := [];
        sample_interval := 0%R |} in
   exists self',
     le_path_trace_path self = Ok self'
     /\ length (polylines self') = 2%nat
     /\ Forall (fun polyline => Sorted Rle (distances polyline)) (polylines self'))
  /\ (exists self' : le_path_o spec_float spec_float,
         le_path_trace_path Paths.two_subpaths = Ok self'
         /\ Forall (fun polyline => IEEE.nondecreasingb (distances polyline) = true)
                   (polylines self')).
Proof.
  split.
  - intros self.
    destruct (proj1 (proj2 C5_trace_polyline_invariants) _ _ Exact.arith self eq_refl)
      as (self' & Hrun & Hlen & _).
    exists self'. split; [exact Hrun|]. split; [exact Hlen|].
    exact (proj1 (proj2 (proj2 C5_trace_polyline_invariants)) self self' eq_refl Hrun).
  - set (self' := match le_path_trace_path Paths.two_subpaths with
                  | Ok traced => traced
                  | Err _ => Paths.two_subpaths
                  end).
    assert (Hrun : le_path_trace_path Paths.two_subpaths = Ok self')
      by (vm_compute; reflexivity).
    assert (Hnan : forallb (fun polyline =>
                              forallb (fun d => negb (IEEE.is_nan d))
                                      (distances polyline))
                           (polylines self') = true)
      by (vm_compute; reflexivity).
    exists self'. split; [exact Hrun|].
    pose proof (proj1 (proj2 (proj2 (proj2 C5_trace_polyline_invariants)))
                      Paths.two_subpaths self' eq_refl Hrun) as H.
    rewrite forallb_forall in Hnan. rewrite Forall_forall in H.
    apply Forall_forall. intros pl Hpl. exact (H pl Hpl (Hnan pl Hpl)).
Defined.

(** ** The scanner never runs out of fuel *)

Section ParserFacts.
Context {F D : Type} {A : Arith F D}.
Variable strtof : string -> F * nat.

Lemma length_advance (n : nat) (c : string) :
  String.length (advance n c) = (String.length c - n)%nat.
Proof.
  revert c. induction n as [|n IH]; intros c.
  - simpl. destruct c; simpl; lia.
  - destruct c as [|a c]; [reflexivity|]. simpl. apply IH.
Qed.

Lemma at_end_false_length (c : string) : at_end c = false -> (0 < String.length c)%nat.
Proof. destruct c; [discriminate|]. simpl. lia. Qed.

Lemma is_character_match_offset (needle : ascii) (c : string) (offset offset' : nat) :
  is_character_match needle c offset = (true, offset') -> offset' = S offset.
Proof.
  unfold is_character_match. destruct c as [|a c]; [discriminate|].
  destruct (Ascii.eqb a zero); [discriminate|].
  destruct (Ascii.eqb a needle); [|discriminate]. intros [= <-]. reflexivity.
Qed.

Lemma is_whitespace_offset (c : string) (offset offset' : nat) (ok : bool) :
  is_whitespace c offset = (ok, offset') -> (offset <= offset')%nat.
Proof.
  unfold is_whitespace. destruct (at_end c); intros [= _ <-]; lia.
Qed.

Lemma is_float_number_offset (c : string) (offset offset' : nat) (f f' : F) (ok : bool) :
  is_float_number strtof c offset f = (ok, offset', f') -> (offset <= offset')%nat.
Proof.
  unfold is_float_number. destruct (at_end c); [intros [= _ <- _]; lia|].
  destruct (strtof c). intros [= _ <- _]. lia.
Qed.

Lemma is_coordinate_pair_offset (c : string) (offset offset' : nat) (v v' : Vertex F)
      (ok : bool) :
  is_coordinate_pair strtof c offset v = (ok, offset', v') -> (offset <= offset')%nat.
Proof.
  unfold is_coordinate_pair, add_offsets. destruct (at_end c); [intros [= _ <- _]; lia|].
  destruct (is_float_number _ _ _ _) as [[ok1 lo1] vx].
  destruct ok1; cbn; [|intros [= _ <- _]; lia].
  destruct (is_character_match _ _ _) as [ok2 lo2].
  destruct ok2; cbn; [|intros [= _ <- _]; lia].
  destruct (is_float_number _ _ _ _) as [[ok3 lo3] vy].
  destruct ok3; cbn; intros [= _ <- _]; lia.
Qed.

(** The matchers that begin with a letter consume it when they succeed. *)
Lemma is_point_instruction_offset (letter : ascii) (c : string) (p0 p0' : Vertex F)
      (offset : nat) :
  is_point_instruction strtof letter c 0 p0 = (true, offset, p0') -> (1 <= offset)%nat.
Proof.
  unfold is_point_instruction, add_offsets.
  destruct (at_end c); [discriminate|].
  destruct (is_character_match letter c 0) as [ok1 lo1] eqn:E1.
  destruct ok1; [|discriminate]. apply is_character_match_offset in E1. subst lo1.
  destruct (is_whitespace _ _) as [ok2 lo2] eqn:E2. destruct ok2; [|discriminate].
  apply is_whitespace_offset in E2.
  destruct (is_coordinate_pair _ _ _ _) as [[ok3 lo3] q] eqn:E3.
  destruct ok3; [|discriminate]. apply is_coordinate_pair_offset in E3.
  cbn. intros [= <- _]. lia.
Qed.

Lemma is_scalar_instruction_offset (letter : ascii) (c : string) (f f' : F)
      (offset : nat) :
  is_scalar_instruction strtof letter c 0 f = (true, offset, f') -> (1 <= offset)%nat.
Proof.
  unfold is_scalar_instruction, add_offsets.
  destruct (at_end c); [discriminate|].
  destruct (is_character_match letter c 0) as [ok1 lo1] eqn:E1.
  destruct ok1; [|discriminate]. apply is_character_match_offset in E1. subst lo1.
  destruct (is_whitespace _ _) as [ok2 lo2] eqn:E2. destruct ok2; [|discriminate].
  apply is_whitespace_offset in E2.
  destruct (is_float_number _ _ _ _) as [[ok3 lo3] q] eqn:E3.
  destruct ok3; [|discriminate]. apply is_float_number_offset in E3.
  cbn. intros [= <- _]. lia.
Qed.

Lemma is_c_instruction_offset (c : string) (p0 p1 p2 : Vertex F)
      (r : Vertex F * Vertex F * Vertex F) (offset : nat) :
  is_c_instruction strtof c 0 p0 p1 p2 = (true, offset, r) -> (1 <= offset)%nat.
Proof.
  unfold is_c_instruction, add_offsets.
  destruct (at_end c); [discriminate|].
  destruct (is_character_match "C" c 0) as [ok1 lo1] eqn:E1.
  destruct ok1; [|discriminate]. apply is_character_match_offset in E1. subst lo1.
  destruct (is_whitespace _ _) as [ok2 lo2] eqn:E2. destruct ok2; [|discriminate].
  apply is_whitespace_offset in E2.
  destruct (is_coordinate_pair _ _ _ _) as [[ok3 lo3] q0] eqn:E3.
  destruct ok3; [|discriminate]. apply is_coordinate_pair_offset in E3. cbn.
  destruct (is_whitespace _ _) as [ok4 lo4] eqn:E4. destruct ok4; [|discriminate].
  apply is_whitespace_offset in E4.
  destruct (is_coordinate_pair _ _ _ _) as [[ok5 lo5] q1] eqn:E5.
  destruct ok5; [|discriminate]. apply is_coordinate_pair_offset in E5. cbn.
  destruct (is_whitespace _ _) as [ok6 lo6] eqn:E6. destruct ok6; [|discriminate].
  apply is_whitespace_offset in E6.
  destruct (is_coordinate_pair _ _ _ _) as [[ok7 lo7] q2] eqn:E7.
  destruct ok7; [|discriminate]. apply is_coordinate_pair_offset in E7. cbn.
  intros [= <- _]. lia.
Qed.

Lemma is_q_instruction_offset (c : string) (p0 p1 : Vertex F)
      (r : Vertex F * Vertex F) (offset : nat) :
  is_q_instruction strtof c 0 p0 p1 = (true, offset, r) -> (1 <= offset)%nat.
Proof.
  unfold is_q_instruction, add_offsets.
  destruct (at_end c); [discriminate|].
  destruct (is_character_match "Q" c 0) as [ok1 lo1] eqn:E1.
  destruct ok1; [|discriminate]. apply is_character_match_offset in E1. subst lo1.
  destruct (is_whitespace _ _) as [ok2 lo2] eqn:E2. destruct ok2; [|discriminate].
  apply is_whitespace_offset in E2.
  destruct (is_coordinate_pair _ _ _ _) as [[ok3 lo3] q0] eqn:E3.
  destruct ok3; [|discriminate]. apply is_coordinate_pair_offset in E3. cbn.
  destruct (is_whitespace _ _) as [ok4 lo4] eqn:E4. destruct ok4; [|discriminate].
  apply is_whitespace_offset in E4.
  destruct (is_coordinate_pair _ _ _ _) as [[ok5 lo5] q1] eqn:E5.
  destruct ok5; [|discriminate]. apply is_coordinate_pair_offset in E5. cbn.
  intros [= <- _]. lia.
Qed.

(** Fuel above the length of the text is never used up: the result does
    not depend on it. *)
Lemma svg_loop_fuel (fuel1 : nat) :
  forall (fuel2 : nat) (self : le_path_o F D) (c : string) (p0 p1 p2 : Vertex F)
         (err : Stderr),
    (String.length c < fuel1)%nat -> (String.length c < fuel2)%nat ->
    svg_loop strtof fuel1 self c p0 p1 p2 err = svg_loop strtof fuel2 self c p0 p1 p2 err.
Proof.
  induction fuel1 as [|fuel1 IH]; intros fuel2 self c p0 p1 p2 err H1 H2; [lia|].
  destruct fuel2 as [|fuel2]; [lia|].
  cbn [svg_loop]. destruct (at_end c) eqn:Eend; [reflexivity|].
  apply at_end_false_length in Eend.
  assert (Hadv : forall n, (1 <= n)%nat ->
                           (String.length (advance n c) < fuel1)%nat
                           /\ (String.length (advance n c) < fuel2)%nat).
  { intros n Hn. rewrite length_advance. lia. }
  destruct (is_m_instruction strtof c 0 p0) as [[ok offset] q0] eqn:Em.
  destruct ok.
  { apply is_point_instruction_offset in Em. apply IH; apply Hadv; exact Em. }
  clear Em.
  destruct (is_l_instruction strtof c 0 q0) as [[ok1 offset1] q1] eqn:El.
  destruct ok1.
  { apply is_point_instruction_offset in El. unfold io_bind.
    destruct (io_lift _ err) as [[self' err']|]; [|reflexivity].
    apply IH; apply Hadv; exact El. }
  clear El.
  destruct (is_h_instruction strtof c 0 (x q1)) as [[ok2 offset2] fx] eqn:Eh.
  destruct ok2.
  { apply is_scalar_instruction_offset in Eh. unfold io_bind.
    destruct (le_path_line_horiz_to _ _ err) as [[self' err']|]; [|reflexivity].
    apply IH; apply Hadv; exact Eh. }
  clear Eh.
  destruct (is_v_instruction strtof c 0 _) as [[ok3 offset3] fy] eqn:Ev.
  destruct ok3.
  { apply is_scalar_instruction_offset in Ev. unfold io_bind.
    destruct (le_path_line_vert_to _ _ err) as [[self' err']|]; [|reflexivity].
    apply IH; apply Hadv; exact Ev. }
  clear Ev.
  destruct (is_c_instruction strtof c 0 _ p1 p2) as [[ok4 offset4] [[r0 r1] r2]] eqn:Ec.
  destruct ok4.
  { apply is_c_instruction_offset in Ec. unfold io_bind.
    destruct (io_lift _ err) as [[self' err']|]; [|reflexivity].
    apply IH; apply Hadv; exact Ec. }
  clear Ec.
  destruct (is_q_instruction strtof c 0 r0 r1) as [[ok5 offset5] [s0 s1]] eqn:Eq.
  destruct ok5.
  { apply is_q_instruction_offset in Eq. unfold io_bind.
    destruct (io_lift _ err) as [[self' err']|]; [|reflexivity].
    apply IH; apply Hadv; exact Eq. }
  clear Eq.
  destruct (is_character_match "Z" c 0) as [ok6 offset6] eqn:Ez.
  destruct ok6.
  { apply is_character_match_offset in Ez. subst offset6. unfold io_bind.
    destruct (io_lift _ err) as [[self' err']|]; [|reflexivity].
    apply IH; apply Hadv; lia. }
  apply IH; apply Hadv; lia.
Qed.
End ParserFacts.

(** ** C6: parsing and tracing a triangle *)

(** The claim of C6 fails twice.  In "M0,0 L10,0 L10,10 Z" no letter is
    followed by white space, so neither [is_m_instruction] nor
    [is_l_instruction] matches; the first command the scanner finds is the
    final "Z", and [le_path_close_path] on a path without sub-paths is
    undefined.  And the triangle (0,0), (10,0), (10,10) closes along its
    diagonal: the last cumulative distance is above 34, not 30. *)
Lemma C6_counterexample :
  le_path_add_from_simplified_svg IEEE.strtof le_path_create "M0,0 L10,0 L10,10 Z" []
  = Err UndefinedBehaviour
  /\ Values.traced_distances Values.triangle
     = [[IEEE.of_Z 0; IEEE.of_Z 10; IEEE.of_Z 20; Values.twenty_plus_sqrt_200]]
  /\ IEEE.ltb (IEEE.of_Z 34) Values.twenty_plus_sqrt_200 = true
  /\ IEEE.eqb Values.twenty_plus_sqrt_200 (IEEE.of_Z 30) = false.
Proof. repeat split; vm_compute; reflexivity. Qed.

(** C6, amended.  Parsing "M 0,0 L 10,0 L 10,10 Z" (white space after each
    letter that takes coordinates) into the empty path writes no warning
    and gives the path the builder makes from move_to, line_to, line_to,
    close; tracing it yields exactly one polyline, with the 4 vertices
    (0,0), (10,0), (10,10), (0,0) and the cumulative distances 0, 10, 20
    and 20 + sqrt(200), which is 34.142136 in binary32. *)
Theorem C6_parse_then_trace :
  exists self self' : le_path_o spec_float spec_float,
    le_path_add_from_simplified_svg IEEE.strtof le_path_create
                                    "M 0,0 L 10,0 L 10,10 Z" []
    = Ok (self, [])
    /\ Values.triangle = Ok self
    /\ le_path_trace_path self = Ok self'
    /\ length (polylines self') = 1%nat
    /\ map vertices (polylines self')
       = [[IEEE.vertex 0 0; IEEE.vertex 10 0; IEEE.vertex 10 10; IEEE.vertex 0 0]]
    /\ map distances (polylines self')
       = [[IEEE.of_Z 0; IEEE.of_Z 10; IEEE.of_Z 20; Values.twenty_plus_sqrt_200]]
    /\ Values.twenty_plus_sqrt_200 = Values.lit "34.142136".
Proof.
  eexists. eexists.
  split; [vm_compute; reflexivity|].
  split; [vm_compute; reflexivity|].
  split; [vm_compute; reflexivity|].
  repeat split; vm_compute; reflexivity.
Qed.

(** ** Facts on the line resampler *)

Section ResampleLineFacts.
Context {F D : Type} {A : Arith F D}.

Lemma length_int_range (lo hi : Z) : length (int_range lo hi) = Z.to_nat (hi - lo + 1).
Proof. unfold int_range. rewrite length_map, length_seq. reflexivity. Qed.

Lemma in_int_range (lo hi i : Z) : In i (int_range lo hi) <-> (lo <= i <= hi)%Z.
Proof.
  unfold int_range. rewrite in_map_iff. split.
  - intros (k & <- & Hk). apply in_seq in Hk. lia.
  - intros Hi. exists (Z.to_nat (i - lo)). split; [lia|]. apply in_seq. lia.
Qed.

Lemma int_range_empty (lo hi : Z) : (hi < lo)%Z -> int_range lo hi = [].
Proof.
  intros H. unfold int_range. replace (Z.to_nat (hi - lo + 1)) with 0%nat by lia.
  reflexivity.
Qed.

(** [resample_line_to] on a polyline that has a last vertex. *)
Lemma resample_line_to_spec (polyline : Polyline F D) (start_point q : Vertex F)
      (interval sum_distance : F) :
  back (vertices polyline) = Some start_point ->
  let distance := distance q start_point in
  let direction := vdivs (vsub q start_point) distance in
  let start_distance := start_distance_of interval sum_distance in
  resample_line_to polyline q interval sum_distance
  = (n_intervals <- to_int (ffloor ((distance - start_distance) / interval)%float) ;;
     _ <- line_loop_counter n_intervals ;;
     Ok (with_vertices polyline
           (vertices polyline ++
            map (line_point start_point direction interval start_distance)
                (int_range 1 n_intervals)),
         (sum_distance + (start_distance + float_of_Z n_intervals * interval))%float)).
Proof. intros H. unfold resample_line_to. rewrite H. reflexivity. Qed.
End ResampleLineFacts.

Module ExactResample.
Import Exact.
Local Open Scope R_scope.

Lemma Int_part_IZR (k : Z) : Int_part (IZR k) = k.
Proof. symmetry. apply Int_part_spec. lra. Qed.

Lemma trunc_IZR (k : Z) : trunc (IZR k) = Some k.
Proof.
  unfold trunc. destruct (Rle_dec 0 (IZR k)).
  - rewrite Int_part_IZR. reflexivity.
  - rewrite <- opp_IZR, Int_part_IZR. f_equal. lia.
Qed.

Lemma to_int_floor (r : R) :
  to_int (ffloor r)
  = if ((INT_MIN <=? Int_part r) && (Int_part r <=? INT_MAX))%Z
    then Ok (Int_part r) else Err UndefinedBehaviour.
Proof.
  unfold to_int. change (ftrunc (ffloor r)) with (trunc (IZR (Int_part r))).
  rewrite trunc_IZR. reflexivity.
Qed.

(** [start_distance] is [sum_distance] modulo [interval]. *)
Lemma start_distance_mod (interval sum_distance : R) :
  0 < interval ->
  let s := start_distance_of interval sum_distance in
  0 <= s < interval
  /\ sum_distance = IZR (Int_part (sum_distance / interval)) * interval + s.
Proof.
  intros HI s. unfold s, start_distance_of. cbn. unfold floor.
  destruct (base_Int_part (sum_distance / interval)) as [Hlo Hhi].
  set (k := IZR (Int_part (sum_distance / interval))) in *.
  assert (Hsum : sum_distance = sum_distance / interval * interval) by (field; lra).
  split; [|ring].
  split.
  - assert (k * interval <= sum_distance / interval * interval)
      by (apply Rmult_le_compat_r; lra).
    lra.
  - assert (sum_distance / interval * interval < (k + 1) * interval)
      by (apply Rmult_lt_compat_r; lra).
    lra.
Qed.

(** The squared length of the vector between two points. *)
Lemma distance_sqr (a b : Vertex R) :
  distance a b * distance a b = (x b - x a) * (x b - x a) + (y b - y a) * (y b - y a).
Proof.
  unfold distance, length_, dot, vsub. cbn. apply sqrt_sqrt.
  apply Rplus_le_le_0_compat; apply Rle_0_sqr.
Qed.

(** A point the line loop adds lies on the ray from [start_point] to [q],
    at the distance asked for. *)
Lemma line_point_on_ray (start_point q : Vertex R) (len : R) :
  0 < distance q start_point -> 0 <= len ->
  let direction := vdivs (vsub q start_point) (distance q start_point) in
  let pt := vadd start_point (vmuls direction len) in
  distance start_point pt = len
  /\ x pt = x start_point + len / distance q start_point * (x q - x start_point)
  /\ y pt = y start_point + len / distance q start_point * (y q - y start_point).
Proof.
  intros Hd Hlen.
  pose proof (distance_sqr q start_point) as Hsq.
  destruct start_point as [sx sy], q as [qx qy].
  unfold distance, length_, dot, vsub, vadd, vmuls, vdivs in *. cbn in *.
  set (d := sqrt ((sx - qx) * (sx - qx) + (sy - qy) * (sy - qy))) in *.
  assert (H2 : (qx - sx) * (qx - sx) + (qy - sy) * (qy - sy) = d * d)
    by (rewrite Hsq; ring).
  split; [|split; field; lra].
  match goal with |- sqrt ?E = _ => replace E with (len * len) end.
  - apply sqrt_square. exact Hlen.
  - transitivity (len * len * (((qx - sx) * (qx - sx) + (qy - sy) * (qy - sy))
                               / (d * d))).
    + rewrite H2. field. lra.
    + field. lra.
Qed.

(** Below one interval the start distance is [sum_distance] itself. *)
Lemma start_distance_small (interval sum_distance : R) :
  0 <= sum_distance < interval ->
  start_distance_of interval sum_distance = sum_distance.
Proof.
  intros H. unfold start_distance_of. cbn. unfold floor.
  replace (Int_part (sum_distance / interval)) with 0%Z; [ring|].
  apply Int_part_spec.
  assert (0 <= sum_distance / interval).
  { unfold Rdiv. apply Rmult_le_pos; [lra|]. left. apply Rinv_0_lt_compat. lra. }
  assert (sum_distance / interval < 1).
  { apply Rmult_lt_reg_r with interval; [lra|].
    unfold Rdiv. rewrite Rmult_assoc, Rinv_l by lra. lra. }
  lra.
Qed.

(** Distances along the first axis. *)
Lemma distance_horizontal (a b c : R) :
  a <= b -> distance (vertex a c) (vertex b c) = b - a.
Proof.
  intros H. unfold distance, length_, dot, vsub, vertex. cbn.
  replace ((b - a) * (b - a) + (c - c) * (c - c)) with ((b - a) * (b - a)) by ring.
  apply sqrt_square. lra.
Qed.

Lemma distance_sym (a b : Vertex R) : distance a b = distance b a.
Proof.
  unfold distance, length_, dot, vsub. cbn. f_equal. ring.
Qed.
End ExactResample.

(** ** C1: resampling a line *)

(** The claim of C1 fails in binary32: the start distance is the value of
    [sum_distance - floor( sum_distance / interval ) * interval], and that
    is not always the remainder.  With [interval = 0.05f] and
    [sum_distance = 0.9f] the quotient 17.99999997 rounds to 18, the
    product 18 * 0.05f rounds to 0.90000004, and the start distance is
    [- 2 ^ -24], below 0; the remainder of the two values is
    [13421763 * 2 ^ -28], about 0.04999996.  A line of one unit then gets
    20 vertices, the first about 0.05 from the start; with the remainder
    as start distance the claim's formula gives
    [floor((1 - 0.04999996) / 0.05f) = 19] vertices, the first about 0.1
    from the start. *)
Lemma C1_counterexample :
  Values.lit "0.05" = S754_finite false 13421773 (-28)
  /\ Values.lit "0.9" = S754_finite false 15099494 (-24)
  /\ (15099494 * 2 ^ 4 = 17 * 13421773 + 13421763)%Z
  /\ (0 <= 13421763 < 13421773)%Z
  /\ ((2 ^ 28 - 13421763) / 13421773 = 19)%Z
  /\ start_distance_of (Values.lit "0.05") (Values.lit "0.9")
     = S754_finite true 8388608 (-47)
  /\ IEEE.ltb (start_distance_of (Values.lit "0.05") (Values.lit "0.9")) (IEEE.of_Z 0)
     = true
  /\ exists (polyline : Polyline spec_float spec_float) (sum_distance : spec_float)
            (first : Vertex spec_float),
      resample_line_to
        {| vertices := [IEEE.vertex 0 0]; distances := [];
           total_distance := double_of_Z 0 |}
        (IEEE.vertex 1 0) (Values.lit "0.05") (Values.lit "0.9")
      = Ok (polyline, sum_distance)
      /\ length (vertices polyline) = 21%nat
      /\ nth_error (vertices polyline) 1 = Some first
      /\ IEEE.ltb (x first) (Values.lit "0.0500001") = true.
Proof.
  split; [vm_compute; reflexivity|].
  split; [vm_compute; reflexivity|].
  split; [reflexivity|].
  split; [lia|].
  split; [reflexivity|].
  split; [vm_compute; reflexivity|].
  split; [vm_compute; reflexivity|].
  eexists. eexists. eexists.
  split; [vm_compute; reflexivity|].
  split; [vm_compute; reflexivity|].
  split; [vm_compute; reflexivity|vm_compute; reflexivity].
Qed.

(** C1, amended.  [resample_line_to] on a polyline whose last vertex is
    [start_point], with [d] the distance to the target as the code
    computes it, [s] the value of
    [sum_distance - floor( sum_distance / interval ) * interval] and
    [n = floor((d - s) / interval)] as an [int]: the vertices added are the
    points [start_point + direction * (i * interval + s)] for
    [i = 1 .. n], and [sum_distance] becomes
    [sum_distance + (s + n * interval)]; the call is undefined when the
    floor does not fit an [int], and when [n] is [INT_MAX].  This holds
    for every arithmetic, binary32 included.
    In exact arithmetic with [interval > 0], [s] is [sum_distance] modulo
    [interval], and point [i] lies on the segment from [start_point] to
    the target, at distance [s + i * interval] from [start_point].
    In binary32, the segment from (0,0) to (100,0) resampled with
    interval 10 from [sum_distance = 0] gets exactly the 10 further
    vertices (10,0), (20,0), ..., (100,0), and [sum_distance] ends at
    100. *)
Theorem C1_resample_line_to :
  (forall (F D : Type) (A : Arith F D) (polyline : Polyline F D)
          (start_point q : Vertex F) (interval sum_distance : F),
      back (vertices polyline) = Some start_point ->
      let d := distance q start_point in
      let s := start_distance_of interval sum_distance in
      let pt := line_point start_point (vdivs (vsub q start_point) d) interval s in
      resample_line_to polyline q interval sum_distance
      = match to_int (ffloor ((d - s) / interval)%float) with
        | Ok n =>
            if (n =? INT_MAX)%Z then Err UndefinedBehaviour
            else
              Ok (with_vertices polyline (vertices polyline ++ map pt (int_range 1 n)),
                  (sum_distance + (s + float_of_Z n * interval))%float)
        | Err f => Err f
        end)
  /\ (forall (polyline : Polyline R R) (start_point q : Vertex R)
             (interval sum_distance : R),
         back (vertices polyline) = Some start_point ->
         (0 < interval)%R ->
         let d := distance q start_point in
         let s := start_distance_of interval sum_distance in
         let n := Int_part ((d - s) / interval) in
         let pt := line_point start_point (vdivs (vsub q start_point) d) interval s in
         (0 <= s < interval)%R
         /\ sum_distance = (IZR (Int_part (sum_distance / interval)) * interval + s)%R
         /\ to_int (ffloor ((d - s) / interval)%float)
            = (if ((INT_MIN <=? n) && (n <=? INT_MAX))%Z then Ok n
               else Err UndefinedBehaviour)
         /\ length (map pt (int_range 1 n)) = Z.to_nat n
         /\ Forall (fun i =>
                      distance start_point (pt i) = (s + IZR i * interval)%R
                      /\ exists t : R,
                          (0 < t <= 1)%R
                          /\ x (pt i) = (x start_point + t * (x q - x start_point))%R
                          /\ y (pt i) = (y start_point + t * (y q - y start_point))%R)
                   (int_range 1 n))
  /\ resample_commands resample_resolution (IEEE.of_Z 10) Paths.segment_100
     = Ok ({| vertices := IEEE.vertex 0 0
                          :: map (fun i => IEEE.vertex (10 * i) 0) (int_range 1 10);
              distances := [];
              total_distance := double_of_Z 0 |},
           IEEE.of_Z 100).
Proof.
  split; [|split].
  - intros F D A polyline start_point q interval sum_distance Hb d s pt.
    rewrite (resample_line_to_spec polyline start_point q interval sum_distance Hb).
    fold d s. destruct (to_int _) as [n|f]; [|reflexivity].
    cbn [bind]. unfold line_loop_counter. destruct (n =? INT_MAX)%Z; reflexivity.
  - intros polyline start_point q interval sum_distance Hb HI d s n pt.
    destruct (ExactResample.start_distance_mod interval sum_distance HI) as [Hs Hsum].
    fold s in Hs, Hsum.
    split; [exact Hs|]. split; [exact Hsum|].
    split; [apply ExactResample.to_int_floor|].
    split; [rewrite length_map, length_int_range; f_equal; lia|].
    apply Forall_forall. intros i Hi. apply in_int_range in Hi.
    assert (Hn : (IZR n <= (d - s) / interval)%R)
      by apply (base_Int_part ((d - s) / interval)).
    assert (Hin : (IZR i <= IZR n)%R) by (apply IZR_le; lia).
    assert (Hi1 : (1 <= IZR i)%R) by (apply IZR_le; lia).
    assert (Hlen : (IZR i * interval <= d - s)%R).
    { apply Rle_trans with ((d - s) / interval * interval)%R.
      - apply Rmult_le_compat_r; lra.
      - right. field. lra. }
    assert (Hd : (0 < d)%R) by nra.
    assert (Hpos : (0 <= IZR i * interval + s)%R) by nra.
    destruct (ExactResample.line_point_on_ray start_point q (IZR i * interval + s)%R
                Hd Hpos) as (H1 & H2 & H3).
    split; [transitivity (IZR i * interval + s)%R; [exact H1|ring]|].
    exists ((IZR i * interval + s) / d)%R. split.
    + split; [apply Rdiv_lt_0_compat; nra|].
      apply Rmult_le_reg_r with d; [exact Hd|].
      unfold Rdiv. rewrite Rmult_assoc, Rinv_l by lra. lra.
    + split; [exact H2|exact H3].
  - vm_compute. reflexivity.
Qed.

(** The unit line of the counterexample, in binary32: the equation holds
    with the start distance below 0 and 20 further vertices. *)
Lemma C1_witness :
  let polyline : Polyline spec_float spec_float :=
    {| vertices := [IEEE.vertex 0 0]; distances := [];
       total_distance := double_of_Z 0 |} in
  let interval := Values.lit "0.05" in
  let sum_distance := Values.lit "0.9" in
  let d := distance (IEEE.vertex 1 0) (IEEE.vertex 0 0) in
  let s := start_distance_of interval sum_distance in
  to_int (ffloor ((d - s) / interval)%float) = Ok 20%Z
  /\ resample_line_to polyline (IEEE.vertex 1 0) interval sum_distance
     = match to_int (ffloor ((d - s) / interval)%float) with
       | Ok n =>
           if (n =? INT_MAX)%Z then Err UndefinedBehaviour
           else
             Ok (with_vertices polyline
                   (vertices polyline
                    ++ map (line_point (IEEE.vertex 0 0)
                              (vdivs (vsub (IEEE.vertex 1 0) (IEEE.vertex 0 0)) d)
                              interval s)
                           (int_range 1 n)),
                 (sum_distance + (s + float_of_Z n * interval))%float)
       | Err f => Err f
       end.
Proof.
  intros polyline interval sum_distance d s.
  split; [vm_compute; reflexivity|].
  exact (proj1 C1_resample_line_to spec_float spec_float IEEE.arith polyline
           (IEEE.vertex 0 0) (IEEE.vertex 1 0) interval sum_distance eq_refl).
Defined.

(** ** Signed values of binary32: order and exact products *)

Module SignedFacts.
Import Rounding RoundingFacts.
Local Open Scope Z_scope.

Section Signs.
Variables prec emax : Z.
Hypothesis Hprec : 0 < prec.

Lemma binary_round_aux_sign (s : bool) (m e : Z) (l : location) :
  binary_round_aux prec emax s m e l
  = set_sign s (binary_round_aux prec emax false m e l).
Proof.
  unfold binary_round_aux.
  destruct (shr_fexp prec emax m e l) as [mrs' e'].
  destruct (shr_fexp prec emax _ e' loc_Exact) as [mrs'' e''].
  destruct (shr_m mrs'') as [|q|q]; try reflexivity.
  destruct (e'' <=? emax - prec); reflexivity.
Qed.

Lemma binary_round_sign (s : bool) (m : positive) (e : Z) :
  binary_round prec emax s m e = set_sign s (rounded prec emax m e).
Proof.
  rewrite <- (binary_round_rounded prec emax Hprec).
  unfold binary_round.
  destruct (shl_align m e _) as [mz ez].
  apply binary_round_aux_sign.
Qed.

(** The three shapes of a rounded value. *)
Lemma rounded_shape (m : positive) (e : Z) :
  rounded prec emax m e = S754_zero false
  \/ rounded prec emax m e = S754_infinity false
  \/ exists m' e', rounded prec emax m e = S754_finite false m' e'
                   /\ SpecFloat.bounded prec emax m' e' = true.
Proof.
  pose proof (rounded_nonneg_valid prec emax Hprec m e) as Hv.
  destruct (rounded_view_rounded prec emax Hprec m e) as [Hz|m' E' Hpos Enf HE|m' E' Hpos Enf HE].
  - left. reflexivity.
  - right. right. exists m', E'. split; [reflexivity|]. exact (proj2 Hv).
  - right. left. reflexivity.
Qed.
End Signs.

Section Order.
Variables prec emax : Z.
Hypothesis Hprec : 0 < prec.

Lemma SFleb_refl_finite (s : bool) (m : positive) (e : Z) :
  SFleb (S754_finite s m e) (S754_finite s m e) = true.
Proof.
  unfold SFleb, SFcompare. rewrite Z.compare_refl.
  change (Pos.compare_cont Eq m m) with (Pos.compare m m).
  rewrite Pos.compare_refl. destruct s; reflexivity.
Qed.

(** What the comparison of two positive values of the format says of
    their mantissas, brought to the lower exponent. *)
Lemma SFleb_value_le (m1 m2 : positive) (e1 e2 : Z) :
  SpecFloat.bounded prec emax m1 e1 = true ->
  SpecFloat.bounded prec emax m2 e2 = true ->
  SFleb (S754_finite false m1 e1) (S754_finite false m2 e2) = true ->
  Zpos m1 * 2 ^ (e1 - Z.min e1 e2) <= Zpos m2 * 2 ^ (e2 - Z.min e1 e2).
Proof.
  intros B1 B2.
  destruct (bounded_canonical prec emax m1 e1 B1) as [[_ C1] _].
  destruct (bounded_canonical prec emax m2 e2 B2) as [[_ C2] _].
  cbn [Zdigits2] in C1, C2.
  unfold SFleb, SFcompare.
  destruct (Z.compare_spec e1 e2) as [->|Hlt|Hgt].
  - change (Pos.compare_cont Eq m1 m2) with (Pos.compare m1 m2).
    rewrite Z.min_id, Z.sub_diag, Z.pow_0_r.
    destruct (Pos.compare_spec m1 m2); try discriminate; lia.
  - intros _. replace (Z.min e1 e2) with e1 by lia.
    rewrite Z.sub_diag, Z.pow_0_r, Z.mul_1_r.
    pose proof (digits2_upper m1) as U1. pose proof (digits2_lower m2) as L2.
    assert (D1 : Zpos (digits2_pos m1) <= prec) by (unfold fexp in C1; lia).
    assert (D2 : Zpos (digits2_pos m2) = prec) by (unfold fexp in C1, C2; lia).
    rewrite D2 in L2.
    assert (P1 : 2 ^ Zpos (digits2_pos m1) <= 2 ^ prec) by (apply Z.pow_le_mono_r; lia).
    assert (P2 : 2 ^ prec = 2 * 2 ^ (prec - 1)).
    { replace prec with (prec - 1 + 1) at 1 by lia.
      rewrite Z.pow_add_r by lia. change (2 ^ 1) with 2. lia. }
    assert (P3 : 2 ^ 1 <= 2 ^ (e2 - e1)) by (apply Z.pow_le_mono_r; lia).
    change (2 ^ 1) with 2 in P3. nia.
  - discriminate.
Qed.

(** The order of two values that are not positive is the reverse of the
    order of their magnitudes. *)
Lemma SFleb_negated (a b : spec_float) :
  nonneg_valid prec emax a -> nonneg_valid prec emax b ->
  value_le b a -> SFleb (set_sign true a) (set_sign true b) = true.
Proof.
  destruct a as [sa|sa| |sa ma ea]; destruct b as [sb|sb| |sb mb eb];
    cbn [value_le nonneg_valid set_sign]; try easy.
  intros [_ Ba] [_ Bb] (-> & -> & Hle).
  destruct (bounded_canonical prec emax ma ea Ba) as [Ca _].
  destruct (bounded_canonical prec emax mb eb Bb) as [Cb _].
  destruct (canonical_order prec emax (Zpos mb) eb (Zpos ma) ea (Z.min eb ea)
              Cb Ca ltac:(lia) ltac:(lia) Hle) as [Hlt|[-> Hm]];
    unfold SFleb, SFcompare.
  - apply Z.compare_gt_iff in Hlt. rewrite Hlt. reflexivity.
  - rewrite Z.compare_refl.
    change (Pos.compare_cont Eq ma mb) with (Pos.compare ma mb).
    destruct (Pos.compare_spec ma mb); try reflexivity. lia.
Qed.

(** Adding a value that is not positive does not raise a finite value. *)
Lemma SFadd_nonpos_le (t x : spec_float) :
  valid_binary prec emax t = true -> IEEE.finite t = true -> nonpos x ->
  SFleb (SFadd prec emax t x) t = true.
Proof.
  destruct t as [st|st| |st mt et]; try discriminate;
    destruct x as [sx|sx| |sx mx ex]; cbn [nonpos valid_binary]; try easy.
  - intros _ _ _. destruct st, sx; reflexivity.
  - intros _ _ ->. reflexivity.
  - intros _ _ ->. reflexivity.
  - intros _ _ _. cbn [SFadd]. apply SFleb_refl_finite.
  - intros _ _ ->. destruct st; reflexivity.
  - intros Bt _ ->. cbn [SFadd cond_Zopp].
    set (ez := Z.min et ex).
    pose proof (shl_align_fst mt et ez ltac:(unfold ez; lia)) as Ht.
    pose proof (shl_align_fst mx ex ez ltac:(unfold ez; lia)) as Hx.
    set (m1 := fst (shl_align mt et ez)) in *.
    set (m2 := fst (shl_align mx ex ez)) in *.
    assert (Hmin : Z.min ez et = ez) by (unfold ez; lia).
    destruct st; cbn [cond_Zopp].
    + (* a negative value: the magnitude grows *)
      change (- Zpos m1 + - Zpos m2) with (Zneg (m1 + m2)).
      cbn [binary_normalize]. rewrite (binary_round_sign prec emax Hprec).
      change (S754_finite true mt et) with (set_sign true (S754_finite false mt et)).
      apply SFleb_negated.
      * apply (rounded_nonneg_valid prec emax Hprec).
      * cbn [nonneg_valid]. split; [reflexivity|exact Bt].
      * rewrite <- (rounded_id prec emax Hprec mt et Bt).
        apply (rounded_value_le prec emax Hprec). cbn [value_le].
        split; [reflexivity|]. split; [reflexivity|].
        replace (Z.min et ez) with ez by lia.
        rewrite Z.sub_diag, Z.pow_0_r, Z.mul_1_r, Pos2Z.inj_add. lia.
    + destruct (Zpos m1 + - Zpos m2) as [|z|z] eqn:Ez; cbn [binary_normalize].
      * reflexivity.
      * rewrite (binary_round_rounded prec emax Hprec).
        apply (value_le_SFleb prec emax).
        -- apply (rounded_nonneg_valid prec emax Hprec).
        -- cbn [nonneg_valid]. split; [reflexivity|exact Bt].
        -- rewrite <- (rounded_id prec emax Hprec mt et Bt).
           apply (rounded_value_le prec emax Hprec). cbn [value_le].
           split; [reflexivity|]. split; [reflexivity|].
           rewrite Hmin, Z.sub_diag, Z.pow_0_r, Z.mul_1_r. lia.
      * rewrite (binary_round_sign prec emax Hprec).
        destruct (rounded_shape prec emax Hprec z ez) as [->|[->|(m' & e' & -> & _)]];
          reflexivity.
Qed.

(** A value that is not above a positive one, less that one, is not
    positive. *)
Lemma SFadd_le_nonpos (s : spec_float) (mi : positive) (ei : Z) :
  valid_binary prec emax s = true ->
  SpecFloat.bounded prec emax mi ei = true ->
  SFleb s (S754_finite false mi ei) = true ->
  nonpos (SFadd prec emax s (S754_finite true mi ei)).
Proof.
  destruct s as [ss|ss| |ss ms es]; cbn [valid_binary]; try easy.
  - intros _ _. destruct ss; [reflexivity|discriminate].
  - intros Bs Bi Hle. cbn [SFadd cond_Zopp].
    set (ez := Z.min es ei).
    pose proof (shl_align_fst ms es ez ltac:(unfold ez; lia)) as Hs.
    pose proof (shl_align_fst mi ei ez ltac:(unfold ez; lia)) as Hi.
    set (m1 := fst (shl_align ms es ez)) in *.
    set (m2 := fst (shl_align mi ei ez)) in *.
    destruct ss; cbn [cond_Zopp].
    + change (- Zpos m1 + - Zpos m2) with (Zneg (m1 + m2)).
      cbn [binary_normalize]. rewrite (binary_round_sign prec emax Hprec).
      destruct (rounded_shape prec emax Hprec (m1 + m2) ez)
        as [->|[->|(m' & e' & -> & _)]]; reflexivity.
    + pose proof (SFleb_value_le ms mi es ei Bs Bi Hle) as Hv. fold ez in Hv.
      destruct (Zpos m1 + - Zpos m2) as [|z|z] eqn:Ez; cbn [binary_normalize].
      * exact I.
      * lia.
      * rewrite (binary_round_sign prec emax Hprec).
        destruct (rounded_shape prec emax Hprec z ez)
          as [->|[->|(m' & e' & -> & _)]]; reflexivity.
Qed.

(** Rounding depends on the value only. *)
Lemma rounded_value_eq (m1 m2 : positive) (e1 e2 : Z) :
  Zpos m1 * 2 ^ (e1 - Z.min e1 e2) = Zpos m2 * 2 ^ (e2 - Z.min e1 e2) ->
  rounded prec emax m1 e1 = rounded prec emax m2 e2.
Proof.
  intros Heq.
  assert (H12 : value_le (rounded prec emax m1 e1) (rounded prec emax m2 e2)).
  { apply (rounded_value_le prec emax Hprec). cbn [value_le].
    split; [reflexivity|]. split; [reflexivity|]. lia. }
  assert (H21 : value_le (rounded prec emax m2 e2) (rounded prec emax m1 e1)).
  { apply (rounded_value_le prec emax Hprec). cbn [value_le].
    split; [reflexivity|]. split; [reflexivity|].
    rewrite (Z.min_comm e2 e1). lia. }
  destruct (rounded_shape prec emax Hprec m1 e1) as [R1|[R1|(a & ea & R1 & Ba)]];
    destruct (rounded_shape prec emax Hprec m2 e2) as [R2|[R2|(b & eb & R2 & Bb)]];
    rewrite R1, R2 in *; cbn [value_le] in H12, H21; try easy.
  destruct H12 as (_ & _ & L12). destruct H21 as (_ & _ & L21).
  destruct (bounded_canonical prec emax a ea Ba) as [Ca _].
  destruct (bounded_canonical prec emax b eb Bb) as [Cb _].
  destruct (canonical_order prec emax (Zpos a) ea (Zpos b) eb (Z.min ea eb)
              Ca Cb ltac:(lia) ltac:(lia) L12) as [H1|[H1 H1']];
    destruct (canonical_order prec emax (Zpos b) eb (Zpos a) ea (Z.min eb ea)
                Cb Ca ltac:(lia) ltac:(lia) L21) as [H2|[H2 H2']]; try lia.
  subst eb. f_equal. lia.
Qed.

(** No shift to the left is needed: [binary_round_aux] rounds. *)
Lemma binary_round_aux_rounded (s : bool) (m : positive) (e : Z) :
  e <= fexp prec emax (Zpos (digits2_pos m) + e) ->
  binary_round_aux prec emax s (Zpos m) e loc_Exact
  = set_sign s (rounded prec emax m e).
Proof.
  intros He. rewrite <- (binary_round_sign prec emax Hprec).
  unfold binary_round, shl_align.
  destruct (fexp prec emax (Zpos (digits2_pos m) + e) - e) as [|d|d] eqn:Ed;
    try reflexivity.
  lia.
Qed.
End Order.

(** [-1.f * f] for a positive value of binary32. *)
Lemma SFmul_minus_one (mi : positive) (ei : Z) :
  SpecFloat.bounded IEEE.prec32 IEEE.emax32 mi ei = true ->
  SFmul IEEE.prec32 IEEE.emax32 (IEEE.of_Z (-1)) (S754_finite false mi ei)
  = S754_finite true mi ei.
Proof.
  intros Bi.
  change (IEEE.of_Z (-1)) with (S754_finite true 8388608 (-23)).
  cbn [SFmul xorb].
  destruct (bounded_canonical IEEE.prec32 IEEE.emax32 mi ei Bi) as [[_ Ci] _].
  cbn [Zdigits2] in Ci.
  pose proof (digits2_lower mi) as Lo. pose proof (digits2_upper mi) as Up.
  assert (Hd : Zpos (digits2_pos (8388608 * mi)) = Zpos (digits2_pos mi) + 23).
  { apply digits2_unique. rewrite Pos2Z.inj_mul.
    replace (Zpos (digits2_pos mi) + 23 - 1) with (Zpos (digits2_pos mi) - 1 + 23) by lia.
    rewrite !Z.pow_add_r by lia. change (2 ^ 23) with 8388608. lia. }
  rewrite (binary_round_aux_rounded IEEE.prec32 IEEE.emax32 IEEETrace.prec32_pos).
  2:{ rewrite Hd.
      replace (Zpos (digits2_pos mi) + 23 + (-23 + ei)) with (Zpos (digits2_pos mi) + ei)
        by lia.
      rewrite Ci. lia. }
  rewrite (rounded_value_eq IEEE.prec32 IEEE.emax32 IEEETrace.prec32_pos
             (8388608 * mi) mi (-23 + ei) ei).
  2:{ replace (Z.min (-23 + ei) ei) with (-23 + ei) by lia.
      rewrite Z.sub_diag, Z.pow_0_r, Pos2Z.inj_mul.
      replace (ei - (-23 + ei)) with 23 by lia. change (2 ^ 23) with 8388608. lia. }
  rewrite (rounded_id IEEE.prec32 IEEE.emax32 IEEETrace.prec32_pos mi ei Bi).
  reflexivity.
Qed.

Lemma binary_normalize_valid (prec emax : Z) (Hprec : 0 < prec) (z e : Z) (sz : bool) :
  valid_binary prec emax (binary_normalize prec emax z e sz) = true.
Proof.
  destruct z as [|p|p]; cbn [binary_normalize]; [reflexivity| |];
    rewrite (binary_round_sign prec emax Hprec);
    destruct (rounded_shape prec emax Hprec p e) as [->|[->|(m' & e' & -> & B)]];
    try reflexivity; exact B.
Qed.

(** The start distance of the resampler is a value of binary32. *)
Lemma start_distance_valid (mi : positive) (ei : Z) (sum_distance : spec_float) :
  IEEE.valid sum_distance = true -> IEEE.finite sum_distance = true ->
  IEEE.valid (start_distance_of (S754_finite false mi ei) sum_distance) = true.
Proof.
  unfold start_distance_of, IEEE.valid.
  destruct sum_distance as [ss|ss| |ss ms es]; try discriminate.
  - intros _ _. destruct ss; reflexivity.
  - intros Bs _.
    change (fsub ?a ?b) with (SFsub IEEE.prec32 IEEE.emax32 a b).
    destruct (fmul _ _) as [sx|sx| |sx mx ex]; cbn [SFsub]; try reflexivity.
    + exact Bs.
    + apply (binary_normalize_valid _ _ IEEETrace.prec32_pos).
Qed.
End SignedFacts.

(** ** Integers in binary32 and binary64: exact operations *)

Module IntegerFacts.
Import Rounding RoundingFacts.
Local Open Scope Z_scope.

Section Integers.
Variables prec emax : Z.
Hypothesis Hprec : 0 < prec.
Hypothesis Hemax : prec < emax.

(** Rounding depends on the value only, whatever the sign. *)
Lemma normalize_value_eq (z1 z2 e1 e2 : Z) (s1 s2 : bool) :
  z1 <> 0 ->
  z1 * 2 ^ (e1 - Z.min e1 e2) = z2 * 2 ^ (e2 - Z.min e1 e2) ->
  binary_normalize prec emax z1 e1 s1 = binary_normalize prec emax z2 e2 s2.
Proof.
  intros Hnz Heq.
  assert (P1 : 0 < 2 ^ (e1 - Z.min e1 e2)) by (apply pow2_pos; lia).
  assert (P2 : 0 < 2 ^ (e2 - Z.min e1 e2)) by (apply pow2_pos; lia).
  destruct z1 as [|p1|p1]; [contradiction| |]; destruct z2 as [|p2|p2]; try nia;
    cbn [binary_normalize]; rewrite !(SignedFacts.binary_round_sign prec emax Hprec);
    f_equal; apply (SignedFacts.rounded_value_eq prec emax Hprec); lia.
Qed.

(** A positive integer below [2 ^ prec] is a value of the format. *)
Lemma rounded_integer (p : positive) :
  Zpos p < 2 ^ prec ->
  exists (m : positive) (e : Z),
    rounded prec emax p 0 = S754_finite false m e
    /\ SpecFloat.bounded prec emax m e = true
    /\ e = Zpos (digits2_pos p) - prec
    /\ e <= 0
    /\ Zpos (digits2_pos m) = prec
    /\ Zpos m = Zpos p * 2 ^ (- e).
Proof.
  intros Hp.
  pose proof (digits2_lower p) as Lo. pose proof (digits2_upper p) as Up.
  set (d := Zpos (digits2_pos p)) in *.
  assert (Hd : d <= prec).
  { destruct (Z_le_gt_dec d prec) as [H|H]; [exact H|].
    assert (2 ^ prec <= 2 ^ (d - 1)) by (apply Z.pow_le_mono_r; lia). lia. }
  assert (Hd0 : 0 < d) by (unfold d; lia).
  set (E := d - prec).
  assert (P : 0 < 2 ^ (- E)) by (apply pow2_pos; unfold E; lia).
  assert (Hm : 0 < Zpos p * 2 ^ (- E)) by lia.
  destruct (Zpos p * 2 ^ (- E)) as [|m|m] eqn:Em; try lia.
  assert (Dm : Zpos (digits2_pos m) = prec).
  { apply digits2_unique. rewrite <- Em.
    assert (H1 : 2 ^ (prec - 1) = 2 ^ (d - 1) * 2 ^ (- E)).
    { rewrite <- Z.pow_add_r by (unfold E; lia). f_equal. unfold E. lia. }
    assert (H2 : 2 ^ prec = 2 ^ d * 2 ^ (- E)).
    { rewrite <- Z.pow_add_r by (unfold E; lia). f_equal. unfold E. lia. }
    rewrite H1, H2. nia. }
  assert (Hfexp : fexp prec emax (prec + E) = E).
  { unfold fexp, emin, E. lia. }
  assert (Bm : SpecFloat.bounded prec emax m E = true).
  { apply (canonical_bounded prec emax).
    - split; [lia|]. cbn [Zdigits2]. rewrite Dm. exact Hfexp.
    - unfold E. lia. }
  exists m, E.
  split; [|split; [exact Bm|split; [reflexivity|split; [unfold E; lia|split; [exact Dm|]]]]].
  - rewrite <- (rounded_id prec emax Hprec m E Bm).
    apply (SignedFacts.rounded_value_eq prec emax Hprec).
    replace (Z.min 0 E) with E by (unfold E; lia).
    rewrite Z.sub_diag, Z.pow_0_r, Z.mul_1_r, Z.sub_0_l. lia.
  - symmetry. exact Em.
Qed.

Local Abbreviation integer := (Rounding.integer prec emax).

Lemma integer_shape (z : Z) :
  z <> 0 -> Z.abs z < 2 ^ prec ->
  exists (m : positive) (e : Z),
    integer z = S754_finite (z <? 0) m e
    /\ SpecFloat.bounded prec emax m e = true
    /\ e = Zdigits2 z - prec
    /\ e <= 0
    /\ Zpos (digits2_pos m) = prec
    /\ cond_Zopp (z <? 0) (Zpos m) = z * 2 ^ (- e).
Proof.
  intros Hnz Hz. unfold integer.
  destruct z as [|p|p]; [contradiction| |]; cbn [binary_normalize Zdigits2];
    rewrite (SignedFacts.binary_round_sign prec emax Hprec);
    destruct (rounded_integer p ltac:(lia)) as (m & e & -> & B & He & He0 & Dm & Hm);
    exists m, e; cbn [set_sign];
    (split; [reflexivity|]); (split; [exact B|]); (split; [exact He|]);
    (split; [exact He0|]); (split; [exact Dm|]).
  - change (Zpos p <? 0) with false. cbn [cond_Zopp]. exact Hm.
  - change (Zneg p <? 0) with true. cbn [cond_Zopp]. rewrite Hm. lia.
Qed.

(** The mantissa of an integer, brought to a lower exponent. *)
Lemma integer_aligned (z : Z) (s : bool) (m : positive) (e ez : Z) :
  cond_Zopp s (Zpos m) = z * 2 ^ (- e) -> e <= 0 -> ez <= e ->
  cond_Zopp s (Zpos (fst (shl_align m e ez))) = z * 2 ^ (- ez).
Proof.
  intros Hm He Hez. rewrite (shl_align_fst m e ez Hez).
  replace (- ez) with (- e + (e - ez)) by lia.
  rewrite Z.pow_add_r by lia. rewrite Z.mul_assoc, <- Hm.
  destruct s; cbn [cond_Zopp]; lia.
Qed.

Lemma integer_opp (z : Z) : z <> 0 -> integer (- z) = SFopp (integer z).
Proof.
  intros Hnz. unfold integer.
  destruct z as [|p|p]; [contradiction| |]; cbn [Z.opp binary_normalize];
    rewrite !(SignedFacts.binary_round_sign prec emax Hprec);
    destruct (rounded prec emax p 0); reflexivity.
Qed.

(** Sums and differences of integers are rounded integers. *)
Lemma SFadd_integers (a b : Z) :
  Z.abs a < 2 ^ prec -> Z.abs b < 2 ^ prec ->
  SFadd prec emax (integer a) (integer b) = integer (a + b).
Proof.
  intros Ha Hb.
  destruct (Z.eq_dec a 0) as [->|Na].
  { destruct (Z.eq_dec b 0) as [->|Nb]; [reflexivity|].
    destruct (integer_shape b Nb Hb) as (m & e & Eb & _).
    cbn [Z.add]. rewrite Eb. reflexivity. }
  destruct (integer_shape a Na Ha) as (ma & ea & Ea & _ & _ & Hea & _ & Hma).
  destruct (Z.eq_dec b 0) as [->|Nb].
  { rewrite Z.add_0_r, Ea. reflexivity. }
  destruct (integer_shape b Nb Hb) as (mb & eb & Eb & _ & _ & Heb & _ & Hmb).
  rewrite Ea, Eb. cbn [SFadd].
  set (ez := Z.min ea eb).
  rewrite (integer_aligned a _ ma ea ez Hma Hea ltac:(unfold ez; lia)).
  rewrite (integer_aligned b _ mb eb ez Hmb Heb ltac:(unfold ez; lia)).
  assert (P : 0 < 2 ^ (- ez)) by (apply pow2_pos; unfold ez; lia).
  destruct (Z.eq_dec (a + b) 0) as [H0|H0].
  - replace (a * 2 ^ (- ez) + b * 2 ^ (- ez)) with 0 by nia.
    rewrite H0. reflexivity.
  - unfold integer. apply normalize_value_eq; [nia|].
    replace (Z.min ez 0) with ez by (unfold ez; lia).
    replace (ez - ez) with 0 by lia. replace (0 - ez) with (- ez) by lia.
    rewrite Z.pow_0_r. lia.
Qed.

Lemma SFsub_integers (a b : Z) :
  Z.abs a < 2 ^ prec -> Z.abs b < 2 ^ prec ->
  SFsub prec emax (integer a) (integer b) = integer (a - b).
Proof.
  intros Ha Hb.
  destruct (Z.eq_dec a 0) as [->|Na].
  { destruct (Z.eq_dec b 0) as [->|Nb]; [reflexivity|].
    rewrite Z.sub_0_l, (integer_opp b Nb).
    destruct (integer_shape b Nb Hb) as (m & e & Eb & _).
    rewrite Eb. reflexivity. }
  destruct (integer_shape a Na Ha) as (ma & ea & Ea & _ & _ & Hea & _ & Hma).
  destruct (Z.eq_dec b 0) as [->|Nb].
  { rewrite Z.sub_0_r, Ea. reflexivity. }
  destruct (integer_shape b Nb Hb) as (mb & eb & Eb & _ & _ & Heb & _ & Hmb).
  rewrite Ea, Eb. cbn [SFsub].
  set (ez := Z.min ea eb).
  rewrite (integer_aligned a _ ma ea ez Hma Hea ltac:(unfold ez; lia)).
  rewrite (integer_aligned b _ mb eb ez Hmb Heb ltac:(unfold ez; lia)).
  assert (P : 0 < 2 ^ (- ez)) by (apply pow2_pos; unfold ez; lia).
  destruct (Z.eq_dec (a - b) 0) as [H0|H0].
  - replace (a * 2 ^ (- ez) - b * 2 ^ (- ez)) with 0 by nia.
    rewrite H0. reflexivity.
  - unfold integer. apply normalize_value_eq; [nia|].
    replace (Z.min ez 0) with ez by (unfold ez; lia).
    replace (ez - ez) with 0 by lia. replace (0 - ez) with (- ez) by lia.
    rewrite Z.pow_0_r. lia.
Qed.

Lemma set_sign_rounded (m : positive) (e : Z) :
  set_sign false (rounded prec emax m e) = rounded prec emax m e.
Proof.
  destruct (SignedFacts.rounded_shape prec emax Hprec m e)
    as [->|[->|(m' & e' & -> & _)]]; reflexivity.
Qed.

(** The square of an integer is rounded once. *)
Lemma SFmul_square (a : Z) :
  Z.abs a < 2 ^ prec ->
  SFmul prec emax (integer a) (integer a) = integer (a * a).
Proof.
  intros Ha.
  destruct (Z.eq_dec a 0) as [->|Na]; [reflexivity|].
  destruct (integer_shape a Na Ha) as (m & e & Ea & _ & _ & He & Dm & Hm).
  rewrite Ea. cbn [SFmul]. rewrite xorb_nilpotent.
  pose proof (digits2_lower m) as Lo. rewrite Dm in Lo.
  pose proof (digits2_upper (m * m)) as Up2.
  assert (Hsq : Zpos (m * m) = a * a * 2 ^ (- (e + e))).
  { rewrite Pos2Z.inj_mul.
    replace (- (e + e)) with (- e + - e) by lia. rewrite Z.pow_add_r by lia.
    destruct (a <? 0); cbn [cond_Zopp] in Hm; nia. }
  assert (Hdig : 2 * prec - 1 <= Zpos (digits2_pos (m * m))).
  { destruct (Z_le_gt_dec (2 * prec - 1) (Zpos (digits2_pos (m * m)))) as [H|H];
      [exact H|].
    assert (2 ^ Zpos (digits2_pos (m * m)) <= 2 ^ (2 * prec - 2))
      by (apply Z.pow_le_mono_r; lia).
    assert (2 ^ (2 * prec - 2) = 2 ^ (prec - 1) * 2 ^ (prec - 1)).
    { rewrite <- Z.pow_add_r by lia. f_equal. lia. }
    rewrite Pos2Z.inj_mul in Up2. nia. }
  rewrite (SignedFacts.binary_round_aux_rounded prec emax Hprec false (m * m) (e + e)).
  2:{ unfold fexp. lia. }
  rewrite set_sign_rounded.
  assert (Hpos : 0 < a * a) by nia.
  unfold integer. destruct (a * a) as [|p|p] eqn:Ep; try lia.
  cbn [binary_normalize]. rewrite (binary_round_rounded prec emax Hprec).
  apply (SignedFacts.rounded_value_eq prec emax Hprec).
  replace (Z.min (e + e) 0) with (e + e) by lia.
  replace (e + e - (e + e)) with 0 by lia. replace (0 - (e + e)) with (- (e + e)) by lia.
  rewrite Z.pow_0_r. lia.
Qed.

(** The square root of a square is exact. *)
Lemma SFsqrt_square (h : Z) :
  0 <= h -> h * h < 2 ^ prec ->
  SFsqrt prec emax (integer (h * h)) = integer h.
Proof.
  intros H0 Hh.
  destruct (Z.eq_dec h 0) as [->|Nh]; [reflexivity|].
  assert (Hpos : 0 < h) by lia.
  assert (Hsq : h * h <> 0) by nia.
  destruct (integer_shape (h * h) Hsq ltac:(lia)) as (m & e & E2 & _ & He & He0 & Dm & Hm).
  rewrite E2. replace (h * h <? 0) with false in * by (symmetry; apply Z.ltb_ge; nia).
  cbn [cond_Zopp] in Hm. cbn [SFsqrt]. unfold SFsqrt_core_binary.
  cbn [Zdigits2]. rewrite Dm.
  (* the digits of [h] *)
  destruct h as [|ph|ph]; try lia.
  pose proof (digits2_lower ph) as Lo. pose proof (digits2_upper ph) as Up.
  set (k := Zpos (digits2_pos ph)) in *.
  assert (Hk0 : 0 < k) by (unfold k; lia).
  assert (P1 : 2 ^ (2 * k - 2) = 2 ^ (k - 1) * 2 ^ (k - 1)).
  { rewrite <- Z.pow_add_r by lia. f_equal. lia. }
  assert (P2 : 2 ^ (2 * k) = 2 ^ k * 2 ^ k).
  { rewrite <- Z.pow_add_r by lia. f_equal. lia. }
  assert (Hd2 : 2 * k - 1 <= Zdigits2 (Zpos ph * Zpos ph) <= 2 * k).
  { change (Zpos ph * Zpos ph) with (Zpos (ph * ph)). cbn [Zdigits2].
    pose proof (digits2_lower (ph * ph)) as L2. pose proof (digits2_upper (ph * ph)) as U2.
    rewrite Pos2Z.inj_mul in L2, U2.
    set (d2 := Zpos (digits2_pos (ph * ph))) in *.
    split.
    - destruct (Z_le_gt_dec (2 * k - 1) d2) as [H|H]; [exact H|].
      assert (2 ^ d2 <= 2 ^ (2 * k - 2)) by (apply Z.pow_le_mono_r; lia). nia.
    - destruct (Z_le_gt_dec d2 (2 * k)) as [H|H]; [exact H|].
      assert (2 ^ (2 * k) <= 2 ^ (d2 - 1)) by (apply Z.pow_le_mono_r; lia). nia. }
  assert (Hkp : k <= prec).
  { destruct (Z_le_gt_dec k prec) as [H|H]; [exact H|].
    assert (2 ^ prec <= 2 ^ (k - 1)) by (apply Z.pow_le_mono_r; lia).
    assert (2 ^ (k - 1) <= 2 ^ (k - 1) * 2 ^ (k - 1)).
    { assert (0 < 2 ^ (k - 1)) by (apply pow2_pos; lia). nia. }
    nia. }
  set (d2 := Zdigits2 (Zpos ph * Zpos ph)) in *.
  assert (Hhalf : Z.div2 (prec + e + 1) = k).
  { rewrite Z.div2_div. rewrite He.
    replace (prec + (d2 - prec) + 1) with (d2 + 1) by lia.
    symmetry. apply Z.div_unique with (d2 + 1 - 2 * k); lia. }
  rewrite Hhalf.
  assert (Hfk : fexp prec emax k = k - prec) by (unfold fexp, emin; lia).
  rewrite Hfk.
  assert (Hde : k - prec <= Z.div2 e).
  { rewrite Z.div2_div. apply Z.div_le_lower_bound; lia. }
  replace (Z.min (k - prec) (Z.div2 e)) with (k - prec) by lia.
  set (e' := k - prec).
  set (s := e - 2 * e').
  assert (Hs : 0 <= s) by (unfold s, e'; lia).
  assert (Hm' : match s with
                | Z0 => Zpos m
                | Zpos _ => Z.shiftl (Zpos m) s
                | Zneg _ => 0
                end = (Zpos ph * 2 ^ (- e')) * (Zpos ph * 2 ^ (- e'))).
  { assert (Hv : Zpos m * 2 ^ s = (Zpos ph * 2 ^ (- e')) * (Zpos ph * 2 ^ (- e'))).
    { rewrite Hm.
      replace (Zpos ph * 2 ^ (- e') * (Zpos ph * 2 ^ (- e')))
        with (Zpos ph * Zpos ph * (2 ^ (- e') * 2 ^ (- e'))) by ring.
      rewrite <- Z.mul_assoc. f_equal.
      rewrite <- !Z.pow_add_r by (unfold s, e'; lia). f_equal. unfold s. lia. }
    destruct s as [|ps|ps] eqn:Es; try lia.
    rewrite Z.shiftl_mul_pow2 by lia. exact Hv. }
  rewrite Hm'.
  set (q := Zpos ph * 2 ^ (- e')).
  assert (Hq : 0 < q).
  { assert (0 < 2 ^ (- e')) by (apply pow2_pos; unfold e'; lia). unfold q. lia. }
  pose proof (Z.sqrtrem_spec (q * q) ltac:(nia)) as Hspec.
  destruct (Z.sqrtrem (q * q)) as [q' r].
  destruct Hspec as [Hs1 Hs2].
  assert (Hq' : q' = q).
  { destruct (Z.lt_trichotomy q' q) as [L|[E|G]]; [|exact E|].
    - assert (q' * q' + 2 * q' < q * q) by nia. lia.
    - assert (q * q < q' * q') by nia. lia. }
  subst q'. assert (Hr : r = 0) by lia. subst r. cbn [Z.eqb].
  destruct q as [|pq|pq] eqn:Eq; try lia.
  assert (Dq : Zpos (digits2_pos pq) = prec).
  { apply digits2_unique. rewrite <- Eq.
    assert (H1 : 2 ^ (prec - 1) = 2 ^ (k - 1) * 2 ^ (- e')).
    { rewrite <- Z.pow_add_r by (unfold e'; lia). f_equal. unfold e'. lia. }
    assert (H2 : 2 ^ prec = 2 ^ k * 2 ^ (- e')).
    { rewrite <- Z.pow_add_r by (unfold e'; lia). f_equal. unfold e'. lia. }
    assert (0 < 2 ^ (- e')) by (apply pow2_pos; unfold e'; lia).
    rewrite H1, H2. nia. }
  rewrite (SignedFacts.binary_round_aux_rounded prec emax Hprec false pq e').
  2:{ rewrite Dq. unfold fexp, emin, e'. lia. }
  rewrite set_sign_rounded. unfold integer. cbn [binary_normalize].
  rewrite (binary_round_rounded prec emax Hprec).
  apply (SignedFacts.rounded_value_eq prec emax Hprec).
  replace (Z.min e' 0) with e' by (unfold e'; lia).
  replace (e' - e') with 0 by lia. replace (0 - e') with (- e') by lia.
  rewrite Z.pow_0_r. lia.
Qed.
End Integers.

(** Conversion of an integer to another format rounds it there. *)
Lemma convert_integer (prec emax prec' emax' : Z) (z : Z) :
  0 < prec -> prec < emax -> 0 < prec' ->
  Z.abs z < 2 ^ prec ->
  IEEE.convert prec' emax' (integer prec emax z) = integer prec' emax' z.
Proof.
  intros Hprec Hemax Hprec' Hz.
  destruct (Z.eq_dec z 0) as [->|Nz]; [reflexivity|].
  destruct (integer_shape prec emax Hprec Hemax z Nz Hz)
    as (m & e & Ez & _ & _ & He & _ & Hm).
  rewrite Ez. cbn [IEEE.convert]. unfold integer.
  assert (P : 0 < 2 ^ (- e)) by (apply pow2_pos; lia).
  apply (normalize_value_eq prec' emax' Hprec').
  - rewrite Hm. nia.
  - replace (Z.min e 0) with e by lia.
    replace (e - e) with 0 by lia. replace (0 - e) with (- e) by lia.
    rewrite Z.pow_0_r, Hm. lia.
Qed.

(** The integer a rounded integer truncates to. *)
Lemma trunc_integer (z : Z) :
  Z.abs z < 2 ^ 24 -> IEEE.trunc (IEEE.of_Z z) = Some z.
Proof.
  intros Hz.
  destruct (Z.eq_dec z 0) as [->|Nz]; [reflexivity|].
  destruct (integer_shape IEEE.prec32 IEEE.emax32 IEEETrace.prec32_pos ltac:(reflexivity)
              z Nz Hz) as (m & e & Ez & _ & _ & He & _ & Hm).
  change (IEEE.of_Z z) with (integer IEEE.prec32 IEEE.emax32 z).
  rewrite Ez. cbn [IEEE.trunc]. f_equal.
  assert (P : 0 < 2 ^ (- e)) by (apply pow2_pos; lia).
  destruct (Z.leb_spec 0 e) as [H|H].
  - replace e with 0 in * by lia. rewrite Z.shiftl_0_r.
    rewrite Hm. cbn. lia.
  - rewrite Z.shiftr_div_pow2 by lia.
    destruct (z <? 0) eqn:Es; cbn [cond_Zopp] in *.
    + replace (Zpos m) with (- z * 2 ^ (- e)) by lia.
      rewrite Z.div_mul by lia. lia.
    + rewrite Hm. rewrite Z.div_mul by lia. reflexivity.
Qed.

(** The distance of two points with integer coordinates whose distance is
    an integer. *)
Lemma distance_integers (a b a' b' h : Z) :
  Z.abs a < 2 ^ 24 -> Z.abs b < 2 ^ 24 -> Z.abs a' < 2 ^ 24 -> Z.abs b' < 2 ^ 24 ->
  0 <= h -> h * h = (a' - a) * (a' - a) + (b' - b) * (b' - b) -> h * h < 2 ^ 24 ->
  distance (IEEE.vertex a b) (IEEE.vertex a' b') = IEEE.of_Z h.
Proof.
  intros Ha Hb Ha' Hb' H0 Hh Hlt.
  unfold distance, length_, dot, vsub, IEEE.vertex. cbn [x y].
  change (IEEE.of_Z ?z) with (integer IEEE.prec32 IEEE.emax32 z).
  change (fsub ?u ?v) with (SFsub IEEE.prec32 IEEE.emax32 u v).
  change (fmul ?u ?v) with (SFmul IEEE.prec32 IEEE.emax32 u v).
  change (fadd ?u ?v) with (SFadd IEEE.prec32 IEEE.emax32 u v).
  change (fsqrt ?u) with (SFsqrt IEEE.prec32 IEEE.emax32 u).
  pose proof IEEETrace.prec32_pos as Hp.
  assert (He : IEEE.prec32 < IEEE.emax32) by reflexivity.
  assert (P24 : 2 ^ IEEE.prec32 = 2 ^ 24) by reflexivity.
  rewrite !(SFsub_integers _ _ Hp He) by (rewrite P24; assumption).
  pose proof (Z.square_nonneg (a' - a)) as Sx.
  pose proof (Z.square_nonneg (b' - b)) as Sy.
  assert (Hx : (a' - a) * (a' - a) < 2 ^ 24) by lia.
  assert (Hy : (b' - b) * (b' - b) < 2 ^ 24) by lia.
  assert (Hx1 : Z.abs (a' - a) < 2 ^ 24).
  { change (2 ^ 24) with 16777216 in *. apply Z.abs_lt. nia. }
  assert (Hy1 : Z.abs (b' - b) < 2 ^ 24).
  { change (2 ^ 24) with 16777216 in *. apply Z.abs_lt. nia. }
  rewrite !(SFmul_square _ _ Hp He) by (rewrite P24; assumption).
  assert (Hx2 : Z.abs ((a' - a) * (a' - a)) < 2 ^ 24)
    by (rewrite Z.abs_eq by apply Z.square_nonneg; exact Hx).
  assert (Hy2 : Z.abs ((b' - b) * (b' - b)) < 2 ^ 24)
    by (rewrite Z.abs_eq by apply Z.square_nonneg; exact Hy).
  rewrite (SFadd_integers _ _ Hp He) by (rewrite P24; assumption).
  rewrite <- Hh.
  apply (SFsqrt_square _ _ Hp He); [exact H0|rewrite P24; exact Hlt].
Qed.

(** The segments of a polyline through integer points. *)
Lemma segment_lengths_integers (pts : list (Z * Z)) :
  forall hs : list Z,
    Forall in_grid pts -> integer_lengths pts hs ->
    segment_lengths (map grid_point pts) = map IEEE.of_Z hs.
Proof.
  induction pts as [|a pts IH]; intros hs Hg Hl; [contradiction|].
  destruct pts as [|b pts].
  - destruct hs; [reflexivity|contradiction].
  - destruct hs as [|h hs]; [contradiction|].
    cbn [integer_lengths] in Hl. destruct Hl as (H0 & Hh & Hlt & Hl).
    inversion Hg as [|? ? Ga Hg']. subst.
    inversion Hg' as [|? ? Gb _]. subst.
    specialize (IH hs Hg' Hl).
    unfold segment_lengths in *. cbn [map tl combine] in *.
    cbn [snd fst]. f_equal; [|exact IH].
    destruct a as [ax ay], b as [bx by_]. unfold grid_point. cbn [fst snd] in *.
    destruct Ga as [Gax Gay], Gb as [Gbx Gby]. cbn [fst snd] in *.
    apply (distance_integers bx by_ ax ay h); try assumption.
    rewrite Hh. ring.
Qed.

(** The running total of integer lengths, in binary64. *)
Lemma add_lengths_integers (hs : list Z) :
  forall T : Z,
    0 <= T -> Forall (fun h => 0 <= h < 2 ^ 24) hs ->
    T + fold_right Z.add 0 hs < 2 ^ 53 ->
    add_lengths (double_of_Z T) (map IEEE.of_Z hs)
    = double_of_Z (T + fold_right Z.add 0 hs).
Proof.
  induction hs as [|h hs IH]; intros T HT Hh Hsum.
  - cbn. rewrite Z.add_0_r. reflexivity.
  - inversion Hh as [|? ? Hh1 Hh']. subst.
    assert (Hrest : 0 <= fold_right Z.add 0 hs).
    { clear -Hh'. induction Hh' as [|u l Hu _ IHl]; cbn; lia. }
    cbn [fold_right] in Hsum |- *.
    unfold add_lengths in *. cbn [map fold_left].
    change (dadd (double_of_Z T) (double_of_float (IEEE.of_Z h)))
      with (SFadd IEEE.prec64 IEEE.emax64 (integer IEEE.prec64 IEEE.emax64 T)
              (IEEE.convert IEEE.prec64 IEEE.emax64
                 (integer IEEE.prec32 IEEE.emax32 h))).
    rewrite (convert_integer IEEE.prec32 IEEE.emax32 IEEE.prec64 IEEE.emax64 h
               IEEETrace.prec32_pos ltac:(reflexivity) IEEETrace.prec64_pos)
      by (change (2 ^ IEEE.prec32) with (2 ^ 24); lia).
    change (2 ^ 53) with 9007199254740992 in *. change (2 ^ 24) with 16777216 in *.
    rewrite (SFadd_integers IEEE.prec64 IEEE.emax64 IEEETrace.prec64_pos
               ltac:(reflexivity))
      by (change (2 ^ IEEE.prec64) with 9007199254740992; lia).
    change (integer IEEE.prec64 IEEE.emax64 (T + h))
      with (@double_of_Z _ _ IEEE.arith (T + h)).
    rewrite (IH (T + h)) by (try assumption; lia).
    f_equal. lia.
Qed.

(** A total in binary64, stored in binary32. *)
Lemma float_of_double_integer (T : Z) :
  Z.abs T < 2 ^ 53 ->
  @float_of_double _ _ IEEE.arith (@double_of_Z _ _ IEEE.arith T) = IEEE.of_Z T.
Proof.
  intros HT.
  change (@float_of_double _ _ IEEE.arith (@double_of_Z _ _ IEEE.arith T))
    with (IEEE.convert IEEE.prec32 IEEE.emax32 (integer IEEE.prec64 IEEE.emax64 T)).
  apply (convert_integer IEEE.prec64 IEEE.emax64 IEEE.prec32 IEEE.emax32 T
           IEEETrace.prec64_pos ltac:(reflexivity) IEEETrace.prec32_pos).
  exact HT.
Qed.
End IntegerFacts.

(** ** C3: tracing lines *)

(** The claim of C3 fails in binary32.  "M 0,0 L 4e19,0" is one segment
    whose Euclidean length, 4e19, is the binary32 value
    [9094947 * 2 ^ 42]; the tracer computes the length as
    [sqrt( dx * dx + dy * dy )] in [float], the square overflows, and the
    distance stored with the last vertex is [+inf]. *)
Lemma C3_counterexample :
  exists (self self' : le_path_o spec_float spec_float)
         (polyline : Polyline spec_float spec_float),
    le_path_add_from_simplified_svg IEEE.strtof le_path_create "M 0,0 L 4e19,0" []
    = Ok (self, [])
    /\ le_path_trace_path self = Ok self'
    /\ polylines self' = [polyline]
    /\ vertices polyline
       = [IEEE.vertex 0 0; {| x := Values.lit "4e19"; y := IEEE.of_Z 0 |}]
    /\ Values.lit "4e19" = S754_finite false 9094947 42
    /\ IEEE.finite (Values.lit "4e19") = true
    /\ distances polyline = [IEEE.of_Z 0; S754_infinity false]
    /\ IEEE.eqb (S754_infinity false) (Values.lit "4e19") = false.
Proof.
  set (r := match le_path_add_from_simplified_svg IEEE.strtof
                    (le_path_create : le_path_o spec_float spec_float)
                    "M 0,0 L 4e19,0" [] with
            | Ok st => fst st
            | Err _ => le_path_create
            end).
  set (r' := match le_path_trace_path r with
             | Ok self' => self'
             | Err _ => le_path_create
             end).
  exists r, r', (hd Polyline_new (polylines r')).
  repeat (split; [vm_compute; reflexivity|]).
  vm_compute. reflexivity.
Qed.

Lemma integer_lengths_bounds (pts : list (Z * Z)) :
  forall hs : list Z,
    integer_lengths pts hs -> Forall (fun h => 0 <= h < 2 ^ 24)%Z hs.
Proof.
  induction pts as [|a pts IH]; intros hs H; [destruct H|].
  destruct pts as [|b pts].
  - destruct hs; [constructor|destruct H].
  - destruct hs as [|h hs]; [destruct H|].
    destruct H as (H0 & _ & Hlt & Hrest).
    constructor; [|apply IH; exact Hrest].
    split; [exact H0|].
    destruct (Z_lt_le_dec h (2 ^ 24)) as [Hh|Hh]; [exact Hh|].
    exfalso. assert (2 ^ 24 * 2 ^ 24 <= h * h)%Z by nia. lia.
Qed.

(** C3, amended.  For a sub-path made of one [eMoveTo] followed by
    [eLineTo] commands only, the tracer returns a polyline with one vertex
    per command (the end points, in order) and one distance per vertex;
    the first distance is 0; the polyline's total distance is the sum of
    the lengths of the segments between consecutive vertices, each
    computed in [float] as [sqrt( dx * dx + dy * dy )], accumulated in
    [double] in their order, and the distance stored with the last vertex
    is that sum as a [float] (0 for the lone [eMoveTo]).  This holds for
    every arithmetic, binary32 included.

    In binary32 the stored distance is the sum of the Euclidean lengths
    where nothing is rounded: the points have integer coordinates below
    [2 ^ 24] in absolute value, every segment has an integer length [h]
    with [h * h < 2 ^ 24], and the lengths add up to less than [2 ^ 24].
    Then the distance stored with the last vertex is that integer sum,
    and converting it back to an integer gives the sum.

    In exact arithmetic the last distance is the sum of the Euclidean
    lengths of the segments, whatever the points. *)
Theorem C3_trace_lines :
  (forall (F D : Type) (A : Arith F D) (resolution : nat) (m : PathCommand F)
          (ls : list (PathCommand F)),
      type m = eMoveTo ->
      Forall (fun c => type c = eLineTo) ls ->
      exists polyline,
        trace_subpath resolution {| commands := m :: ls |} = Ok polyline
        /\ vertices polyline = map p (m :: ls)
        /\ length (vertices polyline) = length (m :: ls)
        /\ length (distances polyline) = length (m :: ls)
        /\ hd_error (distances polyline) = Some (float_of_Z 0)
        /\ total_distance polyline = sum_lengths (segment_lengths (map p (m :: ls)))
        /\ back (distances polyline)
           = Some match ls with
                  | [] => float_of_Z 0
                  | _ => float_of_double
                           (sum_lengths (segment_lengths (map p (m :: ls))))
                  end)
  /\ (forall (resolution : nat) (a : Z * Z) (rest : list (Z * Z)) (hs : list Z),
         Forall in_grid (a :: rest) ->
         integer_lengths (a :: rest) hs ->
         (fold_right Z.add 0%Z hs < 2 ^ 24)%Z ->
         exists polyline : Polyline spec_float spec_float,
           trace_subpath resolution {| commands := lines_through a rest |} = Ok polyline
           /\ vertices polyline = map grid_point (a :: rest)
           /\ segment_lengths (vertices polyline) = map IEEE.of_Z hs
           /\ hd_error (distances polyline) = Some (IEEE.of_Z 0)
           /\ back (distances polyline) = Some (IEEE.of_Z (fold_right Z.add 0%Z hs))
           /\ IEEE.trunc (IEEE.of_Z (fold_right Z.add 0%Z hs))
              = Some (fold_right Z.add 0%Z hs))
  /\ (forall (resolution : nat) (m : PathCommand R) (ls : list (PathCommand R)),
         type m = eMoveTo ->
         Forall (fun c => type c = eLineTo) ls ->
         exists polyline,
           trace_subpath resolution {| commands := m :: ls |} = Ok polyline
           /\ back (distances polyline)
              = Some (Exact.sum (segment_lengths (map p (m :: ls))))).
Proof.
  split; [intros F D A; apply trace_lines_subpath|].
  split.
  - intros resolution a rest hs Hgrid Hint Hsum.
    assert (Hpts : map p (command1 eMoveTo (grid_point a)
                          :: map (fun q => command1 eLineTo (grid_point q)) rest)
                   = map grid_point (a :: rest)).
    { cbn [map]. f_equal. rewrite map_map. reflexivity. }
    assert (Hbounds := integer_lengths_bounds _ _ Hint).
    assert (Hnonneg : (0 <= fold_right Z.add 0%Z hs)%Z).
    { clear - Hbounds. induction Hbounds as [|h hs Hh _ IH]; cbn [fold_right]; lia. }
    destruct (trace_lines_subpath spec_float spec_float IEEE.arith resolution
                (command1 eMoveTo (grid_point a))
                (map (fun q => command1 eLineTo (grid_point q)) rest)
                eq_refl)
      as (polyline & Hrun & Hv & _ & _ & Hhd & _ & Hb).
    { apply Forall_forall. intros c Hc. apply in_map_iff in Hc.
      destruct Hc as (q & <- & _). reflexivity. }
    rewrite Hpts in Hv, Hb.
    assert (Hseg : segment_lengths (map grid_point (a :: rest)) = map IEEE.of_Z hs)
      by (apply IntegerFacts.segment_lengths_integers; assumption).
    exists polyline. unfold lines_through.
    split; [exact Hrun|].
    split; [exact Hv|].
    split; [rewrite Hv; exact Hseg|].
    split; [exact Hhd|].
    split.
    + rewrite Hb. f_equal.
      destruct rest as [|b rest].
      * destruct hs; [reflexivity|destruct Hint].
      * cbn [map]. cbn [map] in Hseg. rewrite Hseg.
        unfold sum_lengths.
        rewrite (IntegerFacts.add_lengths_integers hs 0); [|lia|exact Hbounds|lia].
        rewrite Z.add_0_l.
        apply IntegerFacts.float_of_double_integer. lia.
    + apply IntegerFacts.trunc_integer. lia.
  - intros resolution m ls Hm Hls.
    destruct (trace_lines_subpath R R Exact.arith resolution m ls Hm Hls)
      as (polyline & Hrun & _ & _ & _ & _ & _ & Hb).
    exists polyline. split; [exact Hrun|]. rewrite Hb. f_equal.
    destruct ls as [|c ls]; [reflexivity|].
    unfold sum_lengths. rewrite add_lengths_sum. cbn. ring.
Qed.

(** A right triangle with sides 3, 4 and 5 followed by two sides of a
    square, traced in binary32: the last distance is 3 + 4 + 5 + 10 + 10. *)
Lemma C3_witness :
  Forall in_grid [(0, 0); (3, 0); (3, 4); (0, 0); (10, 0); (10, 10)]%Z
  /\ integer_lengths [(0, 0); (3, 0); (3, 4); (0, 0); (10, 0); (10, 10)]%Z
                     [3; 4; 5; 10; 10]%Z
  /\ exists polyline : Polyline spec_float spec_float,
       trace_subpath 12 {| commands := [ command1 eMoveTo (IEEE.vertex 0 0);
                                         command1 eLineTo (IEEE.vertex 3 0);
                                         command1 eLineTo (IEEE.vertex 3 4);
                                         command1 eLineTo (IEEE.vertex 0 0);
                                         command1 eLineTo (IEEE.vertex 10 0);
                                         command1 eLineTo (IEEE.vertex 10 10) ] |}
       = Ok polyline
       /\ length (vertices polyline) = 6%nat
       /\ back (distances polyline) = Some (IEEE.of_Z 32).
Proof.
  assert (Hgrid : Forall in_grid [(0, 0); (3, 0); (3, 4); (0, 0); (10, 0); (10, 10)]%Z)
    by (repeat constructor; cbn; lia).
  assert (Hint : integer_lengths [(0, 0); (3, 0); (3, 4); (0, 0); (10, 0); (10, 10)]%Z
                                 [3; 4; 5; 10; 10]%Z)
    by (cbn; repeat split; lia).
  split; [exact Hgrid|]. split; [exact Hint|].
  destruct (proj1 (proj2 C3_trace_lines) 12%nat (0, 0)%Z
              [(3, 0); (3, 4); (0, 0); (10, 0); (10, 10)]%Z [3; 4; 5; 10; 10]%Z
              Hgrid Hint ltac:(cbn; lia))
    as (polyline & Hrun & Hv & _ & _ & Hb & _).
  exists polyline. split; [exact Hrun|].
  split; [rewrite Hv; reflexivity|exact Hb].
Defined.

(** ** C10: a line shorter than the start distance *)

Lemma with_vertices_same (F D : Type) (polyline : Polyline F D) :
  with_vertices polyline (vertices polyline ++ []) = polyline.
Proof. destruct polyline. unfold with_vertices. cbn. rewrite app_nil_r. reflexivity. Qed.

(** A line for which the count of intervals is [-1], in binary32. *)
Lemma resample_line_to_back_step (polyline : Polyline spec_float spec_float)
      (start_point q : Vertex spec_float) (interval sum_distance : spec_float) :
  back (vertices polyline) = Some start_point ->
  IEEE.valid interval = true -> IEEE.finite interval = true ->
  IEEE.ltb (IEEE.of_Z 0) interval = true ->
  IEEE.valid sum_distance = true -> IEEE.finite sum_distance = true ->
  let d := distance q start_point in
  let s := start_distance_of interval sum_distance in
  IEEE.leb s interval = true ->
  to_int (ffloor ((d - s) / interval)%float) = Ok (-1)%Z ->
  resample_line_to polyline q interval sum_distance
  = Ok (polyline, (sum_distance + (s + float_of_Z (-1) * interval))%float)
  /\ IEEE.leb (sum_distance + (s + float_of_Z (-1) * interval))%float sum_distance = true.
Proof.
  intros Hb Vi Fi Pi Vs Fs d s Hle Hto.
  split.
  - rewrite (resample_line_to_spec polyline start_point q interval sum_distance Hb).
    fold d s. rewrite Hto. cbn [bind].
    change (line_loop_counter (-1)) with (Ok tt : Result unit). cbn [bind].
    rewrite int_range_empty by lia. cbn [map].
    rewrite with_vertices_same. reflexivity.
  - destruct interval as [si|si| |si mi ei]; try discriminate.
    destruct si; [discriminate|].
    change (float_of_Z (-1) * S754_finite false mi ei)%float
      with (SFmul IEEE.prec32 IEEE.emax32 (IEEE.of_Z (-1)) (S754_finite false mi ei)).
    rewrite (SignedFacts.SFmul_minus_one mi ei Vi).
    apply (SignedFacts.SFadd_nonpos_le IEEE.prec32 IEEE.emax32 IEEETrace.prec32_pos);
      [exact Vs|exact Fs|].
    apply (SignedFacts.SFadd_le_nonpos IEEE.prec32 IEEE.emax32 IEEETrace.prec32_pos);
      [|exact Vi|exact Hle].
    apply SignedFacts.start_distance_valid; assumption.
Qed.

(** The claim of C10 fails in binary32, twice.  With interval [0.9f] and
    [sum_distance = 2.6999998], a line to the last vertex itself: [d] is 0,
    the start distance is 0.89999986, the count is [-1] and no vertex is
    added, but [sum_distance + (0.89999986 - 0.9f)] rounds to
    [sum_distance]: it does not decrease.  With interval [2 ^ 127] and
    [sum_distance = 2 ^ -149], again for a line to the last vertex: [d] is
    0 and the start distance is [2 ^ -149], but the quotient underflows to
    [-0], the count is 0 and not negative, and [sum_distance] grows to
    [2 ^ -148]. *)
Lemma C10_counterexample :
  let polyline : Polyline spec_float spec_float :=
    {| vertices := [IEEE.vertex 0 0]; distances := [];
       total_distance := double_of_Z 0 |} in
  let d := distance (IEEE.vertex 0 0) (IEEE.vertex 0 0) in
  (let interval := Values.lit "0.9" in
   let sum_distance := Values.lit "2.6999998" in
   let s := start_distance_of interval sum_distance in
   s = Values.lit "0.89999986"
   /\ IEEE.ltb d s = true
   /\ to_int (ffloor ((d - s) / interval)%float) = Ok (-1)%Z
   /\ resample_line_to polyline (IEEE.vertex 0 0) interval sum_distance
      = Ok (polyline, sum_distance)
   /\ IEEE.ltb sum_distance sum_distance = false)
  /\ (let interval := S754_finite false 8388608 104 in
      let sum_distance := S754_finite false 1 (-149) in
      let s := start_distance_of interval sum_distance in
      IEEE.finite interval = true
      /\ s = sum_distance
      /\ IEEE.ltb d s = true
      /\ ((d - s) / interval)%float = S754_zero true
      /\ to_int (ffloor ((d - s) / interval)%float) = Ok 0%Z
      /\ resample_line_to polyline (IEEE.vertex 0 0) interval sum_distance
         = Ok (polyline, S754_finite false 2 (-149))
      /\ IEEE.ltb sum_distance (S754_finite false 2 (-149)) = true).
Proof.
  intros polyline d. split.
  - repeat (split; [vm_compute; reflexivity|]). vm_compute. reflexivity.
  - repeat (split; [vm_compute; reflexivity|]). vm_compute. reflexivity.
Qed.

(** C10, amended.  In binary32, for finite [sum_distance] and finite
    [interval > 0] with the start distance [s] not above the interval:
    when the count of intervals [int( floor( (d - s) / interval ) )] is
    [-1], [resample_line_to] adds no vertex and [sum_distance] becomes
    [sum_distance + (s + -1 * interval)], which is not above
    [sum_distance].  With interval 5: after the closed triangle
    [sum_distance] is 18, and a further line of length 1 leaves the
    vertices as they are and takes [sum_distance] down to 16.
    In exact arithmetic with [interval > 0]: when the distance [d] to the
    target is below the start distance [s], the count of intervals is
    [-1], [resample_line_to] adds no vertex and [sum_distance] drops by
    [interval - s]; so it does for a line to the last vertex itself when
    [s > 0]. *)
Theorem C10_short_line_decreases_sum :
  (forall (polyline : Polyline spec_float spec_float)
          (start_point q : Vertex spec_float) (interval sum_distance : spec_float),
      back (vertices polyline) = Some start_point ->
      IEEE.finite interval = true ->
      IEEE.ltb (IEEE.of_Z 0) interval = true ->
      IEEE.finite sum_distance = true ->
      let d := distance q start_point in
      let s := start_distance_of interval sum_distance in
      IEEE.leb s interval = true ->
      to_int (ffloor ((d - s) / interval)%float) = Ok (-1)%Z ->
      exists sum_distance' : spec_float,
        resample_line_to polyline q interval sum_distance = Ok (polyline, sum_distance')
        /\ sum_distance' = (sum_distance + (s + float_of_Z (-1) * interval))%float
        /\ IEEE.leb sum_distance' sum_distance = true)
  /\ (exists polyline : Polyline spec_float spec_float,
         resample_commands resample_resolution (IEEE.of_Z 5) Paths.closed_triangle
         = Ok (polyline, IEEE.of_Z 18)
         /\ resample_commands resample_resolution (IEEE.of_Z 5)
                              (Paths.closed_triangle ++ [Paths.LineTo 0 (-1)])
            = Ok (polyline, IEEE.of_Z 16)
         /\ IEEE.ltb (IEEE.of_Z 16) (IEEE.of_Z 18) = true)
  /\ (forall (polyline : Polyline R R) (start_point q : Vertex R)
             (interval sum_distance : R),
         back (vertices polyline) = Some start_point ->
         (0 < interval)%R ->
         let d := distance q start_point in
         let s := start_distance_of interval sum_distance in
         (d < s)%R ->
         Int_part ((d - s) / interval) = (-1)%Z
         /\ to_int (ffloor ((d - s) / interval)%float) = Ok (-1)%Z
         /\ resample_line_to polyline q interval sum_distance
            = Ok (polyline, (sum_distance - (interval - s))%R)
         /\ (sum_distance - (interval - s) < sum_distance)%R)
  /\ (forall (polyline : Polyline R R) (start_point : Vertex R)
             (interval sum_distance : R),
         back (vertices polyline) = Some start_point ->
         (0 < interval)%R ->
         let s := start_distance_of interval sum_distance in
         (0 < s)%R ->
         resample_line_to polyline start_point interval sum_distance
         = Ok (polyline, (sum_distance - (interval - s))%R)).
Proof.
  assert (Hmain : forall (polyline : Polyline R R) (start_point q : Vertex R)
                         (interval sum_distance : R),
             back (vertices polyline) = Some start_point ->
             (0 < interval)%R ->
             (distance q start_point < start_distance_of interval sum_distance)%R ->
             Int_part ((distance q start_point - start_distance_of interval sum_distance)
                       / interval) = (-1)%Z
             /\ to_int (ffloor ((distance q start_point
                                 - start_distance_of interval sum_distance)
                                / interval)%float) = Ok (-1)%Z
             /\ resample_line_to polyline q interval sum_distance
                = Ok (polyline,
                      (sum_distance - (interval - start_distance_of interval sum_distance))%R)
             /\ (sum_distance - (interval - start_distance_of interval sum_distance)
                 < sum_distance)%R).
  { intros polyline start_point q interval sum_distance Hb HI Hds.
    set (d := distance q start_point) in *.
    set (s := start_distance_of interval sum_distance) in *.
    destruct (ExactResample.start_distance_mod interval sum_distance HI) as [Hs _].
    fold s in Hs.
    assert (Hd : (0 <= d)%R) by apply ExactTrace.distance_nonneg.
    assert (Hn : Int_part ((d - s) / interval) = (-1)%Z).
    { symmetry. apply Int_part_spec.
      assert (H1 : ((d - s) / interval < 0)%R).
      { apply Rmult_lt_reg_r with interval; [exact HI|].
        unfold Rdiv. rewrite Rmult_assoc, Rinv_l by lra. lra. }
      assert (H2 : (-1 < (d - s) / interval)%R).
      { apply Rmult_lt_reg_r with interval; [exact HI|].
        unfold Rdiv. rewrite Rmult_assoc, Rinv_l by lra. lra. }
      lra. }
    assert (Hto : to_int (ffloor ((d - s) / interval)%float) = Ok (-1)%Z).
    { rewrite ExactResample.to_int_floor. change ((d - s) / interval)%float
        with ((d - s) / interval)%R. rewrite Hn. reflexivity. }
    split; [exact Hn|]. split; [exact Hto|]. split; [|lra].
    rewrite (resample_line_to_spec polyline start_point q interval sum_distance Hb).
    fold d s. rewrite Hto. cbn [bind].
    change (line_loop_counter (-1)) with (Ok tt : Result unit). cbn [bind].
    rewrite int_range_empty by lia. cbn [map].
    rewrite with_vertices_same. f_equal. f_equal. cbn. ring. }
  split; [|split; [|split]].
  - intros polyline start_point q interval sum_distance Hb Fi Pi Fs d s Hle Hto.
    assert (Vi : IEEE.valid interval = true)
      by (destruct interval; try reflexivity; exact Fi).
    assert (Vs : IEEE.valid sum_distance = true)
      by (destruct sum_distance; try reflexivity; exact Fs).
    destruct (resample_line_to_back_step polyline start_point q interval sum_distance
                Hb Vi Fi Pi Vs Fs Hle Hto) as [Hrun Hsum].
    eexists. split; [exact Hrun|]. split; [reflexivity|exact Hsum].
  - eexists. split; [vm_compute; reflexivity|].
    split; [vm_compute; reflexivity|vm_compute; reflexivity].
  - intros polyline start_point q interval sum_distance Hb HI d s Hds.
    exact (Hmain polyline start_point q interval sum_distance Hb HI Hds).
  - intros polyline start_point interval sum_distance Hb HI s Hs.
    apply (Hmain polyline start_point start_point interval sum_distance Hb HI).
    replace (distance start_point start_point) with 0%R; [exact Hs|].
    unfold distance, length_, dot, vsub. cbn.
    replace ((x start_point - x start_point) * (x start_point - x start_point)
             + (y start_point - y start_point) * (y start_point - y start_point))%R
      with 0%R by ring.
    symmetry. apply sqrt_0.
Qed.

(** In binary32, from [sum_distance = 7] with interval 10, a line of
    length 1: the count is [-1], no vertex is added, and [sum_distance]
    falls to 4. *)
Lemma C10_witness :
  let polyline : Polyline spec_float spec_float :=
    {| vertices := [IEEE.vertex 0 0]; distances := [];
       total_distance := double_of_Z 0 |} in
  resample_line_to polyline (IEEE.vertex 1 0) (IEEE.of_Z 10) (IEEE.of_Z 7)
  = Ok (polyline, IEEE.of_Z 4)
  /\ IEEE.leb (IEEE.of_Z 4) (IEEE.of_Z 7) = true.
Proof.
  intros polyline.
  destruct (proj1 C10_short_line_decreases_sum polyline (IEEE.vertex 0 0)
              (IEEE.vertex 1 0) (IEEE.of_Z 10) (IEEE.of_Z 7)
              eq_refl eq_refl eq_refl eq_refl eq_refl eq_refl)
    as (sum_distance' & Hrun & Hsum & Hle).
  assert (H4 : sum_distance' = IEEE.of_Z 4) by (rewrite Hsum; vm_compute; reflexivity).
  rewrite H4 in Hrun, Hle. split; [exact Hrun|exact Hle].
Defined.

(** ** The segments of a polyline *)

Section SegmentFacts.
Context {F D : Type} {A : Arith F D}.

Lemma segment_lengths_app (vs ws : list (Vertex F)) (a : Vertex F) :
  back vs = Some a ->
  segment_lengths (vs ++ ws) = segment_lengths vs ++ segment_lengths (a :: ws).
Proof.
  unfold segment_lengths. induction vs as [|b vs IH]; [discriminate|].
  destruct vs as [|b' vs].
  - intros [= ->]. reflexivity.
  - intros Hb. rewrite back_cons_cons in Hb. specialize (IH Hb).
    simpl in *. f_equal. exact IH.
Qed.
End SegmentFacts.

(** ** C2: spacing of resampled vertices *)

(** C2.  The resampler does not keep the vertices one interval apart, in
    binary32, on paths the interface makes.
    "M 0,0 L 3,0 L 10,0" resampled with interval [0.9f]: the first line
    places vertices at 0.9, 1.8 and 2.6999998 and leaves
    [sum_distance = 2.6999998]; for the second line
    [sum_distance - floor( sum_distance / interval ) * interval] is
    0.89999986, not about 0, and every point of the line is moved on by
    it: the next vertex lies at 4.4999995, which is 1.7999997 from the
    vertex before it, twice the interval.
    The triangle (0,0), (3,4), (0,8) closed and continued by a line to
    (0,-20), with interval 5: beside the closing duplicate (3 away from
    the vertex before it), the first vertex of the following line is 8
    away from the duplicate, the interval and the start distance 3
    together. *)
Theorem C2_spacing_of_resampled_lines :
  (exists (self self' : le_path_o spec_float spec_float)
          (polyline : Polyline spec_float spec_float),
      le_path_add_from_simplified_svg IEEE.strtof le_path_create
                                      "M 0,0 L 3,0 L 10,0" []
      = Ok (self, [])
      /\ le_path_resample self (Values.lit "0.9") = Ok self'
      /\ polylines self' = [polyline]
      /\ map (fun v => (x v, y v)) (firstn 5 (vertices polyline))
         = [(Values.lit "0", Values.lit "0");
            (Values.lit "0.9", Values.lit "0");
            (Values.lit "1.8", Values.lit "0");
            (Values.lit "2.6999998", Values.lit "0");
            (Values.lit "4.4999995", Values.lit "0")]
      /\ start_distance_of (Values.lit "0.9") (Values.lit "2.6999998")
         = Values.lit "0.89999986"
      /\ nth_error (segment_lengths (vertices polyline)) 3
         = Some (Values.lit "1.7999997")
      /\ IEEE.ltb (Values.lit "1.79") (Values.lit "1.7999997") = true)
  /\ (exists (polyline : Polyline spec_float spec_float) (sum : spec_float),
         resample_commands resample_resolution (IEEE.of_Z 5)
                           (Paths.closed_triangle ++ [Paths.LineTo 0 (-20)])
         = Ok (polyline, sum)
         /\ segment_lengths (vertices polyline)
            = map IEEE.of_Z [5; 5; 5; 3; 8; 5; 5]%Z).
Proof.
  split.
  - set (r := match le_path_add_from_simplified_svg IEEE.strtof
                      (le_path_create : le_path_o spec_float spec_float)
                      "M 0,0 L 3,0 L 10,0" [] with
              | Ok st => fst st
              | Err _ => le_path_create
              end).
    set (r' := match le_path_resample r (Values.lit "0.9") with
               | Ok self' => self'
               | Err _ => le_path_create
               end).
    exists r, r', (hd Polyline_new (polylines r')).
    split; [vm_compute; reflexivity|].
    split; [vm_compute; reflexivity|].
    split; [vm_compute; reflexivity|].
    split; [vm_compute; reflexivity|].
    split; [vm_compute; reflexivity|].
    split; [vm_compute; reflexivity|vm_compute; reflexivity].
  - eexists. eexists. split; [vm_compute; reflexivity|]. vm_compute. reflexivity.
Qed.

(** * Further properties *)

(** ** The vertices the tracer adds *)

Section TraceVertices.
Context {F D : Type} {A : Arith F D}.

Lemma foldM_app (B S : Type) (body : S -> B -> Result S) (l1 l2 : list B) (s : S) :
  foldM body (l1 ++ l2) s = (s' <- foldM body l1 s ;; foldM body l2 s').
Proof.
  revert s. induction l1 as [|b l1 IH]; intros s; [reflexivity|].
  simpl. destruct (body s b) as [s1|]; [|reflexivity]. simpl. apply IH.
Qed.

Lemma trace_line_to_vertices (polyline polyline' : Polyline F D) (q : Vertex F) :
  trace_line_to polyline q = Ok polyline' ->
  vertices polyline' = vertices polyline ++ [q] /\ vertices polyline <> [].
Proof.
  unfold trace_line_to. destruct (back (vertices polyline)) as [last|] eqn:E;
    [|discriminate].
  intros H. apply Ok_inj in H. subst polyline'. split; [reflexivity|].
  intros Hnil. rewrite Hnil in E. discriminate E.
Qed.

(** What one command adds to the vertices. *)
Lemma trace_command_vertices (resolution : nat) (polyline polyline' : Polyline F D)
      (c : PathCommand F) :
  trace_command resolution polyline c = Ok polyline' ->
  exists vs,
    vertices polyline' = vertices polyline ++ vs
    /\ length vs = trace_weight resolution c
    /\ (type c = eLineTo -> vs = [p c])
    /\ (type c = eMoveTo -> vs = [p c])
    /\ (type c = eClosePath ->
        exists first, front (vertices polyline) = Some first /\ vs = [first]).
Proof.
  unfold trace_command, trace_weight.
  destruct (type c) eqn:Et; try discriminate.
  - intros H. apply Ok_inj in H. subst polyline'. exists [p c].
    repeat split; try discriminate; reflexivity.
  - intros H. apply trace_line_to_vertices in H. destruct H as [H _].
    exists [p c]. repeat split; try discriminate; assumption.
  - unfold trace_quad_bezier_to. destruct resolution as [|[|n]].
    + intros H. apply Ok_inj in H. subst polyline'. exists [].
      rewrite app_nil_r. repeat split; discriminate.
    + intros H. apply trace_line_to_vertices in H. destruct H as [H _].
      exists [p c]. repeat split; try discriminate; assumption.
    + destruct (back (vertices polyline)) as [p0|]; [|discriminate].
      intros H. apply Ok_inj in H. subst polyline'. rewrite trace_curve_fold.
      cbn [vertices]. eexists. split; [reflexivity|].
      rewrite length_map, length_seq. repeat split; discriminate.
  - unfold trace_cubic_bezier_to. destruct resolution as [|[|n]].
    + intros H. apply Ok_inj in H. subst polyline'. exists [].
      rewrite app_nil_r. repeat split; discriminate.
    + intros H. apply Ok_inj in H. subst polyline'. exists [p c].
      repeat split; discriminate.
    + destruct (back (vertices polyline)) as [p0|]; [|discriminate].
      intros H. apply Ok_inj in H. subst polyline'. rewrite trace_curve_fold.
      cbn [vertices]. eexists. split; [reflexivity|].
      rewrite length_map, length_seq. repeat split; discriminate.
  - unfold trace_close_path. destruct (front (vertices polyline)) as [first|] eqn:Ef;
      [|discriminate].
    intros H. apply trace_line_to_vertices in H. destruct H as [H _].
    exists [first]. repeat split; try discriminate; try assumption.
    intros _. exists first. split; reflexivity.
Qed.

Lemma trace_commands_vertices (resolution : nat) (cs : list (PathCommand F)) :
  forall polyline polyline' : Polyline F D,
    foldM (trace_command resolution) cs polyline = Ok polyline' ->
    exists vs,
      vertices polyline' = vertices polyline ++ vs
      /\ length vs = list_sum (map (trace_weight resolution) cs).
Proof.
  induction cs as [|c cs IH]; intros polyline polyline'.
  - intros H. apply Ok_inj in H. subst polyline'. exists []. rewrite app_nil_r.
    split; reflexivity.
  - simpl foldM. destruct (trace_command resolution polyline c) as [q|] eqn:E;
      [|discriminate].
    simpl bind. intros H.
    destruct (trace_command_vertices _ _ _ _ E) as (vs1 & H1 & L1 & _).
    destruct (IH _ _ H) as (vs2 & H2 & L2).
    exists (vs1 ++ vs2). split.
    + rewrite H2, H1, app_assoc. reflexivity.
    + rewrite length_app, L1, L2. reflexivity.
Qed.

Lemma trace_subpath_commands (resolution : nat) (s : SubPath F) (polyline : Polyline F D) :
  trace_subpath resolution s = Ok polyline ->
  foldM (trace_command resolution) (commands s) Polyline_new = Ok polyline.
Proof.
  unfold trace_subpath.
  destruct (foldM (trace_command resolution) (commands s) Polyline_new) as [q|];
    [|discriminate].
  simpl bind. destruct (assert _); [|discriminate]. simpl bind.
  intros H. apply Ok_inj in H. subst q. reflexivity.
Qed.
End TraceVertices.

Lemma mapM_Forall2 (B C : Type) (f : B -> Result C) (l : list B) (cs : list C) :
  mapM f l = Ok cs -> Forall2 (fun b c => f b = Ok c) l cs.
Proof.
  revert cs. induction l as [|b l IH]; intros cs.
  - intros H. apply Ok_inj in H. subst cs. constructor.
  - simpl. destruct (f b) as [c0|] eqn:E; [|discriminate]. simpl.
    destruct (mapM f l) as [cs0|]; [|discriminate]. simpl.
    intros H. apply Ok_inj in H. subst cs. constructor; [exact E|].
    apply IH. reflexivity.
Qed.

(** X7.  Whatever the arithmetic, a traced polyline has one vertex for
    each [eMoveTo], [eLineTo] and [eClosePath] of its sub-path and 12 (the
    tracer's resolution) for each curve: the vertex counts of the polylines
    are the sums of these weights over the commands of the sub-paths. *)
Theorem X7_trace_vertex_count :
  forall (F D : Type) (A : Arith F D) (self self' : le_path_o F D),
    le_path_trace_path self = Ok self' ->
    map (fun polyline => length (vertices polyline)) (polylines self')
    = map (fun s => list_sum (map (trace_weight trace_resolution) (commands s)))
          (subpaths self).
Proof.
  intros F D A self self'. unfold le_path_trace_path.
  destruct (mapM _ _) as [pls|] eqn:Erun; [|discriminate].
  simpl bind. intros H. apply Ok_inj in H. subst self'. cbn [polylines].
  apply mapM_Forall2 in Erun.
  induction Erun as [|s pl ss pls Hs _ IH]; [reflexivity|].
  cbn [map]. f_equal; [|exact IH].
  apply trace_subpath_commands in Hs.
  destruct (trace_commands_vertices _ _ _ _ Hs) as (vs & Hv & Hl).
  rewrite Hv. cbn [vertices Polyline_new app]. exact Hl.
Qed.

(** The path of two sub-paths in binary32: 1 + 12 + 1 + 1 and 1 + 12
    vertices. *)
Lemma X7_witness :
  exists self' : le_path_o spec_float spec_float,
    le_path_trace_path Paths.two_subpaths = Ok self'
    /\ map (fun polyline => length (vertices polyline)) (polylines self')
       = [15%nat; 13%nat].
Proof.
  set (self' := match le_path_trace_path Paths.two_subpaths with
                | Ok traced => traced
                | Err _ => Paths.two_subpaths
                end).
  assert (Hrun : le_path_trace_path Paths.two_subpaths = Ok self')
    by (vm_compute; reflexivity).
  exists self'. split; [exact Hrun|].
  rewrite (X7_trace_vertex_count _ _ IEEE.arith Paths.two_subpaths self' Hrun).
  reflexivity.
Defined.

Section TraceEnds.
Context {F D : Type} {A : Arith F D}.

Lemma front_app (B : Type) (l l' : list B) (b : B) :
  front l = Some b -> front (l ++ l') = Some b.
Proof. destruct l; [discriminate|]. intros H. exact H. Qed.

(** The polyline after the leading [eMoveTo] and some more commands
    starts at the point of the [eMoveTo]. *)
Lemma trace_commands_front (resolution : nat) (m : PathCommand F)
      (cs : list (PathCommand F)) (polyline : Polyline F D) :
  type m = eMoveTo ->
  foldM (trace_command resolution) (m :: cs) Polyline_new = Ok polyline ->
  front (vertices polyline) = Some (p m).
Proof.
  intros Hm. simpl foldM. unfold trace_command at 1. rewrite Hm. simpl bind.
  intros H. destruct (trace_commands_vertices _ _ _ _ H) as (vs & Hv & _).
  rewrite Hv. reflexivity.
Qed.

End TraceEnds.

(** X8.  Whatever the arithmetic, the polyline traced from a sub-path
    starts at the point of its [eMoveTo]; it ends at the point of the last
    command when that is an [eMoveTo] or an [eLineTo], and at the starting
    point again when the last command is [eClosePath]. *)
Theorem X8_trace_end_points :
  forall (F D : Type) (A : Arith F D) (resolution : nat) (s : SubPath F)
         (polyline : Polyline F D) (m c : PathCommand F),
    wf_subpath s = true ->
    trace_subpath resolution s = Ok polyline ->
    hd_error (commands s) = Some m -> back (commands s) = Some c ->
    front (vertices polyline) = Some (p m)
    /\ (type c = eMoveTo \/ type c = eLineTo -> back (vertices polyline) = Some (p c))
    /\ (type c = eClosePath -> back (vertices polyline) = Some (p m)).
Proof.
  intros F D A resolution s polyline m c.
  intros Hwf Hrun Hm Hc.
  destruct (wf_subpath_inv s Hwf) as (m' & rest & Hs & Hm' & _).
  rewrite Hs in Hm, Hc. injection Hm as <-.
  apply trace_subpath_commands in Hrun. rewrite Hs in Hrun.
  split; [exact (trace_commands_front resolution m' rest polyline Hm' Hrun)|].
  destruct (back_Some_split _ _ Hc) as (l & Hl).
  rewrite Hl, foldM_app in Hrun.
  destruct (foldM (trace_command resolution) l Polyline_new) as [q|] eqn:El;
    [|discriminate].
  simpl in Hrun.
  destruct (trace_command resolution q c) as [q'|] eqn:Ec; [|discriminate].
  simpl in Hrun. apply Ok_inj in Hrun. subst q'.
  destruct (trace_command_vertices _ _ _ _ Ec) as (vs & Hv & _ & Hline & Hmove & Hclose).
  split.
  - intros [Ht|Ht]; [rewrite (Hmove Ht) in Hv|rewrite (Hline Ht) in Hv];
      rewrite Hv; apply (back_emplace_back (vertices q)).
  - intros Ht. destruct (Hclose Ht) as (first & Hf & ->).
    rewrite Hv, (back_emplace_back (vertices q) first : back (vertices q ++ [first]) = _).
    destruct l as [|m0 l0].
    + apply Ok_inj in El. subst q. discriminate Hf.
    + injection Hl as <- Hrest.
      rewrite (trace_commands_front resolution m' l0 q Hm' El) in Hf.
      symmetry. exact Hf.
Qed.

(** The first and the last vertex of the first sub-path of
    [Paths.two_subpaths], traced in binary32. *)
Lemma X8_witness :
  exists polyline : Polyline spec_float spec_float,
    trace_subpath trace_resolution
      {| commands := [Paths.MoveTo 0 0; Paths.QuadBezierTo 10 0 5 10;
                      Paths.LineTo 3 (-4); Paths.ClosePath] |} = Ok polyline
    /\ front (vertices polyline) = Some (IEEE.vertex 0 0)
    /\ back (vertices polyline) = Some (IEEE.vertex 0 0).
Proof.
  set (s := {| commands := [Paths.MoveTo 0 0; Paths.QuadBezierTo 10 0 5 10;
                            Paths.LineTo 3 (-4); Paths.ClosePath] |}).
  set (polyline := match trace_subpath trace_resolution s with
                   | Ok traced => traced
                   | Err _ => Polyline_new
                   end).
  assert (Hrun : trace_subpath trace_resolution s = Ok polyline)
    by (vm_compute; reflexivity).
  exists polyline. split; [exact Hrun|].
  destruct (X8_trace_end_points _ _ IEEE.arith trace_resolution s polyline
              (Paths.MoveTo 0 0) Paths.ClosePath eq_refl Hrun eq_refl eq_refl)
    as (Hf & _ & Hc).
  split; [exact Hf|exact (Hc eq_refl)].
Defined.

(** ** The distances the tracer stores *)

Section TracePushInvariant.
Context {F D : Type} {A : Arith F D}.
Variable Inv : Polyline F D -> Prop.

(** The tracer adds a vertex together with the distance to it from the
    last vertex. *)
Hypothesis Inv_push :
  forall (polyline : Polyline F D) (last q : Vertex F),
    back (vertices polyline) = Some last ->
    Inv polyline ->
    Inv {| vertices := vertices polyline ++ [q];
           distances :=
             distances polyline ++
             [float_of_double (dadd (total_distance polyline)
                                    (double_of_float (distance q last)))];
           total_distance := dadd (total_distance polyline)
                                  (double_of_float (distance q last)) |}.

Lemma trace_line_to_push (polyline polyline' : Polyline F D) (q : Vertex F) :
  Inv polyline -> trace_line_to polyline q = Ok polyline' -> Inv polyline'.
Proof.
  intros Hn. unfold trace_line_to.
  destruct (back (vertices polyline)) as [last|] eqn:E; [|discriminate].
  intros H. apply Ok_inj in H. subst polyline'. apply (Inv_push _ _ _ E Hn).
Qed.

Lemma trace_curve_push (point : nat -> Vertex F) (steps : list nat) :
  forall (polyline : Polyline F D) (prev : Vertex F),
    back (vertices polyline) = Some prev -> Inv polyline ->
    Inv (fst (fold_left (trace_curve_step point) steps (polyline, prev))).
Proof.
  induction steps as [|i steps IH]; intros polyline prev Hb Hn; [exact Hn|].
  simpl fold_left. cbn [trace_curve_step]. apply IH.
  - apply (back_emplace_back (vertices polyline)).
  - apply (Inv_push _ _ _ Hb Hn).
Qed.

Lemma trace_command_push (resolution : nat) (polyline polyline' : Polyline F D)
      (c : PathCommand F) :
  resolution <> 1%nat -> is_drawing c = true -> Inv polyline ->
  trace_command resolution polyline c = Ok polyline' -> Inv polyline'.
Proof.
  intros Hres Hc Hn. unfold is_drawing in Hc. unfold trace_command.
  destruct (type c); try discriminate Hc.
  - apply trace_line_to_push; exact Hn.
  - unfold trace_quad_bezier_to. destruct resolution as [|[|n]]; [|contradiction|].
    + intros H. apply Ok_inj in H. subst polyline'. exact Hn.
    + destruct (back (vertices polyline)) as [p0|] eqn:E; [|discriminate].
      intros H. apply Ok_inj in H. subst polyline'.
      apply trace_curve_push; assumption.
  - unfold trace_cubic_bezier_to. destruct resolution as [|[|n]]; [|contradiction|].
    + intros H. apply Ok_inj in H. subst polyline'. exact Hn.
    + destruct (back (vertices polyline)) as [p0|] eqn:E; [|discriminate].
      intros H. apply Ok_inj in H. subst polyline'.
      apply trace_curve_push; assumption.
  - unfold trace_close_path. destruct (front (vertices polyline)); [|discriminate].
    apply trace_line_to_push; exact Hn.
Qed.

Lemma trace_commands_push (resolution : nat) (cs : list (PathCommand F)) :
  resolution <> 1%nat -> forallb is_drawing cs = true ->
  forall polyline polyline' : Polyline F D,
    Inv polyline ->
    foldM (trace_command resolution) cs polyline = Ok polyline' ->
    Inv polyline'.
Proof.
  intros Hres. induction cs as [|c cs IH]; intros Hcs polyline polyline' Hn.
  - intros H. apply Ok_inj in H. subst polyline'. exact Hn.
  - simpl in Hcs. apply andb_prop in Hcs. destruct Hcs as [Hc Hcs].
    simpl foldM. destruct (trace_command resolution polyline c) as [q|] eqn:Eq;
      [|discriminate].
    simpl bind. apply (IH Hcs). eapply trace_command_push; eassumption.
Qed.

Lemma trace_subpath_push (resolution : nat) (s : SubPath F) (polyline : Polyline F D) :
  (forall q : Vertex F, Inv (trace_move_to Polyline_new q)) ->
  resolution <> 1%nat -> wf_subpath s = true ->
  trace_subpath resolution s = Ok polyline -> Inv polyline.
Proof.
  intros Hinit Hres Hwf Hrun.
  destruct (wf_subpath_inv s Hwf) as (m & rest & Hs & Hm & Hrest).
  apply trace_subpath_commands in Hrun. rewrite Hs in Hrun.
  simpl foldM in Hrun. unfold trace_command at 1 in Hrun. rewrite Hm in Hrun.
  simpl bind in Hrun.
  exact (trace_commands_push resolution rest Hres Hrest _ _ (Hinit (p m)) Hrun).
Qed.
End TracePushInvariant.

Section MeasuredFacts.
Context {F D : Type} {A : Arith F D}.

Lemma sum_lengths_snoc (ls : list F) (l : F) :
  sum_lengths (ls ++ [l]) = dadd (sum_lengths ls) (double_of_float l).
Proof. unfold sum_lengths, add_lengths. rewrite fold_left_app. reflexivity. Qed.

Lemma segment_lengths_snoc (vs : list (Vertex F)) (last q : Vertex F) :
  back vs = Some last ->
  segment_lengths (vs ++ [q]) = segment_lengths vs ++ [distance q last].
Proof. intros H. rewrite (segment_lengths_app vs [q] last H). reflexivity. Qed.

Lemma measured_move_to (q : Vertex F) : measured (trace_move_to Polyline_new q).
Proof.
  unfold measured, trace_move_to, Polyline_new. cbn.
  split; [discriminate|]. split; [reflexivity|]. split; [reflexivity|].
  intros k Hk. lia.
Qed.

Lemma measured_push (polyline : Polyline F D) (last q : Vertex F) :
  back (vertices polyline) = Some last ->
  measured polyline ->
  measured {| vertices := vertices polyline ++ [q];
              distances :=
                distances polyline ++
                [float_of_double (dadd (total_distance polyline)
                                       (double_of_float (distance q last)))];
              total_distance := dadd (total_distance polyline)
                                     (double_of_float (distance q last)) |}.
Proof.
  intros Hb (Hne & Hlen & Htot & Hk). unfold measured. cbn [vertices distances total_distance].
  assert (Htot' : dadd (total_distance polyline) (double_of_float (distance q last))
                  = sum_lengths (segment_lengths (vertices polyline ++ [q]))).
  { rewrite (segment_lengths_snoc _ _ _ Hb), sum_lengths_snoc, Htot. reflexivity. }
  split; [destruct (vertices polyline); discriminate|].
  split; [rewrite !length_app, Hlen; reflexivity|].
  split; [exact Htot'|].
  intros k Hrange. rewrite length_app in Hrange. cbn [length] in Hrange.
  destruct (Nat.eq_dec k (length (vertices polyline))) as [->|Hneq].
  - rewrite <- Hlen at 1. rewrite nth_error_app2 by lia. rewrite Nat.sub_diag.
    cbn [nth_error]. rewrite firstn_all2 by (rewrite length_app; cbn [length]; lia).
    rewrite Htot'. reflexivity.
  - rewrite nth_error_app1 by lia.
    rewrite firstn_app.
    replace (S k - length (vertices polyline))%nat with 0%nat by lia.
    cbn [firstn]. rewrite app_nil_r. apply Hk. lia.
Qed.
End MeasuredFacts.

(** X9.  Whatever the arithmetic, for a resolution other than 1 (the
    tracer's is 12) the distances of a traced polyline are those of its
    own vertices, curves included: the total is the sum of the lengths of
    the segments between consecutive vertices, and the distance stored
    with a vertex is that sum up to the vertex.  In exact arithmetic the
    distance at place [k] is the length of the polyline from its first
    vertex to the vertex at place [k]. *)
Theorem X9_trace_distances_measure_the_polyline :
  (forall (F D : Type) (A : Arith F D) (resolution : nat) (s : SubPath F)
          (polyline : Polyline F D),
      resolution <> 1%nat -> wf_subpath s = true ->
      trace_subpath resolution s = Ok polyline ->
      measured polyline)
  /\ (forall (resolution : nat) (s : SubPath R) (polyline : Polyline R R)
             (k : nat) (d : R),
         resolution <> 1%nat -> wf_subpath s = true ->
         trace_subpath resolution s = Ok polyline ->
         nth_error (distances polyline) k = Some d ->
         d = Exact.sum (segment_lengths (firstn (S k) (vertices polyline)))).
Proof.
  assert (Hgen : forall (F D : Type) (A : Arith F D) (resolution : nat) (s : SubPath F)
                        (polyline : Polyline F D),
             resolution <> 1%nat -> wf_subpath s = true ->
             trace_subpath resolution s = Ok polyline ->
             measured polyline).
  { intros F D A resolution s polyline Hres Hwf Hrun.
    apply (trace_subpath_push measured) with (resolution := resolution) (s := s);
      try assumption.
    - intros pl last q. apply measured_push.
    - apply measured_move_to. }
  split; [exact Hgen|].
  intros resolution s polyline k d Hres Hwf Hrun Hd.
  pose proof (trace_subpath_ok resolution s Hres Hwf) as (pl & Hrun' & _ & _ & Hhd).
  rewrite Hrun in Hrun'. apply Ok_inj in Hrun'. subst pl.
  destruct (Hgen _ _ _ resolution s polyline Hres Hwf Hrun) as (Hne & Hlen & _ & Hk).
  destruct k as [|k].
  - destruct (distances polyline) as [|d0 ds]; [discriminate|].
    cbn in Hhd, Hd. assert (d = 0%R) by congruence. subst d.
    destruct (vertices polyline) as [|v vs]; [contradiction|]. reflexivity.
  - assert (Hlt : (S k < length (distances polyline))%nat)
      by (apply nth_error_Some; congruence).
    rewrite Hk in Hd by lia. injection Hd as <-.
    unfold sum_lengths. rewrite add_lengths_sum. exact (Rplus_0_l _).
Qed.

(** The first sub-path of [Paths.two_subpaths], traced in binary32. *)
Lemma X9_witness :
  exists polyline : Polyline spec_float spec_float,
    trace_subpath trace_resolution
      {| commands := [Paths.MoveTo 0 0; Paths.QuadBezierTo 10 0 5 10;
                      Paths.LineTo 3 (-4); Paths.ClosePath] |} = Ok polyline
    /\ measured polyline.
Proof.
  set (s := {| commands := [Paths.MoveTo 0 0; Paths.QuadBezierTo 10 0 5 10;
                            Paths.LineTo 3 (-4); Paths.ClosePath] |}).
  set (polyline := match trace_subpath trace_resolution s with
                   | Ok traced => traced
                   | Err _ => Polyline_new
                   end).
  assert (Hrun : trace_subpath trace_resolution s = Ok polyline)
    by (vm_compute; reflexivity).
  exists polyline. split; [exact Hrun|].
  exact (proj1 X9_trace_distances_measure_the_polyline _ _ IEEE.arith
               trace_resolution s polyline
               ltac:(unfold trace_resolution; lia) eq_refl Hrun).
Defined.

(** ** The vertices the resampler adds *)

Section ResampleVertices.
Context {F D : Type} {A : Arith F D}.

Lemma subsequence_length (B : Type) (l l' : list B) :
  subsequence l l' -> (length l <= length l')%nat.
Proof. induction 1; simpl; lia. Qed.

Lemma resample_line_to_vertices (polyline polyline' : Polyline F D) (q : Vertex F)
      (interval sum sum' : F) :
  resample_line_to polyline q interval sum = Ok (polyline', sum') ->
  exists vs,
    vertices polyline' = vertices polyline ++ vs
    /\ distances polyline' = distances polyline
    /\ total_distance polyline' = total_distance polyline
    /\ vertices polyline <> [].
Proof.
  unfold resample_line_to.
  destruct (back (vertices polyline)) as [start|] eqn:E; [|discriminate].
  destruct (to_int _) as [n|]; [|discriminate]. simpl bind.
  destruct (line_loop_counter n); [|discriminate]. simpl bind.
  intros H. apply Ok_inj in H. injection H as <- _.
  eexists. split; [reflexivity|]. split; [reflexivity|]. split; [reflexivity|].
  intros Hnil. rewrite Hnil in E. discriminate E.
Qed.

(** The curve loops keep some of the points they evaluate, in their
    order, and nothing else. *)
Lemma resample_curve_fold (point : nat -> Vertex F) (interval : F) (steps : list nat) :
  forall st st' : CurveState,
    foldM (resample_curve_step point interval) steps st = Ok st' ->
    exists kept,
      subsequence kept steps
      /\ vertices (cs_polyline st') = vertices (cs_polyline st) ++ map point kept
      /\ distances (cs_polyline st') = distances (cs_polyline st)
      /\ total_distance (cs_polyline st') = total_distance (cs_polyline st).
Proof.
  induction steps as [|i steps IH]; intros st st'.
  - intros H. apply Ok_inj in H. subst st'. exists [].
    rewrite app_nil_r. repeat split. constructor.
  - simpl foldM. unfold resample_curve_step at 1.
    destruct (to_size_t _) as [current|]; [|discriminate]. simpl bind.
    destruct (cs_num_intervals st <? current)%Z.
    + intros H. destruct (IH _ _ H) as (kept & Hsub & Hv & Hd & Ht).
      cbn [cs_polyline with_vertices vertices distances total_distance] in Hv, Hd, Ht.
      exists (i :: kept). split; [constructor; exact Hsub|].
      split; [|split; assumption].
      rewrite Hv. unfold emplace_back. rewrite <- app_assoc. reflexivity.
    + intros H. destruct (IH _ _ H) as (kept & Hsub & Hv & Hd & Ht).
      cbn [cs_polyline] in Hv, Hd, Ht.
      exists kept. split; [constructor; exact Hsub|]. split; [|split]; assumption.
Qed.

Lemma resample_curve_vertices (point : Vertex F -> F -> nat -> Vertex F)
      (polyline polyline' : Polyline F D) (resolution : nat) (interval sum sum' : F) :
  resample_curve point polyline resolution interval sum = Ok (polyline', sum') ->
  exists p0 kept,
    back (vertices polyline) = Some p0
    /\ subsequence kept (seq 1 resolution)
    /\ vertices polyline'
       = vertices polyline
         ++ map (point p0 (float_of_Z 1 / float_of_nat resolution)%float) kept
    /\ distances polyline' = distances polyline
    /\ total_distance polyline' = total_distance polyline.
Proof.
  unfold resample_curve.
  destruct (back (vertices polyline)) as [p0|] eqn:E; [|discriminate].
  destruct (to_size_t _) as [n|]; [|discriminate]. simpl bind.
  destruct (foldM _ _ _) as [st|] eqn:Efold; [|discriminate]. simpl bind.
  intros H. apply Ok_inj in H. injection H as <- _.
  destruct (resample_curve_fold _ _ _ _ _ Efold) as (kept & Hsub & Hv & Hd & Ht).
  exists p0, kept. cbn [cs_polyline] in Hv, Hd, Ht. repeat split; assumption.
Qed.

(** What one command of the resampler adds. *)
Lemma resample_command_vertices (resolution : nat) (interval : F)
      (polyline polyline' : Polyline F D) (sum sum' : F) (c : PathCommand F) :
  resample_command resolution interval (polyline, sum) c = Ok (polyline', sum') ->
  exists vs,
    vertices polyline' = vertices polyline ++ vs
    /\ distances polyline' = distances polyline
    /\ total_distance polyline' = total_distance polyline
    /\ (type c = eMoveTo -> vs = [p c])
    /\ (type c = eClosePath ->
        exists first ws, front (vertices polyline) = Some first /\ vs = ws ++ [first]).
Proof.
  unfold resample_command. destruct (type c) eqn:Et; try discriminate.
  - intros H. apply Ok_inj in H. unfold resample_move_to in H.
    injection H as <- _. exists [p c].
    repeat split; try discriminate; reflexivity.
  - intros H. destruct (resample_line_to_vertices _ _ _ _ _ _ H) as (vs & Hv & Hd & Ht & _).
    exists vs. repeat split; try discriminate; assumption.
  - unfold resample_quad_bezier_to. destruct resolution as [|[|n]].
    + intros H. apply Ok_inj in H. injection H as <- _. exists [].
      rewrite app_nil_r. repeat split; discriminate.
    + intros H. destruct (resample_line_to_vertices _ _ _ _ _ _ H) as (vs & Hv & Hd & Ht & _).
      exists vs. repeat split; try discriminate; assumption.
    + intros H.
      destruct (resample_curve_vertices _ _ _ _ _ _ _ H) as (p0 & kept & _ & _ & Hv & Hd & Ht).
      eexists. split; [exact Hv|]. repeat split; try discriminate; assumption.
  - unfold resample_cubic_bezier_to. destruct resolution as [|[|n]].
    + intros H. apply Ok_inj in H. injection H as <- _. exists [].
      rewrite app_nil_r. repeat split; discriminate.
    + intros H. destruct (resample_line_to_vertices _ _ _ _ _ _ H) as (vs & Hv & Hd & Ht & _).
      exists vs. repeat split; try discriminate; assumption.
    + intros H.
      destruct (resample_curve_vertices _ _ _ _ _ _ _ H) as (p0 & kept & _ & _ & Hv & Hd & Ht).
      eexists. split; [exact Hv|]. repeat split; try discriminate; assumption.
  - unfold resample_close_path.
    destruct (front (vertices polyline)) as [first|] eqn:Ef; [|discriminate].
    destruct (resample_line_to polyline first interval sum) as [[q s1]|] eqn:El;
      [|discriminate].
    simpl bind. destruct (back (vertices q)) as [last|]; [|discriminate].
    intros H. apply Ok_inj in H. injection H as <- _.
    destruct (resample_line_to_vertices _ _ _ _ _ _ El) as (vs & Hv & Hd & Ht & _).
    exists (vs ++ [first]). cbn [with_vertices vertices distances total_distance].
    split; [unfold emplace_back; rewrite Hv, <- app_assoc; reflexivity|].
    repeat split; try discriminate; try assumption.
    intros _. exists first, vs. split; reflexivity.
Qed.

Lemma resample_commands_vertices (resolution : nat) (interval : F)
      (cs : list (PathCommand F)) :
  forall (polyline polyline' : Polyline F D) (sum sum' : F),
    foldM (resample_command resolution interval) cs (polyline, sum)
    = Ok (polyline', sum') ->
    exists vs,
      vertices polyline' = vertices polyline ++ vs
      /\ distances polyline' = distances polyline
      /\ total_distance polyline' = total_distance polyline.
Proof.
  induction cs as [|c cs IH]; intros polyline polyline' sum sum'.
  - intros H. apply Ok_inj in H. injection H as <- _. exists [].
    rewrite app_nil_r. repeat split.
  - cbn [foldM].
    destruct (resample_command resolution interval (polyline, sum) c) as [[q s1]|] eqn:E;
      [|discriminate].
    cbn [bind]. intros H.
    destruct (resample_command_vertices _ _ _ _ _ _ _ E) as (vs1 & Hv1 & Hd1 & Ht1 & _).
    destruct (IH _ _ _ _ H) as (vs2 & Hv2 & Hd2 & Ht2).
    exists (vs1 ++ vs2). rewrite Hv2, Hv1, Hd2, Hd1, Ht2, Ht1, app_assoc.
    repeat split.
Qed.
End ResampleVertices.

Section ResampleSubpath.
Context {F D : Type} {A : Arith F D}.

Lemma resample_subpath_commands (resolution : nat) (interval : F) (s : SubPath F)
      (polyline : Polyline F D) :
  resample_subpath resolution interval s = Ok polyline ->
  exists sum,
    foldM (resample_command resolution interval) (commands s)
          (Polyline_new, float_of_Z 0) = Ok (polyline, sum).
Proof.
  unfold resample_subpath, resample_commands.
  destruct (foldM _ _ _) as [[q sum]|]; [|discriminate].
  cbn [bind]. intros H. apply Ok_inj in H. subst q. exists sum. reflexivity.
Qed.

Lemma resample_commands_front (resolution : nat) (interval : F) (m : PathCommand F)
      (cs : list (PathCommand F)) (polyline : Polyline F D) (sum : F) :
  type m = eMoveTo ->
  foldM (resample_command resolution interval) (m :: cs) (Polyline_new, float_of_Z 0)
  = Ok (polyline, sum) ->
  front (vertices polyline) = Some (p m).
Proof.
  intros Hm. cbn [foldM]. unfold resample_command at 1. rewrite Hm. cbn [bind].
  unfold resample_move_to. intros H.
  destruct (resample_commands_vertices _ _ _ _ _ _ _ H) as (vs & Hv & _).
  rewrite Hv. reflexivity.
Qed.
End ResampleSubpath.

(** X13.  Whatever the arithmetic, [le_path_resample] keeps the
    sub-paths, records the interval and makes one polyline for each
    sub-path; the polylines it makes hold vertices only: no distance is
    stored and the total distance stays 0. *)
Theorem X13_resample_stores_no_distances :
  forall (F D : Type) (A : Arith F D) (self self' : le_path_o F D) (interval : F),
    le_path_resample self interval = Ok self' ->
    subpaths self' = subpaths self
    /\ sample_interval self' = interval
    /\ le_path_get_num_polylines self' = length (subpaths self)
    /\ Forall (fun polyline =>
                 distances polyline = [] /\ total_distance polyline = double_of_Z 0)
              (polylines self').
Proof.
  intros F D A self self' interval. unfold le_path_resample.
  destruct (mapM _ _) as [pls|] eqn:Erun; [|discriminate].
  cbn [bind]. intros H. apply Ok_inj in H. subst self'.
  unfold le_path_get_num_polylines. cbn [subpaths sample_interval polylines].
  apply mapM_Forall2 in Erun.
  split; [reflexivity|]. split; [reflexivity|].
  split; [symmetry; exact (Forall2_length Erun)|].
  induction Erun as [|s pl ss pls Hs _ IH]; constructor; [|exact IH].
  destruct (resample_subpath_commands _ _ _ _ Hs) as (sum & Hrun).
  destruct (resample_commands_vertices _ _ _ _ _ _ _ Hrun) as (vs & _ & Hd & Ht).
  split; assumption.
Qed.

(** The 100-unit segment, resampled in binary32 with interval 10. *)
Lemma X13_witness :
  exists self' : le_path_o spec_float spec_float,
    le_path_resample (Paths.path_of Paths.segment_100) (IEEE.of_Z 10) = Ok self'
    /\ sample_interval self' = IEEE.of_Z 10
    /\ Forall (fun polyline => distances polyline = []) (polylines self').
Proof.
  set (self := Paths.path_of Paths.segment_100).
  set (self' := match le_path_resample self (IEEE.of_Z 10) with
                | Ok resampled => resampled
                | Err _ => self
                end).
  assert (Hrun : le_path_resample self (IEEE.of_Z 10) = Ok self')
    by (vm_compute; reflexivity).
  exists self'. split; [exact Hrun|].
  destruct (X13_resample_stores_no_distances _ _ IEEE.arith self self' (IEEE.of_Z 10) Hrun)
    as (_ & Hi & _ & Hall).
  split; [exact Hi|].
  eapply Forall_impl; [|exact Hall]. intros pl [Hd _]. exact Hd.
Defined.

(** X14.  Whatever the arithmetic, a resampled polyline starts at the
    point of the sub-path's [eMoveTo], and when the last command is
    [eClosePath] it ends with that point again. *)
Theorem X14_resample_end_points :
  forall (F D : Type) (A : Arith F D) (resolution : nat) (interval : F)
         (s : SubPath F) (polyline : Polyline F D) (m c : PathCommand F),
    wf_subpath s = true ->
    resample_subpath resolution interval s = Ok polyline ->
    hd_error (commands s) = Some m -> back (commands s) = Some c ->
    front (vertices polyline) = Some (p m)
    /\ (type c = eMoveTo \/ type c = eClosePath ->
        back (vertices polyline) = Some (p m)).
Proof.
  intros F D A resolution interval s polyline m c Hwf Hrun Hm Hc.
  destruct (wf_subpath_inv s Hwf) as (m' & rest & Hs & Hm' & _).
  rewrite Hs in Hm, Hc. injection Hm as <-.
  destruct (resample_subpath_commands _ _ _ _ Hrun) as (sum & Hfold).
  rewrite Hs in Hfold.
  pose proof (resample_commands_front resolution interval m' rest polyline sum Hm' Hfold)
    as Hfront.
  split; [exact Hfront|].
  destruct (back_Some_split _ _ Hc) as (l & Hl).
  rewrite Hl, foldM_app in Hfold.
  destruct (foldM (resample_command resolution interval) l _) as [[q s1]|] eqn:El;
    [|discriminate].
  cbn [bind foldM] in Hfold.
  destruct (resample_command resolution interval (q, s1) c) as [[q' s2]|] eqn:Ec;
    [|discriminate].
  cbn [bind] in Hfold. apply Ok_inj in Hfold. injection Hfold as -> _.
  destruct (resample_command_vertices _ _ _ _ _ _ _ Ec) as (vs & Hv & _ & _ & Hmove & Hclose).
  intros [Ht|Ht].
  - destruct l as [|m0 l0].
    + injection Hl as -> _. rewrite (Hmove Ht) in Hv. rewrite Hv.
      apply (back_emplace_back (vertices q)).
    + injection Hl as <- Hrest.
      assert (Hl0 : forallb is_drawing (l0 ++ [c]) = true).
      { rewrite <- Hrest. unfold wf_subpath in Hwf. rewrite Hs in Hwf.
        apply andb_prop in Hwf. exact (proj2 Hwf). }
      rewrite forallb_app in Hl0. apply andb_prop in Hl0. destruct Hl0 as [_ Hl0].
      cbn in Hl0. unfold is_drawing in Hl0. rewrite Ht in Hl0. discriminate Hl0.
  - destruct (Hclose Ht) as (first & ws & Hf & ->).
    rewrite Hv, app_assoc.
    rewrite (back_emplace_back (vertices q ++ ws) first
             : back ((vertices q ++ ws) ++ [first]) = _).
    destruct l as [|m0 l0].
    + apply Ok_inj in El. injection El as <- _. discriminate Hf.
    + injection Hl as <- Hrest.
      rewrite (resample_commands_front resolution interval m' l0 q s1 Hm' El) in Hf.
      symmetry. exact Hf.
Qed.

(** The closed triangle with sides 5, 5 and 8, resampled in binary32 with
    interval 5. *)
Lemma X14_witness :
  exists polyline : Polyline spec_float spec_float,
    resample_subpath resample_resolution (IEEE.of_Z 5)
                     {| commands := Paths.closed_triangle |} = Ok polyline
    /\ front (vertices polyline) = Some (IEEE.vertex 0 0)
    /\ back (vertices polyline) = Some (IEEE.vertex 0 0).
Proof.
  set (s := {| commands := Paths.closed_triangle |}).
  set (polyline := match resample_subpath resample_resolution (IEEE.of_Z 5) s with
                   | Ok resampled => resampled
                   | Err _ => Polyline_new
                   end).
  assert (Hrun : resample_subpath resample_resolution (IEEE.of_Z 5) s = Ok polyline)
    by (vm_compute; reflexivity).
  exists polyline. split; [exact Hrun|].
  destruct (X14_resample_end_points _ _ IEEE.arith resample_resolution (IEEE.of_Z 5) s
              polyline (Paths.MoveTo 0 0) Paths.ClosePath eq_refl Hrun eq_refl eq_refl)
    as (Hf & Hc).
  split; [exact Hf|]. apply Hc. right. reflexivity.
Defined.

(** X15.  Whatever the arithmetic and the interval, resampling a curve
    with a resolution above 1 adds some of the points the loop evaluates
    on the curve, in their order, and nothing else: the new vertices are a
    sub-sequence of the points at [t = i * delta_t] for [i] from 1 to the
    resolution, so there are never more of them than the resolution. *)
Theorem X15_resampled_curve_points :
  forall (F D : Type) (A : Arith F D) (polyline polyline' : Polyline F D)
         (p1 c1 c2 : Vertex F) (resolution : nat) (interval sum sum' : F),
    (1 < resolution)%nat ->
    (resample_quad_bezier_to polyline p1 c1 resolution interval sum
     = Ok (polyline', sum') ->
     exists p0 kept,
       back (vertices polyline) = Some p0
       /\ subsequence kept (seq 1 resolution)
       /\ vertices polyline'
          = vertices polyline
            ++ map (quad_bezier_point p0 c1 p1
                      (float_of_Z 1 / float_of_nat resolution)%float) kept
       /\ (length (vertices polyline') <= length (vertices polyline) + resolution)%nat)
    /\ (resample_cubic_bezier_to polyline p1 c1 c2 resolution interval sum
        = Ok (polyline', sum') ->
        exists p0 kept,
          back (vertices polyline) = Some p0
          /\ subsequence kept (seq 1 resolution)
          /\ vertices polyline'
             = vertices polyline
               ++ map (cubic_bezier_point p0 c1 c2 p1
                         (float_of_Z 1 / float_of_nat resolution)%float) kept
          /\ (length (vertices polyline') <= length (vertices polyline) + resolution)%nat).
Proof.
  intros F D A polyline polyline' p1 c1 c2 resolution interval sum sum' Hres.
  destruct resolution as [|[|n]]; try lia.
  split; intros H.
  - unfold resample_quad_bezier_to in H.
    destruct (resample_curve_vertices _ _ _ _ _ _ _ H) as (p0 & kept & Hb & Hsub & Hv & _).
    exists p0, kept. repeat split; try assumption.
    rewrite Hv, length_app, length_map.
    pose proof (subsequence_length _ _ _ Hsub) as Hl. rewrite length_seq in Hl. lia.
  - unfold resample_cubic_bezier_to in H.
    destruct (resample_curve_vertices _ _ _ _ _ _ _ H) as (p0 & kept & Hb & Hsub & Hv & _).
    exists p0, kept. repeat split; try assumption.
    rewrite Hv, length_app, length_map.
    pose proof (subsequence_length _ _ _ Hsub) as Hl. rewrite length_seq in Hl. lia.
Qed.

(** The flat curve of length 1000 in binary32 with interval 1: all of the
    100 points are kept, and no more. *)
Lemma X15_witness :
  exists (polyline' : Polyline spec_float spec_float) (sum' : spec_float),
    resample_quad_bezier_to (with_vertices Polyline_new [IEEE.vertex 0 0])
                            (IEEE.vertex 1000 0) (IEEE.vertex 500 0)
                            resample_resolution (IEEE.of_Z 1) (IEEE.of_Z 0)
    = Ok (polyline', sum')
    /\ (length (vertices polyline') <= 1 + 100)%nat.
Proof.
  set (polyline := with_vertices Polyline_new [IEEE.vertex 0 0]).
  set (r := match resample_quad_bezier_to polyline (IEEE.vertex 1000 0)
                    (IEEE.vertex 500 0) resample_resolution (IEEE.of_Z 1) (IEEE.of_Z 0)
            with
            | Ok st => st
            | Err _ => (polyline, IEEE.of_Z 0)
            end).
  assert (Hrun : resample_quad_bezier_to polyline (IEEE.vertex 1000 0)
                   (IEEE.vertex 500 0) resample_resolution (IEEE.of_Z 1) (IEEE.of_Z 0)
                 = Ok (fst r, snd r))
    by (vm_compute; reflexivity).
  exists (fst r), (snd r). split; [exact Hrun|].
  destruct (proj1 (X15_resampled_curve_points _ _ IEEE.arith polyline (fst r)
                     (IEEE.vertex 1000 0) (IEEE.vertex 500 0) vzero
                     resample_resolution (IEEE.of_Z 1) (IEEE.of_Z 0) (snd r)
                     ltac:(unfold resample_resolution; lia)) Hrun)
    as (p0 & kept & _ & _ & _ & Hlen).
  exact Hlen.
Defined.

(** ** Horizontal and vertical lines from a known pen position *)

(** X4.  When the last command of the last sub-path has an end point
    (it is neither [eClosePath] nor [eUnknown]), [le_path_line_horiz_to]
    appends a line to the given [x] at the [y] of that end point and
    [le_path_line_vert_to] a line to the given [y] at its [x]; nothing is
    written to the error stream.  A horizontal line followed by a vertical
    one ends at the two given coordinates. *)
Theorem X4_horizontal_and_vertical_lines :
  forall (F D : Type) (A : Arith F D) (self : le_path_o F D) (s : SubPath F)
         (c : PathCommand F) (px py : F) (err : Stderr),
    back (subpaths self) = Some s ->
    back (commands s) = Some c ->
    type c <> eClosePath -> type c <> eUnknown ->
    exists l,
      subpaths self = l ++ [s]
      /\ le_path_line_horiz_to self px err
         = Ok (with_subpaths self
                 (l ++ [ {| commands := commands s
                                        ++ [command1 eLineTo {| x := px; y := y (p c) |}] |} ]),
               err)
      /\ le_path_line_vert_to self py err
         = Ok (with_subpaths self
                 (l ++ [ {| commands := commands s
                                        ++ [command1 eLineTo {| x := x (p c); y := py |}] |} ]),
               err)
      /\ forall self1,
          le_path_line_horiz_to self px err = Ok (self1, err) ->
          exists self2,
            le_path_line_vert_to self1 py err = Ok (self2, err)
            /\ last_command self2 = Ok (command1 eLineTo {| x := px; y := py |}).
Proof.
  intros F D A self s c px py err Hs Hc Hclose Hunknown.
  pose proof (last_command_spec self s c Hs Hc) as Hlast.
  destruct (back_Some_split _ _ Hs) as [l Hl]. exists l. split; [exact Hl|].
  assert (Hh : forall (self0 : le_path_o F D) (l0 : list (SubPath F)) (s0 : SubPath F)
                      (c0 : PathCommand F) (q : Vertex F),
             subpaths self0 = l0 ++ [s0] -> back (commands s0) = Some c0 ->
             type c0 <> eClosePath -> type c0 <> eUnknown ->
             le_path_get_previous_p self0 err = Ok (Some (p c0), err)
             /\ last_command self0 = Ok c0
             /\ le_path_line_to self0 q
                = Ok (with_subpaths self0
                        (l0 ++ [ {| commands := commands s0 ++ [command1 eLineTo q] |} ]))).
  { intros self0 l0 s0 c0 q Hl0 Hc0 Hn1 Hn2.
    assert (Hlast0 : last_command self0 = Ok c0).
    { apply (last_command_spec self0 s0 c0); [|exact Hc0].
      rewrite Hl0. apply (back_emplace_back l0 s0). }
    split; [|split; [exact Hlast0|]].
    - unfold le_path_get_previous_p, io_bind, io_lift, io_ret. rewrite Hlast0.
      destruct (type c0); try reflexivity; contradiction.
    - unfold le_path_line_to. rewrite (append_checked_snoc self0 l0 s0 _ Hl0).
      reflexivity. }
  destruct (Hh self l s c {| x := px; y := y (p c) |} Hl Hc Hclose Hunknown)
    as (Hprev & _ & Hline_h).
  destruct (Hh self l s c {| x := x (p c); y := py |} Hl Hc Hclose Hunknown)
    as (_ & _ & Hline_v).
  assert (Hhoriz : le_path_line_horiz_to self px err
                   = Ok (with_subpaths self
                           (l ++ [ {| commands := commands s
                                        ++ [command1 eLineTo {| x := px; y := y (p c) |}] |} ]),
                         err)).
  { unfold le_path_line_horiz_to, io_bind at 1 2, io_lift at 1. rewrite Hlast, Hprev.
    unfold io_lift. rewrite Hline_h. reflexivity. }
  split; [exact Hhoriz|]. split.
  { unfold le_path_line_vert_to, io_bind at 1 2, io_lift at 1. rewrite Hlast, Hprev.
    unfold io_lift. rewrite Hline_v. reflexivity. }
  intros self1 H1. rewrite Hhoriz in H1. apply Ok_inj in H1. injection H1 as <-.
  set (c1 := command1 eLineTo {| x := px; y := y (p c) |}).
  set (s1 := {| commands := commands s ++ [c1] |}).
  set (self1 := with_subpaths self (l ++ [s1])).
  assert (Hc1 : back (commands s1) = Some c1) by apply (back_emplace_back (commands s) c1).
  destruct (Hh self1 l s1 c1 {| x := x (p c1); y := py |} eq_refl Hc1
               ltac:(discriminate) ltac:(discriminate))
    as (Hprev1 & Hlast1 & Hline1).
  eexists. split.
  - unfold le_path_line_vert_to, io_bind at 1 2, io_lift at 1. rewrite Hlast1, Hprev1.
    unfold io_lift. rewrite Hline1. reflexivity.
  - apply (last_command_spec _ {| commands := commands s1
                                     ++ [command1 eLineTo {| x := x (p c1); y := py |}] |}).
    + apply (back_emplace_back l).
    + apply (back_emplace_back (commands s1)).
Qed.

(** After "M 1,2" in binary32: a horizontal line to 5, then a vertical line
    to 7, ends at (5, 7). *)
Lemma X4_witness :
  exists self1 self2 : le_path_o spec_float spec_float,
    le_path_line_horiz_to (le_path_move_to le_path_create (IEEE.vertex 1 2))
                          (IEEE.of_Z 5) [] = Ok (self1, [])
    /\ le_path_line_vert_to self1 (IEEE.of_Z 7) [] = Ok (self2, [])
    /\ last_command self2 = Ok (command1 eLineTo (IEEE.vertex 5 7)).
Proof.
  set (self := le_path_move_to le_path_create (IEEE.vertex 1 2)).
  destruct (X4_horizontal_and_vertical_lines _ _ IEEE.arith self
              {| commands := [command1 eMoveTo (IEEE.vertex 1 2)] |}
              (command1 eMoveTo (IEEE.vertex 1 2)) (IEEE.of_Z 5) (IEEE.of_Z 7) []
              eq_refl eq_refl ltac:(discriminate) ltac:(discriminate))
    as (l & _ & Hh & _ & Hcomp).
  destruct (Hcomp _ Hh) as (self2 & Hv & Hlast).
  eexists. exists self2. split; [exact Hh|]. split; [exact Hv|exact Hlast].
Defined.

(** ** What the builder and the scanner keep *)

Section KeepsFacts.
Context {F D : Type} {A : Arith F D}.

Lemma keeps_refl (self : le_path_o F D) : keeps self self.
Proof. unfold keeps. repeat split; auto. Qed.

Lemma keeps_trans (self1 self2 self3 : le_path_o F D) :
  keeps self1 self2 -> keeps self2 self3 -> keeps self1 self3.
Proof.
  intros (P1 & I1 & L1 & C1) (P2 & I2 & L2 & C2). unfold keeps.
  split; [congruence|]. split; [congruence|]. split; [lia|].
  intros i j c H. apply C2, C1, H.
Qed.

Lemma command_at_app (l l' : list (SubPath F)) (i j : nat) (c : PathCommand F) :
  command_at l i j = Some c -> command_at (l ++ l') i j = Some c.
Proof.
  unfold command_at. destruct (nth_error l i) as [s|] eqn:E; [|discriminate].
  rewrite nth_error_app1 by (apply nth_error_Some; congruence).
  rewrite E. auto.
Qed.

Lemma command_at_push (l : list (SubPath F)) (s : SubPath F) (c0 : PathCommand F)
      (i j : nat) (c : PathCommand F) :
  command_at (l ++ [s]) i j = Some c ->
  command_at (l ++ [ {| commands := emplace_back (commands s) c0 |} ]) i j = Some c.
Proof.
  unfold command_at. destruct (Nat.lt_ge_cases i (length l)) as [Hlt|Hge].
  - rewrite !nth_error_app1 by exact Hlt. auto.
  - rewrite !nth_error_app2 by exact Hge.
    destruct (i - length l)%nat as [|k]; cbn [nth_error].
    + cbn [commands]. unfold emplace_back. intros H.
      rewrite nth_error_app1 by (apply nth_error_Some; congruence). exact H.
    + destruct k; discriminate.
Qed.

Lemma push_command_inv (l l' : list (SubPath F)) (c : PathCommand F) :
  push_command l c = Some l' ->
  exists l0 s, l = l0 ++ [s]
               /\ l' = l0 ++ [ {| commands := emplace_back (commands s) c |} ].
Proof.
  destruct l as [|s0 l1] using rev_ind; [discriminate|].
  rewrite push_command_snoc. intros H. injection H as <-.
  exists l1, s0. split; reflexivity.
Qed.

Lemma keeps_push (self : le_path_o F D) (l' : list (SubPath F)) (c : PathCommand F) :
  push_command (subpaths self) c = Some l' -> keeps self (with_subpaths self l').
Proof.
  intros H. destruct (push_command_inv _ _ _ H) as (l0 & s & Hl & ->).
  unfold keeps, with_subpaths. cbn [polylines sample_interval subpaths].
  split; [reflexivity|]. split; [reflexivity|]. rewrite Hl. split.
  - rewrite !length_app. cbn [length]. lia.
  - intros i j c1. apply command_at_push.
Qed.

Lemma keeps_move_to (self : le_path_o F D) (q : Vertex F) :
  keeps self (le_path_move_to self q).
Proof.
  unfold keeps, le_path_move_to, with_subpaths, emplace_back.
  cbn [polylines sample_interval subpaths].
  split; [reflexivity|]. split; [reflexivity|]. split.
  - rewrite length_app. lia.
  - intros i j c. apply command_at_app.
Qed.

Lemma keeps_append_checked (self self' : le_path_o F D) (c : PathCommand F) :
  append_checked self c = Ok self' -> keeps self self'.
Proof.
  unfold append_checked. destruct (assert _); [|discriminate]. cbn [bind].
  destruct (push_command (subpaths self) c) as [l'|] eqn:E; [|discriminate].
  intros H. apply Ok_inj in H. subst self'. apply (keeps_push _ _ _ E).
Qed.

Lemma keeps_close_path (self self' : le_path_o F D) :
  le_path_close_path self = Ok self' -> keeps self self'.
Proof.
  unfold le_path_close_path.
  destruct (push_command (subpaths self) _) as [l'|] eqn:E; [|discriminate].
  intros H. apply Ok_inj in H. subst self'. apply (keeps_push _ _ _ E).
Qed.
End KeepsFacts.

Section ScannerInvariant.
Context {F D : Type} {A : Arith F D}.
Variable strtof : string -> F * nat.
Variable Inv : le_path_o F D -> Stderr -> Prop.

(** What the scanner can do to a path. *)
Hypothesis Inv_move_to :
  forall self q err, Inv self err -> Inv (le_path_move_to self q) err.
Hypothesis Inv_append :
  forall self c self' err,
    Inv self err -> append_checked self c = Ok self' -> Inv self' err.
Hypothesis Inv_close :
  forall self self' err,
    Inv self err -> le_path_close_path self = Ok self' -> Inv self' err.
Hypothesis Inv_warning :
  forall self err, Inv self err -> Inv self (err ++ [warning_relative]).

Lemma line_horiz_to_invariant (self self' : le_path_o F D) (px : F) (err err' : Stderr) :
  Inv self err -> le_path_line_horiz_to self px err = Ok (self', err') ->
  Inv self' err'.
Proof.
  intros Hi. unfold le_path_line_horiz_to, le_path_get_previous_p, io_bind, io_lift,
    io_ret, fprintf_stderr.
  destruct (last_command self) as [c|]; [|discriminate].
  destruct (type c);
    try (intros H; apply Ok_inj in H; injection H as <- <-; apply Inv_warning; exact Hi);
    (destruct (le_path_line_to self _) as [q|] eqn:E; [|discriminate];
     intros H; apply Ok_inj in H; injection H as <- <-;
     exact (Inv_append _ _ _ _ Hi E)).
Qed.

Lemma line_vert_to_invariant (self self' : le_path_o F D) (py : F) (err err' : Stderr) :
  Inv self err -> le_path_line_vert_to self py err = Ok (self', err') ->
  Inv self' err'.
Proof.
  intros Hi. unfold le_path_line_vert_to, le_path_get_previous_p, io_bind, io_lift,
    io_ret, fprintf_stderr.
  destruct (last_command self) as [c|]; [|discriminate].
  destruct (type c);
    try (intros H; apply Ok_inj in H; injection H as <- <-; apply Inv_warning; exact Hi);
    (destruct (le_path_line_to self _) as [q|] eqn:E; [|discriminate];
     intros H; apply Ok_inj in H; injection H as <- <-;
     exact (Inv_append _ _ _ _ Hi E)).
Qed.

Lemma svg_loop_invariant (fuel : nat) :
  forall (self self' : le_path_o F D) (c : string) (p0 p1 p2 : Vertex F)
         (err err' : Stderr),
    Inv self err ->
    svg_loop strtof fuel self c p0 p1 p2 err = Ok (self', err') ->
    Inv self' err'.
Proof.
  induction fuel as [|fuel IH]; intros self self' c p0 p1 p2 err err' Hi.
  - intros H. apply Ok_inj in H. injection H as <- <-. exact Hi.
  - cbn [svg_loop]. destruct (at_end c).
    { intros H. apply Ok_inj in H. injection H as <- <-. exact Hi. }
    destruct (is_m_instruction strtof c 0 p0) as [[ok offset] q0].
    destruct ok; [apply IH; apply Inv_move_to; exact Hi|].
    destruct (is_l_instruction strtof c 0 q0) as [[ok1 offset1] q1].
    destruct ok1.
    { unfold io_bind, io_lift.
      destruct (le_path_line_to self q1) as [self1|] eqn:E; [|discriminate].
      apply IH. exact (Inv_append _ _ _ _ Hi E). }
    destruct (is_h_instruction strtof c 0 (x q1)) as [[ok2 offset2] fx].
    destruct ok2.
    { unfold io_bind.
      destruct (le_path_line_horiz_to self _ err) as [[self1 err1]|] eqn:E;
        [|discriminate].
      apply IH. exact (line_horiz_to_invariant _ _ _ _ _ Hi E). }
    destruct (is_v_instruction strtof c 0 _) as [[ok3 offset3] fy].
    destruct ok3.
    { unfold io_bind.
      destruct (le_path_line_vert_to self _ err) as [[self1 err1]|] eqn:E;
        [|discriminate].
      apply IH. exact (line_vert_to_invariant _ _ _ _ _ Hi E). }
    destruct (is_c_instruction strtof c 0 _ p1 p2) as [[ok4 offset4] [[r0 r1] r2]].
    destruct ok4.
    { unfold io_bind, io_lift.
      destruct (le_path_cubic_bezier_to self r2 r0 r1) as [self1|] eqn:E;
        [|discriminate].
      apply IH. exact (Inv_append _ _ _ _ Hi E). }
    destruct (is_q_instruction strtof c 0 r0 r1) as [[ok5 offset5] [s0 s1]].
    destruct ok5.
    { unfold io_bind, io_lift.
      destruct (le_path_quad_bezier_to self s1 s0) as [self1|] eqn:E;
        [|discriminate].
      apply IH. exact (Inv_append _ _ _ _ Hi E). }
    destruct (is_character_match "Z" c 0) as [ok6 offset6].
    destruct ok6.
    { unfold io_bind, io_lift.
      destruct (le_path_close_path self) as [self1|] eqn:E; [|discriminate].
      apply IH. exact (Inv_close _ _ _ Hi E). }
    apply IH. exact Hi.
Qed.
End ScannerInvariant.

Lemma add_from_simplified_svg_keeps (F D : Type) (A : Arith F D)
      (strtof : string -> F * nat) (self self' : le_path_o F D) (svg : string)
      (err err' : Stderr) :
  le_path_add_from_simplified_svg strtof self svg err = Ok (self', err') ->
  keeps self self' /\ exists lines, err' = err ++ lines.
Proof.
  unfold le_path_add_from_simplified_svg.
  apply (svg_loop_invariant strtof
           (fun s e => keeps self s /\ exists lines, e = err ++ lines)).
  - intros s q e [Hk He]. split; [|exact He].
    exact (keeps_trans _ _ _ Hk (keeps_move_to s q)).
  - intros s c s' e [Hk He] H. split; [|exact He].
    exact (keeps_trans _ _ _ Hk (keeps_append_checked _ _ _ H)).
  - intros s s' e [Hk He] H. split; [|exact He].
    exact (keeps_trans _ _ _ Hk (keeps_close_path _ _ H)).
  - intros s e [Hk [lines ->]]. split; [exact Hk|].
    exists (lines ++ [warning_relative]). rewrite app_assoc. reflexivity.
  - split; [apply keeps_refl|]. exists []. rewrite app_nil_r. reflexivity.
Qed.

(** X1.  Whatever the arithmetic and whatever [strtof] returns, the
    builder only adds: [le_path_move_to], the appending functions,
    [le_path_close_path] and [le_path_add_from_simplified_svg] leave the
    polylines and the sample interval as they were, remove no sub-path and
    leave every command at its place; the scanner only adds lines to the
    error stream. *)
Theorem X1_builder_only_adds :
  forall (F D : Type) (A : Arith F D) (strtof : string -> F * nat)
         (self self' : le_path_o F D),
    (forall q, keeps self (le_path_move_to self q))
    /\ (forall q, le_path_line_to self q = Ok self' -> keeps self self')
    /\ (forall q c, le_path_quad_bezier_to self q c = Ok self' -> keeps self self')
    /\ (forall q c c', le_path_cubic_bezier_to self q c c' = Ok self' -> keeps self self')
    /\ (le_path_close_path self = Ok self' -> keeps self self')
    /\ (forall svg err err',
           le_path_add_from_simplified_svg strtof self svg err = Ok (self', err') ->
           keeps self self' /\ exists lines, err' = err ++ lines).
Proof.
  intros F D A strtof self self'.
  split; [intros q; apply keeps_move_to|].
  split; [intros q; apply keeps_append_checked|].
  split; [intros q c; apply keeps_append_checked|].
  split; [intros q c c'; apply keeps_append_checked|].
  split; [apply keeps_close_path|].
  intros svg err err'. apply add_from_simplified_svg_keeps.
Qed.

(** A path with one point, then "L 5,5 H 7" scanned in binary32. *)
Lemma X1_witness :
  exists (self' : le_path_o spec_float spec_float) (err' : Stderr),
    le_path_add_from_simplified_svg IEEE.strtof
      (le_path_move_to le_path_create (IEEE.vertex 1 2)) "L 5,5 H 7" [] = Ok (self', err')
    /\ keeps (le_path_move_to le_path_create (IEEE.vertex 1 2)) self'.
Proof.
  set (self := le_path_move_to le_path_create (IEEE.vertex 1 2)).
  set (r := match le_path_add_from_simplified_svg IEEE.strtof self "L 5,5 H 7" [] with
            | Ok st => st
            | Err _ => (self, [])
            end).
  assert (Hrun : le_path_add_from_simplified_svg IEEE.strtof self "L 5,5 H 7" []
                 = Ok (fst r, snd r))
    by (vm_compute; reflexivity).
  exists (fst r), (snd r). split; [exact Hrun|].
  exact (proj1 (proj2 (proj2 (proj2 (proj2 (proj2
           (X1_builder_only_adds _ _ IEEE.arith IEEE.strtof self (fst r))))))
           "L 5,5 H 7"%string [] (snd r) Hrun)).
Defined.

(** ** Strings without instructions *)

Section ScannerLetters.
Context {F D : Type} {A : Arith F D}.
Variable strtof : string -> F * nat.

Lemma is_character_match_other (needle a : ascii) (c : string) (offset : nat) :
  Ascii.eqb a needle = false ->
  is_character_match needle (String a c) offset = (false, offset).
Proof.
  intros H. unfold is_character_match. destruct (Ascii.eqb a zero); [reflexivity|].
  rewrite H. reflexivity.
Qed.

Lemma is_point_instruction_other (letter a : ascii) (c : string) (p0 : Vertex F) :
  Ascii.eqb a letter = false ->
  is_point_instruction strtof letter (String a c) 0 p0 = (false, 0%nat, p0).
Proof.
  intros H. unfold is_point_instruction. destruct (at_end _); [reflexivity|].
  rewrite (is_character_match_other _ _ _ _ H). reflexivity.
Qed.

Lemma is_scalar_instruction_other (letter a : ascii) (c : string) (f : F) :
  Ascii.eqb a letter = false ->
  is_scalar_instruction strtof letter (String a c) 0 f = (false, 0%nat, f).
Proof.
  intros H. unfold is_scalar_instruction. destruct (at_end _); [reflexivity|].
  rewrite (is_character_match_other _ _ _ _ H). reflexivity.
Qed.

Lemma is_c_instruction_other (a : ascii) (c : string) (p0 p1 p2 : Vertex F) :
  Ascii.eqb a "C" = false ->
  is_c_instruction strtof (String a c) 0 p0 p1 p2 = (false, 0%nat, (p0, p1, p2)).
Proof.
  intros H. unfold is_c_instruction. destruct (at_end _); [reflexivity|].
  rewrite (is_character_match_other _ _ _ _ H). reflexivity.
Qed.

Lemma is_q_instruction_other (a : ascii) (c : string) (p0 p1 : Vertex F) :
  Ascii.eqb a "Q" = false ->
  is_q_instruction strtof (String a c) 0 p0 p1 = (false, 0%nat, (p0, p1)).
Proof.
  intros H. unfold is_q_instruction. destruct (at_end _); [reflexivity|].
  rewrite (is_character_match_other _ _ _ _ H). reflexivity.
Qed.

Lemma mentions_advance (letters : list ascii) (n : nat) (c : string) :
  mentions letters c = false -> mentions letters (advance n c) = false.
Proof.
  revert c. induction n as [|n IH]; intros c H; [destruct c; exact H|].
  destruct c as [|a c]; [exact H|]. cbn [advance]. apply IH.
  cbn [mentions] in H. apply orb_false_elim in H. exact (proj2 H).
Qed.

(** Where no instruction letter occurs, every turn of the loop skips one
    character. *)
Lemma svg_loop_no_letters (fuel : nat) :
  forall (self : le_path_o F D) (c : string) (p0 p1 p2 : Vertex F) (err : Stderr),
    mentions instruction_letters c = false ->
    svg_loop strtof fuel self c p0 p1 p2 err = Ok (self, err).
Proof.
  induction fuel as [|fuel IH]; intros self c p0 p1 p2 err Hc; [reflexivity|].
  cbn [svg_loop]. destruct (at_end c) eqn:Eend; [reflexivity|].
  destruct c as [|a c]; [discriminate Eend|].
  pose proof (mentions_advance instruction_letters 1 _ Hc) as Hc'.
  cbn [mentions] in Hc. apply orb_false_elim in Hc. destruct Hc as [He _].
  cbn [instruction_letters existsb] in He.
  repeat (apply orb_false_elim in He; destruct He as [? He]).
  unfold is_m_instruction, is_l_instruction, is_h_instruction, is_v_instruction.
  rewrite is_point_instruction_other by assumption.
  rewrite is_point_instruction_other by assumption.
  rewrite is_scalar_instruction_other by assumption.
  rewrite is_scalar_instruction_other by assumption.
  rewrite is_c_instruction_other by assumption.
  rewrite is_q_instruction_other by assumption.
  rewrite is_character_match_other by assumption.
  destruct p0 as [p0x p0y]. cbn [x y]. apply IH. exact Hc'.
Qed.

(** On a path without sub-paths, every instruction but "M" faults. *)
Lemma svg_loop_without_move (fuel : nat) :
  forall (self self' : le_path_o F D) (c : string) (p0 p1 p2 : Vertex F)
         (err err' : Stderr),
    subpaths self = [] ->
    mentions ["M"%char] c = false ->
    svg_loop strtof fuel self c p0 p1 p2 err = Ok (self', err') ->
    self' = self /\ err' = err.
Proof.
  induction fuel as [|fuel IH]; intros self self' c p0 p1 p2 err err' Hs Hc.
  - intros H. apply Ok_inj in H. injection H as <- <-. split; reflexivity.
  - cbn [svg_loop]. destruct (at_end c) eqn:Eend.
    { intros H. apply Ok_inj in H. injection H as <- <-. split; reflexivity. }
    destruct c as [|a c]; [discriminate Eend|].
    pose proof (mentions_advance ["M"%char] 1 _ Hc) as Hc'.
    cbn [mentions existsb] in Hc.
    apply orb_false_elim in Hc. destruct Hc as [Hc _].
    apply orb_false_elim in Hc. destruct Hc as [Hm _].
    unfold is_m_instruction. rewrite is_point_instruction_other by exact Hm.
    assert (Hlast : last_command self = Err AssertionFailed)
      by (unfold last_command; rewrite Hs; reflexivity).
    assert (Happ : forall cmd, append_checked self cmd = Err AssertionFailed)
      by (intros cmd; unfold append_checked; rewrite Hs; reflexivity).
    destruct (is_l_instruction strtof _ 0 p0) as [[ok1 offset1] q1].
    destruct ok1.
    { unfold io_bind, io_lift, le_path_line_to. rewrite Happ. discriminate. }
    destruct (is_h_instruction strtof _ 0 (x q1)) as [[ok2 offset2] fx].
    destruct ok2.
    { unfold io_bind, le_path_line_horiz_to, io_bind, io_lift. rewrite Hlast.
      discriminate. }
    destruct (is_v_instruction strtof _ 0 _) as [[ok3 offset3] fy].
    destruct ok3.
    { unfold io_bind, le_path_line_vert_to, io_bind, io_lift. rewrite Hlast.
      discriminate. }
    destruct (is_c_instruction strtof _ 0 _ p1 p2) as [[ok4 offset4] [[r0 r1] r2]].
    destruct ok4.
    { unfold io_bind, io_lift, le_path_cubic_bezier_to. rewrite Happ. discriminate. }
    destruct (is_q_instruction strtof _ 0 r0 r1) as [[ok5 offset5] [s0 s1]].
    destruct ok5.
    { unfold io_bind, io_lift, le_path_quad_bezier_to. rewrite Happ. discriminate. }
    destruct (is_character_match "Z" _ 0) as [ok6 offset6].
    destruct ok6.
    { unfold io_bind, io_lift, le_path_close_path. rewrite Hs. discriminate. }
    apply IH; assumption.
Qed.
End ScannerLetters.

(** X3.  Whatever [strtof] returns, a string in which none of the letters
    M, L, H, V, C, Q, Z occurs is skipped character by character:
    [le_path_add_from_simplified_svg] returns the path and the error
    stream as they were.  So it is with the lower-case instructions of
    SVG. *)
Theorem X3_strings_without_instructions :
  forall (F D : Type) (A : Arith F D) (strtof : string -> F * nat)
         (self : le_path_o F D) (svg : string) (err : Stderr),
    mentions instruction_letters svg = false ->
    le_path_add_from_simplified_svg strtof self svg err = Ok (self, err).
Proof.
  intros F D A strtof self svg err H. unfold le_path_add_from_simplified_svg.
  apply svg_loop_no_letters. exact H.
Qed.

(** Relative instructions in lower case are not read. *)
Lemma X3_witness :
  le_path_add_from_simplified_svg IEEE.strtof
    (le_path_create : le_path_o spec_float spec_float) "m 1,2 l 3,4 z" []
  = Ok (le_path_create, []).
Proof.
  apply (X3_strings_without_instructions _ _ IEEE.arith IEEE.strtof).
  vm_compute. reflexivity.
Defined.

(** X2.  Whatever [strtof] returns, on a path without sub-paths a string
    in which no "M" occurs adds nothing: every other instruction that is
    read faults ([assert] for L, H, V, C and Q, undefined behaviour for Z),
    so when [le_path_add_from_simplified_svg] returns, the path and the
    error stream are as they were. *)
Theorem X2_nothing_is_drawn_before_a_move :
  forall (F D : Type) (A : Arith F D) (strtof : string -> F * nat)
         (self self' : le_path_o F D) (svg : string) (err err' : Stderr),
    subpaths self = [] ->
    mentions ["M"%char] svg = false ->
    (le_path_add_from_simplified_svg strtof self svg err = Ok (self', err') ->
     self' = self /\ err' = err)
    /\ (forall q c c',
           le_path_line_to self q = Err AssertionFailed
           /\ le_path_quad_bezier_to self q c = Err AssertionFailed
           /\ le_path_cubic_bezier_to self q c c' = Err AssertionFailed
           /\ le_path_close_path self = Err UndefinedBehaviour).
Proof.
  intros F D A strtof self self' svg err err' Hs Hm. split.
  - unfold le_path_add_from_simplified_svg. apply svg_loop_without_move; assumption.
  - intros q c c'.
    unfold le_path_line_to, le_path_quad_bezier_to, le_path_cubic_bezier_to,
      append_checked, le_path_close_path.
    rewrite Hs. repeat split.
Qed.

(** The lower-case string adds nothing; without a sub-path a line stops at
    the [assert] and a closure is undefined. *)
Lemma X2_witness :
  le_path_add_from_simplified_svg IEEE.strtof
    (le_path_create : le_path_o spec_float spec_float) "l 1,2" []
  = Ok (le_path_create, [])
  /\ le_path_line_to (le_path_create : le_path_o spec_float spec_float)
                     (IEEE.vertex 1 2) = Err AssertionFailed
  /\ le_path_close_path (le_path_create : le_path_o spec_float spec_float)
     = Err UndefinedBehaviour.
Proof.
  destruct (X2_nothing_is_drawn_before_a_move _ _ IEEE.arith IEEE.strtof
              le_path_create le_path_create "l 1,2" [] [] eq_refl eq_refl)
    as (_ & Hops).
  destruct (Hops (IEEE.vertex 1 2) vzero vzero) as (Hl & _ & _ & Hz).
  split; [vm_compute; reflexivity|]. split; [exact Hl|exact Hz].
Defined.

(** ** The polylines of the paths made through the interface *)

Section StartsFacts.
Context {F D : Type} {A : Arith F D}.

Lemma Forall2_nth_error (B C : Type) (R : B -> C -> Prop) (l : list B) (l' : list C) :
  Forall2 R l l' ->
  forall i c, nth_error l' i = Some c -> exists b, nth_error l i = Some b /\ R b c.
Proof.
  induction 1 as [|b c l l' Hbc _ IH]; intros i c0 Hi.
  - destruct i; discriminate.
  - destruct i as [|i]; cbn [nth_error] in *.
    + injection Hi as <-. exists b. split; [reflexivity|exact Hbc].
    + apply IH. exact Hi.
Qed.

Lemma starts_at_moves_keeps (self self' : le_path_o F D) :
  keeps self self' -> starts_at_moves self -> starts_at_moves self'.
Proof.
  intros (Hp & _ & _ & Hc) Hs i pl Hi. rewrite Hp in Hi.
  destruct (Hs i pl Hi) as (m & vs & Hm & Hv).
  exists m, vs. split; [apply Hc; exact Hm|exact Hv].
Qed.

Lemma starts_at_moves_trace (self self' : le_path_o F D) :
  wf_path self = true -> le_path_trace_path self = Ok self' -> starts_at_moves self'.
Proof.
  intros Hwf. unfold le_path_trace_path.
  destruct (mapM _ _) as [pls|] eqn:Erun; [|discriminate].
  cbn [bind]. intros H. apply Ok_inj in H. subst self'.
  intros i pl Hi. cbn [polylines subpaths] in *.
  apply mapM_Forall2 in Erun.
  destruct (Forall2_nth_error _ _ _ _ _ Erun i pl Hi) as (s & Hs & Hrun).
  unfold wf_path in Hwf. rewrite forallb_forall in Hwf.
  destruct (wf_subpath_inv s (Hwf s (nth_error_In _ _ Hs))) as (m & rest & Hcs & Hm & _).
  apply trace_subpath_commands in Hrun. rewrite Hcs in Hrun.
  pose proof (trace_commands_front _ m rest pl Hm Hrun) as Hfront.
  unfold command_at. rewrite Hs, Hcs. exists m.
  destruct (vertices pl) as [|v vs]; [discriminate Hfront|].
  injection Hfront as ->. exists vs. split; reflexivity.
Qed.

Lemma starts_at_moves_resample (self self' : le_path_o F D) (interval : F) :
  wf_path self = true -> le_path_resample self interval = Ok self' ->
  starts_at_moves self'.
Proof.
  intros Hwf. unfold le_path_resample.
  destruct (mapM _ _) as [pls|] eqn:Erun; [|discriminate].
  cbn [bind]. intros H. apply Ok_inj in H. subst self'.
  intros i pl Hi. cbn [polylines subpaths] in *.
  apply mapM_Forall2 in Erun.
  destruct (Forall2_nth_error _ _ _ _ _ Erun i pl Hi) as (s & Hs & Hrun).
  unfold wf_path in Hwf. rewrite forallb_forall in Hwf.
  destruct (wf_subpath_inv s (Hwf s (nth_error_In _ _ Hs))) as (m & rest & Hcs & Hm & _).
  destruct (resample_subpath_commands _ _ _ _ Hrun) as (sum & Hfold).
  rewrite Hcs in Hfold.
  pose proof (resample_commands_front _ _ m rest pl sum Hm Hfold) as Hfront.
  unfold command_at. rewrite Hs, Hcs. exists m.
  destruct (vertices pl) as [|v vs]; [discriminate Hfront|].
  injection Hfront as ->. exists vs. split; reflexivity.
Qed.

Lemma polylines_keeps (self self' : le_path_o F D) :
  keeps self self' ->
  (length (polylines self) <= length (subpaths self))%nat ->
  (length (polylines self') <= length (subpaths self'))%nat.
Proof. intros (Hp & _ & Hl & _) H. rewrite Hp. lia. Qed.
End StartsFacts.

(** X6.  For every path made through the interface, at any moment: there
    are never more polylines than sub-paths;
    [le_path_get_vertices_for_polyline] stops at its [assert] for an index
    that is not below [le_path_get_num_polylines], and for an index below
    it returns at least one vertex, the first of which is the point of the
    first command of the sub-path with that index, together with the
    count of the vertices it returns. *)
Theorem X6_polylines_start_at_their_move :
  forall (F D : Type) (A : Arith F D) (strtof : string -> F * nat)
         (self : le_path_o F D) (i : nat),
    built strtof self ->
    (le_path_get_num_polylines self <= length (subpaths self))%nat
    /\ ((le_path_get_num_polylines self <= i)%nat ->
        le_path_get_vertices_for_polyline self i = Err AssertionFailed)
    /\ ((i < le_path_get_num_polylines self)%nat ->
        exists m vs,
          command_at (subpaths self) i 0 = Some m
          /\ le_path_get_vertices_for_polyline self i = Ok (p m :: vs, S (length vs))).
Proof.
  intros F D A strtof self i Hb.
  assert (Hinv : (length (polylines self) <= length (subpaths self))%nat
                 /\ starts_at_moves self).
  { induction Hb as [ | self Hb _ | self q Hb IH | self q self' Hb IH E
                      | self q c self' Hb IH E | self q c c' self' Hb IH E
                      | self self' Hb IH E | self svg err self' err' Hb IH E
                      | self self' Hb IH E | self interval self' Hb IH E ].
    - split; [apply Nat.le_refl|]. intros k pl Hk. destruct k; discriminate Hk.
    - split; [apply Nat.le_0_l|]. intros k pl Hk. destruct k; discriminate Hk.
    - pose proof (keeps_move_to self q) as Hk. destruct IH as [IH1 IH2].
      split; [exact (polylines_keeps _ _ Hk IH1)|exact (starts_at_moves_keeps _ _ Hk IH2)].
    - pose proof (keeps_append_checked _ _ _ E) as Hk. destruct IH as [IH1 IH2].
      split; [exact (polylines_keeps _ _ Hk IH1)|exact (starts_at_moves_keeps _ _ Hk IH2)].
    - pose proof (keeps_append_checked _ _ _ E) as Hk. destruct IH as [IH1 IH2].
      split; [exact (polylines_keeps _ _ Hk IH1)|exact (starts_at_moves_keeps _ _ Hk IH2)].
    - pose proof (keeps_append_checked _ _ _ E) as Hk. destruct IH as [IH1 IH2].
      split; [exact (polylines_keeps _ _ Hk IH1)|exact (starts_at_moves_keeps _ _ Hk IH2)].
    - pose proof (keeps_close_path _ _ E) as Hk. destruct IH as [IH1 IH2].
      split; [exact (polylines_keeps _ _ Hk IH1)|exact (starts_at_moves_keeps _ _ Hk IH2)].
    - destruct (add_from_simplified_svg_keeps _ _ _ _ _ _ _ _ _ E) as [Hk _].
      destruct IH as [IH1 IH2].
      split; [exact (polylines_keeps _ _ Hk IH1)|exact (starts_at_moves_keeps _ _ Hk IH2)].
    - pose proof (built_wf strtof self Hb) as Hwf. split.
      + unfold le_path_trace_path in E.
        destruct (mapM _ _) as [pls|] eqn:Erun; [|discriminate].
        cbn [bind] in E. apply Ok_inj in E. subst self'. cbn [polylines subpaths].
        apply mapM_Forall2 in Erun. rewrite (Forall2_length Erun). apply Nat.le_refl.
      + exact (starts_at_moves_trace _ _ Hwf E).
    - pose proof (built_wf strtof self Hb) as Hwf. split.
      + unfold le_path_resample in E.
        destruct (mapM _ _) as [pls|] eqn:Erun; [|discriminate].
        cbn [bind] in E. apply Ok_inj in E. subst self'. cbn [polylines subpaths].
        apply mapM_Forall2 in Erun. rewrite (Forall2_length Erun). apply Nat.le_refl.
      + exact (starts_at_moves_resample _ _ _ Hwf E). }
  destruct Hinv as [Hlen Hstart].
  unfold le_path_get_num_polylines, le_path_get_vertices_for_polyline.
  split; [exact Hlen|]. split.
  - intros Hi. apply Nat.ltb_ge in Hi. rewrite Hi. reflexivity.
  - intros Hi. pose proof Hi as Hi'. apply Nat.ltb_lt in Hi'. rewrite Hi'. cbn [assert bind].
    destruct (nth_error (polylines self) i) as [pl|] eqn:En.
    + destruct (Hstart i pl En) as (m & vs & Hm & Hv).
      exists m, vs. split; [exact Hm|]. rewrite Hv. reflexivity.
    + apply nth_error_None in En. lia.
Qed.

(** A line from (1, 2) to (4, 6), traced in binary32: the polyline with
    index 0 starts at (1, 2) and there is no polyline with index 1. *)
Lemma X6_witness :
  exists (self : le_path_o spec_float spec_float) (vs : list (Vertex spec_float)),
    built IEEE.strtof self
    /\ le_path_get_vertices_for_polyline self 0 = Ok (IEEE.vertex 1 2 :: vs, S (length vs))
    /\ le_path_get_vertices_for_polyline self 1 = Err AssertionFailed.
Proof.
  set (self0 := le_path_move_to le_path_create (IEEE.vertex 1 2)
                : le_path_o spec_float spec_float).
  set (self1 := match le_path_line_to self0 (IEEE.vertex 4 6) with
                | Ok s => s
                | Err _ => self0
                end).
  set (self2 := match le_path_trace_path self1 with
                | Ok s => s
                | Err _ => self1
                end).
  assert (Hb : built IEEE.strtof self2).
  { apply (@built_trace _ _ _ IEEE.strtof self1 self2);
      [|vm_compute; reflexivity].
    apply (@built_line_to _ _ _ IEEE.strtof self0 (IEEE.vertex 4 6) self1);
      [|vm_compute; reflexivity].
    apply built_move_to. apply built_create. }
  destruct (X6_polylines_start_at_their_move _ _ IEEE.arith IEEE.strtof self2 0 Hb)
    as (_ & _ & H0).
  destruct (X6_polylines_start_at_their_move _ _ IEEE.arith IEEE.strtof self2 1 Hb)
    as (_ & H1 & _).
  destruct (H0 ltac:(vm_compute; lia)) as (m & vs & Hm & Hget).
  assert (Hp : p m = IEEE.vertex 1 2).
  { vm_compute in Hm. injection Hm as <-. reflexivity. }
  exists self2, vs. split; [exact Hb|]. split.
  - rewrite <- Hp. exact Hget.
  - apply H1. vm_compute. lia.
Defined.

(** ** Resampling with an interval of zero *)

Module ZeroInterval.
Import IEEE.

Lemma trunc_floor_div (a z : spec_float) :
  zero_or_nan z = true -> trunc (floor (SFdiv prec32 emax32 a z)) = None.
Proof.
  destruct z as [sz|sz| |sz mz ez]; try discriminate; intros _;
    destruct a as [sa|sa| |sa ma ea]; reflexivity.
Qed.

Lemma to_int_undefined (a z : spec_float) :
  zero_or_nan z = true -> to_int (ffloor (fdiv a z)) = Err UndefinedBehaviour.
Proof.
  intros Hz. unfold to_int.
  change (ftrunc (ffloor (fdiv a z))) with (trunc (floor (SFdiv prec32 emax32 a z))).
  rewrite (trunc_floor_div a z Hz). reflexivity.
Qed.

Lemma to_size_t_undefined (a z : spec_float) :
  zero_or_nan z = true -> to_size_t (ffloor (fdiv a z)) = Err UndefinedBehaviour.
Proof.
  intros Hz. unfold to_size_t.
  change (ftrunc (ffloor (fdiv a z))) with (trunc (floor (SFdiv prec32 emax32 a z))).
  rewrite (trunc_floor_div a z Hz). reflexivity.
Qed.

Lemma resample_line_to_undefined (polyline : Polyline spec_float spec_float)
      (q : Vertex spec_float) (z sum : spec_float) :
  zero_or_nan z = true -> vertices polyline <> [] ->
  resample_line_to polyline q z sum = Err UndefinedBehaviour.
Proof.
  intros Hz Hne. unfold resample_line_to.
  destruct (back (vertices polyline)) as [start|] eqn:E.
  - rewrite (to_int_undefined _ z Hz). reflexivity.
  - apply back_None in E. contradiction.
Qed.

Lemma resample_curve_undefined
      (point : Vertex spec_float -> spec_float -> nat -> Vertex spec_float)
      (polyline : Polyline spec_float spec_float) (resolution : nat)
      (z sum : spec_float) :
  zero_or_nan z = true -> vertices polyline <> [] ->
  resample_curve point polyline resolution z sum = Err UndefinedBehaviour.
Proof.
  intros Hz Hne. unfold resample_curve.
  destruct (back (vertices polyline)) as [p0|] eqn:E.
  - rewrite (to_size_t_undefined _ z Hz). reflexivity.
  - apply back_None in E. contradiction.
Qed.

Lemma resample_command_undefined (polyline : Polyline spec_float spec_float)
      (z sum : spec_float) (c : PathCommand spec_float) :
  zero_or_nan z = true -> vertices polyline <> [] -> is_drawing c = true ->
  resample_command resample_resolution z (polyline, sum) c = Err UndefinedBehaviour.
Proof.
  intros Hz Hne Hc. unfold is_drawing in Hc. unfold resample_command.
  destruct (type c); try discriminate Hc.
  - apply resample_line_to_undefined; assumption.
  - apply resample_curve_undefined; assumption.
  - apply resample_curve_undefined; assumption.
  - unfold resample_close_path.
    destruct (front (vertices polyline)) as [first|] eqn:Ef.
    + rewrite (resample_line_to_undefined polyline first z sum Hz Hne). reflexivity.
    + destruct (vertices polyline); [contradiction|discriminate Ef].
Qed.

(** A sub-path with only its [eMoveTo] is resampled to its one point;
    the first drawing command of any other has no defined behaviour. *)
Lemma resample_subpath_undefined (s : SubPath spec_float) (z : spec_float) :
  zero_or_nan z = true -> wf_subpath s = true ->
  resample_subpath resample_resolution z s
  = if Nat.ltb 1 (length (commands s)) then Err UndefinedBehaviour
    else Ok (with_vertices Polyline_new (map p (commands s))).
Proof.
  intros Hz Hwf. destruct (wf_subpath_inv s Hwf) as (m & rest & Hs & Hm & Hrest).
  unfold resample_subpath, resample_commands. rewrite Hs.
  cbn [foldM]. unfold resample_command at 1. rewrite Hm. cbn [bind].
  unfold resample_move_to. destruct rest as [|c rest].
  - reflexivity.
  - cbn [forallb] in Hrest. apply andb_prop in Hrest. destruct Hrest as [Hc _].
    cbn [foldM]. rewrite (resample_command_undefined _ z _ c Hz); [reflexivity| |exact Hc].
    discriminate.
Qed.

Lemma mapM_undefined (B C : Type) (f : B -> Result C) (g : B -> bool) (l : list B) :
  (forall b, In b l ->
     if g b then f b = Err UndefinedBehaviour else exists c, f b = Ok c) ->
  existsb g l = true -> mapM f l = Err UndefinedBehaviour.
Proof.
  induction l as [|b l IH]; intros Hall Hex; [discriminate Hex|].
  cbn [existsb] in Hex. cbn [mapM].
  pose proof (Hall b (or_introl eq_refl)) as Hb.
  destruct (g b).
  - rewrite Hb. reflexivity.
  - destruct Hb as [c ->]. cbn [bind]. cbn [orb] in Hex.
    rewrite IH; [reflexivity| |exact Hex].
    intros b' Hb'. apply Hall. right. exact Hb'.
Qed.
End ZeroInterval.

(** X16.  In binary32, [le_path_resample] with an interval that is zero
    (of either sign) or NaN has no defined behaviour as soon as a
    sub-path holds a drawing command: the quotient by the interval is an
    infinity or NaN, and its conversion to [int] or [size_t] is
    undefined.  The path need only be well-formed. *)
Theorem X16_resample_with_zero_interval :
  forall (self : le_path_o spec_float spec_float) (interval : spec_float),
    wf_path self = true ->
    existsb (fun s => Nat.ltb 1 (length (commands s))) (subpaths self) = true ->
    zero_or_nan interval = true ->
    le_path_resample self interval = Err UndefinedBehaviour.
Proof.
  intros self interval Hwf Hex Hz. unfold le_path_resample.
  rewrite (ZeroInterval.mapM_undefined _ _
             (resample_subpath resample_resolution interval)
             (fun s => Nat.ltb 1 (length (commands s))) (subpaths self));
    [reflexivity| |exact Hex].
  intros s Hs. unfold wf_path in Hwf. rewrite forallb_forall in Hwf.
  rewrite (ZeroInterval.resample_subpath_undefined s interval Hz (Hwf s Hs)).
  destruct (Nat.ltb 1 (length (commands s))); [reflexivity|].
  eexists. reflexivity.
Qed.

(** The 100-unit segment with interval 0. *)
Lemma X16_witness :
  le_path_resample (Paths.path_of Paths.segment_100) (IEEE.of_Z 0)
  = Err UndefinedBehaviour.
Proof.
  exact (X16_resample_with_zero_interval (Paths.path_of Paths.segment_100)
           (IEEE.of_Z 0) eq_refl eq_refl eq_refl).
Defined.

(** ** The signs of traced distances in binary32 *)

Module Unsigned.
Import Rounding IEEE.

Lemma rounded_sign_clear (prec emax : Z) (m : positive) (e : Z) :
  (0 < prec)%Z -> sign_clear (rounded prec emax m e) = true.
Proof.
  intros Hprec.
  destruct (RoundingFacts.rounded_view_rounded prec emax Hprec m e); reflexivity.
Qed.

Lemma convert_sign_clear (prec emax : Z) (f : spec_float) :
  (0 < prec)%Z -> sign_clear f = true -> sign_clear (convert prec emax f) = true.
Proof.
  intros Hprec. destruct f as [s|s| |s m e]; cbn [convert]; try (intros H; exact H).
  destruct s; [discriminate|]. intros _. cbn [cond_Zopp binary_normalize].
  rewrite (RoundingFacts.binary_round_rounded prec emax Hprec).
  apply rounded_sign_clear. exact Hprec.
Qed.

Lemma nonneg_valid_valid (f : spec_float) :
  nonneg_valid prec32 emax32 f -> valid f = true.
Proof.
  destruct f as [s|s| |s m e]; cbn [nonneg_valid]; try reflexivity.
  intros [_ H]. exact H.
Qed.

(** The sum of a total with a clear sign bit and a value that is not
    negative has a clear sign bit, also when a zero is added to a zero. *)
Lemma SFadd_sign_clear (prec emax : Z) (t d : spec_float) :
  (0 < prec)%Z -> sign_clear t = true ->
  nonneg_valid prec emax t -> nonneg_valid prec emax d ->
  sign_clear (SFadd prec emax t d) = true.
Proof.
  intros Hprec.
  destruct t as [st|st| |st mt et]; destruct d as [sd|sd| |sd md ed];
    cbn [sign_clear nonneg_valid]; intros Hs Ht Hd;
    try (destruct st; [discriminate Hs|]); try reflexivity.
  - destruct sd; reflexivity.
  - subst sd. reflexivity.
  - destruct Hd as [-> _]. reflexivity.
  - subst sd. reflexivity.
  - subst sd. reflexivity.
  - destruct Hd as [-> _]. cbn [SFadd cond_Zopp].
    set (m1 := fst (shl_align mt et _)). set (m2 := fst (shl_align md ed _)).
    change (Zpos m1 + Zpos m2)%Z with (Zpos (m1 + m2)).
    cbn [binary_normalize]. rewrite (RoundingFacts.binary_round_rounded prec emax Hprec).
    apply rounded_sign_clear. exact Hprec.
Qed.

Lemma unsigned32_push (polyline : Polyline spec_float spec_float)
      (vs : list (Vertex spec_float)) (a b : Vertex spec_float) :
  unsigned32 polyline ->
  unsigned32
    {| vertices := vs;
       distances :=
         distances polyline ++
         [float_of_double (dadd (total_distance polyline)
                                (double_of_float (distance a b)))];
       total_distance := dadd (total_distance polyline)
                              (double_of_float (distance a b)) |}.
Proof.
  intros (Hs & Hv & Hall).
  assert (Hd : Rounding.nonneg (distance a b))
    by exact (RoundingFacts.SFsqrt_nonneg prec32 emax32 _).
  pose proof (RoundingFacts.convert_nonneg_valid prec64 emax64 IEEETrace.prec64_pos _ Hd)
    as Hd64.
  destruct (RoundingFacts.SFadd_step prec64 emax64 IEEETrace.prec64_pos _ _ Hv Hd64)
    as [Hv' _].
  pose proof (SFadd_sign_clear prec64 emax64 _ _ IEEETrace.prec64_pos Hs Hv Hd64) as Hs'.
  unfold unsigned32. cbn [distances total_distance].
  change (dadd (total_distance polyline) (double_of_float (distance a b)))
    with (SFadd prec64 emax64 (total_distance polyline)
                (convert prec64 emax64 (distance a b))).
  set (total := SFadd prec64 emax64 _ _) in *.
  change (float_of_double total) with (convert prec32 emax32 total).
  split; [exact Hs'|]. split; [exact Hv'|].
  apply Forall_app. split; [exact Hall|]. constructor; [|constructor].
  split.
  - apply nonneg_valid_valid.
    apply (RoundingFacts.convert_nonneg_valid prec32 emax32 IEEETrace.prec32_pos).
    destruct total as [s|s| |s m e]; cbn [nonneg_valid nonneg] in *; tauto.
  - apply convert_sign_clear; [exact IEEETrace.prec32_pos|exact Hs'].
Qed.
End Unsigned.

(** X10.  In binary32, whatever the coordinates are (infinities and NaN
    included), no distance of a traced polyline is negative: every stored
    distance is a binary32 value with a clear sign bit (a zero is +0), or
    NaN. *)
Theorem X10_traced_distances_are_unsigned :
  forall (self self' : le_path_o spec_float spec_float),
    wf_path self = true ->
    le_path_trace_path self = Ok self' ->
    Forall (fun polyline =>
              Forall (fun d => IEEE.valid d = true /\ sign_clear d = true)
                     (distances polyline))
           (polylines self').
Proof.
  intros self self' Hwf. unfold le_path_trace_path.
  destruct (mapM _ _) as [pls|] eqn:Erun; [|discriminate].
  cbn [bind]. intros H. apply Ok_inj in H. subst self'. cbn [polylines].
  apply Forall_forall. intros pl Hpl.
  destruct (mapM_In _ _ _ _ _ Erun pl Hpl) as (s & Hs & Hrun).
  assert (Hu : unsigned32 pl).
  { apply (trace_subpath_invariant unsigned32) with (resolution := trace_resolution) (s := s);
      [| | | |exact Hrun].
    - intros q. unfold unsigned32, trace_move_to, Polyline_new. cbn.
      split; [reflexivity|]. split; [exact I|].
      constructor; [split; reflexivity|constructor].
    - apply Unsigned.unsigned32_push.
    - intros pl0 vs Hn. exact Hn.
    - unfold wf_path in Hwf. rewrite forallb_forall in Hwf. apply Hwf. exact Hs. }
  exact (proj2 (proj2 Hu)).
Qed.

(** A path of two sub-paths, traced in binary32. *)
Lemma X10_witness :
  exists self' : le_path_o spec_float spec_float,
    le_path_trace_path Paths.two_subpaths = Ok self'
    /\ Forall (fun polyline =>
                 Forall (fun d => IEEE.valid d = true /\ sign_clear d = true)
                        (distances polyline))
              (polylines self').
Proof.
  set (self' := match le_path_trace_path Paths.two_subpaths with
                | Ok traced => traced
                | Err _ => Paths.two_subpaths
                end).
  assert (Hrun : le_path_trace_path Paths.two_subpaths = Ok self')
    by (vm_compute; reflexivity).
  exists self'. split; [exact Hrun|].
  exact (X10_traced_distances_are_unsigned Paths.two_subpaths self' eq_refl Hrun).
Defined.

(** ** A resolution of 1 *)

Section ResolutionOne.
Context {F D : Type} {A : Arith F D}.

Lemma trace_line_to_lengths (polyline : Polyline F D) (q : Vertex F) :
  vertices polyline <> [] ->
  exists polyline',
    trace_line_to polyline q = Ok polyline'
    /\ length (vertices polyline') = S (length (vertices polyline))
    /\ length (distances polyline') = S (length (distances polyline)).
Proof.
  intros Hne. unfold trace_line_to.
  destruct (back (vertices polyline)) as [last|] eqn:E.
  - eexists. split; [reflexivity|]. cbn [vertices distances]. unfold emplace_back.
    rewrite !length_app. cbn [length]. split; lia.
  - apply back_None in E. contradiction.
Qed.

(** With a resolution of 1 every drawing command adds one vertex, and
    every one but the cubic curve adds one distance. *)
Lemma trace_command_one (polyline : Polyline F D) (c : PathCommand F) :
  vertices polyline <> [] -> is_drawing c = true ->
  exists polyline',
    trace_command 1 polyline c = Ok polyline'
    /\ length (vertices polyline') = S (length (vertices polyline))
    /\ length (distances polyline')
       = ((if is_cubic c then 0 else 1) + length (distances polyline))%nat.
Proof.
  intros Hne Hc. unfold is_drawing in Hc. unfold trace_command, is_cubic.
  destruct (type c); try discriminate Hc.
  - apply trace_line_to_lengths. exact Hne.
  - apply trace_line_to_lengths. exact Hne.
  - eexists. split; [reflexivity|]. cbn [vertices distances]. unfold emplace_back.
    rewrite length_app. cbn [length]. split; lia.
  - unfold trace_close_path. destruct (front (vertices polyline)) as [first|] eqn:Ef.
    + apply trace_line_to_lengths. exact Hne.
    + destruct (vertices polyline); [contradiction|discriminate Ef].
Qed.

Lemma trace_commands_one (cs : list (PathCommand F)) :
  forallb is_drawing cs = true ->
  forall polyline : Polyline F D,
    vertices polyline <> [] ->
    exists polyline',
      foldM (trace_command 1) cs polyline = Ok polyline'
      /\ length (vertices polyline') = (length cs + length (vertices polyline))%nat
      /\ (length (distances polyline') + length (filter is_cubic cs)
          = length cs + length (distances polyline))%nat.
Proof.
  induction cs as [|c cs IH]; intros Hcs polyline Hne.
  - exists polyline. split; [reflexivity|]. cbn [length filter]. split; lia.
  - cbn [forallb] in Hcs. apply andb_prop in Hcs. destruct Hcs as [Hc Hcs].
    destruct (trace_command_one polyline c Hne Hc) as (q & Hq & Hv & Hd).
    assert (Hne' : vertices q <> []) by (destruct (vertices q); [discriminate Hv|discriminate]).
    destruct (IH Hcs q Hne') as (q' & Hq' & Hv' & Hd').
    exists q'. cbn [foldM]. rewrite Hq. cbn [bind]. split; [exact Hq'|].
    cbn [length filter]. split; [lia|].
    destruct (is_cubic c); cbn [length]; lia.
Qed.

Lemma filter_existsb (B : Type) (f : B -> bool) (l : list B) :
  existsb f l = negb (Nat.eqb (length (filter f l)) 0).
Proof.
  induction l as [|b l IH]; [reflexivity|].
  cbn [existsb filter]. destruct (f b); [reflexivity|exact IH].
Qed.
End ResolutionOne.

(** X12.  Whatever the arithmetic, with a resolution of 1
    [trace_cubic_bezier_to] adds the end point without a distance, where
    [trace_quad_bezier_to] adds both: replaying a sub-path at resolution 1
    stops at the [assert] on the two sizes exactly when the sub-path holds
    a cubic curve. *)
Theorem X12_cubic_curve_at_resolution_one :
  forall (F D : Type) (A : Arith F D) (s : SubPath F),
    wf_subpath s = true ->
    (existsb is_cubic (commands s) = true ->
     trace_subpath 1 s = Err AssertionFailed)
    /\ (existsb is_cubic (commands s) = false ->
        exists polyline, trace_subpath 1 s = Ok polyline).
Proof.
  intros F D A s Hwf.
  destruct (wf_subpath_inv s Hwf) as (m & rest & Hs & Hm & Hrest).
  destruct (trace_commands_one rest Hrest (trace_move_to Polyline_new (p m))
              ltac:(discriminate)) as (q & Hq & Hv & Hd).
  cbn [trace_move_to Polyline_new vertices distances emplace_back app length] in Hv, Hd.
  assert (Hrun : trace_subpath 1 s
                 = (_ <- assert (Nat.eqb (length (vertices q)) (length (distances q))) ;;
                    Ok q)).
  { unfold trace_subpath. rewrite Hs. cbn [foldM]. unfold trace_command at 1.
    rewrite Hm. cbn [bind]. rewrite Hq. reflexivity. }
  assert (Hex : existsb is_cubic (commands s)
                = negb (Nat.eqb (length (filter is_cubic rest)) 0)).
  { rewrite Hs. cbn [existsb]. unfold is_cubic at 1. rewrite Hm. cbn [orb].
    apply filter_existsb. }
  rewrite Hrun, Hex. split; intros H.
  - apply negb_true_iff, Nat.eqb_neq in H.
    replace (Nat.eqb (length (vertices q)) (length (distances q))) with false;
      [reflexivity|].
    symmetry. apply Nat.eqb_neq. lia.
  - apply negb_false_iff, Nat.eqb_eq in H.
    replace (Nat.eqb (length (vertices q)) (length (distances q))) with true;
      [eexists; reflexivity|].
    symmetry. apply Nat.eqb_eq. lia.
Qed.

(** The second sub-path of [Paths.two_subpaths] holds a cubic curve. *)
Lemma X12_witness :
  trace_subpath 1
    {| commands := [Paths.MoveTo 1 1;
                    {| type := eCubicBezierTo; p := IEEE.vertex 4 1;
                       c1 := IEEE.vertex 2 3; c2 := IEEE.vertex 3 3 |}] |}
  = Err AssertionFailed.
Proof.
  exact (proj1 (X12_cubic_curve_at_resolution_one _ _ IEEE.arith
                  {| commands := [Paths.MoveTo 1 1;
                                  {| type := eCubicBezierTo; p := IEEE.vertex 4 1;
                                     c1 := IEEE.vertex 2 3; c2 := IEEE.vertex 3 3 |}] |}
                  eq_refl) eq_refl).
Defined.

(** ** Polygons with finite coordinates in binary32 *)

Module Numbers.
Import Rounding IEEE.
Local Open Scope Z_scope.

Lemma shr_1_keeps_nonneg (mrs : shr_record) : 0 <= shr_m mrs -> 0 <= shr_m (shr_1 mrs).
Proof.
  destruct mrs as [m r s]. cbn [shr_m]. intros H.
  rewrite (RoundingFacts.shr_1_nonneg m r s H). cbn [shr_m].
  apply Z.div_pos; lia.
Qed.

Lemma shr_keeps_nonneg (mrs : shr_record) (e n : Z) :
  0 <= shr_m mrs -> 0 <= shr_m (fst (shr mrs e n)).
Proof.
  intros H. unfold shr. destruct n as [|p|p]; cbn [fst]; try exact H.
  rewrite RoundingFacts.iter_pos_nat.
  induction (Pos.to_nat p) as [|k IH]; [exact H|].
  rewrite Nat.iter_succ. apply shr_1_keeps_nonneg. exact IH.
Qed.

Lemma shr_fexp_keeps_nonneg (prec emax m e : Z) (l : location) :
  0 <= m -> 0 <= shr_m (fst (shr_fexp prec emax m e l)).
Proof.
  intros H. unfold shr_fexp. apply shr_keeps_nonneg.
  destruct l as [|[| |]]; exact H.
Qed.

Lemma round_nearest_even_nonneg (m : Z) (l : location) :
  0 <= m -> 0 <= round_nearest_even m l.
Proof.
  intros H. unfold round_nearest_even.
  destruct l as [|[| |]]; try lia. destruct (Z.even m); lia.
Qed.

(** Rounding a mantissa that is not negative never gives NaN. *)
Lemma binary_round_aux_number (prec emax : Z) (s : bool) (m e : Z) (l : location) :
  0 <= m -> is_nan (binary_round_aux prec emax s m e l) = false.
Proof.
  intros H. unfold binary_round_aux.
  pose proof (shr_fexp_keeps_nonneg prec emax m e l H) as H1.
  destruct (shr_fexp prec emax m e l) as [mrs' e']. cbn [fst] in H1.
  pose proof (shr_fexp_keeps_nonneg prec emax _ e' loc_Exact
                (round_nearest_even_nonneg _ (loc_of_shr_record mrs') H1)) as H2.
  destruct (shr_fexp prec emax _ e' loc_Exact) as [mrs'' e'']. cbn [fst] in H2.
  destruct (shr_m mrs'') as [|q|q]; [reflexivity| |lia].
  destruct (e'' <=? emax - prec); reflexivity.
Qed.

Lemma binary_normalize_number (prec emax m e : Z) (s : bool) :
  is_nan (binary_normalize prec emax m e s) = false.
Proof.
  unfold binary_normalize, binary_round.
  destruct m as [|q|q]; [reflexivity| |];
    destruct (shl_align q e _) as [mz ez]; apply binary_round_aux_number; lia.
Qed.

Lemma SFsub_number (a b : spec_float) :
  finite a = true -> finite b = true -> is_nan (SFsub prec32 emax32 a b) = false.
Proof.
  destruct a as [sa|sa| |sa ma ea]; destruct b as [sb|sb| |sb mb eb];
    try discriminate; intros _ _; cbn [SFsub].
  - destruct sa, sb; reflexivity.
  - reflexivity.
  - reflexivity.
  - apply binary_normalize_number.
Qed.

Lemma SFmul_self_number (a : spec_float) :
  is_nan a = false ->
  is_nan (SFmul prec32 emax32 a a) = false /\ nonneg (SFmul prec32 emax32 a a).
Proof.
  destruct a as [s|s| |s m e]; try discriminate; intros _; cbn [SFmul].
  - split; [reflexivity|exact I].
  - rewrite xorb_nilpotent. split; reflexivity.
  - rewrite xorb_nilpotent. split.
    + apply binary_round_aux_number. lia.
    + apply RoundingFacts.binary_round_aux_nonneg.
Qed.

Lemma SFadd_number (prec emax : Z) (a b : spec_float) :
  is_nan a = false -> is_nan b = false -> nonneg a -> nonneg b ->
  is_nan (SFadd prec emax a b) = false /\ nonneg (SFadd prec emax a b).
Proof.
  destruct a as [sa|sa| |sa ma ea]; destruct b as [sb|sb| |sb mb eb];
    try discriminate; cbn [nonneg]; intros _ _ Ha Hb; subst; cbn [SFadd];
    try (split; [reflexivity|cbn [nonneg]; trivial]).
  - destruct sa, sb; split; reflexivity || exact I.
  - cbn [cond_Zopp].
    set (m1 := fst (shl_align ma ea _)). set (m2 := fst (shl_align mb eb _)).
    change (Zpos m1 + Zpos m2) with (Zpos (m1 + m2)).
    cbn [binary_normalize]. unfold binary_round.
    destruct (shl_align (m1 + m2) _ _) as [mz ez]. split.
    + apply binary_round_aux_number. lia.
    + apply RoundingFacts.binary_round_aux_nonneg.
Qed.

Lemma SFsqrt_number (a : spec_float) :
  is_nan a = false -> nonneg a -> is_nan (SFsqrt prec32 emax32 a) = false.
Proof.
  destruct a as [s|s| |s m e]; try discriminate; cbn [nonneg]; intros _ Ha;
    subst; cbn [SFsqrt]; try reflexivity.
  unfold SFsqrt_core_binary.
  match goal with |- context [Z.sqrtrem ?n] =>
    pose proof (Z.sqrtrem_sqrt n) as Hq; pose proof (Z.sqrt_nonneg n) as Hn;
    destruct (Z.sqrtrem n) as [q r] end.
  cbn [fst] in Hq. subst q. apply binary_round_aux_number. exact Hn.
Qed.

(** The distance between two points with finite coordinates is not NaN. *)
Lemma distance_number (a b : Vertex spec_float) :
  finite_vertex a = true -> finite_vertex b = true ->
  is_nan (distance a b) = false.
Proof.
  unfold finite_vertex. intros Ha Hb.
  apply andb_prop in Ha. destruct Ha as [Hax Hay].
  apply andb_prop in Hb. destruct Hb as [Hbx Hby].
  unfold distance, length_, dot, vsub. cbn [x y].
  change (fsqrt ?u) with (SFsqrt prec32 emax32 u).
  change (fadd ?u ?v) with (SFadd prec32 emax32 u v).
  change (fmul ?u ?v) with (SFmul prec32 emax32 u v).
  change (fsub ?u ?v) with (SFsub prec32 emax32 u v).
  destruct (SFmul_self_number _ (SFsub_number (x b) (x a) Hbx Hax)) as [N1 S1].
  destruct (SFmul_self_number _ (SFsub_number (y b) (y a) Hby Hay)) as [N2 S2].
  destruct (SFadd_number prec32 emax32 _ _ N1 N2 S1 S2) as [N3 S3].
  apply SFsqrt_number; assumption.
Qed.

Lemma convert_number (prec emax : Z) (f : spec_float) :
  is_nan f = false -> is_nan (convert prec emax f) = false.
Proof.
  destruct f as [s|s| |s m e]; try discriminate; intros _; cbn [convert];
    try reflexivity.
  apply binary_normalize_number.
Qed.

Lemma nonneg_valid_is_nonneg (prec emax : Z) (f : spec_float) :
  nonneg_valid prec emax f -> nonneg f.
Proof. destruct f; cbn [nonneg_valid nonneg]; tauto. Qed.

(** A line to a point with finite coordinates keeps the numbers. *)
Lemma numbers32_line_to (polyline polyline' : Polyline spec_float spec_float)
      (q : Vertex spec_float) :
  finite_vertex q = true -> numbers32 polyline ->
  trace_line_to polyline q = Ok polyline' -> numbers32 polyline'.
Proof.
  intros Hq (Hvs & Hn & Hv & Hds). unfold trace_line_to.
  destruct (back (vertices polyline)) as [last|] eqn:E; [|discriminate].
  intros H. apply Ok_inj in H. subst polyline'.
  assert (Hlast : finite_vertex last = true).
  { destruct (back_Some_split _ _ E) as [l Hl]. rewrite Hl in Hvs.
    apply Forall_app in Hvs. destruct Hvs as [_ Hvs]. inversion Hvs. assumption. }
  pose proof (distance_number q last Hq Hlast) as Hd.
  assert (Hd' : Rounding.nonneg (distance q last))
    by exact (RoundingFacts.SFsqrt_nonneg prec32 emax32 _).
  pose proof (RoundingFacts.convert_nonneg_valid prec64 emax64 IEEETrace.prec64_pos _ Hd')
    as Hd64.
  pose proof (convert_number prec64 emax64 _ Hd) as Hn64.
  destruct (RoundingFacts.SFadd_step prec64 emax64 IEEETrace.prec64_pos _ _ Hv Hd64)
    as [Hv' _].
  destruct (SFadd_number prec64 emax64 _ _ Hn Hn64
              (nonneg_valid_is_nonneg _ _ _ Hv) (nonneg_valid_is_nonneg _ _ _ Hd64))
    as [Hn' _].
  unfold numbers32. cbn [vertices distances total_distance].
  change (dadd (total_distance polyline) (double_of_float (distance q last)))
    with (SFadd prec64 emax64 (total_distance polyline)
                (convert prec64 emax64 (distance q last))).
  set (total := SFadd prec64 emax64 _ _) in *.
  change (float_of_double total) with (convert prec32 emax32 total).
  unfold emplace_back.
  split; [apply Forall_app; split; [exact Hvs|constructor; [exact Hq|constructor]]|].
  split; [exact Hn'|]. split; [exact Hv'|].
  apply Forall_app. split; [exact Hds|].
  constructor; [apply convert_number; exact Hn'|constructor].
Qed.

Lemma numbers32_commands (resolution : nat) (cs : list (PathCommand spec_float)) :
  forallb polygon_command cs = true ->
  forall polyline polyline' : Polyline spec_float spec_float,
    numbers32 polyline ->
    foldM (trace_command resolution) cs polyline = Ok polyline' ->
    numbers32 polyline'.
Proof.
  induction cs as [|c cs IH]; intros Hcs polyline polyline' Hn.
  - intros H. apply Ok_inj in H. subst polyline'. exact Hn.
  - cbn [forallb] in Hcs. apply andb_prop in Hcs. destruct Hcs as [Hc Hcs].
    cbn [foldM]. destruct (trace_command resolution polyline c) as [q|] eqn:Eq;
      [|discriminate].
    cbn [bind]. apply (IH Hcs).
    unfold polygon_command in Hc. unfold trace_command in Eq.
    destruct (type c); try discriminate Hc.
    + apply Ok_inj in Eq. subst q. destruct Hn as (Hvs & Hn & Hv & Hds).
      unfold numbers32, trace_move_to, emplace_back.
      cbn [vertices distances total_distance].
      split; [apply Forall_app; split; [exact Hvs|constructor; [exact Hc|constructor]]|].
      split; [exact Hn|]. split; [exact Hv|].
      apply Forall_app. split; [exact Hds|]. constructor; [reflexivity|constructor].
    + exact (numbers32_line_to _ _ _ Hc Hn Eq).
    + unfold trace_close_path in Eq.
      destruct (front (vertices polyline)) as [first|] eqn:Ef; [|discriminate].
      refine (numbers32_line_to _ _ first _ Hn Eq).
      destruct Hn as (Hvs & _). destruct (vertices polyline) as [|v vs];
        [discriminate Ef|].
      injection Ef as <-. inversion Hvs. assumption.
Qed.
End Numbers.

(** X11.  In binary32, along a polygon (sub-paths of [eMoveTo],
    [eLineTo] and [eClosePath] commands) whose points have finite
    coordinates, the tracer stores no NaN, and the distances of every
    polyline never decrease: overflow gives an infinity, which stays. *)
Theorem X11_polygon_distances :
  forall (self self' : le_path_o spec_float spec_float),
    wf_path self = true ->
    forallb (fun s => forallb polygon_command (commands s)) (subpaths self) = true ->
    le_path_trace_path self = Ok self' ->
    Forall (fun polyline =>
              forallb (fun d => negb (IEEE.is_nan d)) (distances polyline) = true
              /\ IEEE.nondecreasingb (distances polyline) = true)
           (polylines self').
Proof.
  intros self self' Hwf Hpoly. unfold le_path_trace_path.
  destruct (mapM _ _) as [pls|] eqn:Erun; [|discriminate].
  cbn [bind]. intros H. apply Ok_inj in H. subst self'. cbn [polylines].
  apply Forall_forall. intros pl Hpl.
  destruct (mapM_In _ _ _ _ _ Erun pl Hpl) as (s & Hs & Hrun).
  unfold wf_path in Hwf. rewrite forallb_forall in Hwf, Hpoly.
  assert (Hnan : forallb (fun d => negb (IEEE.is_nan d)) (distances pl) = true).
  { pose proof (trace_subpath_commands _ _ _ Hrun) as Hfold.
    apply (Numbers.numbers32_commands _ _ (Hpoly s Hs)) in Hfold.
    - destruct Hfold as (_ & _ & _ & Hds). apply forallb_forall. intros d Hd.
      rewrite Forall_forall in Hds. rewrite (Hds d Hd). reflexivity.
    - unfold numbers32, Polyline_new. cbn.
      split; [constructor|]. split; [reflexivity|]. split; [exact I|constructor]. }
  split; [exact Hnan|].
  exact (IEEETrace.trace_subpath_nondecreasing32 trace_resolution s pl (Hwf s Hs)
           Hrun Hnan).
Qed.

(** The closed triangle with sides 5, 5 and 8, traced in binary32. *)
Lemma X11_witness :
  exists self' : le_path_o spec_float spec_float,
    le_path_trace_path (Paths.path_of Paths.closed_triangle) = Ok self'
    /\ Forall (fun polyline =>
                 forallb (fun d => negb (IEEE.is_nan d)) (distances polyline) = true
                 /\ IEEE.nondecreasingb (distances polyline) = true)
              (polylines self').
Proof.
  set (self := Paths.path_of Paths.closed_triangle).
  set (self' := match le_path_trace_path self with
                | Ok traced => traced
                | Err _ => self
                end).
  assert (Hrun : le_path_trace_path self = Ok self') by (vm_compute; reflexivity).
  exists self'. split; [exact Hrun|].
  exact (X11_polygon_distances self self' eq_refl eq_refl Hrun).
Defined.

(** ** Horizontal and vertical lines on the paths of the interface *)

(** X5.  On a path made through the interface that has a sub-path,
    [le_path_line_horiz_to] and [le_path_line_vert_to] never fault.  When
    the last command [c] of the last sub-path is not [eClosePath], each
    appends exactly one [eLineTo] to that sub-path, to [(px, y (p c))] and
    to [(x (p c), py)], and leaves the error stream as it was; when it is
    [eClosePath], each returns the path as it was and writes one
    warning. *)
Theorem X5_horizontal_and_vertical_lines_return :
  forall (F D : Type) (A : Arith F D) (strtof : string -> F * nat)
         (self : le_path_o F D) (px py : F) (err : Stderr),
    built strtof self ->
    subpaths self <> [] ->
    exists (l : list (SubPath F)) (s : SubPath F) (c : PathCommand F),
      subpaths self = l ++ [s]
      /\ back (commands s) = Some c
      /\ ((type c <> eClosePath
           /\ le_path_line_horiz_to self px err
              = Ok (with_subpaths self
                      (l ++ [ {| commands :=
                                   commands s
                                   ++ [command1 eLineTo {| x := px; y := y (p c) |}] |} ]),
                    err)
           /\ le_path_line_vert_to self py err
              = Ok (with_subpaths self
                      (l ++ [ {| commands :=
                                   commands s
                                   ++ [command1 eLineTo {| x := x (p c); y := py |}] |} ]),
                    err))
          \/ (type c = eClosePath
              /\ le_path_line_horiz_to self px err = Ok (self, err ++ [warning_relative])
              /\ le_path_line_vert_to self py err = Ok (self, err ++ [warning_relative]))).
Proof.
  intros F D A strtof self px py err Hb Hne.
  pose proof (built_wf strtof self Hb) as Hwf.
  destruct (exists_last Hne) as (l & s & Hl).
  assert (Hs : wf_subpath s = true).
  { unfold wf_path in Hwf. rewrite forallb_forall in Hwf. apply Hwf.
    rewrite Hl. apply in_or_app. right. left. reflexivity. }
  destruct (wf_subpath_inv s Hs) as (m & rest & Hcs & Hm & Hrest).
  assert (Hc : exists c, back (commands s) = Some c).
  { destruct (back (commands s)) as [c|] eqn:E; [exists c; reflexivity|].
    apply back_None in E. rewrite E in Hcs. discriminate Hcs. }
  destruct Hc as [c Hc].
  assert (Hknown : type c <> eUnknown).
  { pose proof (IEEETrace.back_In _ _ _ Hc) as Hin. rewrite Hcs in Hin.
    destruct Hin as [<-|Hin]; [rewrite Hm; discriminate|].
    rewrite forallb_forall in Hrest. specialize (Hrest c Hin).
    unfold is_drawing in Hrest. destruct (type c); discriminate. }
  assert (Hlast : last_command self = Ok c).
  { apply (last_command_spec self s c); [|exact Hc].
    rewrite Hl. apply (back_emplace_back l s). }
  assert (Hline : forall q,
             le_path_line_to self q
             = Ok (with_subpaths self
                     (l ++ [ {| commands := commands s ++ [command1 eLineTo q] |} ]))).
  { intros q. unfold le_path_line_to. rewrite (append_checked_snoc self l s _ Hl).
    reflexivity. }
  exists l, s, c. split; [exact Hl|]. split; [exact Hc|].
  unfold le_path_line_horiz_to, le_path_line_vert_to, le_path_get_previous_p,
    io_bind, io_lift, io_ret, fprintf_stderr.
  rewrite Hlast.
  destruct (type c) eqn:Et;
    try (left; split; [discriminate|]; rewrite !Hline; split; reflexivity);
    try (exfalso; apply Hknown; reflexivity).
  right. split; [reflexivity|]. split; reflexivity.
Qed.

(** After "M 1,2 L 3,4" in binary32 a horizontal line to 5 is appended:
    the last command becomes a line to (5, 4), and nothing is written to
    the error stream. *)
Lemma X5_witness :
  exists (self self' : le_path_o spec_float spec_float),
    built IEEE.strtof self
    /\ le_path_line_horiz_to self (IEEE.of_Z 5) [] = Ok (self', [])
    /\ last_command self' = Ok (command1 eLineTo (IEEE.vertex 5 4)).
Proof.
  set (r := match le_path_add_from_simplified_svg IEEE.strtof
                    (le_path_create : le_path_o spec_float spec_float)
                    "M 1,2 L 3,4" [] with
            | Ok st => st
            | Err _ => (le_path_create, [])
            end).
  assert (Hb : built IEEE.strtof (fst r)).
  { apply (@built_add_from_simplified_svg _ _ _ IEEE.strtof le_path_create
             "M 1,2 L 3,4" [] (fst r) (snd r)); [apply built_create|].
    vm_compute. reflexivity. }
  destruct (X5_horizontal_and_vertical_lines_return _ _ IEEE.arith IEEE.strtof (fst r)
              (IEEE.of_Z 5) (IEEE.of_Z 5) [] Hb ltac:(vm_compute; discriminate))
    as (l & s & c & Hl & Hc & H).
  assert (Hlast : last_command (fst r) = Ok c).
  { apply (last_command_spec (fst r) s c); [|exact Hc].
    rewrite Hl. apply (back_emplace_back l s). }
  assert (Hc34 : c = command1 eLineTo (IEEE.vertex 3 4)).
  { assert (H34 : last_command (fst r) = Ok (command1 eLineTo (IEEE.vertex 3 4)))
      by (vm_compute; reflexivity).
    rewrite H34 in Hlast. apply Ok_inj in Hlast. symmetry. exact Hlast. }
  destruct H as [(_ & Hh & _)|(Ht & _)]; [|rewrite Hc34 in Ht; discriminate Ht].
  exists (fst r). eexists. split; [exact Hb|]. split; [exact Hh|].
  rewrite Hc34.
  apply (last_command_spec _ {| commands :=
                                  commands s
                                  ++ [command1 eLineTo
                                        {| x := IEEE.of_Z 5;
                                           y := y (p (command1 eLineTo (IEEE.vertex 3 4))) |}] |}).
  - apply (back_emplace_back l).
  - apply (back_emplace_back (commands s)).
Defined.
